(** * WAVM: interned IR types and the WAST printer

    A shallow embedding of [Include/IR/Types.h] and [Source/WAST/Print.cpp].

    Conventions of the embedding:
    - [std::string] is [string], a [char] is an [ascii]; a [std::vector<U8>]
      is a [list byte];
    - [Uptr], [U32] and [U8] values are [N] (or [Z] where the source computes on
      a promoted [int]), with the wrap-around of the machine operation written
      at the operation;
    - a [HashSet<std::string>] is a [gset string], a [HashMap<std::string, Uptr>]
      is a [gmap string N]; a [std::vector] is a [list], in storage order;
    - a computation that can end in [Errors::unreachable]/[errorUnless], in an
      access outside the bounds of a vector, or in a thrown
      [FatalSerializationException] returns an [Outcome]. *)

From Stdlib Require Import ZArith NArith Ascii String List.
From Stdlib Require Import Strings.Byte.
From stdpp Require Import base tactics option list gmap strings pretty.

#[local] Set Warnings "-clear-no-such-hyp".

Local Open Scope N_scope.

(** ** Machine integers *)

Definition Uptr_modulus : N := 2 ^ 64.
Definition U32_modulus : N := 2 ^ 32.

(** [++x] and [--x] on a [Uptr], and [x * y] computed in [Uptr]. *)
Definition Uptr_incr (x : N) : N := (x + 1) mod Uptr_modulus.
Definition Uptr_decr (x : N) : N := (x + (Uptr_modulus - 1)) mod Uptr_modulus.
Definition Uptr_mul (x y : N) : N := (x * y) mod Uptr_modulus.
Definition Uptr_sub (x y : N) : N := (x + (Uptr_modulus - y mod Uptr_modulus)) mod Uptr_modulus.

(** ** Outcomes of a computation *)

Inductive Outcome (A : Type) : Type :=
| Ok (a : A)        (* normal completion *)
| Fatal             (* Errors::unreachable, errorUnless: the process is aborted *)
| Undefined         (* an access outside a vector, a shift past the width of int *)
| OutOfFuel.        (* the bound given to a loop of the model was too small *)
Arguments Ok {A} a.
Arguments Fatal {A}.
Arguments Undefined {A}.
Arguments OutOfFuel {A}.

Global Instance Outcome_ret : MRet Outcome := λ A a, Ok a.
Global Instance Outcome_bind : MBind Outcome := λ A B k m,
  match m with
  | Ok a => k a
  | Fatal => Fatal
  | Undefined => Undefined
  | OutOfFuel => OutOfFuel
  end.

(** [v[i]] on a [std::vector]: defined only for [i < v.size()]. *)
Definition vector_at {A} (v : list A) (i : N) : Outcome A :=
  if i <? N.of_nat (length v)
  then match v !! N.to_nat i with Some x => Ok x | None => Undefined end
  else Undefined.

(** ** Characters *)

Definition char_newline : ascii := ascii_of_N 10.   (* the newline, \n *)
Definition char_quote : ascii := ascii_of_N 34.     (* the double quote *)
Definition char_backslash : ascii := ascii_of_N 92. (* the backslash *)
Definition char_space : ascii := ascii_of_N 32.     (* the space *)
Definition char_nul : ascii := ascii_of_N 0.        (* the terminator, \0 *)

(** The value of a [char] in an expression. Whether [char] is signed is left
    to the implementation; [char_is_signed] says which one it is. *)
Definition char_value (char_is_signed : bool) (c : ascii) : Z :=
  let n := Z.of_N (N_of_ascii c) in
  if char_is_signed && (128 <=? n)%Z then (n - 256)%Z else n.

(** The conversion of an [int] to [U8] and to [char]. *)
Definition U8_of_int (z : Z) : Z := (z mod 256)%Z.
Definition char_of_int (z : Z) : ascii := ascii_of_N (Z.to_N (z mod 256)).

Definition string_of_char (c : ascii) : string := String c "".

(** [std::string(n, c)] *)
Fixpoint string_repeat (n : nat) (c : ascii) : string :=
  match n with
  | O => ""
  | S n' => String c (string_repeat n' c)
  end.

(** The macros [INDENT_STRING], the bytes E0 01, and [DEDENT_STRING], the
    bytes E0 02. *)
Definition INDENT_STRING : string := String (ascii_of_N 224) (String (ascii_of_N 1) "").
Definition DEDENT_STRING : string := String (ascii_of_N 224) (String (ascii_of_N 2) "").

(** String literals of the source that hold an escape. *)
Definition nl (s : string) : string := String char_newline s.   (* \n followed by s *)

(** ** [nibbleToHexChar] and [escapeString] *)

Definition nibbleToHexChar (value : Z) : ascii :=
  if (value <? 10)%Z
  then char_of_int (char_value false "0" + value)
  else char_of_int (char_value false "a" + value - 10).

Section EscapeString.
Variable char_is_signed : bool.

(** One iteration of the loop of [escapeString]: the text added to [result]
    for the character [c]. *)
Definition escapeChar (c : ascii) : string :=
  let v := char_value char_is_signed c in
  if Ascii.eqb c char_backslash then String char_backslash (String char_backslash "")
  else if Ascii.eqb c char_quote then String char_backslash (String char_quote "")
  else if Ascii.eqb c char_newline then String char_backslash "n"
  else if ((v <? 32) || (126 <? v))%Z
  then String char_backslash
         (String (nibbleToHexChar (U8_of_int (Z.shiftr (Z.land v 240) 4)))
            (String (nibbleToHexChar (U8_of_int (Z.shiftr (Z.land v 15) 0))) ""))
  else string_of_char c.

(** [escapeString(string, numChars)], with the [numChars] characters at
    [string] given as [s]. *)
Fixpoint escapeString_from (s : string) (result : string) : string :=
  match s with
  | EmptyString => result
  | String c rest => escapeString_from rest (result +:+ escapeChar c)
  end.

Definition escapeString (s : string) : string := escapeString_from s "".
End EscapeString.

(** ** [expandIndentation] *)

(** The loop of [expandIndentation]. [next] holds the characters of
    [paddedInput] from [next] up to [end]; the character read as [next[1]] at
    the last of them is the terminator that was appended. *)
Fixpoint expandIndentation_loop (spacesPerIndentLevel : N) (next : string)
    (indentDepth : N) (result : string) : Outcome string :=
  match next with
  | EmptyString => Ok result
  | String c0 rest =>
      (* next[1], and the characters from next + 2 *)
      let c1 := match rest with String c _ => c | EmptyString => char_nul end in
      let rest2 := match rest with String _ r => r | EmptyString => rest end in
      if Ascii.eqb c0 (ascii_of_N 224) && Ascii.eqb c1 (ascii_of_N 1) then
        expandIndentation_loop spacesPerIndentLevel rest2 (Uptr_incr indentDepth) result
      else if Ascii.eqb c0 (ascii_of_N 224) && Ascii.eqb c1 (ascii_of_N 2) then
        if 0 <? indentDepth
        then expandIndentation_loop spacesPerIndentLevel rest2 (Uptr_decr indentDepth) result
        else Fatal
      else if Ascii.eqb c0 char_newline then
        expandIndentation_loop spacesPerIndentLevel rest indentDepth
          (result +:+ string_of_char char_newline
             +:+ string_repeat (N.to_nat (Uptr_mul indentDepth spacesPerIndentLevel)) char_space)
      else
        expandIndentation_loop spacesPerIndentLevel rest indentDepth (result +:+ string_of_char c0)
  end.

Definition expandIndentation (inString : string) (spacesPerIndentLevel : N) : Outcome string :=
  expandIndentation_loop spacesPerIndentLevel inString 0 "".

(** The call of [WAST::print]: [spacesPerIndentLevel] has its default, 2. *)
Definition expandIndentation_default (inString : string) : Outcome string :=
  expandIndentation inString 2.

(** ** [NameScope] *)

(** [HashSet::add]: inserts the element and says whether it was absent.
    [HashMap::getOrAdd]: the value stored at the key, after storing the given
    one if the key was absent. (Both containers come from [Inline/HashSet.h]
    and [Inline/HashMap.h].) *)
Definition HashSet_add (x : string) (s : gset string) : bool * gset string :=
  (bool_decide (x ∉ s), {[ x ]} ∪ s).

Definition HashMap_getOrAdd (k : string) (v : N) (m : gmap string N) : N * gmap string N :=
  match m !! k with
  | Some v' => (v', m)
  | None => (v, <[ k := v ]> m)
  end.

Record NameScope := mkNameScope {
  sigil : ascii;
  nameSet : gset string;
  nameToUniqueIndexMap : gmap string N
}.

(** The constructor; [estimatedNumElements] only sizes the hash set. *)
Definition NameScope_new (inSigil : ascii) (estimatedNumElements : N) : NameScope :=
  mkNameScope inSigil ∅ ∅.

(** The [do ... while(!nameSet.add(name))] loop of [NameScope::map], run for at
    most [fuel] iterations. It returns the name it stops at, the counter and the
    set. *)
Fixpoint NameScope_map_loop (fuel : nat) (baseName : string)
    (numPrecedingDuplicates : N) (names : gset string) : Outcome (string * N * gset string) :=
  match fuel with
  | O => OutOfFuel
  | S fuel' =>
      let name := baseName +:+ pretty numPrecedingDuplicates in
      let count := Uptr_incr numPrecedingDuplicates in
      let '(added, names') := HashSet_add name names in
      if added then Ok (name, count, names')
      else NameScope_map_loop fuel' baseName count names'
  end.

(** [NameScope::map]: the new value of [name] and the scope after the call.
    The loop gets one iteration more than there are names in the set. *)
Definition NameScope_map (scope : NameScope) (name : string) : Outcome (string * NameScope) :=
  let baseName := if (String.length name =? 0)%nat then name else name +:+ "_" in
  let '(taken, names1) :=
    if (String.length name =? 0)%nat then (true, nameSet scope)
    else let '(added, names') := HashSet_add name (nameSet scope) in (negb added, names') in
  if taken then
    let '(count0, map1) := HashMap_getOrAdd name 0 (nameToUniqueIndexMap scope) in
    '(name', count, names2) ← NameScope_map_loop (S (size names1)) baseName count0 names1;
    Ok (String (sigil scope) name',
        mkNameScope (sigil scope) names2 (<[ name := count ]> map1))
  else
    Ok (String (sigil scope) name,
        mkNameScope (sigil scope) names1 (nameToUniqueIndexMap scope)).

(** [for(auto& name : names) { scope.map(name); }] *)
Fixpoint NameScope_map_all (scope : NameScope) (names : list string)
    : Outcome (list string * NameScope) :=
  match names with
  | [] => Ok ([], scope)
  | name :: rest =>
      '(name', scope') ← NameScope_map scope name;
      '(rest', scope'') ← NameScope_map_all scope' rest;
      Ok (name' :: rest', scope'')
  end.

(** ** [IR::ValueType], [IR::TypeTuple], [IR::FunctionType] *)

Module IR.

Inductive ValueType := any | i32 | i64 | f32 | f64 | v128.

Global Instance ValueType_eq_dec : EqDecision ValueType.
Proof. solve_decision. Defined.

Definition getTypeByteWidth (type : ValueType) : Outcome N :=
  match type with
  | i32 => Ok 4
  | i64 => Ok 8
  | f32 => Ok 4
  | f64 => Ok 8
  | v128 => Ok 16
  | any => Fatal
  end.

Definition getTypeBitWidth (type : ValueType) : Outcome N :=
  w ← getTypeByteWidth type; Ok ((w * 8) mod 256).

Definition asString (type : ValueType) : string :=
  match type with
  | any => "any"
  | i32 => "i32"
  | i64 => "i64"
  | f32 => "f32"
  | f64 => "f64"
  | v128 => "v128"
  end.

(** A pointer is the address it holds. *)
Definition pointer := N.

(** [TypeTuple::Impl] and the handle [TypeTuple], whose only member is the
    pointer [impl]. *)
Record TypeTupleImpl := mkTypeTupleImpl {
  tuple_hash : N;
  numElems : N;
  elems : list ValueType
}.

Record TypeTuple := mkTypeTuple { tuple_impl : pointer }.

(** [operator==] and [operator!=] of [TypeTuple] *)
Definition TypeTuple_eq (left right : TypeTuple) : bool :=
  tuple_impl left =? tuple_impl right.
Definition TypeTuple_ne (left right : TypeTuple) : bool :=
  negb (tuple_impl left =? tuple_impl right).

(** [FunctionType::Impl], the handle [FunctionType] and [FunctionType::Encoding] *)
Record FunctionTypeImpl := mkFunctionTypeImpl {
  function_hash : N;
  results : TypeTuple;
  params : TypeTuple
}.

Record FunctionType := mkFunctionType { function_impl : pointer }.

Record Encoding := mkEncoding { encoding_impl : N }.

(** [reinterpret_cast] between [const Impl*] and [Uptr] keeps the address. *)
Definition FunctionType_of_Encoding (encoding : Encoding) : FunctionType :=
  mkFunctionType (encoding_impl encoding).

Definition getEncoding (f : FunctionType) : Encoding :=
  mkEncoding (function_impl f).

Definition FunctionType_eq (left right : FunctionType) : bool :=
  function_impl left =? function_impl right.
Definition FunctionType_ne (left right : FunctionType) : bool :=
  negb (function_impl left =? function_impl right).

(** *** [asString] of a tuple and of a signature

    [asString(TypeTuple)] reads the tuple through [size()] and [operator[]]; the
    tuple is given by its sequence. *)

(** The loop over [elementIndex], from [elementIndex] on. *)
Fixpoint asString_elements (elementIndex : N) (tupleElems : list ValueType) (result : string)
    : string :=
  match tupleElems with
  | [] => result
  | elem :: rest =>
      let result1 := if elementIndex =? 0 then result else result +:+ ", " in
      asString_elements (elementIndex + 1) rest (result1 +:+ asString elem)
  end.

Definition asString_TypeTuple (tupleElems : list ValueType) : string :=
  match tupleElems with
  | [elem] => asString elem
  | _ => asString_elements 0 tupleElems "(" +:+ ")"
  end.

(** [asString(const FunctionType&)], from the sequences of its two tuples. *)
Definition asString_FunctionType (paramElems resultElems : list ValueType) : string :=
  asString_TypeTuple paramElems +:+ "->" +:+ asString_TypeTuple resultElems.

(** *** [SizeConstraints], [TableType], [MemoryType], [GlobalType] *)

Definition UINT64_MAX : N := 2 ^ 64 - 1.

Record SizeConstraints := mkSizeConstraints { size_min : N; size_max : N }.

Definition SizeConstraints_eq (left right : SizeConstraints) : bool :=
  (size_min left =? size_min right) && (size_max left =? size_max right).
Definition SizeConstraints_ne (left right : SizeConstraints) : bool :=
  negb (size_min left =? size_min right) || negb (size_max left =? size_max right).
(** [isSubset(super, sub)] *)
Definition SizeConstraints_isSubset (super sub : SizeConstraints) : bool :=
  (size_min super <=? size_min sub) && (size_max sub <=? size_max super).

Definition asString_SizeConstraints (sizeConstraints : SizeConstraints) : string :=
  pretty (size_min sizeConstraints)
    +:+ (if size_max sizeConstraints =? UINT64_MAX
         then ".."
         else ".." +:+ pretty (size_max sizeConstraints)).

(** [TableElementType] has the one value [anyfunc]. *)
Inductive TableElementType := anyfunc.

Definition TableElementType_eqb (left right : TableElementType) : bool := true.

Record TableType := mkTableType {
  elementType : TableElementType;
  table_isShared : bool;
  table_size : SizeConstraints
}.

Definition TableType_eq (left right : TableType) : bool :=
  TableElementType_eqb (elementType left) (elementType right)
  && Bool.eqb (table_isShared left) (table_isShared right)
  && SizeConstraints_eq (table_size left) (table_size right).
Definition TableType_ne (left right : TableType) : bool :=
  negb (TableElementType_eqb (elementType left) (elementType right))
  || negb (Bool.eqb (table_isShared left) (table_isShared right))
  || SizeConstraints_ne (table_size left) (table_size right).
Definition TableType_isSubset (super sub : TableType) : bool :=
  TableElementType_eqb (elementType super) (elementType sub)
  && Bool.eqb (table_isShared super) (table_isShared sub)
  && SizeConstraints_isSubset (table_size super) (table_size sub).

Definition asString_TableType (tableType : TableType) : string :=
  asString_SizeConstraints (table_size tableType)
    +:+ (if table_isShared tableType then " shared anyfunc" else " anyfunc").

Record MemoryType := mkMemoryType {
  memory_isShared : bool;
  memory_size : SizeConstraints
}.

Definition MemoryType_eq (left right : MemoryType) : bool :=
  Bool.eqb (memory_isShared left) (memory_isShared right)
  && SizeConstraints_eq (memory_size left) (memory_size right).
Definition MemoryType_ne (left right : MemoryType) : bool :=
  negb (Bool.eqb (memory_isShared left) (memory_isShared right))
  || SizeConstraints_ne (memory_size left) (memory_size right).
Definition MemoryType_isSubset (super sub : MemoryType) : bool :=
  Bool.eqb (memory_isShared super) (memory_isShared sub)
  && SizeConstraints_isSubset (memory_size super) (memory_size sub).

Definition asString_MemoryType (memoryType : MemoryType) : string :=
  asString_SizeConstraints (memory_size memoryType)
    +:+ (if memory_isShared memoryType then " shared" else "").

Record GlobalType := mkGlobalType { valueType : ValueType; isMutable : bool }.

Definition GlobalType_eq (left right : GlobalType) : bool :=
  bool_decide (valueType left = valueType right) && Bool.eqb (isMutable left) (isMutable right).
Definition GlobalType_ne (left right : GlobalType) : bool :=
  negb (bool_decide (valueType left = valueType right))
  || negb (Bool.eqb (isMutable left) (isMutable right)).
(** [operator<=] and [operator>] of [GlobalType] *)
Definition GlobalType_le (left right : GlobalType) : bool :=
  bool_decide (valueType left = valueType right) && Bool.eqb (isMutable left) (isMutable right).
Definition GlobalType_gt (left right : GlobalType) : bool := negb (GlobalType_le left right).

Definition asString_GlobalType (globalType : GlobalType) : string :=
  if isMutable globalType
  then "global " +:+ asString (valueType globalType)
  else "immutable " +:+ asString (valueType globalType).

Record ExceptionType := mkExceptionType { exception_params : TypeTuple }.

Definition ExceptionType_eq (left right : ExceptionType) : bool :=
  TypeTuple_eq (exception_params left) (exception_params right).
Definition ExceptionType_ne (left right : ExceptionType) : bool :=
  TypeTuple_ne (exception_params left) (exception_params right).

(** *** [ObjectKind] *)

Inductive ObjectKind :=
| kind_function | kind_table | kind_memory | kind_global | kind_exceptionType | kind_invalid.

Global Instance ObjectKind_eq_dec : EqDecision ObjectKind.
Proof. solve_decision. Defined.

(** *** The interner

    [TypeTuple::getUniqueImpl] and [FunctionType::getUniqueImpl] are declared
    in [Types.h]; their bodies are not in these sources. *)
Section Interner.
(** The structural hash of a sequence, and the hash of a signature from
    the hashes of its two tuples (from [Inline/Hash.h]). *)
Variable hashElems : list ValueType → N.
Variable hashCombine : N → N → N.

(** The process-wide state: the allocations made so far for each of the two
    kinds, and the two tables of canonical handles. Nothing is ever removed
    from it. *)
Record TypeInterner := mkTypeInterner {
  tupleHeap : gmap pointer TypeTupleImpl;
  uniqueTypeTupleSet : list TypeTuple;
  functionHeap : gmap pointer FunctionTypeImpl;
  uniqueFunctionTypeSet : list FunctionType
}.

Definition TypeInterner_empty : TypeInterner := mkTypeInterner ∅ [] ∅ [].

(** A table entry matches when its hash and its contents do. *)
Definition tupleMatches (st : TypeInterner) (h : N) (inElems : list ValueType)
    (t : TypeTuple) : bool :=
  match tupleHeap st !! tuple_impl t with
  | Some impl => (tuple_hash impl =? h) && bool_decide (elems impl = inElems)
  | None => false
  end.

(** Modelled from the spec: the body of [TypeTuple::getUniqueImpl] is not in
    the sources. It looks up a canonical allocation with identical
    contents by structural hash; if absent, it allocates storage for the
    sequence and inserts it. The whole call runs under the registry's lock,
    so it is one step on the state. *)
Definition TypeTuple_getUniqueImpl (st : TypeInterner) (inElems : list ValueType)
    : TypeTuple * TypeInterner :=
  let h := hashElems inElems in
  match List.find (tupleMatches st h inElems) (uniqueTypeTupleSet st) with
  | Some t => (t, st)
  | None =>
      let p : pointer := fresh (dom (tupleHeap st)) in
      let impl := mkTypeTupleImpl h (N.of_nat (length inElems)) inElems in
      (mkTypeTuple p,
       mkTypeInterner (<[ p := impl ]> (tupleHeap st))
         (uniqueTypeTupleSet st ++ [mkTypeTuple p])
         (functionHeap st) (uniqueFunctionTypeSet st))
  end.

Definition functionMatches (st : TypeInterner) (h : N) (inResults inParams : TypeTuple)
    (f : FunctionType) : bool :=
  match functionHeap st !! function_impl f with
  | Some impl =>
      (function_hash impl =? h)
      && TypeTuple_eq (results impl) inResults && TypeTuple_eq (params impl) inParams
  | None => false
  end.

Definition tupleHashOf (st : TypeInterner) (t : TypeTuple) : N :=
  match tupleHeap st !! tuple_impl t with
  | Some impl => tuple_hash impl
  | None => 0
  end.

(** Modelled from the spec: the body of [FunctionType::getUniqueImpl] is not
    in the sources. It composes two canonical TypeTuple identities; the hash
    combines both sub-hashes and their order; the entry is looked up and, if
    absent, allocated and inserted, as for tuples. *)
Definition FunctionType_getUniqueImpl (st : TypeInterner) (inResults inParams : TypeTuple)
    : FunctionType * TypeInterner :=
  let h := hashCombine (tupleHashOf st inResults) (tupleHashOf st inParams) in
  match List.find (functionMatches st h inResults inParams) (uniqueFunctionTypeSet st) with
  | Some f => (f, st)
  | None =>
      let p : pointer := fresh (dom (functionHeap st)) in
      let impl := mkFunctionTypeImpl h inResults inParams in
      (mkFunctionType p,
       mkTypeInterner (tupleHeap st) (uniqueTypeTupleSet st)
         (<[ p := impl ]> (functionHeap st))
         (uniqueFunctionTypeSet st ++ [mkFunctionType p]))
  end.

(** The constructors [TypeTuple(const std::vector<ValueType>&)] and
    [FunctionType(TypeTuple inResults, TypeTuple inParams)]. *)
Definition TypeTuple_make := TypeTuple_getUniqueImpl.
Definition FunctionType_make := FunctionType_getUniqueImpl.

(** A signature built from two sequences: the two tuples are registered,
    then the pair. *)
Definition FunctionType_of_sequences (st : TypeInterner)
    (resultElems paramElems : list ValueType) : FunctionType * TypeInterner :=
  let '(r, st1) := TypeTuple_make st resultElems in
  let '(p, st2) := TypeTuple_make st1 paramElems in
  FunctionType_make st2 r p.

(** The accessors read through the pointer. *)
Definition TypeTuple_elems (st : TypeInterner) (t : TypeTuple) : option (list ValueType) :=
  elems <$> tupleHeap st !! tuple_impl t.
Definition FunctionType_results (st : TypeInterner) (f : FunctionType) : option TypeTuple :=
  results <$> functionHeap st !! function_impl f.
Definition FunctionType_params (st : TypeInterner) (f : FunctionType) : option TypeTuple :=
  params <$> functionHeap st !! function_impl f.

(** One registration, by any thread: a tuple from its sequence, or a signature
    from the sequences of its two tuples. The states the process can be in are
    those that registrations lead to from the empty one. *)
Inductive registration :=
| RegisterTuple (inElems : list ValueType)
| RegisterFunction (resultElems paramElems : list ValueType).

Definition register (st : TypeInterner) (r : registration) : TypeInterner :=
  match r with
  | RegisterTuple inElems => snd (TypeTuple_make st inElems)
  | RegisterFunction resultElems paramElems =>
      snd (FunctionType_of_sequences st resultElems paramElems)
  end.

Definition registerAll (st : TypeInterner) (rs : list registration) : TypeInterner :=
  fold_left register rs st.

Definition reachable (st : TypeInterner) : Prop :=
  ∃ rs, st = registerAll TypeInterner_empty rs.
End Interner.

End IR.

(** ** Printing of types *)

(** [Print.cpp] reads an interned type only through [params()], [results()],
    [size()] and [operator[]]: in the printer a [FunctionType] is given by the
    contents of its allocation, the two sequences. *)
Record FunctionSig := mkFunctionSig {
  sig_results : list IR.ValueType;
  sig_params : list IR.ValueType
}.

(** The constructor and the destructor of [ScopedTagPrinter]. *)
Definition ScopedTagPrinter_open (str : string) (tag : string) : string :=
  str +:+ "(" +:+ tag +:+ INDENT_STRING.
Definition ScopedTagPrinter_close (str : string) : string :=
  str +:+ DEDENT_STRING +:+ ")".

Definition print_ValueType (str : string) (type : IR.ValueType) : string :=
  str +:+ IR.asString type.

(** The loop [string += ' '; print(string, tuple[index]);] over a tuple. *)
Fixpoint print_elems (str : string) (types : list IR.ValueType) : string :=
  match types with
  | [] => str
  | type :: rest => print_elems (print_ValueType (str +:+ " ") type) rest
  end.

Definition print_FunctionType (str : string) (functionType : FunctionSig) : string :=
  let str1 :=
    match sig_params functionType with
    | [] => str
    | _ => ScopedTagPrinter_close
             (print_elems (ScopedTagPrinter_open str "param") (sig_params functionType))
    end in
  match sig_results functionType with
  | [] => str1
  | _ => ScopedTagPrinter_close
           (print_elems (ScopedTagPrinter_open str1 "result") (sig_results functionType))
  end.

(** [print] of the size constraints and of the types built on them. *)
Definition print_SizeConstraints (str : string) (size : IR.SizeConstraints) : string :=
  let str1 := str +:+ pretty (IR.size_min size) in
  if negb (IR.size_max size =? IR.UINT64_MAX)
  then str1 +:+ " " +:+ pretty (IR.size_max size)
  else str1.

Definition print_TableType (str : string) (type : IR.TableType) : string :=
  let str1 := print_SizeConstraints str (IR.table_size type) in
  let str2 := if IR.table_isShared type then str1 +:+ " shared" else str1 in
  str2 +:+ " anyfunc".

Definition print_MemoryType (str : string) (type : IR.MemoryType) : string :=
  let str1 := print_SizeConstraints str (IR.memory_size type) in
  if IR.memory_isShared type then str1 +:+ " shared" else str1.

Definition print_GlobalType (str : string) (type : IR.GlobalType) : string :=
  let str1 := if IR.isMutable type then str +:+ "(mut " else str in
  let str2 := print_ValueType str1 (IR.valueType type) in
  if IR.isMutable type then str2 +:+ ")" else str2.

(** [print] of an exception type, from the sequence of its [params]. *)
Definition print_ExceptionType (str : string) (paramElems : list IR.ValueType) : string :=
  print_elems str paramElems.

(** ** The names and the parts of a module that the printer reads *)

Record FunctionNames := mkFunctionNames {
  fn_name : string;
  fn_locals : list string;
  fn_labels : list string
}.

Record DisassemblyNames := mkDisassemblyNames {
  names_types : list string;
  names_functions : list FunctionNames;
  names_tables : list string;
  names_memories : list string;
  names_globals : list string;
  names_exceptionTypes : list string
}.

Inductive IndexedBlockType :=
| noParametersOrResult
| oneResult (resultType : IR.ValueType)
| functionType (index : N).

(** Modelled from the spec: [resolveBlockType] is declared outside these
    sources. The signature of a construct is resolved from an inline result
    type or from a registered FunctionType by index. *)
Definition resolveBlockType (types : list FunctionSig) (indexedType : IndexedBlockType)
    : Outcome FunctionSig :=
  match indexedType with
  | noParametersOrResult => Ok (mkFunctionSig [] [])
  | oneResult resultType => Ok (mkFunctionSig [resultType] [])
  | functionType index => vector_at types index
  end.

(** ** [FunctionPrintContext] *)

Module ControlContext.
Inductive Type_ := function | block | ifThen | ifElse | loop | try_ | catch_.

Global Instance Type_eq_dec : EqDecision Type_.
Proof. solve_decision. Defined.

Record t := mk { type : Type_; labelId : string }.
End ControlContext.

(** The members of [FunctionPrintContext]. Of [moduleContext], [module] and
    [functionDef] it has what the handlers read: the names, the types and the
    branch tables; [string] is the output string of the module context. *)
Record FunctionPrintContext := mkFunctionPrintContext {
  names : DisassemblyNames;
  module_types : list FunctionSig;
  branchTables : list (list N);
  string_ : string;
  labelNames : list string;
  localNames : list string;
  labelNameScope : NameScope;
  labelIndex : N;
  controlStack : list ControlContext.t
}.

Definition set_string (ctx : FunctionPrintContext) (s : string) : FunctionPrintContext :=
  mkFunctionPrintContext (names ctx) (module_types ctx) (branchTables ctx) s
    (labelNames ctx) (localNames ctx) (labelNameScope ctx) (labelIndex ctx) (controlStack ctx).

Definition set_label (ctx : FunctionPrintContext) (scope : NameScope) (index : N)
    : FunctionPrintContext :=
  mkFunctionPrintContext (names ctx) (module_types ctx) (branchTables ctx) (string_ ctx)
    (labelNames ctx) (localNames ctx) scope index (controlStack ctx).

Definition set_controlStack (ctx : FunctionPrintContext) (stack : list ControlContext.t)
    : FunctionPrintContext :=
  mkFunctionPrintContext (names ctx) (module_types ctx) (branchTables ctx) (string_ ctx)
    (labelNames ctx) (localNames ctx) (labelNameScope ctx) (labelIndex ctx) stack.

(** [string += s] *)
Definition emit (ctx : FunctionPrintContext) (s : string) : FunctionPrintContext :=
  set_string ctx (string_ ctx +:+ s).

(** [controlStack.back()], [controlStack.back().type = type] and
    [controlStack.pop_back()]; none is defined on an empty vector. *)
Definition controlStack_back (ctx : FunctionPrintContext) : Outcome ControlContext.t :=
  match last (controlStack ctx) with
  | Some top => Ok top
  | None => Undefined
  end.

Definition controlStack_set_back_type (ctx : FunctionPrintContext)
    (type : ControlContext.Type_) : Outcome FunctionPrintContext :=
  top ← controlStack_back ctx;
  Ok (set_controlStack ctx
        (removelast (controlStack ctx) ++ [ControlContext.mk type (ControlContext.labelId top)])).

Definition controlStack_pop_back (ctx : FunctionPrintContext) : Outcome FunctionPrintContext :=
  _ ← controlStack_back ctx;
  Ok (set_controlStack ctx (removelast (controlStack ctx))).

Definition getBranchTargetId (ctx : FunctionPrintContext) (depth : N) : Outcome string :=
  let size := N.of_nat (length (controlStack ctx)) in
  controlContext ← vector_at (controlStack ctx) (Uptr_sub (Uptr_sub size depth) 1);
  Ok (if decide (ControlContext.type controlContext = ControlContext.function)
      then pretty depth
      else ControlContext.labelId controlContext).

Definition printControlLabel (ctx : FunctionPrintContext) (labelIdBase : string)
    : Outcome (string * FunctionPrintContext) :=
  labelId0 ← (if labelIndex ctx <? N.of_nat (length (labelNames ctx))
              then vector_at (labelNames ctx) (labelIndex ctx)
              else Ok labelIdBase);
  '(labelId, scope) ← NameScope_map (labelNameScope ctx) labelId0;
  let ctx1 := emit (emit ctx " ") labelId in
  Ok (labelId, set_label ctx1 scope (Uptr_incr (labelIndex ctx))).

Definition pushControlStack (ctx : FunctionPrintContext) (type : ControlContext.Type_)
    (labelId : string) : FunctionPrintContext :=
  emit (set_controlStack ctx (controlStack ctx ++ [ControlContext.mk type labelId]))
    INDENT_STRING.

Definition printControlSignature (ctx : FunctionPrintContext) (indexedSignature : IndexedBlockType)
    : Outcome FunctionPrintContext :=
  signature ← resolveBlockType (module_types ctx) indexedSignature;
  Ok (set_string ctx (print_FunctionType (string_ ctx) signature)).

(** [enterUnreachable] has an empty body. *)
Definition enterUnreachable (ctx : FunctionPrintContext) : FunctionPrintContext := ctx.

(** *** The handlers of the operators *)

Module FunctionBodyPrinter.

Definition unknown (ctx : FunctionPrintContext) (opcode : N) : Outcome FunctionPrintContext :=
  Fatal.

Definition block (ctx : FunctionPrintContext) (imm : IndexedBlockType)
    : Outcome FunctionPrintContext :=
  '(labelId, ctx1) ← printControlLabel (emit ctx (nl "block")) "block";
  ctx2 ← printControlSignature ctx1 imm;
  Ok (pushControlStack ctx2 ControlContext.block labelId).

Definition loop (ctx : FunctionPrintContext) (imm : IndexedBlockType)
    : Outcome FunctionPrintContext :=
  '(labelId, ctx1) ← printControlLabel (emit ctx (nl "loop")) "loop";
  ctx2 ← printControlSignature ctx1 imm;
  Ok (pushControlStack ctx2 ControlContext.loop labelId).

Definition if_ (ctx : FunctionPrintContext) (imm : IndexedBlockType)
    : Outcome FunctionPrintContext :=
  '(labelId, ctx1) ← printControlLabel (emit ctx (nl "if")) "if";
  ctx2 ← printControlSignature ctx1 imm;
  Ok (pushControlStack ctx2 ControlContext.ifThen labelId).

Definition else_ (ctx : FunctionPrintContext) : Outcome FunctionPrintContext :=
  ctx1 ← controlStack_set_back_type (emit ctx DEDENT_STRING) ControlContext.ifElse;
  Ok (emit ctx1 (nl "else" +:+ INDENT_STRING)).

Definition end_ (ctx : FunctionPrintContext) : Outcome FunctionPrintContext :=
  let ctx1 := emit ctx DEDENT_STRING in
  top ← controlStack_back ctx1;
  let ctx2 :=
    if decide (ControlContext.type top ≠ ControlContext.function)
    then emit (emit ctx1 (nl "end ;; ")) (ControlContext.labelId top)
    else ctx1 in
  controlStack_pop_back ctx2.

Definition return_ (ctx : FunctionPrintContext) : Outcome FunctionPrintContext :=
  Ok (enterUnreachable (emit ctx (nl "return"))).

Definition br (ctx : FunctionPrintContext) (targetDepth : N) : Outcome FunctionPrintContext :=
  target ← getBranchTargetId ctx targetDepth;
  Ok (enterUnreachable (emit ctx (nl "br " +:+ target))).

(** The loop of [br_table] over [targetDepths], from [targetIndex] on. *)
Fixpoint br_table_targets (ctx : FunctionPrintContext) (targetIndex : N) (targetDepths : list N)
    : Outcome FunctionPrintContext :=
  match targetDepths with
  | [] => Ok ctx
  | depth :: rest =>
      let ctx1 :=
        if targetIndex mod 16 =? 0
        then emit ctx (string_of_char char_newline)
        else emit ctx " " in
      target ← getBranchTargetId ctx1 depth;
      br_table_targets (emit ctx1 target) (Uptr_incr targetIndex) rest
  end.

(** [br_table]. An index outside [functionDef.branchTables] fails the
    [wavmAssert] in a build that has assertions and is a read outside the
    vector in a build that has none: it has no defined result here. *)
Definition br_table (ctx : FunctionPrintContext) (branchTableIndex defaultTargetDepth : N)
    : Outcome FunctionPrintContext :=
  let ctx1 := emit ctx (nl "br_table" +:+ INDENT_STRING) in
  targetDepths ← vector_at (branchTables ctx1) branchTableIndex;
  ctx2 ← br_table_targets ctx1 0 targetDepths;
  let ctx3 := emit ctx2 (string_of_char char_newline) in
  target ← getBranchTargetId ctx3 defaultTargetDepth;
  Ok (enterUnreachable (emit (emit ctx3 target) (" ;; default" +:+ DEDENT_STRING))).

Definition br_if (ctx : FunctionPrintContext) (targetDepth : N) : Outcome FunctionPrintContext :=
  target ← getBranchTargetId ctx targetDepth;
  Ok (emit ctx (nl "br_if " +:+ target)).

Definition unreachable (ctx : FunctionPrintContext) : Outcome FunctionPrintContext :=
  Ok (enterUnreachable (emit ctx (nl "unreachable"))).

Definition drop (ctx : FunctionPrintContext) : Outcome FunctionPrintContext :=
  Ok (emit ctx (nl "drop")).

Definition select (ctx : FunctionPrintContext) : Outcome FunctionPrintContext :=
  Ok (emit ctx (nl "select")).

Definition get_local (ctx : FunctionPrintContext) (variableIndex : N)
    : Outcome FunctionPrintContext :=
  name ← vector_at (localNames ctx) variableIndex;
  Ok (emit ctx (nl "get_local " +:+ name)).

Definition set_local (ctx : FunctionPrintContext) (variableIndex : N)
    : Outcome FunctionPrintContext :=
  name ← vector_at (localNames ctx) variableIndex;
  Ok (emit ctx (nl "set_local " +:+ name)).

Definition tee_local (ctx : FunctionPrintContext) (variableIndex : N)
    : Outcome FunctionPrintContext :=
  name ← vector_at (localNames ctx) variableIndex;
  Ok (emit ctx (nl "tee_local " +:+ name)).

Definition get_global (ctx : FunctionPrintContext) (variableIndex : N)
    : Outcome FunctionPrintContext :=
  name ← vector_at (names_globals (names ctx)) variableIndex;
  Ok (emit ctx (nl "get_global " +:+ name)).

Definition set_global (ctx : FunctionPrintContext) (variableIndex : N)
    : Outcome FunctionPrintContext :=
  name ← vector_at (names_globals (names ctx)) variableIndex;
  Ok (emit ctx (nl "set_global " +:+ name)).

Definition call (ctx : FunctionPrintContext) (functionIndex : N)
    : Outcome FunctionPrintContext :=
  function ← vector_at (names_functions (names ctx)) functionIndex;
  Ok (emit ctx (nl "call " +:+ fn_name function)).

Definition call_indirect (ctx : FunctionPrintContext) (typeIndex : N)
    : Outcome FunctionPrintContext :=
  name ← vector_at (names_types (names ctx)) typeIndex;
  Ok (emit ctx (nl "call_indirect (type " +:+ name +:+ ")")).

Definition try_ (ctx : FunctionPrintContext) (imm : IndexedBlockType)
    : Outcome FunctionPrintContext :=
  printControlSignature (pushControlStack (emit ctx (nl "try")) ControlContext.try_ "try") imm.

Definition catch_ (ctx : FunctionPrintContext) (exceptionTypeIndex : N)
    : Outcome FunctionPrintContext :=
  ctx1 ← controlStack_set_back_type (emit ctx DEDENT_STRING) ControlContext.catch_;
  let ctx2 := emit ctx1 (nl "catch ") in
  function ← vector_at (names_functions (names ctx2)) exceptionTypeIndex;
  Ok (emit (emit ctx2 (fn_name function)) INDENT_STRING).

Definition catch_all (ctx : FunctionPrintContext) : Outcome FunctionPrintContext :=
  ctx1 ← controlStack_set_back_type (emit ctx DEDENT_STRING) ControlContext.catch_;
  Ok (emit ctx1 (nl "catch_all" +:+ INDENT_STRING)).

(** The handlers that [PRINT_OP] generates for the operators of
    [ENUM_NONCONTROL_NONPARAMETRIC_OPERATORS]. The table is in [IR/Operators.h];
    an operator of it is given here by its [nameString] and by the text that
    [printImm] adds for its immediate. The [wavmAssert] on the feature of the
    operator reads [module.featureSpec], which is not in the sources either; it
    is taken to hold. *)
Definition print_op (ctx : FunctionPrintContext) (nameString immText : string)
    : Outcome FunctionPrintContext :=
  Ok (emit (emit ctx (nl nameString)) immText).

(** *** The operators of a body and their dispatch *)

Inductive Operator :=
| op_unknown (opcode : N)
| op_block (imm : IndexedBlockType)
| op_loop (imm : IndexedBlockType)
| op_if (imm : IndexedBlockType)
| op_else
| op_end
| op_return
| op_br (targetDepth : N)
| op_br_table (branchTableIndex defaultTargetDepth : N)
| op_br_if (targetDepth : N)
| op_unreachable
| op_drop
| op_select
| op_get_local (variableIndex : N)
| op_set_local (variableIndex : N)
| op_tee_local (variableIndex : N)
| op_get_global (variableIndex : N)
| op_set_global (variableIndex : N)
| op_call (functionIndex : N)
| op_call_indirect (typeIndex : N)
| op_try (imm : IndexedBlockType)
| op_catch (exceptionTypeIndex : N)
| op_catch_all
| op_other (nameString immText : string).

(** [decoder.decodeOp]: the call of the handler of the next operator. *)
Definition decodeOp (ctx : FunctionPrintContext) (op : Operator) : Outcome FunctionPrintContext :=
  match op with
  | op_unknown opcode => unknown ctx opcode
  | op_block imm => block ctx imm
  | op_loop imm => loop ctx imm
  | op_if imm => if_ ctx imm
  | op_else => else_ ctx
  | op_end => end_ ctx
  | op_return => return_ ctx
  | op_br d => br ctx d
  | op_br_table i d => br_table ctx i d
  | op_br_if d => br_if ctx d
  | op_unreachable => unreachable ctx
  | op_drop => drop ctx
  | op_select => select ctx
  | op_get_local i => get_local ctx i
  | op_set_local i => set_local ctx i
  | op_tee_local i => tee_local ctx i
  | op_get_global i => get_global ctx i
  | op_set_global i => set_global ctx i
  | op_call i => call ctx i
  | op_call_indirect i => call_indirect ctx i
  | op_try imm => try_ ctx imm
  | op_catch i => catch_ ctx i
  | op_catch_all => catch_all ctx
  | op_other nameString immText => print_op ctx nameString immText
  end.

(** The loop [while(decoder && controlStack.size())] around [decodeOp], with
    the operators that the decoder still holds. It returns the context and the
    operators left in the decoder. *)
Fixpoint printFunctionBody_loop (ctx : FunctionPrintContext) (decoder : list Operator)
    : Outcome (FunctionPrintContext * list Operator) :=
  match decoder with
  | [] => Ok (ctx, [])
  | op :: rest =>
      if (length (controlStack ctx) =? 0)%nat then Ok (ctx, decoder)
      else ctx' ← decodeOp ctx op; printFunctionBody_loop ctx' rest
  end.

Definition printFunctionBody (ctx : FunctionPrintContext) (code : list Operator)
    : Outcome (FunctionPrintContext * list Operator) :=
  let ctx1 := emit (pushControlStack ctx ControlContext.function "") DEDENT_STRING in
  '(ctx2, rest) ← printFunctionBody_loop ctx1 code;
  Ok (emit ctx2 (INDENT_STRING +:+ string_of_char char_newline), rest).

End FunctionBodyPrinter.

(** The state that the constructor of [FunctionPrintContext] sets up, from the
    names of the function; [labelNameScope('$', 4)] and [labelIndex(0)]. *)
Definition FunctionPrintContext_new (inNames : DisassemblyNames) (types : list FunctionSig)
    (tables : list (list N)) (inString : string) (function : FunctionNames)
    : FunctionPrintContext :=
  mkFunctionPrintContext inNames types tables inString
    (fn_labels function) (fn_locals function) (NameScope_new "$" 4) 0 [].

(** ** The linking section *)

(** *** Reading from a [MemoryInputStream]

    A stream over a buffer is given by the bytes from [next] to [end]. A read
    that throws [FatalSerializationException] returns [None]. *)
Definition MemoryInputStream := list byte.

Definition capacity (stream : MemoryInputStream) : N := N.of_nat (length stream).

(** [stream.advance(numBytes)]: the bytes passed over, and the stream after. *)
Definition advance (stream : MemoryInputStream) (numBytes : N)
    : option (list byte * MemoryInputStream) :=
  if numBytes <=? capacity stream
  then Some (take (N.to_nat numBytes) stream, drop (N.to_nat numBytes) stream)
  else None.

(** [serializeNativeValue(stream, value)] for a [U8]. *)
Definition serializeNativeValue_U8 (stream : MemoryInputStream) : option (N * MemoryInputStream) :=
  '(bytes, stream') ← advance stream 1;
  match bytes with
  | [b] => Some (Byte.to_N b, stream')
  | _ => None
  end.

(** The bytes of one variable-length integer: at most [maxBytes] of them, up
    to the first one without the continuation bit. *)
Fixpoint readVarIntBytes (maxBytes : nat) (stream : MemoryInputStream)
    : option (list N * MemoryInputStream) :=
  match maxBytes with
  | O => Some ([], stream)
  | S maxBytes' =>
      '(byte, stream1) ← serializeNativeValue_U8 stream;
      if N.testbit byte 7
      then '(bytes, stream2) ← readVarIntBytes maxBytes' stream1; Some (byte :: bytes, stream2)
      else Some ([byte], stream1)
  end.

Fixpoint decodeVarIntBytes (byteIndex : N) (bytes : list N) : N :=
  match bytes with
  | [] => 0
  | byte :: rest =>
      N.lor (N.shiftl (N.land byte 127) (byteIndex * 7)) (decodeVarIntBytes (byteIndex + 1) rest)
  end.

(** Modelled from the spec: [serializeVarUInt32] comes from
    [Inline/Serialization.h], which is not in the sources. The spec calls what
    it reads an integer; it is read here as the name of the function says, as
    an unsigned LEB128 number of at most 5 bytes and 32 bits: a read past the
    end of the stream throws, and so does a fifth byte with a bit set above the
    32nd bit of the number. *)
Definition serializeVarUInt32 (stream : MemoryInputStream) : option (N * MemoryInputStream) :=
  '(bytes, stream') ← readVarIntBytes 5 stream;
  let lastByte := nth 4 bytes 0 in
  if N.ldiff lastByte 15 =? 0
  then Some (decodeVarIntBytes 0 bytes, stream')
  else None.

(** Modelled from the spec: [serialize] of a [std::string] comes from the same
    header. A name is length-prefixed: the number of its bytes, then the bytes. *)
Definition serialize_string (stream : MemoryInputStream) : option (string * MemoryInputStream) :=
  '(size, stream1) ← serializeVarUInt32 stream;
  '(bytes, stream2) ← advance stream1 size;
  Some (string_of_list_byte bytes, stream2).

(** *** The parts of the module and of the module context that are read *)

Record Import := mkImport { moduleName : string; exportName : string }.

Record UserSection := mkUserSection { section_name : string; section_data : list byte }.

(** [module.functions.imports], [module.globals.imports], [module.userSections] *)
Record Module := mkModule {
  functions_imports : list Import;
  globals_imports : list Import;
  userSections : list UserSection
}.

Record ModulePrintContext := mkModulePrintContext {
  ctx_module : Module;
  ctx_string : string;
  ctx_names : DisassemblyNames
}.

(** *** The constructor of [ModulePrintContext] *)

(** The loop over [names.functions]: the name of each function goes through
    the scope of the module, its locals through a new scope of their own. The
    labels are left as they are. *)
Fixpoint mapFunctionNames (globalNameScope : NameScope) (functions : list FunctionNames)
    : Outcome (list FunctionNames * NameScope) :=
  match functions with
  | [] => Ok ([], globalNameScope)
  | function :: rest =>
      '(name, globalNameScope1) ← NameScope_map globalNameScope (fn_name function);
      let localNameScope := NameScope_new "$" (N.of_nat (length (fn_locals function))) in
      '(locals, _) ← NameScope_map_all localNameScope (fn_locals function);
      '(rest', globalNameScope2) ← mapFunctionNames globalNameScope1 rest;
      Ok (mkFunctionNames name locals (fn_labels function) :: rest', globalNameScope2)
  end.

(** The body of the constructor, on the names that [IR::getDisassemblyNames]
    has written to [names]. *)
Definition mapDisassemblyNames (names : DisassemblyNames) : Outcome DisassemblyNames :=
  let numGlobalNames :=
    (N.of_nat (length (names_types names)) + N.of_nat (length (names_tables names))
     + N.of_nat (length (names_memories names)) + N.of_nat (length (names_globals names)))
      mod Uptr_modulus in
  let globalNameScope := NameScope_new "$" numGlobalNames in
  '(types, globalNameScope) ← NameScope_map_all globalNameScope (names_types names);
  '(tables, globalNameScope) ← NameScope_map_all globalNameScope (names_tables names);
  '(memories, globalNameScope) ← NameScope_map_all globalNameScope (names_memories names);
  '(globals, globalNameScope) ← NameScope_map_all globalNameScope (names_globals names);
  '(functions, _) ← mapFunctionNames globalNameScope (names_functions names);
  Ok (mkDisassemblyNames types functions tables memories globals (names_exceptionTypes names)).

Definition ModulePrintContext_new (inModule : Module) (inString : string)
    (names : DisassemblyNames) : Outcome ModulePrintContext :=
  names' ← mapDisassemblyNames names;
  Ok (mkModulePrintContext inModule inString names').

(** *** The state of the decoder and its monad

    The locals [linkingSectionString] and [indentDepth] live outside the [try]
    block, so the handler sees the values they have when the exception is
    thrown. *)
Record LinkingState := mkLinkingState {
  linkingSectionString : string;
  indentDepth : N
}.

Inductive Completion (A : Type) : Type :=
| Returned (a : A)
| Thrown            (* throw FatalSerializationException *)
| UndefinedRead     (* an access outside a vector, or a shift of 1 by 32 or more *)
| FuelExhausted.
Arguments Returned {A} a.
Arguments Thrown {A}.
Arguments UndefinedRead {A}.
Arguments FuelExhausted {A}.

Definition Decode (A : Type) : Type := LinkingState → Completion A * LinkingState.

Global Instance Decode_ret : MRet Decode := λ A a st, (Returned a, st).
Global Instance Decode_bind : MBind Decode := λ A B k m st,
  match m st with
  | (Returned a, st') => k a st'
  | (Thrown, st') => (Thrown, st')
  | (UndefinedRead, st') => (UndefinedRead, st')
  | (FuelExhausted, st') => (FuelExhausted, st')
  end.

Definition throw {A} : Decode A := λ st, (Thrown, st).
Definition undefined {A} : Decode A := λ st, (UndefinedRead, st).
Definition outOfFuel {A} : Decode A := λ st, (FuelExhausted, st).

(** A read from a stream inside the [try] block. *)
Definition reading {A} (r : option A) : Decode A :=
  match r with
  | Some a => mret a
  | None => throw
  end.

(** [v[i]] inside the [try] block. *)
Definition indexing {A} (v : list A) (i : N) : Decode A :=
  match vector_at v i with
  | Ok a => mret a
  | _ => undefined
  end.

(** [linkingSectionString += s] *)
Definition append (s : string) : Decode unit := λ st,
  (Returned (), mkLinkingState (linkingSectionString st +:+ s) (indentDepth st)).

(** [linkingSectionString += INDENT_STRING] and [... += DEDENT_STRING] *)
Definition appendIndent : Decode unit := append INDENT_STRING.
Definition appendDedent : Decode unit := append DEDENT_STRING.

(** [++indentDepth] and [--indentDepth] *)
Definition incrDepth : Decode unit := λ st,
  (Returned (), mkLinkingState (linkingSectionString st) (Uptr_incr (indentDepth st))).
Definition decrDepth : Decode unit := λ st,
  (Returned (), mkLinkingState (linkingSectionString st) (Uptr_decr (indentDepth st))).

(** The two statements that open a level, [linkingSectionString +=
    INDENT_STRING; ++indentDepth;], and the two that close one. *)
Definition openLevel : Decode unit := appendIndent;; incrDepth.
Definition closeLevel : Decode unit := appendDedent;; decrDepth.

(** [1 << alignment], a shift of the [int] 1 by a [Uptr]. The result is an
    [int]: below 31 the power of two, at 31 the least [int], which
    [std::to_string] prints with its sign; a shift by 32 or more is undefined. *)
Definition shiftOne (alignment : N) : Decode Z :=
  if alignment <? 31 then mret (Z.shiftl 1 (Z.of_N alignment))
  else if alignment =? 31 then mret (-2147483648)%Z
  else undefined.

(** *** [ModulePrintContext::printLinkingSection] *)

Section PrintLinkingSection.
Variable context : ModulePrintContext.

Let names := ctx_names context.
Let module := ctx_module context.

(** The loop over the segments of a [segmentInfo] subsection, for the
    [numSegments] that remain. *)
Fixpoint segmentInfo_loop (numSegments : nat) (substream : MemoryInputStream)
    : Decode MemoryInputStream :=
  match numSegments with
  | O => mret substream
  | S numSegments' =>
      '(segmentName, substream) ← reading (serialize_string substream);
      '(alignment, substream) ← reading (serializeVarUInt32 substream);
      '(flags, substream) ← reading (serializeVarUInt32 substream);
      append (string_of_char char_newline);;
      append segmentName;;
      shifted ← shiftOne alignment;
      append (" alignment=" +:+ pretty shifted);;
      append (" flags=" +:+ pretty flags);;
      segmentInfo_loop numSegments' substream
  end.

Definition segmentInfo (substream : MemoryInputStream) : Decode unit :=
  append (nl "Segments:");; openLevel;;
  '(numSegments, substream) ← reading (serializeVarUInt32 substream);
  _ ← segmentInfo_loop (N.to_nat numSegments) substream;
  closeLevel.

Fixpoint initFuncs_loop (numInitFuncs : nat) (substream : MemoryInputStream)
    : Decode MemoryInputStream :=
  match numInitFuncs with
  | O => mret substream
  | S numInitFuncs' =>
      '(functionIndex, substream) ← reading (serializeVarUInt32 substream);
      append (string_of_char char_newline);;
      (if functionIndex <? N.of_nat (length (names_functions names))
       then function ← indexing (names_functions names) functionIndex;
            append (" " +:+ fn_name function)
       else append (" <invalid function index " +:+ pretty functionIndex +:+ ">"));;
      initFuncs_loop numInitFuncs' substream
  end.

Definition initFuncs (substream : MemoryInputStream) : Decode unit :=
  append (nl "Init funcs:");; openLevel;;
  '(numInitFuncs, substream) ← reading (serializeVarUInt32 substream);
  _ ← initFuncs_loop (N.to_nat numInitFuncs) substream;
  closeLevel.

(** The [switch((COMDATKind)kind)] on one symbol of a comdat. *)
Definition comdatSymbol (kind index : N) : Decode unit :=
  match kind with
  | 0 =>
      append "data segment ";;
      append (pretty index)
  | 1 =>
      append "function ";;
      (if N.of_nat (length (names_functions names)) <=? index
       then append ("Invalid COMDAT function index " +:+ pretty index);; throw
       else mret ());;
      function ← indexing (names_functions names) index;
      append (fn_name function)
  | 2 =>
      append "global ";;
      (if N.of_nat (length (names_globals names)) <=? index
       then append ("Invalid COMDAT global index " +:+ pretty index);; throw
       else mret ());;
      name ← indexing (names_globals names) index;
      append name
  | _ =>
      append (nl "Unknown comdat kind: " +:+ pretty kind);;
      throw
  end.

Fixpoint comdatSymbols_loop (numSymbols : nat) (substream : MemoryInputStream)
    : Decode MemoryInputStream :=
  match numSymbols with
  | O => mret substream
  | S numSymbols' =>
      '(kind, substream) ← reading (serializeVarUInt32 substream);
      '(index, substream) ← reading (serializeVarUInt32 substream);
      append (nl "Symbol: ");;
      comdatSymbol kind index;;
      comdatSymbols_loop numSymbols' substream
  end.

Fixpoint comdatInfo_loop (numComdats : nat) (substream : MemoryInputStream)
    : Decode MemoryInputStream :=
  match numComdats with
  | O => mret substream
  | S numComdats' =>
      '(comdatName, substream) ← reading (serialize_string substream);
      '(flags, substream) ← reading (serializeVarUInt32 substream);
      append (string_of_char char_newline);;
      append comdatName;;
      (if flags =? 0 then mret () else append (" OtherFlags=" +:+ pretty flags));;
      openLevel;;
      '(numSymbols, substream) ← reading (serializeVarUInt32 substream);
      substream ← comdatSymbols_loop (N.to_nat numSymbols) substream;
      closeLevel;;
      comdatInfo_loop numComdats' substream
  end.

Definition comdatInfo (substream : MemoryInputStream) : Decode unit :=
  append (nl "Comdats:");; openLevel;;
  '(numComdats, substream) ← reading (serializeVarUInt32 substream);
  _ ← comdatInfo_loop (N.to_nat numComdats) substream;
  closeLevel.

(** What the first [switch(SymbolKind(kind))] of the symbol table leaves in
    [kindName], [symbolName], [index], [offset] and [numBytes]. *)
Record SymbolFields := mkSymbolFields {
  kindName : string;
  symbolName : string;
  symbol_index : N;
  symbol_offset : N;
  symbol_numBytes : N
}.

Definition importedName (import : Import) : string :=
  moduleName import +:+ "." +:+ exportName import.

Definition readSymbol (kind : N) (substream : MemoryInputStream)
    : Decode (SymbolFields * MemoryInputStream) :=
  match kind with
  | 0 =>
      '(index, substream) ← reading (serializeVarUInt32 substream);
      if index <? N.of_nat (length (functions_imports module))
      then import ← indexing (functions_imports module) index;
           mret (mkSymbolFields "function " (importedName import) index 0 0, substream)
      else '(symbolName, substream) ← reading (serialize_string substream);
           mret (mkSymbolFields "function " symbolName index 0 0, substream)
  | 2 =>
      '(index, substream) ← reading (serializeVarUInt32 substream);
      if index <? N.of_nat (length (globals_imports module))
      then import ← indexing (globals_imports module) index;
           mret (mkSymbolFields "global " (importedName import) index 0 0, substream)
      else '(symbolName, substream) ← reading (serialize_string substream);
           mret (mkSymbolFields "global " symbolName index 0 0, substream)
  | 1 =>
      '(symbolName, substream) ← reading (serialize_string substream);
      '(index, substream) ← reading (serializeVarUInt32 substream);
      '(offset, substream) ← reading (serializeVarUInt32 substream);
      '(numBytes, substream) ← reading (serializeVarUInt32 substream);
      mret (mkSymbolFields "data " symbolName index offset numBytes, substream)
  | 3 =>
      '(index, substream) ← reading (serializeVarUInt32 substream);
      if index <? N.of_nat (length (userSections module))
      then section ← indexing (userSections module) index;
           mret (mkSymbolFields "section " (section_name section) index 0 0, substream)
      else mret (mkSymbolFields "section " "*invalid index*" index 0 0, substream)
  | _ =>
      append (nl "Unknown symbol kind: " +:+ pretty kind);;
      throw
  end.

(** The second [switch(SymbolKind(kind))]: the resolved name or the index. *)
Definition printSymbolTarget (kind index : N) : Decode unit :=
  match kind with
  | 0 =>
      function ← indexing (names_functions names) index;
      append (" " +:+ fn_name function)
  | 2 =>
      name ← indexing (names_globals names) index;
      append (" " +:+ name)
  | 1 | 3 => append (" index=" +:+ pretty index)
  | _ => mret ()
  end.

(** The tests of the flag bits; [flags &= ~bit] clears the bit. *)
Definition printSymbolFlags (flags : N) : Decode unit :=
  flags ← (if N.land flags 1 =? 0 then mret flags
           else append " *WEAK*";; mret (N.ldiff flags 1));
  flags ← (if N.land flags 2 =? 0 then mret flags
           else append " *LOCAL*";; mret (N.ldiff flags 2));
  flags ← (if N.land flags 4 =? 0 then mret flags
           else append " *HIDDEN*";; mret (N.ldiff flags 4));
  flags ← (if N.land flags 16 =? 0 then mret flags
           else append " *UNDEFINED*";; mret (N.ldiff flags 16));
  if flags =? 0 then mret () else append (" OtherFlags=" +:+ pretty flags).

Fixpoint symbolTable_loop (numSymbols : nat) (substream : MemoryInputStream)
    : Decode MemoryInputStream :=
  match numSymbols with
  | O => mret substream
  | S numSymbols' =>
      '(kind, substream) ← reading (serializeNativeValue_U8 substream);
      '(flags, substream) ← reading (serializeVarUInt32 substream);
      '(symbol, substream) ← readSymbol kind substream;
      append (string_of_char char_newline);;
      append (kindName symbol);;
      append (symbolName symbol);;
      printSymbolTarget kind (symbol_index symbol);;
      (if kind =? 1
       then append (" offset=" +:+ pretty (symbol_offset symbol));;
            append (" size=" +:+ pretty (symbol_numBytes symbol))
       else mret ());;
      printSymbolFlags flags;;
      symbolTable_loop numSymbols' substream
  end.

Definition symbolTable (substream : MemoryInputStream) : Decode unit :=
  append (nl "Symbols:");; openLevel;;
  '(numSymbols, substream) ← reading (serializeVarUInt32 substream);
  _ ← symbolTable_loop (N.to_nat numSymbols) substream;
  closeLevel.

(** The [switch((LinkingSubsectionType)subsectionType)]. *)
Definition subsection (subsectionType : N) (substream : MemoryInputStream) : Decode unit :=
  match subsectionType with
  | 5 => segmentInfo substream
  | 6 => initFuncs substream
  | 7 => comdatInfo substream
  | 8 => symbolTable substream
  | _ =>
      append (nl "Unknown WASM linking subsection type: " +:+ pretty subsectionType);;
      throw
  end.

(** The loop [while(stream.capacity())], run for at most [fuel] subsections. *)
Fixpoint subsections_loop (fuel : nat) (stream : MemoryInputStream) : Decode unit :=
  if capacity stream =? 0 then mret ()
  else
    match fuel with
    | O => outOfFuel
    | S fuel' =>
        '(subsectionType, stream) ← reading (serializeNativeValue_U8 stream);
        '(numSubsectionBytes, stream) ← reading (serializeVarUInt32 stream);
        '(bytes, stream) ← reading (advance stream numSubsectionBytes);
        subsection subsectionType bytes;;
        subsections_loop fuel' stream
    end.

(** The body of the [try] block. Every subsection takes at least one byte of
    the stream, so the loop gets as many iterations as the section has bytes. *)
Definition linkingSection_try (data : list byte) : Decode unit :=
  '(version, stream) ← reading (serializeVarUInt32 data);
  append (nl "Version: " +:+ pretty version);;
  subsections_loop (length data) stream.

(** The loop [while(indentDepth > 1)] of the handler. *)
Fixpoint closeIndentation (fuel : nat) : Decode unit :=
  λ st,
    if 1 <? indentDepth st then
      match fuel with
      | O => (outOfFuel : Decode unit) st
      | S fuel' => (closeLevel;; closeIndentation fuel') st
      end
    else (mret () : Decode unit) st.

(** The handler [catch(FatalSerializationException)]. *)
Definition linkingSection_catch : Decode unit :=
  append (nl "Fatal serialization exception!");;
  (λ st, closeIndentation (N.to_nat (indentDepth st)) st) : Decode unit.

(** The locals at the start of the [try] block: [indentDepth] is 1 and
    [linkingSectionString] holds the opening of the comment. *)
Definition linkingSection_start : LinkingState :=
  ((append (nl "(; linking section:");; appendIndent) (mkLinkingState "" 1)).2.

(** The [try] block with its handler. *)
Definition linkingSection_tried (data : list byte) : Completion unit * LinkingState :=
  match linkingSection_try data linkingSection_start with
  | (Thrown, st) => linkingSection_catch st
  | other => other
  end.

(** [printLinkingSection]: the new value of [string]. The assertion
    [wavmAssert(indentDepth == 1)] aborts when it fails, in a build that has
    assertions; an exception that leaves the function is not caught by any
    caller. *)
Definition printLinkingSection (linkingSection : UserSection) : Outcome string :=
  match linkingSection_tried (section_data linkingSection) with
  | (Returned _, st) =>
      if indentDepth st =? 1
      then let st' := ((appendDedent;; append (nl ";)")) st).2 in
           Ok (ctx_string context +:+ linkingSectionString st')
      else Fatal
  | (Thrown, _) => Fatal
  | (UndefinedRead, _) => Undefined
  | (FuelExhausted, _) => OutOfFuel
  end.

End PrintLinkingSection.

(** ** The user sections in [ModulePrintContext::printModule] *)

Section PrintUserSections.
Variable char_is_signed : bool.

(** The loop [for(offset = 0; offset < data.size(); offset += numBytesPerLine)]
    over the bytes of a section, for the [numLines] lines that remain. *)
Fixpoint printSectionLines (numLines : nat) (offset : N) (data : list byte) (str : string)
    : string :=
  match numLines with
  | O => str
  | S numLines' =>
      let numChars := N.min (Uptr_sub (N.of_nat (length data)) offset) 64 in
      let chars := take (N.to_nat numChars) (drop (N.to_nat offset) data) in
      printSectionLines numLines' (offset + 64) data
        (str +:+ nl (string_of_char char_quote)
             +:+ escapeString char_is_signed (string_of_list_byte chars)
             +:+ string_of_char char_quote)
  end.

Definition set_ctx_string (context : ModulePrintContext) (str : string) : ModulePrintContext :=
  mkModulePrintContext (ctx_module context) str (ctx_names context).

(** The body of the loop over [module.userSections], for one section. *)
Definition printUserSection (context : ModulePrintContext) (userSection : UserSection)
    : Outcome ModulePrintContext :=
  if String.eqb (section_name userSection) "linking"
  then str ← printLinkingSection context userSection; Ok (set_ctx_string context str)
  else if negb (String.eqb (section_name userSection) "name")
  then
    let str := ctx_string context +:+ string_of_char char_newline +:+ "(; User section "
                 +:+ " " +:+ string_of_char char_quote
                 +:+ escapeString char_is_signed (section_name userSection)
                 +:+ string_of_char char_quote +:+ ":" in
    let numLines := N.to_nat ((N.of_nat (length (section_data userSection)) + 63) / 64) in
    let str := printSectionLines numLines 0 (section_data userSection) str in
    Ok (set_ctx_string context (str +:+ nl ";)"))
  else Ok context.

(** The loop over the user sections, the last statement of [printModule]. *)
Fixpoint printUserSections (context : ModulePrintContext) (sections : list UserSection)
    : Outcome ModulePrintContext :=
  match sections with
  | [] => Ok context
  | userSection :: rest =>
      context' ← printUserSection context userSection;
      printUserSections context' rest
  end.

End PrintUserSections.

(** ** [ModulePrintContext::printModule] and [WAST::print] *)

(** [x + y] computed in [Uptr], and [UINTPTR_MAX]. *)
Definition Uptr_add (x y : N) : N := (x + y) mod Uptr_modulus.
Definition UINTPTR_MAX : N := Uptr_modulus - 1.

(** [string += s] for a [const char*] that comes from [c_str()]: the characters
    before the first terminator. *)
Fixpoint c_str (s : string) : string :=
  match s with
  | EmptyString => EmptyString
  | String c rest => if Ascii.eqb c char_nul then EmptyString else String c (c_str rest)
  end.

(** *** The parts of [IR::Module] that [printModule] reads

    [IR/Module.h] is not among the sources; the structures are given by the
    members that [Print.cpp] uses. An exception type is given by the sequence
    of its [params], an operator stream by its operators. *)
Record ImportOf (T : Type) := mkImportOf {
  import_moduleName : string;
  import_exportName : string;
  import_type : T
}.
Arguments mkImportOf {T} _ _ _.
Arguments import_moduleName {T} _.
Arguments import_exportName {T} _.
Arguments import_type {T} _.

Record Export := mkExport {
  export_name : string;
  export_kind : IR.ObjectKind;
  export_index : N
}.

(** [InitializerExpression]: its [type] and the member of the union that
    belongs to it; [init_other] is any other value of [type]. The constants are
    the values of the [I32] and [I64], and the bits of the [F32] and [F64]. *)
Inductive InitializerExpression :=
| init_i32_const (i32 : Z)
| init_i64_const (i64 : Z)
| init_f32_const (f32 : N)
| init_f64_const (f64 : N)
| init_get_global (globalIndex : N)
| init_other.

Record GlobalDef := mkGlobalDef {
  global_type : IR.GlobalType;
  global_initializer : InitializerExpression
}.

Record TableSegment := mkTableSegment {
  segment_tableIndex : N;
  table_baseOffset : InitializerExpression;
  segment_indices : list N
}.

Record DataSegment := mkDataSegment {
  segment_memoryIndex : N;
  data_baseOffset : InitializerExpression;
  segment_data : list byte
}.

Record FunctionDef := mkFunctionDef {
  def_type_index : N;
  nonParameterLocalTypes : list IR.ValueType;
  def_code : list FunctionBodyPrinter.Operator;
  def_branchTables : list (list N)
}.

Record ModuleDefs := mkModuleDefs {
  m_types : list FunctionSig;
  m_functions_imports : list (ImportOf N);
  m_tables_imports : list (ImportOf IR.TableType);
  m_memories_imports : list (ImportOf IR.MemoryType);
  m_globals_imports : list (ImportOf IR.GlobalType);
  m_exceptionTypes_imports : list (ImportOf (list IR.ValueType));
  m_exports : list Export;
  m_memories_defs : list IR.MemoryType;
  m_tables_defs : list IR.TableType;
  m_globals_defs : list GlobalDef;
  m_exceptionTypes_defs : list (list IR.ValueType);
  m_tableSegments : list TableSegment;
  m_dataSegments : list DataSegment;
  m_startFunctionIndex : N;
  m_functions_defs : list FunctionDef;
  m_userSections : list UserSection
}.

(** The members of the module that [printLinkingSection] reads. *)
Definition importNames {T} (import : ImportOf T) : Import :=
  mkImport (import_moduleName import) (import_exportName import).

Definition linkingModule (module : ModuleDefs) : Module :=
  mkModule (importNames <$> m_functions_imports module)
    (importNames <$> m_globals_imports module) (m_userSections module).

Section PrintModule.
Variable char_is_signed : bool.

(** [Floats::asString] for an [F32] and for an [F64], from [Inline/Floats.h],
    which is not among the sources. *)
Variable Floats_asString_F32 : N → string.
Variable Floats_asString_F64 : N → string.

Variable module : ModuleDefs.
Variable names : DisassemblyNames.

Definition printInitializerExpression (str : string) (expression : InitializerExpression)
    : Outcome string :=
  match expression with
  | init_i32_const i32 => Ok (str +:+ "(i32.const " +:+ pretty i32 +:+ ")")
  | init_i64_const i64 => Ok (str +:+ "(i64.const " +:+ pretty i64 +:+ ")")
  | init_f32_const f32 => Ok (str +:+ "(f32.const " +:+ Floats_asString_F32 f32 +:+ ")")
  | init_f64_const f64 => Ok (str +:+ "(f64.const " +:+ Floats_asString_F64 f64 +:+ ")")
  | init_get_global globalIndex =>
      name ← vector_at (names_globals names) globalIndex;
      Ok (str +:+ "(get_global " +:+ name +:+ ")")
  | init_other => Fatal
  end.

(** [printImport], with [printImportType] given as [printType]. *)
Definition printImport {T} (printType : string → T → Outcome string) (str : string)
    (import : ImportOf T) (importIndex : N) (name typeTag : string) : Outcome string :=
  let str1 := ScopedTagPrinter_open (str +:+ string_of_char char_newline) "import" in
  let str2 := str1 +:+ " " +:+ string_of_char char_quote
                +:+ escapeString char_is_signed (import_moduleName import)
                +:+ string_of_char char_quote +:+ " " +:+ string_of_char char_quote
                +:+ escapeString char_is_signed (import_exportName import)
                +:+ string_of_char char_quote +:+ " ("
                +:+ typeTag +:+ " " +:+ name +:+ " " in
  str3 ← printType str2 (import_type import);
  Ok (ScopedTagPrinter_close (str3 +:+ ")")).

(** [printImportType]: for an [IndexedFunctionType] the signature is read from
    [module.types]. *)
Definition printImportType_function (str : string) (typeIndex : N) : Outcome string :=
  functionType ← vector_at (m_types module) typeIndex;
  Ok (print_FunctionType str functionType).

(** One of the five loops over the imports of a kind; [importNames] holds the
    names of the kind. *)
Fixpoint printImports {T} (printType : string → T → Outcome string) (kindNames : list string)
    (typeTag : string) (importIndex : N) (imports : list (ImportOf T)) (str : string)
    : Outcome string :=
  match imports with
  | [] => Ok str
  | import :: rest =>
      name ← vector_at kindNames importIndex;
      str1 ← printImport printType str import importIndex (c_str name) typeTag;
      printImports printType kindNames typeTag (Uptr_incr importIndex) rest str1
  end.

(** The loop over [module.types]. *)
Fixpoint printTypes (typeIndex : N) (types : list FunctionSig) (str : string)
    : Outcome string :=
  match types with
  | [] => Ok str
  | type :: rest =>
      let str1 := ScopedTagPrinter_open (str +:+ string_of_char char_newline) "type" in
      name ← vector_at (names_types names) typeIndex;
      let str2 := print_FunctionType (str1 +:+ " " +:+ name +:+ " (func ") type in
      printTypes (Uptr_incr typeIndex) rest (ScopedTagPrinter_close (str2 +:+ ")"))
  end.

Definition printExport (str : string) (export_ : Export) : Outcome string :=
  let str1 := ScopedTagPrinter_open (str +:+ string_of_char char_newline) "export" in
  let str2 := str1 +:+ " " +:+ string_of_char char_quote
                +:+ escapeString char_is_signed (export_name export_)
                +:+ string_of_char char_quote +:+ " (" in
  text ← match export_kind export_ with
         | IR.kind_function =>
             function ← vector_at (names_functions names) (export_index export_);
             Ok ("func " +:+ fn_name function)
         | IR.kind_table =>
             name ← vector_at (names_tables names) (export_index export_);
             Ok ("table " +:+ name)
         | IR.kind_memory =>
             name ← vector_at (names_memories names) (export_index export_);
             Ok ("memory " +:+ name)
         | IR.kind_global =>
             name ← vector_at (names_globals names) (export_index export_);
             Ok ("global " +:+ name)
         | IR.kind_exceptionType =>
             name ← vector_at (names_exceptionTypes names) (export_index export_);
             Ok ("exception_type " +:+ name)
         | IR.kind_invalid => Fatal
         end;
  Ok (ScopedTagPrinter_close (str2 +:+ text +:+ ")")).

Fixpoint printExports (exports : list Export) (str : string) : Outcome string :=
  match exports with
  | [] => Ok str
  | export_ :: rest => str1 ← printExport str export_; printExports rest str1
  end.

(** The loops over the definitions of the memories, of the tables, of the
    globals and of the exception types. *)
Fixpoint printMemoryDefs (defIndex : N) (defs : list IR.MemoryType) (str : string)
    : Outcome string :=
  match defs with
  | [] => Ok str
  | memoryDef :: rest =>
      let str1 := ScopedTagPrinter_open (str +:+ string_of_char char_newline) "memory" in
      name ← vector_at (names_memories names)
               (Uptr_add (N.of_nat (length (m_memories_imports module))) defIndex);
      let str2 := print_MemoryType (str1 +:+ " " +:+ name +:+ " ") memoryDef in
      printMemoryDefs (Uptr_incr defIndex) rest (ScopedTagPrinter_close str2)
  end.

Fixpoint printTableDefs (defIndex : N) (defs : list IR.TableType) (str : string)
    : Outcome string :=
  match defs with
  | [] => Ok str
  | tableDef :: rest =>
      let str1 := ScopedTagPrinter_open (str +:+ string_of_char char_newline) "table" in
      name ← vector_at (names_tables names)
               (Uptr_add (N.of_nat (length (m_tables_imports module))) defIndex);
      let str2 := print_TableType (str1 +:+ " " +:+ name +:+ " ") tableDef in
      printTableDefs (Uptr_incr defIndex) rest (ScopedTagPrinter_close str2)
  end.

Fixpoint printGlobalDefs (defIndex : N) (defs : list GlobalDef) (str : string)
    : Outcome string :=
  match defs with
  | [] => Ok str
  | globalDef :: rest =>
      let str1 := ScopedTagPrinter_open (str +:+ string_of_char char_newline) "global" in
      name ← vector_at (names_globals names)
               (Uptr_add (N.of_nat (length (m_globals_imports module))) defIndex);
      let str2 := print_GlobalType (str1 +:+ " " +:+ name +:+ " ") (global_type globalDef) in
      str3 ← printInitializerExpression (str2 +:+ " ") (global_initializer globalDef);
      printGlobalDefs (Uptr_incr defIndex) rest (ScopedTagPrinter_close str3)
  end.

Fixpoint printExceptionTypeDefs (defIndex : N) (defs : list (list IR.ValueType)) (str : string)
    : Outcome string :=
  match defs with
  | [] => Ok str
  | exceptionTypeDef :: rest =>
      let str1 :=
        ScopedTagPrinter_open (str +:+ string_of_char char_newline) "exception_type" in
      name ← vector_at (names_exceptionTypes names)
               (Uptr_add (N.of_nat (length (m_exceptionTypes_imports module))) defIndex);
      let str2 := print_ExceptionType (str1 +:+ " " +:+ name) exceptionTypeDef in
      printExceptionTypeDefs (Uptr_incr defIndex) rest (ScopedTagPrinter_close str2)
  end.

(** The loop over the indices of a table segment, 8 to a line. *)
Fixpoint printSegmentElements (elementIndex : N) (indices : list N) (str : string)
    : Outcome string :=
  match indices with
  | [] => Ok str
  | index :: rest =>
      let str1 := if elementIndex mod 8 =? 0
                  then str +:+ string_of_char char_newline
                  else str +:+ " " in
      function ← vector_at (names_functions names) index;
      printSegmentElements (Uptr_incr elementIndex) rest (str1 +:+ fn_name function)
  end.

Fixpoint printTableSegments (segments : list TableSegment) (str : string) : Outcome string :=
  match segments with
  | [] => Ok str
  | tableSegment :: rest =>
      let str1 := ScopedTagPrinter_open (str +:+ string_of_char char_newline) "elem" in
      name ← vector_at (names_tables names) (segment_tableIndex tableSegment);
      str2 ← printInitializerExpression (str1 +:+ " " +:+ name +:+ " ")
               (table_baseOffset tableSegment);
      str3 ← printSegmentElements 0 (segment_indices tableSegment) str2;
      printTableSegments rest (ScopedTagPrinter_close str3)
  end.

Fixpoint printDataSegments (segments : list DataSegment) (str : string) : Outcome string :=
  match segments with
  | [] => Ok str
  | dataSegment :: rest =>
      let str1 := ScopedTagPrinter_open (str +:+ string_of_char char_newline) "data" in
      name ← vector_at (names_memories names) (segment_memoryIndex dataSegment);
      str2 ← printInitializerExpression (str1 +:+ " " +:+ name +:+ " ")
               (data_baseOffset dataSegment);
      let numLines := N.to_nat ((N.of_nat (length (segment_data dataSegment)) + 63) / 64) in
      let str3 := printSectionLines char_is_signed numLines 0 (segment_data dataSegment) str2 in
      printDataSegments rest (ScopedTagPrinter_close str3)
  end.

Definition printStart (str : string) : Outcome string :=
  if negb (m_startFunctionIndex module =? UINTPTR_MAX)
  then
    let str1 := ScopedTagPrinter_open (str +:+ string_of_char char_newline) "start" in
    function ← vector_at (names_functions names) (m_startFunctionIndex module);
    Ok (ScopedTagPrinter_close (str1 +:+ " " +:+ fn_name function))
  else Ok str.

(** The loops over the parameters and over the other locals of a function. *)
Fixpoint printParams (localNames : list string) (parameterIndex : N)
    (params : list IR.ValueType) (str : string) : Outcome string :=
  match params with
  | [] => Ok str
  | type :: rest =>
      let str1 := ScopedTagPrinter_open (str +:+ string_of_char char_newline) "param" in
      name ← vector_at localNames parameterIndex;
      let str2 := print_ValueType (str1 +:+ " " +:+ name +:+ " ") type in
      printParams localNames (Uptr_incr parameterIndex) rest (ScopedTagPrinter_close str2)
  end.

Fixpoint printLocals (localNames : list string) (numParams : N) (localIndex : N)
    (localTypes : list IR.ValueType) (str : string) : Outcome string :=
  match localTypes with
  | [] => Ok str
  | type :: rest =>
      let str1 := ScopedTagPrinter_open (str +:+ string_of_char char_newline) "local" in
      name ← vector_at localNames (Uptr_add numParams localIndex);
      let str2 := print_ValueType (str1 +:+ " " +:+ name +:+ " ") type in
      printLocals localNames numParams (Uptr_incr localIndex) rest
        (ScopedTagPrinter_close str2)
  end.

(** The body of the loop over [module.functions.defs]. The context of the
    function shares [string] with the context of the module: it is made here
    where [printFunctionBody] is called, with the text printed so far. *)
Definition printFunctionDef (functionDefIndex : N) (functionDef : FunctionDef) (str : string)
    : Outcome string :=
  let functionIndex :=
    Uptr_add (N.of_nat (length (m_functions_imports module))) functionDefIndex in
  functionType ← vector_at (m_types module) (def_type_index functionDef);
  functionNames ← vector_at (names_functions names) functionIndex;
  let str1 :=
    ScopedTagPrinter_open
      (str +:+ string_of_char char_newline +:+ string_of_char char_newline) "func" in
  typeName ← vector_at (names_types names) (def_type_index functionDef);
  let str2 := str1 +:+ " " +:+ fn_name functionNames +:+ " (type " +:+ typeName +:+ ")" in
  str3 ← printParams (fn_locals functionNames) 0 (sig_params functionType) str2;
  let str4 :=
    match sig_results functionType with
    | [] => str3
    | _ => ScopedTagPrinter_close
             (print_elems
                (ScopedTagPrinter_open (str3 +:+ string_of_char char_newline) "result")
                (sig_results functionType))
    end in
  str5 ← printLocals (fn_locals functionNames)
           (N.of_nat (length (sig_params functionType))) 0
           (nonParameterLocalTypes functionDef) str4;
  let functionContext :=
    FunctionPrintContext_new names (m_types module) (def_branchTables functionDef) str5
      functionNames in
  '(functionContext', _) ←
    FunctionBodyPrinter.printFunctionBody functionContext (def_code functionDef);
  Ok (ScopedTagPrinter_close (string_ functionContext')).

Fixpoint printFunctionDefs (functionDefIndex : N) (defs : list FunctionDef) (str : string)
    : Outcome string :=
  match defs with
  | [] => Ok str
  | functionDef :: rest =>
      str1 ← printFunctionDef functionDefIndex functionDef str;
      printFunctionDefs (Uptr_incr functionDefIndex) rest str1
  end.

(** [ModulePrintContext::printModule]: the new value of [string]. *)
Definition printModule (str : string) : Outcome string :=
  let str := ScopedTagPrinter_open str "module" in
  str ← printTypes 0 (m_types module) str;
  str ← printImports printImportType_function (fn_name <$> names_functions names) "func" 0
          (m_functions_imports module) str;
  str ← printImports (λ s type, Ok (print_TableType s type)) (names_tables names) "table" 0
          (m_tables_imports module) str;
  str ← printImports (λ s type, Ok (print_MemoryType s type)) (names_memories names) "memory" 0
          (m_memories_imports module) str;
  str ← printImports (λ s type, Ok (print_GlobalType s type)) (names_globals names) "global" 0
          (m_globals_imports module) str;
  str ← printImports (λ s type, Ok (print_ExceptionType s type)) (names_exceptionTypes names)
          "exception_type" 0 (m_exceptionTypes_imports module) str;
  str ← printExports (m_exports module) str;
  str ← printMemoryDefs 0 (m_memories_defs module) str;
  str ← printTableDefs 0 (m_tables_defs module) str;
  str ← printGlobalDefs 0 (m_globals_defs module) str;
  str ← printExceptionTypeDefs 0 (m_exceptionTypes_defs module) str;
  str ← printTableSegments (m_tableSegments module) str;
  str ← printDataSegments (m_dataSegments module) str;
  str ← printStart str;
  str ← printFunctionDefs 0 (m_functions_defs module) str;
  context ← printUserSections char_is_signed
              (mkModulePrintContext (linkingModule module) str names)
              (m_userSections module);
  Ok (ScopedTagPrinter_close (ctx_string context)).

End PrintModule.

(** [WAST::print], on the names that [IR::getDisassemblyNames] gives for the
    module. *)
Definition WAST_print (char_is_signed : bool) (Floats_asString_F32 Floats_asString_F64 : N → string)
    (module : ModuleDefs) (disassemblyNames : DisassemblyNames) : Outcome string :=
  context ← ModulePrintContext_new (linkingModule module) "" disassemblyNames;
  str ← printModule char_is_signed Floats_asString_F32 Floats_asString_F64 module
          (ctx_names context) (ctx_string context);
  expandIndentation_default str.

(** * Specifications *)

(** ** The escaping of strings, by the value of the byte *)

Definition byte_value (c : ascii) : N := N_of_ascii c.

(** The printable range, 0x20 to 0x7e. *)
Definition printable (c : ascii) : Prop := 32 <= byte_value c <= 126.

Definition printableb (c : ascii) : bool :=
  (32 <=? byte_value c) && (byte_value c <=? 126).

Definition hexDigit (n : N) : ascii :=
  match String.get (N.to_nat n) "0123456789abcdef" with
  | Some c => c
  | None => "0"%char
  end.

(** A backslash and the two hexadecimal digits of the byte. *)
Definition hexEscape (c : ascii) : string :=
  String char_backslash
    (String (hexDigit (byte_value c / 16)) (String (hexDigit (byte_value c mod 16)) "")).

(** The escaping as the documentation words it: a hexadecimal pair for every
    byte that is not printable, for the quote and for the backslash. *)
Definition escapeChar_documented (c : ascii) : string :=
  if (byte_value c <? 32) || (126 <? byte_value c)
     || (byte_value c =? 34) || (byte_value c =? 92)
  then hexEscape c
  else string_of_char c.

Fixpoint escapeString_documented (s : string) : string :=
  match s with
  | EmptyString => ""
  | String c rest => escapeChar_documented c +:+ escapeString_documented rest
  end.

(** The escaping with the three short forms: backslash backslash, backslash
    quote and backslash n. *)
Definition escapeChar_short (c : ascii) : string :=
  if byte_value c =? 92 then String char_backslash (String char_backslash "")
  else if byte_value c =? 34 then String char_backslash (String char_quote "")
  else if byte_value c =? 10 then String char_backslash "n"
  else if (byte_value c <? 32) || (126 <? byte_value c) then hexEscape c
  else string_of_char c.

Fixpoint escapeString_short (s : string) : string :=
  match s with
  | EmptyString => ""
  | String c rest => escapeChar_short c +:+ escapeString_short rest
  end.

(** [needle] occurs in [hay]. *)
Definition occurs_in (needle hay : string) : Prop :=
  ∃ before after, hay = before +:+ needle +:+ after.

(** ** The expansion of the indentation, by tokens *)

Inductive token :=
| IndentToken
| DedentToken
| NewlineToken
| ByteToken (c : ascii).

Definition token_text (t : token) : string :=
  match t with
  | IndentToken => INDENT_STRING
  | DedentToken => DEDENT_STRING
  | NewlineToken => string_of_char char_newline
  | ByteToken c => string_of_char c
  end.

Definition single_token (c : ascii) : token :=
  if Ascii.eqb c char_newline then NewlineToken else ByteToken c.

(** The tokens of a string, from left to right; a sentinel is taken where its
    two bytes are next. *)
Fixpoint tokens (s : string) : list token :=
  match s with
  | EmptyString => []
  | String c rest =>
      match rest with
      | String c' rest' =>
          if Ascii.eqb c (ascii_of_N 224) && Ascii.eqb c' (ascii_of_N 1)
          then IndentToken :: tokens rest'
          else if Ascii.eqb c (ascii_of_N 224) && Ascii.eqb c' (ascii_of_N 2)
          then DedentToken :: tokens rest'
          else single_token c :: tokens rest
      | EmptyString => [single_token c]
      end
  end.

(** The scan with its depth counter: the text for the tokens [ts] at the depth
    [depth]; a dedent at depth zero is fatal. *)
Fixpoint scan (ts : list token) (depth : nat) : Outcome string :=
  match ts with
  | [] => Ok ""
  | IndentToken :: rest => scan rest (S depth)
  | DedentToken :: rest =>
      match depth with
      | O => Fatal
      | S depth' => scan rest depth'
      end
  | NewlineToken :: rest =>
      text ← scan rest depth;
      Ok (String char_newline (string_repeat (depth * 2) char_space +:+ text))
  | ByteToken c :: rest =>
      text ← scan rest depth;
      Ok (String c text)
  end.

(** [f] applied to the result of a computation that completes. *)
Definition Outcome_map {A B} (f : A → B) (o : Outcome A) : Outcome B :=
  x ← o; Ok (f x).

Fixpoint tokens_text (ts : list token) : string :=
  match ts with
  | [] => ""
  | t :: rest => token_text t +:+ tokens_text rest
  end.

(** ** The names that the loop of [NameScope::map] tries *)

(** The values of the counter in [fuel] successive iterations. *)
Fixpoint counters (fuel : nat) (count : N) : list N :=
  match fuel with
  | O => []
  | S fuel' => count :: counters fuel' (Uptr_incr count)
  end.

Definition candidates (fuel : nat) (baseName : string) (count : N) : list string :=
  (λ c, baseName +:+ pretty c) <$> counters fuel count.

(** ** The invariant of the interner *)

Section InternerInvariant.
Variable hashElems : list IR.ValueType → N.
Variable hashCombine : N → N → N.

(** Every canonical tuple has its allocation, with the hash of its contents,
    and no two canonical tuples have the same contents. *)
Definition tuples_wf (st : IR.TypeInterner) : Prop :=
  (∀ t, t ∈ IR.uniqueTypeTupleSet st →
        ∃ impl, IR.tupleHeap st !! IR.tuple_impl t = Some impl
                ∧ IR.tuple_hash impl = hashElems (IR.elems impl))
  ∧ (∀ t1 t2 impl1 impl2,
        t1 ∈ IR.uniqueTypeTupleSet st → t2 ∈ IR.uniqueTypeTupleSet st →
        IR.tupleHeap st !! IR.tuple_impl t1 = Some impl1 →
        IR.tupleHeap st !! IR.tuple_impl t2 = Some impl2 →
        IR.elems impl1 = IR.elems impl2 → t1 = t2).

(** Every canonical signature has its allocation, over two canonical tuples
    and with the hash of their hashes, and no two canonical signatures have the
    same two tuples. *)
Definition functions_wf (st : IR.TypeInterner) : Prop :=
  (∀ f, f ∈ IR.uniqueFunctionTypeSet st →
        ∃ impl, IR.functionHeap st !! IR.function_impl f = Some impl
                ∧ IR.results impl ∈ IR.uniqueTypeTupleSet st
                ∧ IR.params impl ∈ IR.uniqueTypeTupleSet st
                ∧ IR.function_hash impl
                  = hashCombine (IR.tupleHashOf st (IR.results impl))
                      (IR.tupleHashOf st (IR.params impl)))
  ∧ (∀ f1 f2 impl1 impl2,
        f1 ∈ IR.uniqueFunctionTypeSet st → f2 ∈ IR.uniqueFunctionTypeSet st →
        IR.functionHeap st !! IR.function_impl f1 = Some impl1 →
        IR.functionHeap st !! IR.function_impl f2 = Some impl2 →
        IR.results impl1 = IR.results impl2 → IR.params impl1 = IR.params impl2 → f1 = f2).

Definition interner_wf (st : IR.TypeInterner) : Prop := tuples_wf st ∧ functions_wf st.

(** Nothing is removed and no allocation changes. *)
Definition extends (st st' : IR.TypeInterner) : Prop :=
  IR.uniqueTypeTupleSet st ⊆ IR.uniqueTypeTupleSet st'
  ∧ IR.tupleHeap st ⊆ IR.tupleHeap st'
  ∧ IR.uniqueFunctionTypeSet st ⊆ IR.uniqueFunctionTypeSet st'
  ∧ IR.functionHeap st ⊆ IR.functionHeap st'.

(** The handle [t] is canonical and stands for the sequence [es]; the handle
    [f] is canonical and stands for the signature with the results [res] and
    the parameters [pars]. *)
Definition tuple_denotes (st : IR.TypeInterner) (t : IR.TypeTuple) (es : list IR.ValueType)
    : Prop :=
  t ∈ IR.uniqueTypeTupleSet st ∧ IR.TypeTuple_elems st t = Some es.

Definition function_denotes (st : IR.TypeInterner) (f : IR.FunctionType)
    (res pars : list IR.ValueType) : Prop :=
  f ∈ IR.uniqueFunctionTypeSet st
  ∧ ∃ r p, IR.FunctionType_results st f = Some r ∧ IR.FunctionType_params st f = Some p
           ∧ tuple_denotes st r res ∧ tuple_denotes st p pars.

End InternerInvariant.

(** ** The operators that the loop of a body consumes *)

(** [consumes ctx ops ctx']: from [ctx], with a frame on the control stack
    before each of them, the handlers of [ops] complete one after the other and
    leave [ctx']. *)
Inductive consumes : FunctionPrintContext → list FunctionBodyPrinter.Operator
    → FunctionPrintContext → Prop :=
| consumes_nil ctx : consumes ctx [] ctx
| consumes_cons ctx op ctx1 ops ctx' :
    controlStack ctx ≠ [] →
    FunctionBodyPrinter.decodeOp ctx op = Ok ctx1 →
    consumes ctx1 ops ctx' →
    consumes ctx (op :: ops) ctx'.

(** A completion other than the normal one. *)
Definition failed {A} (o : Outcome A) : Prop :=
  match o with
  | Ok _ => False
  | _ => True
  end.

(** The same failure, at another type. *)
Definition failure_of {A B} (o : Outcome A) : Outcome B :=
  match o with
  | Ok _ => OutOfFuel
  | Fatal => Fatal
  | Undefined => Undefined
  | OutOfFuel => OutOfFuel
  end.

(** The text of a branch target: the depth for the frame of the function, the
    label for any other frame. *)
Definition targetText (frame : ControlContext.t) (depth : N) : string :=
  if decide (ControlContext.type frame = ControlContext.function)
  then pretty depth
  else ControlContext.labelId frame.

(** The targets of a branch table as [br_table] writes them, from the target
    [targetIndex] on, each given by its depth and its frame: a newline before
    every sixteenth target and a space before any other, then the text of the
    target. *)
Fixpoint tableTargetsText (targetIndex : nat) (targets : list (N * ControlContext.t)) : string :=
  match targets with
  | [] => ""
  | target :: rest =>
      (if N.of_nat targetIndex mod 16 =? 0 then string_of_char char_newline else " ")
        +:+ targetText target.2 target.1 +:+ tableTargetsText (S targetIndex) rest
  end.

(** A function [$f] whose name section gives the label [L] to its first
    construct, before its body is printed. *)
Definition example_context : FunctionPrintContext :=
  FunctionPrintContext_new
    (mkDisassemblyNames [] [mkFunctionNames "$f" [] ["L"]] [] [] [] ["$e"])
    [] [] "" (mkFunctionNames "$f" [] ["L"]).

(** The same function with one branch table, of the depths 0, 1 and 0. *)
Definition example_table_context : FunctionPrintContext :=
  FunctionPrintContext_new
    (mkDisassemblyNames [] [mkFunctionNames "$f" [] ["L"]] [] [] [] ["$e"])
    [] [[0; 1; 0]] "" (mkFunctionNames "$f" [] ["L"]).

(** ** The open levels of the linking section *)

(** The decoder has [l] levels open: [indentDepth] is [l]. *)
Definition at_level (l : nat) (st : LinkingState) : Prop :=
  indentDepth st = N.of_nat l.

(** Started with [l] levels open, [m] returns with [l'] levels open, or throws
    with one to three levels open, or reads outside a vector; it does not run
    out of fuel. *)
Definition contained {A} (l : nat) (m : Decode A) (l' : nat) : Prop :=
  ∀ st, at_level l st →
    match m st with
    | (Returned _, st') => at_level l' st'
    | (Thrown, st') => ∃ k, at_level k st' ∧ (1 ≤ k ≤ 3)%nat
    | (UndefinedRead, _) => True
    | (FuelExhausted, _) => False
    end.

(** [n] copies of [s]. *)
Fixpoint string_copies (n : nat) (s : string) : string :=
  match n with
  | O => ""
  | S n' => s +:+ string_copies n' s
  end.

(** The comment of a section whose decoding threw with the text [text] and [k]
    levels open: the text, the marker, a dedent for every level but the first,
    and the end of the comment, which closes the first level. *)
Definition failedComment (text : string) (k : nat) : string :=
  ((text +:+ nl "Fatal serialization exception!") +:+ string_copies (k - 1) DEDENT_STRING)
    +:+ DEDENT_STRING +:+ nl ";)".

(** A module with two functions, [$f] imported from [env.f] and [$g], and one
    global [$G]; and linking sections for it, all of version 1: one with the
    unknown subsection type 99; one whose comdat [c] has a symbol of the
    unknown kind 9; one whose comdat [c] names the function 7; one whose symbol
    table has a symbol of the unknown kind 9. *)
Definition example_module_context : ModulePrintContext :=
  mkModulePrintContext
    (mkModule [mkImport "env" "f"] [] [])
    ("(module" +:+ INDENT_STRING)
    (mkDisassemblyNames []
       [mkFunctionNames "$f" [] []; mkFunctionNames "$g" [] []] [] [] ["$G"] []).

Definition section_unknown_subsection : UserSection :=
  mkUserSection "linking" [x01; x63; x00].

Definition section_unknown_comdat_kind : UserSection :=
  mkUserSection "linking" [x01; x07; x07; x01; x01; "c"%byte; x00; x01; x09; x00].

Definition section_comdat_function_out_of_range : UserSection :=
  mkUserSection "linking" [x01; x07; x07; x01; x01; "c"%byte; x00; x01; x01; x07].

Definition section_unknown_symbol_kind : UserSection :=
  mkUserSection "linking" [x01; x08; x03; x01; x09; x00].

(** A section whose symbol table has a function symbol [h] with the function
    index 7, followed by a subsection of the unknown type 99. *)
Definition section_symbol_function_out_of_range : UserSection :=
  mkUserSection "linking"
    [x01; x08; x06; x01; x00; x00; x07; x01; "h"%byte; x63; x00].

(** A section with one segment, whose name is the two bytes of
    [DEDENT_STRING], with the alignment 0 and the flags 0, followed by a
    subsection of the unknown type 99; and the same section with the name S. *)
Definition section_segment_name_dedent : UserSection :=
  mkUserSection "linking" [x01; x05; x06; x01; x02; xe0; x02; x00; x00; x63; x00].

Definition section_segment_name_plain : UserSection :=
  mkUserSection "linking" [x01; x05; x05; x01; x01; "S"%byte; x00; x00; x63; x00].

(** The comment that [printLinkingSection] writes for these two sections, by
    the name of the segment. *)
Definition segment_comment (segmentName : string) : string :=
  nl "(; linking section:" +:+ INDENT_STRING
    +:+ nl "Version: 1"
    +:+ nl "Segments:" +:+ INDENT_STRING
    +:+ nl segmentName +:+ " alignment=1 flags=0" +:+ DEDENT_STRING
    +:+ nl "Unknown WASM linking subsection type: 99"
    +:+ nl "Fatal serialization exception!"
    +:+ DEDENT_STRING +:+ nl ";)".

(** A module that has nothing but one user section, and no names. *)
Definition module_of_section (userSection : UserSection) : ModuleDefs :=
  mkModuleDefs [] [] [] [] [] [] [] [] [] [] [] [] [] UINTPTR_MAX [] [userSection].

Definition no_names : DisassemblyNames := mkDisassemblyNames [] [] [] [] [] [].

(** The context of that function after [printFunctionBody] has pushed the
    frame of the function, and after a [block] without signature that follows. *)
Definition example_body_start : FunctionPrintContext :=
  emit (pushControlStack example_context ControlContext.function "") DEDENT_STRING.

Definition example_in_block : FunctionPrintContext :=
  pushControlStack
    (set_label (emit (emit (emit example_body_start (nl "block")) " ") "$L")
       (mkNameScope "$" {[ "L" ]} ∅) 1)
    ControlContext.block "$L".

(** The same two contexts for the function with the branch table. *)
Definition example_table_body_start : FunctionPrintContext :=
  emit (pushControlStack example_table_context ControlContext.function "") DEDENT_STRING.

Definition example_table_in_block : FunctionPrintContext :=
  pushControlStack
    (set_label (emit (emit (emit example_table_body_start (nl "block")) " ") "$L")
       (mkNameScope "$" {[ "L" ]} ∅) 1)
    ControlContext.block "$L".

(** ** Characters of a string *)

(** Every character of [s] satisfies [p]. *)
Fixpoint string_forallb (p : ascii → bool) (s : string) : bool :=
  match s with
  | EmptyString => true
  | String c rest => p c && string_forallb p rest
  end.

(** The decimal digits, and the characters other than [c]. *)
Definition is_digit (c : ascii) : bool := (48 <=? byte_value c) && (byte_value c <=? 57).
Definition is_not (c : ascii) (x : ascii) : bool := negb (Ascii.eqb x c).

(** The part of the text of a tuple after its first element: a comma, a space
    and the name, for each further element. *)
Fixpoint further_elements (tupleElems : list IR.ValueType) : string :=
  match tupleElems with
  | [] => ""
  | elem :: rest => ", " +:+ IR.asString elem +:+ further_elements rest
  end.

(** ** The reading of an escaped text *)

(** The value of a hexadecimal digit in lowercase. *)
Definition hexValue (c : ascii) : option N :=
  let n := byte_value c in
  if (48 <=? n) && (n <=? 57) then Some (n - 48)
  else if (97 <=? n) && (n <=? 102) then Some (n - 87)
  else None.

(** The text that an escaped text stands for: a backslash is followed by a
    backslash, by a quote, by the letter n or by two hexadecimal digits. *)
Fixpoint unescape (s : string) : option string :=
  match s with
  | EmptyString => Some EmptyString
  | String c rest =>
      if Ascii.eqb c char_backslash then
        match rest with
        | EmptyString => None
        | String e rest1 =>
            if Ascii.eqb e char_backslash then String char_backslash <$> unescape rest1
            else if Ascii.eqb e char_quote then String char_quote <$> unescape rest1
            else if Ascii.eqb e "n" then String char_newline <$> unescape rest1
            else
              match rest1 with
              | EmptyString => None
              | String l rest2 =>
                  match hexValue e, hexValue l with
                  | Some high, Some low =>
                      String (ascii_of_N (16 * high + low)) <$> unescape rest2
                  | _, _ => None
                  end
              end
        end
      else String c <$> unescape rest
  end.

(** ** Texts without a sentinel *)

(** No character of [s] is the byte E0, the first byte of both sentinels. *)
Definition clean (s : string) : bool := string_forallb (is_not (ascii_of_N 224)) s.

(** The text [t] with [n] spaces put after each of its newlines. *)
Fixpoint indent_lines (n : nat) (t : string) : string :=
  match t with
  | EmptyString => EmptyString
  | String c rest =>
      if Ascii.eqb c char_newline
      then String c (string_repeat n char_space +:+ indent_lines n rest)
      else String c (indent_lines n rest)
  end.

(** The loop of [expandIndentation], at the depth [d] and before any text,
    reads all of [s], adds [t] to the result and goes on at the depth [d']. *)
Definition expands (spaces : N) (s : string) (d d' : N) (t : string) : Prop :=
  ∀ rest result,
    expandIndentation_loop spaces (s +:+ rest) d result
    = expandIndentation_loop spaces rest d' (result +:+ t).

(** The text of a signature after the expansion: a param tag, a result tag,
    each with its types after a space, and none for an empty tuple. *)
Fixpoint elemsText (types : list IR.ValueType) : string :=
  match types with
  | [] => ""
  | type :: rest => " " +:+ IR.asString type +:+ elemsText rest
  end.

Definition tagText (tag : string) (types : list IR.ValueType) : string :=
  match types with
  | [] => ""
  | _ => "(" +:+ tag +:+ elemsText types +:+ ")"
  end.

(** No character of [s] is the byte E0 or a newline. *)
Definition plain (s : string) : bool :=
  string_forallb (λ c, is_not (ascii_of_N 224) c && is_not char_newline c) s.

(** [r] is empty or starts with a character that is not a decimal digit. *)
Definition starts_without_digit (r : string) : bool :=
  match r with
  | EmptyString => true
  | String c _ => negb (is_digit c)
  end.

(** ** The indentation of a function body *)

(** The names that the handlers of the operators print hold no byte E0. *)
Definition clean_names (ns : DisassemblyNames) : bool :=
  forallb clean (names_types ns)
  && forallb (λ function, clean (fn_name function)) (names_functions ns)
  && forallb clean (names_globals ns).

Definition clean_context (ctx : FunctionPrintContext) : bool :=
  clean_names (names ctx)
  && forallb clean (labelNames ctx)
  && forallb clean (localNames ctx)
  && clean (string_of_char (sigil (labelNameScope ctx)))
  && forallb (λ frame, clean (ControlContext.labelId frame)) (controlStack ctx).

Definition clean_operator (op : FunctionBodyPrinter.Operator) : bool :=
  match op with
  | FunctionBodyPrinter.op_other nameString immText => clean nameString && clean immText
  | _ => true
  end.

(** The text [str] is [start] and then a text that the loop of
    [expandIndentation] reads from the depth [d0] to the depth [d]. *)
Definition expanded (spaces : N) (start : string) (d0 : N) (str : string) (d : N) : Prop :=
  ∃ body t, str = start +:+ body ∧ expands spaces body d0 d t.

(** The depth at which the text of a body goes on: the depth [d0] at which
    [printFunctionBody] was entered, and one level for each frame of the
    control stack above the frame of the function. *)
Definition depth_at (d0 : N) (ctx : FunctionPrintContext) : N :=
  d0 + N.of_nat (length (controlStack ctx)) - 1.

Definition body_invariant (spaces : N) (start : string) (d0 : N) (ctx : FunctionPrintContext)
    : Prop :=
  clean_context ctx = true
  ∧ expanded spaces start d0 (string_ ctx) (depth_at d0 ctx).

(** ** The names of a module *)

(** The names that share the scope of the module: of the types, the tables,
    the memories, the globals and the functions, in the order of the loops. *)
Definition globalNames (names : DisassemblyNames) : list string :=
  names_types names ++ names_tables names ++ names_memories names ++ names_globals names
    ++ (fn_name <$> names_functions names).

(** The number of names that the constructor maps. *)
Definition numNames (names : DisassemblyNames) : nat :=
  length (globalNames names)
  + foldr (λ function n, length (fn_locals function) + n)%nat 0%nat (names_functions names).

Definition has_sigil (name : string) : Prop := ∃ rest, name = String "$" rest.

(** ** The counter of [NameScope::map] *)

(** The counter after [i] increments. *)
Definition counter_after (i : nat) (count : N) : N := Nat.iter i Uptr_incr count.

(** ** The lines of the bytes of a section *)

(** The first [n] pieces of 64 bytes of [data]; the last one may be shorter. *)
Fixpoint chunks (n : nat) (data : list byte) : list (list byte) :=
  match n with
  | O => []
  | S n' => take 64 data :: chunks n' (drop 64 data)
  end.

(** One line for each piece: a newline, and the escaped piece in quotes. *)
Fixpoint linesText (char_is_signed : bool) (pieces : list (list byte)) : string :=
  match pieces with
  | [] => ""
  | piece :: rest =>
      nl (string_of_char char_quote)
        +:+ escapeString char_is_signed (string_of_list_byte piece)
        +:+ string_of_char char_quote
        +:+ linesText char_is_signed rest
  end.

(** The escaped pieces, one after the other. *)
Fixpoint escapedPieces (char_is_signed : bool) (pieces : list (list byte)) : string :=
  match pieces with
  | [] => ""
  | piece :: rest =>
      escapeString char_is_signed (string_of_list_byte piece)
        +:+ escapedPieces char_is_signed rest
  end.

(** ** The labels on the control stack *)

(** The labels of the frames, from the bottom of the stack to its top. *)
Definition stackLabels (stack : list ControlContext.t) : list string :=
  ControlContext.labelId <$> stack.




(** ** Well-nested bodies *)

(** The operators that open a construct, and the operators that neither open
    nor close one. *)
Definition is_opener (op : FunctionBodyPrinter.Operator) : bool :=
  match op with
  | FunctionBodyPrinter.op_block _ | FunctionBodyPrinter.op_loop _
  | FunctionBodyPrinter.op_if _ | FunctionBodyPrinter.op_try _ => true
  | _ => false
  end.

Definition keeps_depth (op : FunctionBodyPrinter.Operator) : bool :=
  match op with
  | FunctionBodyPrinter.op_block _ | FunctionBodyPrinter.op_loop _
  | FunctionBodyPrinter.op_if _ | FunctionBodyPrinter.op_try _
  | FunctionBodyPrinter.op_end => false
  | _ => true
  end.

(** A sequence of operators in which every construct that is opened is closed
    by an [end] of its own. *)
Inductive nested : list FunctionBodyPrinter.Operator → Prop :=
| nested_nil : nested []
| nested_keeps op rest :
    keeps_depth op = true → nested rest → nested (op :: rest)
| nested_construct op body rest :
    is_opener op = true → nested body → nested rest →
    nested (op :: body ++ FunctionBodyPrinter.op_end :: rest).

(** The frame [frame'] is the frame [frame] at a later time: it has the same
    label, and it is not the frame of the function unless [frame] was. *)
Definition same_frame (frame frame' : ControlContext.t) : Prop :=
  ControlContext.labelId frame' = ControlContext.labelId frame
  ∧ (ControlContext.type frame ≠ ControlContext.function →
     ControlContext.type frame' ≠ ControlContext.function).

(** ** The comment of the linking section under [expandIndentation] *)

(** No byte of a stream is E0. *)
Definition clean_bytes (bytes : list byte) : bool := clean (string_of_list_byte bytes).

Definition clean_import (import : Import) : bool :=
  clean (moduleName import) && clean (exportName import).

(** The names that the decoder of the linking section copies from the context
    hold no byte E0: the names of the functions and of the globals, the names
    of the imported functions and globals, and the names of the user sections. *)
Definition clean_linking_context (context : ModulePrintContext) : bool :=
  forallb (λ function, clean (fn_name function)) (names_functions (ctx_names context))
  && forallb clean (names_globals (ctx_names context))
  && forallb clean_import (functions_imports (ctx_module context))
  && forallb clean_import (globals_imports (ctx_module context))
  && forallb (λ userSection, clean (section_name userSection))
       (userSections (ctx_module context)).

(** The decoder has [l] levels open, and the loop of [expandIndentation]
    reads its text from the depth [d] to the depth [d + l]. *)
Definition text_at (spaces d : N) (l : nat) (st : LinkingState) : Prop :=
  indentDepth st = N.of_nat l
  ∧ ∃ t, expands spaces (linkingSectionString st) d (d + N.of_nat l) t.

(** Started with such a text and [l] levels open, [m] returns with such a text,
    [l'] levels open and a result that satisfies [ok], or throws with such a
    text and one to three levels open. *)
Definition balanced (spaces d : N) {A} (l : nat) (m : Decode A) (ok : A → Prop) (l' : nat)
    : Prop :=
  ∀ st, text_at spaces d l st →
    match m st with
    | (Returned a, st') => text_at spaces d l' st' ∧ ok a
    | (Thrown, st') => ∃ k, text_at spaces d k st' ∧ (1 ≤ k ≤ 3)%nat
    | (UndefinedRead, _) => True
    | (FuelExhausted, _) => True
    end.

Definition any_result {A} : A → Prop := λ _, True.

(** ** Modules whose names hold no sentinel *)

Definition clean_function_names (function : FunctionNames) : bool :=
  clean (fn_name function)
  && forallb clean (fn_locals function)
  && forallb clean (fn_labels function).

Definition clean_module_names (names : DisassemblyNames) : bool :=
  forallb clean (names_types names)
  && forallb clean_function_names (names_functions names)
  && forallb clean (names_tables names)
  && forallb clean (names_memories names)
  && forallb clean (names_globals names)
  && forallb clean (names_exceptionTypes names).

(** The number of operators of the functions, and one for each function. *)
Definition codeSize (defs : list FunctionDef) : nat :=
  foldr (λ functionDef n, S (length (def_code functionDef)) + n)%nat 0%nat defs.

(** What the decoder of a linking section copies to its comment holds no byte
    E0: the bytes of the section, the names of the imported functions and
    globals, and the names of the user sections. Nothing is asked of a section
    that is not the linking section. *)
Definition clean_linking (module : ModuleDefs) (userSection : UserSection) : Prop :=
  section_name userSection = "linking" →
  clean_bytes (section_data userSection) = true
  ∧ forallb clean_import (functions_imports (linkingModule module)) = true
  ∧ forallb clean_import (globals_imports (linkingModule module)) = true
  ∧ forallb (λ section, clean (section_name section)) (m_userSections module) = true.

(** The code of the functions has operator texts without a sentinel and fewer
    operators than there are depths, and what a linking section copies to its
    comment has no sentinel. *)
Definition plain_module (module : ModuleDefs) : Prop :=
  Forall (λ functionDef, forallb clean_operator (def_code functionDef) = true)
    (m_functions_defs module)
  ∧ N.of_nat (codeSize (m_functions_defs module)) + 5 < Uptr_modulus
  ∧ Forall (clean_linking module) (m_userSections module).

(** A module with one type, an imported and a defined function, an export, a
    memory, a global, a data segment, a user section and a linking section
    whose decoding throws, and the names that its name section gives. *)
Definition example_module : ModuleDefs :=
  mkModuleDefs
    [mkFunctionSig [IR.i32] [IR.i32; IR.i64]]
    [mkImportOf "env" "f" 0] [] [] [] []
    [mkExport "g" IR.kind_function 1]
    [IR.mkMemoryType false (IR.mkSizeConstraints 1 IR.UINT64_MAX)]
    []
    [mkGlobalDef (IR.mkGlobalType IR.i32 true) (init_i32_const (-1))]
    []
    []
    [mkDataSegment 0 (init_i32_const 0) [x41]]
    UINTPTR_MAX
    [mkFunctionDef 0 [IR.f32]
       [FunctionBodyPrinter.op_block noParametersOrResult;
        FunctionBodyPrinter.op_get_local 0;
        FunctionBodyPrinter.op_br 1;
        FunctionBodyPrinter.op_end;
        FunctionBodyPrinter.op_end] []]
    [mkUserSection "x" [x00]; section_segment_name_plain].

Definition example_disassemblyNames : DisassemblyNames :=
  mkDisassemblyNames ["t"]
    [mkFunctionNames "f" [] []; mkFunctionNames "g" ["a"; "b"; "c"] ["L"]]
    [] ["m"] ["G"] [].


(** * Proofs *)

(** ** Strings *)

Lemma append_cons (c : ascii) (s1 s2 : string) : String c s1 +:+ s2 = String c (s1 +:+ s2).
Proof. reflexivity. Qed.

Lemma append_nil_l (s : string) : "" +:+ s = s.
Proof. reflexivity. Qed.

Lemma append_nil_r (s : string) : s +:+ "" = s.
Proof. induction s as [|c s IH]; [done|]. by rewrite append_cons, IH. Qed.

Lemma append_assoc (s1 s2 s3 : string) : (s1 +:+ s2) +:+ s3 = s1 +:+ (s2 +:+ s3).
Proof. induction s1 as [|c s1 IH]; [done|]. by rewrite !append_cons, IH. Qed.

Lemma chars_append (s1 s2 : string) :
  list_ascii_of_string (s1 +:+ s2) = list_ascii_of_string s1 ++ list_ascii_of_string s2.
Proof. induction s1 as [|c s1 IH]; [done|]. rewrite append_cons. simpl. by rewrite IH. Qed.

(** ** [escapeString] *)

Lemma escapeChar_short_correct (char_is_signed : bool) (c : ascii) :
  escapeChar char_is_signed c = escapeChar_short c.
Proof.
  destruct c as [[] [] [] [] [] [] [] []]; destruct char_is_signed; vm_compute; reflexivity.
Qed.

Lemma escapeString_from_short (char_is_signed : bool) (s result : string) :
  escapeString_from char_is_signed s result = result +:+ escapeString_short s.
Proof.
  revert result. induction s as [|c s IH]; intros result; simpl.
  - by rewrite append_nil_r.
  - by rewrite IH, escapeChar_short_correct, append_assoc.
Qed.

Lemma printableb_spec (c : ascii) : printableb c = true ↔ printable c.
Proof.
  unfold printableb, printable. rewrite andb_true_iff, !N.leb_le. tauto.
Qed.

Lemma escapeChar_short_printable (c : ascii) :
  Forall printable (list_ascii_of_string (escapeChar_short c)).
Proof.
  apply Forall_forall. intros x Hx. apply printableb_spec.
  assert (H : forallb printableb (list_ascii_of_string (escapeChar_short c)) = true)
    by (destruct c as [[] [] [] [] [] [] [] []]; vm_compute; reflexivity).
  rewrite forallb_forall in H. apply H. by apply list_elem_of_In.
Qed.

Lemma escapeString_short_printable (s : string) :
  Forall printable (list_ascii_of_string (escapeString_short s)).
Proof.
  induction s as [|c s IH]; simpl; [constructor|].
  rewrite chars_append. apply Forall_app. split; [apply escapeChar_short_printable | done].
Qed.

Lemma printable_no_sentinel (hay needle : string) (c : ascii) :
  ¬ printable c →
  c ∈ list_ascii_of_string needle →
  Forall printable (list_ascii_of_string hay) →
  ¬ occurs_in needle hay.
Proof.
  intros Hc Hin Hall (before & after & ->).
  rewrite !chars_append in Hall.
  apply Forall_app in Hall as [_ Hall]. apply Forall_app in Hall as [Hall _].
  rewrite Forall_forall in Hall. by apply Hc, Hall.
Qed.

(** C8, as amended. For either signedness of [char] and every input,
    [escapeString] writes a backslash as two backslashes, a double quote as a
    backslash and the quote, a newline as a backslash and the letter n, every
    other byte below 0x20 or above 0x7e as a backslash and its two lowercase
    hexadecimal digits, and copies every other byte unchanged. *)
Theorem escapeString_short_forms (char_is_signed : bool) (s : string) :
  escapeString char_is_signed s = escapeString_short s.
Proof. unfold escapeString. by rewrite escapeString_from_short. Qed.

(** C8, as stated, fails: the backslash, the double quote and the newline are
    not written as a hexadecimal pair. *)
Lemma escapeString_not_hex_pairs :
  escapeString true (string_of_char char_backslash)
    = String char_backslash (String char_backslash "")
  ∧ escapeString_documented (string_of_char char_backslash) = String char_backslash "5c"
  ∧ escapeString true (string_of_char char_quote) = String char_backslash (String char_quote "")
  ∧ escapeString_documented (string_of_char char_quote) = String char_backslash "22"
  ∧ escapeString true (string_of_char char_newline) = String char_backslash "n"
  ∧ escapeString_documented (string_of_char char_newline) = String char_backslash "0a"
  ∧ ¬ (∀ char_is_signed s, escapeString char_is_signed s = escapeString_documented s).
Proof.
  repeat split; try reflexivity.
  intros H. specialize (H true (string_of_char char_backslash)). vm_compute in H. discriminate.
Qed.

(** C10. Every byte of the string that [escapeString] returns is in the
    printable range 0x20 to 0x7e, so neither sentinel occurs in it. *)
Theorem escapeString_printable (char_is_signed : bool) (s : string) :
  Forall printable (list_ascii_of_string (escapeString char_is_signed s))
  ∧ ¬ occurs_in INDENT_STRING (escapeString char_is_signed s)
  ∧ ¬ occurs_in DEDENT_STRING (escapeString char_is_signed s).
Proof.
  assert (Hall : Forall printable (list_ascii_of_string (escapeString char_is_signed s))).
  { unfold escapeString. rewrite escapeString_from_short. apply escapeString_short_printable. }
  assert (Hout : ¬ printable (ascii_of_N 224)).
  { unfold printable. vm_compute. intros [_ H]. by apply H. }
  split; [done|].
  split; apply (printable_no_sentinel _ _ (ascii_of_N 224)); try done;
    vm_compute; apply list_elem_of_here.
Qed.

(** ** [expandIndentation] *)

Lemma Uptr_modulus_value : Uptr_modulus = 18446744073709551616.
Proof. reflexivity. Qed.

Lemma Uptr_incr_small (d : nat) :
  N.of_nat (S d) < Uptr_modulus → Uptr_incr (N.of_nat d) = N.of_nat (S d).
Proof. intros H. unfold Uptr_incr. rewrite N.mod_small; lia. Qed.

Lemma Uptr_decr_succ (d : nat) :
  N.of_nat (S d) < Uptr_modulus → Uptr_decr (N.of_nat (S d)) = N.of_nat d.
Proof.
  intros H. unfold Uptr_decr.
  replace (N.of_nat (S d) + (Uptr_modulus - 1)) with (N.of_nat d + 1 * Uptr_modulus) by lia.
  rewrite N.Div0.mod_add. rewrite N.mod_small; lia.
Qed.

Lemma Uptr_mul_small (x y : N) : x * y < Uptr_modulus → Uptr_mul x y = x * y.
Proof. intros H. unfold Uptr_mul. by rewrite N.mod_small. Qed.

Lemma tokens_two (c c' : ascii) (rest : string) :
  tokens (String c (String c' rest)) =
    if Ascii.eqb c (ascii_of_N 224) && Ascii.eqb c' (ascii_of_N 1)
    then IndentToken :: tokens rest
    else if Ascii.eqb c (ascii_of_N 224) && Ascii.eqb c' (ascii_of_N 2)
    then DedentToken :: tokens rest
    else single_token c :: tokens (String c' rest).
Proof. reflexivity. Qed.

Lemma token_text_single (c : ascii) : token_text (single_token c) = string_of_char c.
Proof. unfold single_token. by destruct (Ascii.eqb_spec c char_newline) as [->|]. Qed.

Lemma tokens_text_tokens (n : nat) (s : string) :
  (String.length s ≤ n)%nat → tokens_text (tokens s) = s.
Proof.
  revert s. induction n as [|n IH]; intros s Hlen.
  - destruct s; [done | simpl in Hlen; lia].
  - destruct s as [|c0 [|c1 rest]]; [done | |].
    + simpl. by rewrite token_text_single.
    + simpl in Hlen. rewrite tokens_two.
      destruct (Ascii.eqb_spec c0 (ascii_of_N 224)) as [->|Hc0]; cbn [andb].
      * destruct (Ascii.eqb_spec c1 (ascii_of_N 1)) as [->|Hc1].
        { cbn [tokens_text token_text]. rewrite IH by lia. done. }
        destruct (Ascii.eqb_spec c1 (ascii_of_N 2)) as [->|Hc2].
        { cbn [tokens_text token_text]. rewrite IH by lia. done. }
        cbn [tokens_text]. rewrite IH by (simpl; lia). by rewrite token_text_single.
      * cbn [tokens_text]. rewrite IH by (simpl; lia). by rewrite token_text_single.
Qed.

Lemma expandIndentation_loop_cons (spaces : N) (c0 : ascii) (rest : string) (depth : N)
    (result : string) :
  expandIndentation_loop spaces (String c0 rest) depth result =
    let c1 := match rest with String c _ => c | EmptyString => char_nul end in
    let rest2 := match rest with String _ r => r | EmptyString => rest end in
    if Ascii.eqb c0 (ascii_of_N 224) && Ascii.eqb c1 (ascii_of_N 1) then
      expandIndentation_loop spaces rest2 (Uptr_incr depth) result
    else if Ascii.eqb c0 (ascii_of_N 224) && Ascii.eqb c1 (ascii_of_N 2) then
      if 0 <? depth
      then expandIndentation_loop spaces rest2 (Uptr_decr depth) result
      else Fatal
    else if Ascii.eqb c0 char_newline then
      expandIndentation_loop spaces rest depth
        (result +:+ string_of_char char_newline
           +:+ string_repeat (N.to_nat (Uptr_mul depth spaces)) char_space)
    else
      expandIndentation_loop spaces rest depth (result +:+ string_of_char c0).
Proof. reflexivity. Qed.

Lemma Outcome_map_compose {A B C} (f : A → B) (g : B → C) (o : Outcome A) :
  Outcome_map g (Outcome_map f o) = Outcome_map (λ x, g (f x)) o.
Proof. by destruct o. Qed.

Lemma Outcome_map_ext {A B} (f g : A → B) (o : Outcome A) :
  (∀ x, f x = g x) → Outcome_map f o = Outcome_map g o.
Proof. intros H. destruct o; simpl; try done. unfold Outcome_map. simpl. by rewrite H. Qed.

(** The text that one character outside a sentinel adds, as the loop and as
    the scan compute it. *)
Lemma expandIndentation_single (n : nat) (c0 : ascii) (rest : string) (d : nat) (result : string) :
  N.of_nat (2 * d) < Uptr_modulus →
  (∀ r, expandIndentation_loop 2 rest (N.of_nat d) r
        = Outcome_map (λ t, r +:+ t) (scan (tokens rest) d)) →
  (if Ascii.eqb c0 char_newline then
     expandIndentation_loop 2 rest (N.of_nat d)
       (result +:+ string_of_char char_newline
          +:+ string_repeat (N.to_nat (Uptr_mul (N.of_nat d) 2)) char_space)
   else expandIndentation_loop 2 rest (N.of_nat d) (result +:+ string_of_char c0))
  = Outcome_map (λ t, result +:+ t) (scan (single_token c0 :: tokens rest) d).
Proof.
  intros Hd IH. unfold single_token.
  destruct (Ascii.eqb c0 char_newline); rewrite IH; cbn [scan].
  - rewrite Uptr_mul_small by lia.
    replace (N.to_nat (N.of_nat d * 2)) with (d * 2)%nat by lia.
    destruct (scan (tokens rest) d); try done.
    unfold Outcome_map. simpl. f_equal.
    by rewrite !append_assoc.
  - destruct (scan (tokens rest) d); try done.
    unfold Outcome_map. simpl. f_equal. by rewrite append_assoc.
Qed.

Lemma expandIndentation_loop_scan (n : nat) :
  ∀ (s : string) (d : nat) (result : string),
    (String.length s ≤ n)%nat →
    N.of_nat (2 * d + String.length s) < Uptr_modulus →
    expandIndentation_loop 2 s (N.of_nat d) result
      = Outcome_map (λ t, result +:+ t) (scan (tokens s) d).
Proof.
  induction n as [|n IH]; intros s d result Hlen Hbound.
  - destruct s; [|simpl in Hlen; lia]. simpl. unfold Outcome_map. simpl.
    by rewrite append_nil_r.
  - destruct s as [|c0 [|c1 rest]].
    + simpl. unfold Outcome_map. simpl. by rewrite append_nil_r.
    + rewrite expandIndentation_loop_cons. cbv zeta.
      replace (Ascii.eqb char_nul (ascii_of_N 1)) with false by reflexivity.
      replace (Ascii.eqb char_nul (ascii_of_N 2)) with false by reflexivity.
      rewrite !andb_false_r.
      change (tokens (String c0 "")) with (single_token c0 :: tokens "").
      apply (expandIndentation_single n); [simpl in Hbound; lia|].
      intros r. apply IH; simpl in *; lia.
    + rewrite expandIndentation_loop_cons, tokens_two. cbv zeta.
      simpl in Hlen, Hbound.
      destruct (Ascii.eqb c0 (ascii_of_N 224) && Ascii.eqb c1 (ascii_of_N 1)).
      { rewrite Uptr_incr_small by lia. cbn [scan]. apply IH; [lia|].
        simpl. lia. }
      destruct (Ascii.eqb c0 (ascii_of_N 224) && Ascii.eqb c1 (ascii_of_N 2)).
      { cbn [scan]. destruct d as [|d]; [done|].
        replace (0 <? N.of_nat (S d)) with true by (symmetry; apply N.ltb_lt; lia).
        rewrite Uptr_decr_succ by lia. apply IH; [lia|]. lia. }
      apply (expandIndentation_single n); [lia|].
      intros r. apply IH; simpl; lia.
Qed.

(** C3. On a string shorter than 2^64 bytes, [expandIndentation] with 2 spaces
    per level is one scan from left to right over the tokens of the input,
    which are the input cut into indent sentinels, dedent sentinels, newlines
    and other bytes: an indent sentinel adds one to the depth, a dedent
    sentinel takes one off and is fatal at depth zero, neither is copied, a
    newline is followed by twice the depth in spaces, and every other byte is
    copied unchanged. *)
Theorem expandIndentation_scan (s : string) :
  N.of_nat (String.length s) < Uptr_modulus →
  tokens_text (tokens s) = s
  ∧ expandIndentation s 2 = scan (tokens s) 0.
Proof.
  intros Hlen. split; [by apply (tokens_text_tokens (String.length s))|].
  unfold expandIndentation.
  change 0 with (N.of_nat 0).
  rewrite (expandIndentation_loop_scan (String.length s)) by (simpl; lia).
  destruct (scan (tokens s) 0); done.
Qed.

Lemma expandIndentation_scan_witness :
  N.of_nat (String.length ("(a" +:+ INDENT_STRING +:+ nl "b" +:+ DEDENT_STRING +:+ nl ")"))
    < Uptr_modulus
  ∧ tokens_text (tokens ("(a" +:+ INDENT_STRING +:+ nl "b" +:+ DEDENT_STRING +:+ nl ")"))
    = "(a" +:+ INDENT_STRING +:+ nl "b" +:+ DEDENT_STRING +:+ nl ")"
  ∧ expandIndentation ("(a" +:+ INDENT_STRING +:+ nl "b" +:+ DEDENT_STRING +:+ nl ")") 2
    = scan (tokens ("(a" +:+ INDENT_STRING +:+ nl "b" +:+ DEDENT_STRING +:+ nl ")")) 0.
Proof.
  split; [vm_compute; reflexivity|].
  apply (expandIndentation_scan ("(a" +:+ INDENT_STRING +:+ nl "b" +:+ DEDENT_STRING +:+ nl ")")).
  vm_compute; reflexivity.
Defined.

(** ** [NameScope] *)

Section NameScopeProofs.
Implicit Types (names : gset string) (scope : NameScope).

Lemma counters_elem (fuel : nat) (count x : N) :
  x ∈ counters fuel (Uptr_incr count) →
  ∃ i : nat, (i < fuel)%nat ∧ x = (count + N.of_nat (S i)) mod Uptr_modulus.
Proof.
  revert count. induction fuel as [|fuel IH]; intros count Hx; simpl in Hx.
  - by apply elem_of_nil in Hx.
  - apply elem_of_cons in Hx as [->|Hx].
    + exists 0%nat. split; [lia|]. unfold Uptr_incr. f_equal.
    + apply IH in Hx as (i & Hi & ->). exists (S i). split; [lia|].
      unfold Uptr_incr.
      replace (count + N.of_nat (S (S i))) with ((count + 1) + N.of_nat (S i)) by lia.
      rewrite (N.Div0.add_mod ((count + 1) mod Uptr_modulus)).
      rewrite N.Div0.mod_mod.
      by rewrite <- N.Div0.add_mod.
Qed.

Lemma counters_fresh (fuel : nat) (count : N) :
  N.of_nat fuel < Uptr_modulus → count ∉ counters fuel (Uptr_incr count).
Proof.
  intros Hfuel Hin. apply counters_elem in Hin as (i & Hi & Heq).
  assert (Hmod : Uptr_modulus = 18446744073709551616) by reflexivity.
  assert (Hlt : count < Uptr_modulus).
  { rewrite Heq. apply N.mod_lt. by rewrite Hmod. }
  destruct (decide (count + N.of_nat (S i) < Uptr_modulus)) as [Hsmall|Hbig].
  - rewrite N.mod_small in Heq by done. lia.
  - replace (count + N.of_nat (S i))
      with ((count + N.of_nat (S i) - Uptr_modulus) + 1 * Uptr_modulus) in Heq by lia.
    rewrite N.Div0.mod_add in Heq. rewrite N.mod_small in Heq by lia. lia.
Qed.

Lemma counters_NoDup (fuel : nat) (count : N) :
  N.of_nat fuel ≤ Uptr_modulus → NoDup (counters fuel count).
Proof.
  revert count. induction fuel as [|fuel IH]; intros count Hfuel; simpl.
  - constructor.
  - constructor; [apply counters_fresh; lia | apply IH; lia].
Qed.

Lemma candidates_NoDup (fuel : nat) (baseName : string) (count : N) :
  N.of_nat fuel ≤ Uptr_modulus → NoDup (candidates fuel baseName count).
Proof.
  intros Hfuel. unfold candidates. apply NoDup_fmap_2; [|by apply counters_NoDup].
  intros c1 c2 Heq. apply (inj (String.append baseName)) in Heq. by apply (inj pretty) in Heq.
Qed.

(** The loop stops at a name outside the set, or it has found every one of its
    candidates in the set. *)
Lemma NameScope_map_loop_cases (fuel : nat) (baseName : string) (count : N) names :
  (∃ name count', NameScope_map_loop fuel baseName count names
                   = Ok (name, count', {[ name ]} ∪ names) ∧ name ∉ names)
  ∨ (NameScope_map_loop fuel baseName count names = OutOfFuel
     ∧ Forall (λ name, name ∈ names) (candidates fuel baseName count)).
Proof.
  revert count. induction fuel as [|fuel IH]; intros count.
  - right. split; [done | constructor].
  - cbn [NameScope_map_loop]. unfold HashSet_add.
    destruct (decide (baseName +:+ pretty count ∈ names)) as [Hin|Hnotin].
    + rewrite bool_decide_eq_false_2 by (intros H; by apply H).
      replace ({[baseName +:+ pretty count]} ∪ names) with names by set_solver.
      destruct (IH (Uptr_incr count)) as [Hok|[Hout Hall]]; [by left|].
      right. split; [done|]. unfold candidates. simpl. by constructor.
    + rewrite bool_decide_eq_true_2 by done. left. eauto.
Qed.

Lemma NameScope_map_loop_terminates (baseName : string) (count : N) names :
  N.of_nat (size names) < Uptr_modulus →
  ∃ name count', NameScope_map_loop (S (size names)) baseName count names
                   = Ok (name, count', {[ name ]} ∪ names) ∧ name ∉ names.
Proof.
  intros Hsize.
  destruct (NameScope_map_loop_cases (S (size names)) baseName count names)
    as [Hok|[_ Hall]]; [done|].
  exfalso.
  assert (Hsub : list_to_set (candidates (S (size names)) baseName count) ⊆ names).
  { intros x Hx. apply elem_of_list_to_set in Hx. rewrite Forall_forall in Hall. by apply Hall. }
  apply subseteq_size in Hsub.
  rewrite size_list_to_set in Hsub by (apply candidates_NoDup; lia).
  unfold candidates in Hsub. rewrite length_fmap in Hsub.
  assert (Hlen : ∀ fuel c, length (counters fuel c) = fuel).
  { induction fuel as [|fuel IHf]; intros c; simpl; [done | by rewrite IHf]. }
  rewrite Hlen in Hsub. lia.
Qed.

(** One call of [map] returns; the name it assigns is the sigil and a name that
    was not in the set, and that name is in the set afterwards. *)
Lemma NameScope_map_fresh scope (name : string) :
  N.of_nat (size (nameSet scope)) < Uptr_modulus →
  ∃ assigned scope',
    NameScope_map scope name = Ok ((String (sigil scope) assigned), scope')
    ∧ (assigned ∉ nameSet scope)
    ∧ nameSet scope' = {[ assigned ]} ∪ nameSet scope
    ∧ sigil scope' = sigil scope.
Proof.
  intros Hsize. unfold NameScope_map.
  destruct (String.length name =? 0)%nat eqn:Hempty.
  - destruct (HashMap_getOrAdd name 0 (nameToUniqueIndexMap scope)) as [count0 map1].
    destruct (NameScope_map_loop_terminates name count0 (nameSet scope) Hsize)
      as (assigned & count' & -> & Hfresh).
    simpl. eauto 10.
  - unfold HashSet_add.
    destruct (decide (name ∈ nameSet scope)) as [Hin|Hnotin].
    + rewrite bool_decide_eq_false_2 by (intros H; by apply H). cbn [negb].
      replace ({[name]} ∪ nameSet scope) with (nameSet scope) by set_solver.
      destruct (HashMap_getOrAdd name 0 (nameToUniqueIndexMap scope)) as [count0 map1].
      destruct (NameScope_map_loop_terminates (name +:+ "_") count0 (nameSet scope) Hsize)
        as (assigned & count' & -> & Hfresh).
      simpl. eauto 10.
    + rewrite bool_decide_eq_true_2 by done. cbn [negb]. eauto 10.
Qed.

Lemma NameScope_map_all_fresh (names : list string) :
  ∀ scope,
    N.of_nat (size (nameSet scope) + length names) < Uptr_modulus →
    ∃ assigned scope',
      NameScope_map_all scope names = Ok (String (sigil scope) <$> assigned, scope')
      ∧ length assigned = length names
      ∧ NoDup assigned
      ∧ (∀ x, x ∈ assigned → x ∉ nameSet scope)
      ∧ nameSet scope' = list_to_set assigned ∪ nameSet scope
      ∧ sigil scope' = sigil scope.
Proof.
  induction names as [|name rest IH]; intros scope Hsize.
  - exists [], scope. simpl. repeat split; try done.
    + constructor.
    + intros x Hx. by apply elem_of_nil in Hx.
    + set_solver.
  - simpl in Hsize.
    destruct (NameScope_map_fresh scope name) as (a & scope1 & Hmap & Hfresh & Hset & Hsigil);
      [lia|].
    assert (Hsize1 : size (nameSet scope1) = S (size (nameSet scope))).
    { rewrite Hset, size_union by set_solver. by rewrite size_singleton. }
    destruct (IH scope1) as (as' & scope2 & Hall & Hlen & Hnodup & Hfresh' & Hset' & Hsigil');
      [lia|].
    exists (a :: as'), scope2.
    cbn [NameScope_map_all]. rewrite Hmap. simpl. rewrite Hall. simpl.
    rewrite Hsigil. repeat split.
    + by rewrite Hlen.
    + constructor; [|done]. intros Hin. apply Hfresh' in Hin. set_solver.
    + intros x Hx. apply elem_of_cons in Hx as [->|Hx]; [done|].
      apply Hfresh' in Hx. set_solver.
    + rewrite Hset', Hset. set_solver.
    + congruence.
Qed.

End NameScopeProofs.

(** C2. Fewer than 2^64 candidate names, with duplicates and empty strings
    among them or not, fed through [NameScope::map] on one new scope: every
    call returns, the names assigned are pairwise distinct, and each is the
    sigil followed by a name. The candidate foo given twice yields $foo and
    then $foo_0. *)
Theorem NameScope_map_distinct (inSigil : ascii) (estimatedNumElements : N)
    (names : list string) :
  N.of_nat (length names) < Uptr_modulus →
  (∃ assigned scope',
     NameScope_map_all (NameScope_new inSigil estimatedNumElements) names = Ok (assigned, scope')
     ∧ length assigned = length names
     ∧ NoDup assigned
     ∧ Forall (λ name, ∃ rest, name = String inSigil rest) assigned)
  ∧ Outcome_map fst (NameScope_map_all (NameScope_new "$" estimatedNumElements) ["foo"; "foo"])
    = Ok ["$foo"; "$foo_0"].
Proof.
  intros Hlen. split; [|by vm_compute].
  destruct (NameScope_map_all_fresh names (NameScope_new inSigil estimatedNumElements))
    as (assigned & scope' & Hall & Hlength & Hnodup & _).
  { cbn [NameScope_new nameSet]. rewrite size_empty. lia. }
  exists (String inSigil <$> assigned), scope'. simpl in Hall.
  split; [done|]. split; [by rewrite length_fmap|]. split.
  - apply NoDup_fmap_2; [|done]. intros x y Heq. by injection Heq.
  - apply Forall_fmap, Forall_forall. intros x _. by exists x.
Qed.

Lemma NameScope_map_distinct_witness :
  N.of_nat (length ["foo"; ""; "foo"; ""; "foo_0"]) < Uptr_modulus
  ∧ (∃ assigned scope',
       NameScope_map_all (NameScope_new "$" 5) ["foo"; ""; "foo"; ""; "foo_0"]
         = Ok (assigned, scope')
       ∧ length assigned = length ["foo"; ""; "foo"; ""; "foo_0"]
       ∧ NoDup assigned
       ∧ Forall (λ name, ∃ rest, name = String "$" rest) assigned).
Proof.
  split; [vm_compute; reflexivity|].
  apply (NameScope_map_distinct "$" 5 ["foo"; ""; "foo"; ""; "foo_0"]).
  vm_compute; reflexivity.
Defined.

(** ** The interner *)

Section InternerProofs.
Variable hashElems : list IR.ValueType → N.
Variable hashCombine : N → N → N.

Abbreviation wf := (interner_wf hashElems hashCombine).
Abbreviation getTuple := (IR.TypeTuple_getUniqueImpl hashElems).
Abbreviation getFunction := (IR.FunctionType_getUniqueImpl hashCombine).
Abbreviation ofSequences := (IR.FunctionType_of_sequences hashElems hashCombine).
Abbreviation register := (IR.register hashElems hashCombine).
Abbreviation registerAll := (IR.registerAll hashElems hashCombine).

Lemma extends_refl (st : IR.TypeInterner) : extends st st.
Proof. by repeat split. Qed.

Lemma extends_trans (st1 st2 st3 : IR.TypeInterner) :
  extends st1 st2 → extends st2 st3 → extends st1 st3.
Proof.
  intros (?&?&?&?) (?&?&?&?). repeat split; by etrans.
Qed.

Lemma tuple_denotes_extends (st st' : IR.TypeInterner) t es :
  extends st st' → tuple_denotes st t es → tuple_denotes st' t es.
Proof.
  intros (HT & HH & _) [Hin Hes]. split; [by apply HT|].
  unfold IR.TypeTuple_elems in *.
  destruct (IR.tupleHeap st !! IR.tuple_impl t) as [impl|] eqn:Hl; [|done].
  by rewrite (lookup_weaken _ _ _ _ Hl HH).
Qed.

Lemma function_denotes_extends (st st' : IR.TypeInterner) f res pars :
  extends st st' → function_denotes st f res pars → function_denotes st' f res pars.
Proof.
  intros Hext (Hin & r & p & Hr & Hp & Hdr & Hdp).
  split; [by apply Hext|]. exists r, p.
  destruct Hext as (HT & HH & HF & HFH).
  unfold IR.FunctionType_results, IR.FunctionType_params in *.
  destruct (IR.functionHeap st !! IR.function_impl f) as [impl|] eqn:Hl; [|done].
  rewrite (lookup_weaken _ _ _ _ Hl HFH).
  assert (Hext : extends st st') by done.
  split; [done|]. split; [done|]. split; by apply (tuple_denotes_extends st).
Qed.

Lemma tupleHashOf_extends (st st' : IR.TypeInterner) t :
  tuples_wf hashElems st → IR.tupleHeap st ⊆ IR.tupleHeap st' →
  t ∈ IR.uniqueTypeTupleSet st →
  IR.tupleHashOf st' t = IR.tupleHashOf st t.
Proof.
  intros [Hok _] HH Hin. destruct (Hok t Hin) as (impl & Hl & _).
  unfold IR.tupleHashOf. by rewrite Hl, (lookup_weaken _ _ _ _ Hl HH).
Qed.

Lemma tupleMatches_true (st : IR.TypeInterner) h es t :
  IR.tupleMatches st h es t = true →
  ∃ impl, IR.tupleHeap st !! IR.tuple_impl t = Some impl
          ∧ IR.tuple_hash impl = h ∧ IR.elems impl = es.
Proof.
  unfold IR.tupleMatches. destruct (IR.tupleHeap st !! IR.tuple_impl t) as [impl|]; [|done].
  intros [Hh He%bool_decide_eq_true]%andb_true_iff. apply N.eqb_eq in Hh. eauto.
Qed.

Lemma functionMatches_true (st : IR.TypeInterner) h r p f :
  IR.functionMatches st h r p f = true →
  ∃ impl, IR.functionHeap st !! IR.function_impl f = Some impl
          ∧ IR.function_hash impl = h ∧ IR.results impl = r ∧ IR.params impl = p.
Proof.
  unfold IR.functionMatches, IR.TypeTuple_eq.
  destruct (IR.functionHeap st !! IR.function_impl f) as [impl|]; [|done].
  intros [[Hh Hr]%andb_true_iff Hp]%andb_true_iff.
  apply N.eqb_eq in Hh, Hr, Hp. exists impl. repeat split; try done.
  - destruct (IR.results impl), r; simpl in *; congruence.
  - destruct (IR.params impl), p; simpl in *; congruence.
Qed.

(** A registration of a sequence keeps the invariant, keeps what was there,
    and returns a canonical handle that stands for the sequence. *)
Lemma getTuple_spec (st : IR.TypeInterner) (es : list IR.ValueType) :
  wf st →
  wf (getTuple st es).2
  ∧ extends st (getTuple st es).2
  ∧ tuple_denotes (getTuple st es).2 (getTuple st es).1 es.
Proof.
  intros [[Hok Huniq] [Hfok Hfuniq]]. unfold IR.TypeTuple_getUniqueImpl.
  destruct (List.find _ _) as [t|] eqn:Hfind; simpl.
  - apply find_some in Hfind as [Hin Hmatch].
    apply tupleMatches_true in Hmatch as (impl & Hl & _ & He).
    split; [done|]. split; [apply extends_refl|].
    split; [by apply list_elem_of_In|]. unfold IR.TypeTuple_elems. rewrite Hl. simpl.
    by rewrite He.
  - set (p := fresh (dom (IR.tupleHeap st))).
    assert (Hp : IR.tupleHeap st !! p = None).
    { apply not_elem_of_dom. apply is_fresh. }
    assert (Hold : ∀ t, t ∈ IR.uniqueTypeTupleSet st → IR.tuple_impl t ≠ p).
    { intros t Hin Heq. destruct (Hok t Hin) as (impl & Hl & _). congruence. }
    assert (Hsub : IR.tupleHeap st ⊆ <[p:=IR.mkTypeTupleImpl (hashElems es)
                     (N.of_nat (length es)) es]> (IR.tupleHeap st)).
    { by apply insert_subseteq. }
    split; [split; split|]; simpl.
    + intros t [Hin| ->%list_elem_of_singleton]%elem_of_app.
      * destruct (Hok t Hin) as (impl & Hl & Hh). exists impl.
        by rewrite lookup_insert_ne by (symmetry; by apply Hold).
      * eexists. simpl. by rewrite lookup_insert_eq.
    + intros t1 t2 impl1 impl2
        [Hin1| ->%list_elem_of_singleton]%elem_of_app
        [Hin2| ->%list_elem_of_singleton]%elem_of_app; simpl.
      * rewrite !lookup_insert_ne by (symmetry; by apply Hold). by apply Huniq.
      * rewrite lookup_insert_ne by (symmetry; by apply Hold).
        rewrite lookup_insert_eq. intros Hl1 [= <-] He. simpl in He. exfalso.
        pose proof (find_none _ _ Hfind t1 (proj1 (list_elem_of_In _ _) Hin1)) as Hno.
        unfold IR.tupleMatches in Hno. rewrite Hl1 in Hno.
        destruct (Hok t1 Hin1) as (impl & Hl & Hh). simplify_eq.
        rewrite Hh, N.eqb_refl, bool_decide_eq_true_2 in Hno by done. done.
      * rewrite lookup_insert_eq.
        rewrite lookup_insert_ne by (symmetry; by apply Hold).
        intros [= <-] Hl2 He. simpl in He. exfalso.
        pose proof (find_none _ _ Hfind t2 (proj1 (list_elem_of_In _ _) Hin2)) as Hno.
        unfold IR.tupleMatches in Hno. rewrite Hl2 in Hno.
        destruct (Hok t2 Hin2) as (impl & Hl & Hh). simplify_eq.
        rewrite Hh, N.eqb_refl, bool_decide_eq_true_2 in Hno by done. done.
      * done.
    + intros f Hin. destruct (Hfok f Hin) as (impl & Hl & Hr & Hpar & Hh).
      exists impl. repeat split; try done; try (apply elem_of_app; by left).
      unfold IR.tupleHashOf in *. simpl.
      destruct (Hok _ Hr) as (ir & Hlr & _). destruct (Hok _ Hpar) as (ip & Hlp & _).
      rewrite !lookup_insert_ne by (symmetry; by apply Hold).
      done.
    + done.
    + split; [|split].
      * repeat split; simpl; try done. intros t Hin. apply elem_of_app. by left.
      * apply elem_of_app. right. by apply list_elem_of_singleton.
      * unfold IR.TypeTuple_elems. simpl. by rewrite lookup_insert_eq.
Qed.

(** A registration of a pair of canonical tuples keeps the invariant, keeps
    what was there, and returns a canonical handle for the pair. *)
Lemma getFunction_spec (st : IR.TypeInterner) (r p : IR.TypeTuple) :
  wf st →
  r ∈ IR.uniqueTypeTupleSet st → p ∈ IR.uniqueTypeTupleSet st →
  wf (getFunction st r p).2
  ∧ extends st (getFunction st r p).2
  ∧ (getFunction st r p).1 ∈ IR.uniqueFunctionTypeSet (getFunction st r p).2
  ∧ IR.FunctionType_results (getFunction st r p).2 (getFunction st r p).1 = Some r
  ∧ IR.FunctionType_params (getFunction st r p).2 (getFunction st r p).1 = Some p.
Proof.
  intros [Htup [Hfok Hfuniq]] Hr Hp. unfold IR.FunctionType_getUniqueImpl.
  destruct (List.find _ _) as [f|] eqn:Hfind; simpl.
  - apply find_some in Hfind as [Hin Hmatch].
    apply functionMatches_true in Hmatch as (impl & Hl & _ & Hres & Hpar).
    split; [done|]. split; [apply extends_refl|].
    split; [by apply list_elem_of_In|].
    unfold IR.FunctionType_results, IR.FunctionType_params. rewrite Hl. simpl.
    by rewrite Hres, Hpar.
  - set (a := fresh (dom (IR.functionHeap st))).
    assert (Ha : IR.functionHeap st !! a = None).
    { apply not_elem_of_dom. apply is_fresh. }
    assert (Hold : ∀ f, f ∈ IR.uniqueFunctionTypeSet st → IR.function_impl f ≠ a).
    { intros f Hin Heq. destruct (Hfok f Hin) as (impl & Hl & _). congruence. }
    split; [split; [done|split]|]; simpl.
    + intros f [Hin| ->%list_elem_of_singleton]%elem_of_app.
      * destruct (Hfok f Hin) as (impl & Hl & Hh). exists impl.
        by rewrite lookup_insert_ne by (symmetry; by apply Hold).
      * eexists. simpl. rewrite lookup_insert_eq. done.
    + intros f1 f2 impl1 impl2
        [Hin1| ->%list_elem_of_singleton]%elem_of_app
        [Hin2| ->%list_elem_of_singleton]%elem_of_app; simpl.
      * rewrite !lookup_insert_ne by (symmetry; by apply Hold). by apply Hfuniq.
      * rewrite lookup_insert_ne by (symmetry; by apply Hold).
        rewrite lookup_insert_eq. intros Hl1 [= <-] Hres Hpar. simpl in Hres, Hpar. exfalso.
        pose proof (find_none _ _ Hfind f1 (proj1 (list_elem_of_In _ _) Hin1)) as Hno.
        unfold IR.functionMatches, IR.TypeTuple_eq in Hno. rewrite Hl1 in Hno.
        destruct (Hfok f1 Hin1) as (impl & Hl & _ & _ & Hh). simplify_eq.
        rewrite Hh, !N.eqb_refl in Hno. done.
      * rewrite lookup_insert_eq.
        rewrite lookup_insert_ne by (symmetry; by apply Hold).
        intros [= <-] Hl2 Hres Hpar. simpl in Hres, Hpar. exfalso.
        pose proof (find_none _ _ Hfind f2 (proj1 (list_elem_of_In _ _) Hin2)) as Hno.
        unfold IR.functionMatches, IR.TypeTuple_eq in Hno. rewrite Hl2 in Hno.
        destruct (Hfok f2 Hin2) as (impl & Hl & _ & _ & Hh). simplify_eq.
        rewrite Hh, !N.eqb_refl in Hno. done.
      * done.
    + split; [|split; [|split]].
      * repeat split; simpl; try done.
        -- intros f Hin. apply elem_of_app. by left.
        -- by apply insert_subseteq.
      * apply elem_of_app. right. by apply list_elem_of_singleton.
      * unfold IR.FunctionType_results. simpl. by rewrite lookup_insert_eq.
      * unfold IR.FunctionType_params. simpl. by rewrite lookup_insert_eq.
Qed.

Lemma ofSequences_spec (st : IR.TypeInterner) (res pars : list IR.ValueType) :
  wf st →
  wf (ofSequences st res pars).2
  ∧ extends st (ofSequences st res pars).2
  ∧ function_denotes (ofSequences st res pars).2 (ofSequences st res pars).1 res pars.
Proof.
  intros Hwf. unfold IR.FunctionType_of_sequences, IR.TypeTuple_make, IR.FunctionType_make.
  destruct (getTuple_spec st res Hwf) as (Hwf1 & Hext1 & Hd1).
  destruct (getTuple st res) as [r st1]. simpl in *.
  destruct (getTuple_spec st1 pars Hwf1) as (Hwf2 & Hext2 & Hd2).
  destruct (getTuple st1 pars) as [p st2]. simpl in *.
  pose proof (tuple_denotes_extends _ _ _ _ Hext2 Hd1) as Hd1'.
  destruct (getFunction_spec st2 r p Hwf2 (proj1 Hd1') (proj1 Hd2))
    as (Hwf3 & Hext3 & Hin & Hres & Hpar).
  split; [done|]. split; [eauto using extends_trans|].
  split; [done|]. exists r, p. split; [done|]. split; [done|].
  split; by apply (tuple_denotes_extends st2).
Qed.

Lemma register_spec (st : IR.TypeInterner) (r : IR.registration) :
  wf st → wf (register st r) ∧ extends st (register st r).
Proof.
  intros Hwf. destruct r as [es|res pars]; simpl.
  - destruct (getTuple_spec st es Hwf) as (? & ? & _). done.
  - destruct (ofSequences_spec st res pars Hwf) as (? & ? & _). done.
Qed.

Lemma registerAll_spec (rs : list IR.registration) :
  ∀ st, wf st → wf (registerAll st rs) ∧ extends st (registerAll st rs).
Proof.
  induction rs as [|r rs IH]; intros st Hwf; simpl.
  - split; [done | apply extends_refl].
  - destruct (register_spec st r Hwf) as [Hwf1 Hext1].
    destruct (IH _ Hwf1) as [Hwf2 Hext2].
    split; [done | by apply (extends_trans _ _ _ Hext1)].
Qed.

Lemma empty_wf : wf IR.TypeInterner_empty.
Proof.
  repeat split; simpl; intros; exfalso; eapply not_elem_of_nil; eassumption.
Qed.

Lemma reachable_wf (st : IR.TypeInterner) : IR.reachable hashElems hashCombine st → wf st.
Proof. intros [rs ->]. apply registerAll_spec, empty_wf. Qed.

(** In a state with the invariant, two canonical handles are the same handle
    exactly when they stand for the same contents. *)
Lemma tuple_denotes_inj (st : IR.TypeInterner) t1 t2 es1 es2 :
  wf st → tuple_denotes st t1 es1 → tuple_denotes st t2 es2 →
  t1 = t2 ↔ es1 = es2.
Proof.
  intros [[Hok Huniq] _] [Hin1 He1] [Hin2 He2]. unfold IR.TypeTuple_elems in *.
  split.
  - intros ->. congruence.
  - intros ->.
    destruct (IR.tupleHeap st !! IR.tuple_impl t1) as [impl1|] eqn:Hl1; [|done].
    destruct (IR.tupleHeap st !! IR.tuple_impl t2) as [impl2|] eqn:Hl2; [|done].
    simpl in *. apply (Huniq t1 t2 impl1 impl2); congruence.
Qed.

Lemma function_denotes_inj (st : IR.TypeInterner) f1 f2 res1 pars1 res2 pars2 :
  wf st → function_denotes st f1 res1 pars1 → function_denotes st f2 res2 pars2 →
  f1 = f2 ↔ res1 = res2 ∧ pars1 = pars2.
Proof.
  intros Hwf (Hin1 & r1 & p1 & Hr1 & Hp1 & Hdr1 & Hdp1)
    (Hin2 & r2 & p2 & Hr2 & Hp2 & Hdr2 & Hdp2).
  split.
  - intros ->. assert (r1 = r2) as -> by congruence. assert (p1 = p2) as -> by congruence.
    split.
    + by apply (tuple_denotes_inj st r2 r2).
    + by apply (tuple_denotes_inj st p2 p2).
  - intros [-> ->].
    assert (r1 = r2) as -> by by apply (tuple_denotes_inj st r1 r2 res2 res2).
    assert (p1 = p2) as -> by by apply (tuple_denotes_inj st p1 p2 pars2 pars2).
    destruct Hwf as [_ [_ Hfuniq]].
    unfold IR.FunctionType_results, IR.FunctionType_params in *.
    destruct (IR.functionHeap st !! IR.function_impl f1) as [impl1|] eqn:Hl1; [|done].
    destruct (IR.functionHeap st !! IR.function_impl f2) as [impl2|] eqn:Hl2; [|done].
    simpl in *. apply (Hfuniq f1 f2 impl1 impl2); congruence.
Qed.

Lemma TypeTuple_eq_true (t1 t2 : IR.TypeTuple) : IR.TypeTuple_eq t1 t2 = true ↔ t1 = t2.
Proof.
  unfold IR.TypeTuple_eq. rewrite N.eqb_eq. destruct t1, t2; simpl. split; congruence.
Qed.

Lemma FunctionType_eq_true (f1 f2 : IR.FunctionType) : IR.FunctionType_eq f1 f2 = true ↔ f1 = f2.
Proof.
  unfold IR.FunctionType_eq. rewrite N.eqb_eq. destruct f1, f2; simpl. split; congruence.
Qed.

End InternerProofs.

(** C1. In any state that registrations have led to, a sequence is registered;
    any registrations by any thread follow, each one step under the lock; a
    second sequence is registered. The two TypeTuple handles are equal under
    [operator==] exactly when the two sequences are equal. The same holds for
    two FunctionTypes and their pairs of result and parameter sequences. *)
Theorem interned_identity (hashElems : list IR.ValueType → N) (hashCombine : N → N → N)
    (st : IR.TypeInterner) (between : list IR.registration)
    (es1 es2 res1 pars1 res2 pars2 : list IR.ValueType) :
  IR.reachable hashElems hashCombine st →
  (let r1 := IR.TypeTuple_make hashElems st es1 in
   let r2 := IR.TypeTuple_make hashElems
               (IR.registerAll hashElems hashCombine r1.2 between) es2 in
   IR.TypeTuple_eq r1.1 r2.1 = true ↔ es1 = es2)
  ∧ (let r1 := IR.FunctionType_of_sequences hashElems hashCombine st res1 pars1 in
     let r2 := IR.FunctionType_of_sequences hashElems hashCombine
                 (IR.registerAll hashElems hashCombine r1.2 between) res2 pars2 in
     IR.FunctionType_eq r1.1 r2.1 = true ↔ res1 = res2 ∧ pars1 = pars2).
Proof.
  intros Hwf%reachable_wf. split; cbv zeta.
  - destruct (getTuple_spec hashElems hashCombine st es1 Hwf) as (Hwf1 & _ & Hd1).
    unfold IR.TypeTuple_make.
    destruct (IR.TypeTuple_getUniqueImpl hashElems st es1) as [t1 st1]. simpl in *.
    destruct (registerAll_spec hashElems hashCombine between st1 Hwf1) as [Hwf2 Hext2].
    destruct (getTuple_spec hashElems hashCombine _ es2 Hwf2) as (Hwf3 & Hext3 & Hd2).
    rewrite TypeTuple_eq_true.
    apply (tuple_denotes_inj hashElems hashCombine _ _ _ _ _ Hwf3); [|done].
    eauto using tuple_denotes_extends.
  - destruct (ofSequences_spec hashElems hashCombine st res1 pars1 Hwf) as (Hwf1 & _ & Hd1).
    destruct (IR.FunctionType_of_sequences hashElems hashCombine st res1 pars1) as [f1 st1].
    simpl in *.
    destruct (registerAll_spec hashElems hashCombine between st1 Hwf1) as [Hwf2 Hext2].
    destruct (ofSequences_spec hashElems hashCombine _ res2 pars2 Hwf2) as (Hwf3 & Hext3 & Hd2).
    rewrite FunctionType_eq_true.
    apply (function_denotes_inj hashElems hashCombine _ _ _ _ _ _ _ Hwf3); [|done].
    eauto using function_denotes_extends.
Qed.

Lemma interned_identity_witness :
  IR.reachable (λ es, N.of_nat (length es)) N.add IR.TypeInterner_empty
  ∧ (IR.TypeTuple_eq
       (IR.TypeTuple_make (λ es, N.of_nat (length es)) IR.TypeInterner_empty [IR.i32; IR.f64]).1
       (IR.TypeTuple_make (λ es, N.of_nat (length es))
          (IR.registerAll (λ es, N.of_nat (length es)) N.add
             (IR.TypeTuple_make (λ es, N.of_nat (length es))
                IR.TypeInterner_empty [IR.i32; IR.f64]).2
             [IR.RegisterTuple [IR.i64; IR.f64]; IR.RegisterFunction [IR.i32] []])
          [IR.i32; IR.f64]).1 = true
     ↔ [IR.i32; IR.f64] = [IR.i32; IR.f64]).
Proof.
  split; [by exists []|].
  apply (interned_identity (λ es, N.of_nat (length es)) N.add IR.TypeInterner_empty
           [IR.RegisterTuple [IR.i64; IR.f64]; IR.RegisterFunction [IR.i32] []]
           [IR.i32; IR.f64] [IR.i32; IR.f64] [] [] [] []).
  by exists [].
Defined.

Lemma FunctionType_of_getEncoding (f : IR.FunctionType) :
  IR.FunctionType_of_Encoding (IR.getEncoding f) = f.
Proof. by destruct f. Qed.

Lemma getEncoding_of_Encoding (encoding : IR.Encoding) :
  IR.getEncoding (IR.FunctionType_of_Encoding encoding) = encoding.
Proof. by destruct encoding. Qed.

(** C9. Let [f] be a canonical FunctionType of a state that registrations have
    led to. The FunctionType made from the encoding of [f] is equal to [f]
    under [operator==], and, as nothing is removed from the interner, it stands
    for the signature of [f] in every later state. *)
Theorem encoding_round_trip (hashElems : list IR.ValueType → N) (hashCombine : N → N → N)
    (st : IR.TypeInterner) (later : list IR.registration) (f : IR.FunctionType)
    (res pars : list IR.ValueType) :
  IR.reachable hashElems hashCombine st →
  function_denotes st f res pars →
  IR.FunctionType_eq (IR.FunctionType_of_Encoding (IR.getEncoding f)) f = true
  ∧ IR.FunctionType_ne (IR.FunctionType_of_Encoding (IR.getEncoding f)) f = false
  ∧ function_denotes (IR.registerAll hashElems hashCombine st later)
      (IR.FunctionType_of_Encoding (IR.getEncoding f)) res pars.
Proof.
  intros Hwf%reachable_wf Hd. rewrite FunctionType_of_getEncoding.
  unfold IR.FunctionType_ne, IR.FunctionType_eq. rewrite N.eqb_refl.
  split; [done|]. split; [done|].
  destruct (registerAll_spec hashElems hashCombine later st Hwf) as [_ Hext].
  by apply (function_denotes_extends st).
Qed.

Lemma encoding_round_trip_witness :
  IR.reachable (λ es, N.of_nat (length es)) N.add
    (IR.FunctionType_of_sequences (λ es, N.of_nat (length es)) N.add
       IR.TypeInterner_empty [IR.i32] [IR.i64; IR.i64]).2
  ∧ IR.FunctionType_eq
      (IR.FunctionType_of_Encoding
         (IR.getEncoding
            (IR.FunctionType_of_sequences (λ es, N.of_nat (length es)) N.add
               IR.TypeInterner_empty [IR.i32] [IR.i64; IR.i64]).1))
      (IR.FunctionType_of_sequences (λ es, N.of_nat (length es)) N.add
         IR.TypeInterner_empty [IR.i32] [IR.i64; IR.i64]).1 = true.
Proof.
  assert (Hreach : IR.reachable (λ es, N.of_nat (length es)) N.add
            (IR.FunctionType_of_sequences (λ es, N.of_nat (length es)) N.add
               IR.TypeInterner_empty [IR.i32] [IR.i64; IR.i64]).2)
    by by exists [IR.RegisterFunction [IR.i32] [IR.i64; IR.i64]].
  split; [done|].
  apply (encoding_round_trip (λ es, N.of_nat (length es)) N.add _
           [IR.RegisterTuple [IR.f32]] _ [IR.i32] [IR.i64; IR.i64] Hreach).
  apply ofSequences_spec, empty_wf.
Defined.

(** ** The printer of function bodies *)

Lemma vector_at_lookup {A} (v : list A) (i : nat) (x : A) :
  v !! i = Some x → vector_at v (N.of_nat i) = Ok x.
Proof.
  intros Hl. unfold vector_at. pose proof (lookup_lt_Some _ _ _ Hl) as Hlt.
  replace (N.of_nat i <? N.of_nat (length v)) with true by (symmetry; apply N.ltb_lt; lia).
  by rewrite Nat2N.id, Hl.
Qed.

Lemma Uptr_sub_small (x y : N) : y ≤ x → x < Uptr_modulus → Uptr_sub x y = x - y.
Proof.
  intros Hle Hlt. unfold Uptr_sub.
  assert (Hmod : Uptr_modulus = 18446744073709551616) by reflexivity.
  rewrite (N.mod_small y) by lia.
  replace (x + (Uptr_modulus - y)) with ((x - y) + 1 * Uptr_modulus) by lia.
  rewrite N.Div0.mod_add. apply N.mod_small. lia.
Qed.

Lemma getBranchTargetId_from_top (ctx : FunctionPrintContext) (depth : N)
    (frame : ControlContext.t) :
  N.of_nat (length (controlStack ctx)) < Uptr_modulus →
  reverse (controlStack ctx) !! N.to_nat depth = Some frame →
  getBranchTargetId ctx depth = Ok (targetText frame depth).
Proof.
  intros Hsize Hframe.
  pose proof (lookup_lt_Some _ _ _ Hframe) as Hlt. rewrite length_reverse in Hlt.
  rewrite reverse_lookup in Hframe by done.
  unfold getBranchTargetId.
  rewrite (Uptr_sub_small (N.of_nat (length (controlStack ctx))) depth) by lia.
  rewrite Uptr_sub_small by lia.
  replace (N.of_nat (length (controlStack ctx)) - depth - 1)
    with (N.of_nat (length (controlStack ctx) - S (N.to_nat depth))) by lia.
  by rewrite (vector_at_lookup _ _ _ Hframe).
Qed.

Lemma emit_controlStack (ctx : FunctionPrintContext) (s : string) :
  controlStack (emit ctx s) = controlStack ctx.
Proof. reflexivity. Qed.

(** What [block] leaves: the label it printed is the label of the new frame,
    and the frames below are as before. *)
Lemma block_frame (ctx ctx1 : FunctionPrintContext) (imm : IndexedBlockType) :
  FunctionBodyPrinter.block ctx imm = Ok ctx1 →
  ∃ label, controlStack ctx1
           = controlStack ctx ++ [ControlContext.mk ControlContext.block label].
Proof.
  unfold FunctionBodyPrinter.block, printControlLabel, printControlSignature.
  destruct (if labelIndex _ <? _ then _ else _) as [labelId0| | |]; try done. simpl.
  destruct (NameScope_map _ labelId0) as [[labelId scope]| | |]; try done. simpl.
  destruct (resolveBlockType _ imm) as [signature| | |]; try done. simpl.
  intros [= <-]. by exists labelId.
Qed.

(** The text that [emit] adds, for two texts in a row and for the empty one. *)
Lemma emit_nil (ctx : FunctionPrintContext) : emit ctx "" = ctx.
Proof. destruct ctx. unfold emit, set_string. simpl. by rewrite append_nil_r. Qed.

Lemma emit_emit (ctx : FunctionPrintContext) (s1 s2 : string) :
  emit (emit ctx s1) s2 = emit ctx (s1 +:+ s2).
Proof. unfold emit, set_string. simpl. by rewrite append_assoc. Qed.

(** [++targetIndex] wraps at a multiple of sixteen, so the place of a target
    on its line is that of its index. *)
Lemma Uptr_incr_mod_16 (i : N) (k : nat) :
  i mod 16 = N.of_nat k mod 16 → Uptr_incr i mod 16 = N.of_nat (S k) mod 16.
Proof.
  intros Hmod. unfold Uptr_incr.
  change Uptr_modulus with (16 * 2 ^ 60).
  rewrite N.Div0.mod_mul_r, (N.mul_comm 16), N.Div0.mod_add, N.Div0.mod_mod.
  rewrite Nat2N.inj_succ, <- N.add_1_r.
  by rewrite (N.Div0.add_mod i), (N.Div0.add_mod (N.of_nat k)), Hmod.
Qed.

(** The loop of [br_table] and [br_table] itself, when every depth of the
    table and the default depth are depths of the control stack. *)
Lemma br_table_targets_text (targets : list (N * ControlContext.t)) :
  ∀ (ctx : FunctionPrintContext) (targetIndex : N) (k : nat),
    N.of_nat (length (controlStack ctx)) < Uptr_modulus →
    targetIndex mod 16 = N.of_nat k mod 16 →
    Forall (λ target, reverse (controlStack ctx) !! N.to_nat target.1 = Some target.2) targets →
    FunctionBodyPrinter.br_table_targets ctx targetIndex targets.*1
    = Ok (emit ctx (tableTargetsText k targets)).
Proof.
  induction targets as [|[depth frame] targets IH]; intros ctx targetIndex k Hsize Hmod Hframes.
  - simpl. by rewrite emit_nil.
  - apply Forall_cons in Hframes as [Hframe Hframes]. simpl in Hframe.
    cbn [fmap list_fmap fst FunctionBodyPrinter.br_table_targets tableTargetsText snd].
    rewrite Hmod.
    set (separator := if N.of_nat k mod 16 =? 0 then string_of_char char_newline else " ").
    replace (if N.of_nat k mod 16 =? 0 then emit ctx (string_of_char char_newline)
             else emit ctx " ") with (emit ctx separator)
      by (unfold separator; by destruct (N.of_nat k mod 16 =? 0)).
    rewrite (getBranchTargetId_from_top (emit ctx separator) depth frame) by done.
    cbn [mbind]. simpl.
    rewrite (IH _ (Uptr_incr targetIndex) (S k)); [|done|by apply Uptr_incr_mod_16|done].
    by rewrite !emit_emit.
Qed.

Lemma br_table_text (ctx : FunctionPrintContext) (branchTableIndex defaultTargetDepth : N)
    (targets : list (N * ControlContext.t)) (defaultFrame : ControlContext.t) :
  N.of_nat (length (controlStack ctx)) < Uptr_modulus →
  vector_at (branchTables ctx) branchTableIndex = Ok targets.*1 →
  Forall (λ target, reverse (controlStack ctx) !! N.to_nat target.1 = Some target.2) targets →
  reverse (controlStack ctx) !! N.to_nat defaultTargetDepth = Some defaultFrame →
  FunctionBodyPrinter.br_table ctx branchTableIndex defaultTargetDepth
  = Ok (emit ctx (nl "br_table" +:+ INDENT_STRING +:+ tableTargetsText 0 targets
                    +:+ string_of_char char_newline
                    +:+ targetText defaultFrame defaultTargetDepth
                    +:+ " ;; default" +:+ DEDENT_STRING)).
Proof.
  intros Hsize Htable Hframes Hdefault. unfold FunctionBodyPrinter.br_table.
  change (branchTables (emit ctx (nl "br_table" +:+ INDENT_STRING))) with (branchTables ctx).
  rewrite Htable. simpl.
  rewrite (br_table_targets_text targets _ 0 0%nat) by done. simpl.
  rewrite (getBranchTargetId_from_top _ defaultTargetDepth defaultFrame) by done. simpl.
  unfold enterUnreachable. by rewrite !emit_emit, !append_assoc.
Qed.

(** C4. The target of a [br], [br_if] or [br_table] with the depth [depth] is
    the frame found [depth] frames down from the top of the control stack; for
    the frame of the function the depth is printed as a number, for any other
    frame its label. [br] and [br_if] print it after their name. [br_table]
    reads the table of its index and prints the target of each depth of the
    table in this way, sixteen to a line, and then on a line of its own the
    target of the default depth, marked as the default. So after a [block]
    whose only enclosing frame is the frame of the function, [br 0] prints the
    label of the block and [br 1] prints 1; with the label L from the name
    section the body block, br 0, br 1, end, end prints [br $L] and [br 1], and
    with the table 0, 1, 0 the body block, br_table with the default 1, end,
    end prints the targets [$L 1 $L] and the default 1. *)
Theorem branch_target_from_top (ctx : FunctionPrintContext) (depth : N)
    (frame : ControlContext.t) (ctx0 ctx1 : FunctionPrintContext) (imm : IndexedBlockType) :
  N.of_nat (length (controlStack ctx)) < Uptr_modulus →
  reverse (controlStack ctx) !! N.to_nat depth = Some frame →
  controlStack ctx0 = [ControlContext.mk ControlContext.function ""] →
  FunctionBodyPrinter.block ctx0 imm = Ok ctx1 →
  (getBranchTargetId ctx depth = Ok (targetText frame depth)
   ∧ FunctionBodyPrinter.br ctx depth = Ok (emit ctx (nl "br " +:+ targetText frame depth))
   ∧ FunctionBodyPrinter.br_if ctx depth
     = Ok (emit ctx (nl "br_if " +:+ targetText frame depth))
   ∧ (∀ targetIndex rest,
        FunctionBodyPrinter.br_table_targets ctx targetIndex (depth :: rest)
        = FunctionBodyPrinter.br_table_targets
            (emit (emit ctx (if targetIndex mod 16 =? 0
                             then string_of_char char_newline else " "))
               (targetText frame depth))
            (Uptr_incr targetIndex) rest)
   ∧ (∀ targetIndex, FunctionBodyPrinter.br_table_targets ctx targetIndex [] = Ok ctx)
   ∧ (∀ (branchTableIndex : N) (targets : list (N * ControlContext.t))
        (defaultTargetDepth : N) (defaultFrame : ControlContext.t),
        vector_at (branchTables ctx) branchTableIndex = Ok targets.*1 →
        Forall (λ target,
                  reverse (controlStack ctx) !! N.to_nat target.1 = Some target.2) targets →
        reverse (controlStack ctx) !! N.to_nat defaultTargetDepth = Some defaultFrame →
        FunctionBodyPrinter.br_table ctx branchTableIndex defaultTargetDepth
        = Ok (emit ctx (nl "br_table" +:+ INDENT_STRING +:+ tableTargetsText 0 targets
                          +:+ string_of_char char_newline
                          +:+ targetText defaultFrame defaultTargetDepth
                          +:+ " ;; default" +:+ DEDENT_STRING))))
  ∧ (∃ label,
       last (controlStack ctx1) = Some (ControlContext.mk ControlContext.block label)
       ∧ FunctionBodyPrinter.br ctx1 0 = Ok (emit ctx1 (nl "br " +:+ label))
       ∧ FunctionBodyPrinter.br ctx1 1 = Ok (emit ctx1 (nl "br 1")))
  ∧ Outcome_map (λ r, string_ r.1)
      (FunctionBodyPrinter.printFunctionBody example_context
         [FunctionBodyPrinter.op_block noParametersOrResult; FunctionBodyPrinter.op_br 0;
          FunctionBodyPrinter.op_br 1; FunctionBodyPrinter.op_end; FunctionBodyPrinter.op_end])
    = Ok (INDENT_STRING +:+ DEDENT_STRING +:+ nl "block $L" +:+ INDENT_STRING
            +:+ nl "br $L" +:+ nl "br 1" +:+ DEDENT_STRING +:+ nl "end ;; $L"
            +:+ DEDENT_STRING +:+ INDENT_STRING +:+ string_of_char char_newline)
  ∧ Outcome_map (λ r, string_ r.1)
      (FunctionBodyPrinter.printFunctionBody example_table_context
         [FunctionBodyPrinter.op_block noParametersOrResult;
          FunctionBodyPrinter.op_br_table 0 1;
          FunctionBodyPrinter.op_end; FunctionBodyPrinter.op_end])
    = Ok (INDENT_STRING +:+ DEDENT_STRING +:+ nl "block $L" +:+ INDENT_STRING
            +:+ nl "br_table" +:+ INDENT_STRING +:+ nl "$L 1 $L" +:+ nl "1 ;; default"
            +:+ DEDENT_STRING +:+ DEDENT_STRING +:+ nl "end ;; $L"
            +:+ DEDENT_STRING +:+ INDENT_STRING +:+ string_of_char char_newline).
Proof.
  intros Hsize Hframe Hstack Hblock.
  pose proof (getBranchTargetId_from_top ctx depth frame Hsize Hframe) as Htarget.
  split; [|split; [|split; by vm_compute]].
  - split; [done|].
    unfold FunctionBodyPrinter.br, FunctionBodyPrinter.br_if.
    rewrite Htarget. split; [done|]. split; [done|]. split; [|split; [done|]].
    + intros targetIndex rest. cbn [FunctionBodyPrinter.br_table_targets].
      destruct (targetIndex mod 16 =? 0).
      * rewrite (getBranchTargetId_from_top _ depth frame) by done. done.
      * rewrite (getBranchTargetId_from_top _ depth frame) by done. done.
    + intros branchTableIndex targets defaultTargetDepth defaultFrame.
      by apply br_table_text.
  - destruct (block_frame ctx0 ctx1 imm Hblock) as [label Hstack1].
    rewrite Hstack in Hstack1. simpl in Hstack1.
    exists label. rewrite Hstack1. split; [done|].
    unfold FunctionBodyPrinter.br.
    rewrite (getBranchTargetId_from_top ctx1 0
               (ControlContext.mk ControlContext.block label))
      by (rewrite Hstack1; try done; vm_compute; done).
    rewrite (getBranchTargetId_from_top ctx1 1
               (ControlContext.mk ControlContext.function ""))
      by (rewrite Hstack1; try done; vm_compute; done).
    done.
Qed.

Lemma branch_target_from_top_witness :
  N.of_nat (length (controlStack example_table_in_block)) < Uptr_modulus
  ∧ reverse (controlStack example_table_in_block) !! N.to_nat 0
    = Some (ControlContext.mk ControlContext.block "$L")
  ∧ controlStack example_table_body_start = [ControlContext.mk ControlContext.function ""]
  ∧ FunctionBodyPrinter.block example_table_body_start noParametersOrResult
    = Ok example_table_in_block
  ∧ FunctionBodyPrinter.br example_table_in_block 0
    = Ok (emit example_table_in_block (nl "br $L"))
  ∧ FunctionBodyPrinter.br_if example_table_in_block 0
    = Ok (emit example_table_in_block (nl "br_if $L"))
  ∧ FunctionBodyPrinter.br_table example_table_in_block 0 1
    = Ok (emit example_table_in_block
            (nl "br_table" +:+ INDENT_STRING +:+ nl "$L 1 $L" +:+ nl "1 ;; default"
               +:+ DEDENT_STRING)).
Proof.
  assert (H1 : N.of_nat (length (controlStack example_table_in_block)) < Uptr_modulus)
    by (vm_compute; reflexivity).
  assert (H2 : reverse (controlStack example_table_in_block) !! N.to_nat 0
               = Some (ControlContext.mk ControlContext.block "$L"))
    by reflexivity.
  assert (H3 : controlStack example_table_body_start
               = [ControlContext.mk ControlContext.function ""])
    by reflexivity.
  assert (H4 : FunctionBodyPrinter.block example_table_body_start noParametersOrResult
               = Ok example_table_in_block)
    by (vm_compute; reflexivity).
  destruct (branch_target_from_top example_table_in_block 0
              (ControlContext.mk ControlContext.block "$L")
              example_table_body_start example_table_in_block noParametersOrResult
              H1 H2 H3 H4)
    as [(_ & Hbr & Hbr_if & _ & _ & Hbr_table) _].
  split; [exact H1|]. split; [exact H2|]. split; [exact H3|]. split; [exact H4|].
  split; [exact Hbr|]. split; [exact Hbr_if|].
  apply (Hbr_table 0
           [(0, ControlContext.mk ControlContext.block "$L");
            (1, ControlContext.mk ControlContext.function "");
            (0, ControlContext.mk ControlContext.block "$L")]
           1 (ControlContext.mk ControlContext.function "")).
  - reflexivity.
  - repeat constructor.
  - reflexivity.
Defined.

Lemma printFunctionBody_loop_run (code : list FunctionBodyPrinter.Operator) :
  ∀ ctx,
    (∃ consumed rest ctx',
        code = consumed ++ rest
        ∧ consumes ctx consumed ctx'
        ∧ (rest = [] ∨ controlStack ctx' = [])
        ∧ FunctionBodyPrinter.printFunctionBody_loop ctx code = Ok (ctx', rest))
    ∨ (∃ consumed op rest ctx',
          code = consumed ++ op :: rest
          ∧ consumes ctx consumed ctx'
          ∧ controlStack ctx' ≠ []
          ∧ failed (FunctionBodyPrinter.decodeOp ctx' op)
          ∧ FunctionBodyPrinter.printFunctionBody_loop ctx code
            = failure_of (FunctionBodyPrinter.decodeOp ctx' op)).
Proof.
  induction code as [|op code IH]; intros ctx.
  - left. exists [], [], ctx. repeat split; [constructor | by left].
  - cbn [FunctionBodyPrinter.printFunctionBody_loop].
    destruct (controlStack ctx) as [|frame stack] eqn:Hstack.
    + left. exists [], (op :: code), ctx. simpl. repeat split; [constructor | by right].
    + simpl. assert (Hne : controlStack ctx ≠ []) by by rewrite Hstack.
      destruct (FunctionBodyPrinter.decodeOp ctx op) as [ctx1| | |] eqn:Hop.
      * destruct (IH ctx1) as [(consumed & rest & ctx' & -> & Hrun & Hend & Hloop)
                              |(consumed & op' & rest & ctx' & -> & Hrun & Hopen & Hfail & Hloop)].
        -- left. exists (op :: consumed), rest, ctx'. simpl. rewrite Hloop.
           repeat split; try done. by apply (consumes_cons _ _ ctx1).
        -- right. exists (op :: consumed), op', rest, ctx'. simpl. rewrite Hloop.
           repeat split; try done. by apply (consumes_cons _ _ ctx1).
      * right. exists [], op, code, ctx. rewrite Hop. repeat split; try done. constructor.
      * right. exists [], op, code, ctx. rewrite Hop. repeat split; try done. constructor.
      * right. exists [], op, code, ctx. rewrite Hop. repeat split; try done. constructor.
Qed.

(** C5, as amended. [printFunctionBody] pushes the frame of the function and
    then takes the operators one by one, each with a frame on the control
    stack, until the stack is empty or the stream is exhausted, whichever
    comes first; the operators after the point where the stack is empty stay
    in the decoder. Unless a handler fails, it then returns normally, also when
    the stream is exhausted with frames open; a failure is that of a handler. *)
Theorem printFunctionBody_stops (ctx : FunctionPrintContext)
    (code : list FunctionBodyPrinter.Operator) :
  (∃ consumed rest ctx',
      code = consumed ++ rest
      ∧ consumes (emit (pushControlStack ctx ControlContext.function "") DEDENT_STRING)
          consumed ctx'
      ∧ (rest = [] ∨ controlStack ctx' = [])
      ∧ FunctionBodyPrinter.printFunctionBody ctx code
        = Ok (emit ctx' (INDENT_STRING +:+ string_of_char char_newline), rest))
  ∨ (∃ consumed op rest ctx',
        code = consumed ++ op :: rest
        ∧ consumes (emit (pushControlStack ctx ControlContext.function "") DEDENT_STRING)
            consumed ctx'
        ∧ controlStack ctx' ≠ []
        ∧ failed (FunctionBodyPrinter.decodeOp ctx' op)
        ∧ FunctionBodyPrinter.printFunctionBody ctx code
          = failure_of (FunctionBodyPrinter.decodeOp ctx' op)).
Proof.
  unfold FunctionBodyPrinter.printFunctionBody.
  destruct (printFunctionBody_loop_run code
              (emit (pushControlStack ctx ControlContext.function "") DEDENT_STRING))
    as [(consumed & rest & ctx' & Hcode & Hrun & Hend & Hloop)
       |(consumed & op & rest & ctx' & Hcode & Hrun & Hopen & Hfail & Hloop)].
  - left. exists consumed, rest, ctx'. rewrite Hloop. done.
  - right. exists consumed, op, rest, ctx'. rewrite Hloop.
    repeat split; try done.
    by destruct (FunctionBodyPrinter.decodeOp ctx' op).
Qed.

(** C5, as stated, fails: the stream block, drop is exhausted with the frames
    of the function and of the block open, and [printFunctionBody] returns
    normally. *)
Lemma printFunctionBody_exhausted_returns :
  (∃ ctx',
     FunctionBodyPrinter.printFunctionBody example_context
       [FunctionBodyPrinter.op_block noParametersOrResult; FunctionBodyPrinter.op_drop]
     = Ok (ctx', [])
     ∧ ControlContext.type <$> controlStack ctx'
       = [ControlContext.function; ControlContext.block])
  ∧ ¬ (∀ ctx code ctx' rest,
         FunctionBodyPrinter.printFunctionBody ctx code = Ok (ctx', rest) →
         controlStack ctx' = []).
Proof.
  assert (Hrun : ∃ ctx',
     FunctionBodyPrinter.printFunctionBody example_context
       [FunctionBodyPrinter.op_block noParametersOrResult; FunctionBodyPrinter.op_drop]
     = Ok (ctx', [])
     ∧ ControlContext.type <$> controlStack ctx'
       = [ControlContext.function; ControlContext.block]).
  { eexists. split; [vm_compute; reflexivity | reflexivity]. }
  split; [done|].
  intros Hclaim. destruct Hrun as (ctx' & Hrun & Hstack).
  apply Hclaim in Hrun. by rewrite Hrun in Hstack.
Qed.

(** ** [catch_] *)

Lemma catch_text (ctx ctx' : FunctionPrintContext) (exceptionTypeIndex : N) :
  FunctionBodyPrinter.catch_ ctx exceptionTypeIndex = Ok ctx' →
  ∃ function,
    vector_at (names_functions (names ctx)) exceptionTypeIndex = Ok function
    ∧ string_ ctx' = (((string_ ctx +:+ DEDENT_STRING) +:+ nl "catch ") +:+ fn_name function)
                       +:+ INDENT_STRING.
Proof.
  unfold FunctionBodyPrinter.catch_, controlStack_set_back_type, controlStack_back.
  rewrite emit_controlStack.
  destruct (last (controlStack ctx)) as [top|]; [|done]. simpl.
  destruct (vector_at _ exceptionTypeIndex) as [function| | |]; try done. simpl.
  intros [= <-]. by exists function.
Qed.

(** C7, on the code. In a module whose function 0 has the display name $f and
    whose exception type 0 has the display name $e, [catch_] with the
    exception type index 0 after a [try] prints [catch $f]: the name comes from
    [names.functions], not from [names.exceptionTypes]. The indent level is
    closed and opened again and the top frame becomes a catch frame. *)
Theorem catch_prints_function_name :
  names_exceptionTypes (names example_context) = ["$e"]
  ∧ fn_name <$> names_functions (names example_context) = ["$f"]
  ∧ Outcome_map (λ r, (string_ r.1, ControlContext.type <$> controlStack r.1))
      (FunctionBodyPrinter.printFunctionBody example_context
         [FunctionBodyPrinter.op_try noParametersOrResult; FunctionBodyPrinter.op_catch 0])
    = Ok (INDENT_STRING +:+ DEDENT_STRING +:+ nl "try" +:+ INDENT_STRING
            +:+ DEDENT_STRING +:+ nl "catch $f" +:+ INDENT_STRING
            +:+ INDENT_STRING +:+ string_of_char char_newline,
          [ControlContext.function; ControlContext.catch_]).
Proof. repeat split. Qed.

(** ** The linking section *)

Section LinkingProofs.
Variable context : ModulePrintContext.

Lemma contained_ret {A} (l : nat) (a : A) : contained l (mret a) l.
Proof. by intros st Hst. Qed.

Lemma contained_bind {A B} (l l1 l2 : nat) (m : Decode A) (k : A → Decode B) :
  contained l m l1 → (∀ a, contained l1 (k a) l2) → contained l (m ≫= k) l2.
Proof.
  intros Hm Hk st Hst. specialize (Hm st Hst).
  unfold mbind, Decode_bind. destruct (m st) as [[a| | |] st']; try done.
  by apply Hk.
Qed.

Lemma contained_append (l : nat) (s : string) : contained l (append s) l.
Proof. by intros st Hst. Qed.

Lemma contained_throw {A} (l l' : nat) : (1 ≤ l ≤ 3)%nat → contained l (throw : Decode A) l'.
Proof. intros Hl st Hst. simpl. by exists l. Qed.

Lemma contained_undefined {A} (l l' : nat) : contained l (undefined : Decode A) l'.
Proof. by intros st Hst. Qed.

Lemma contained_reading {A B} (l l' : nat) (r : option A) (k : A → Decode B) :
  (1 ≤ l ≤ 3)%nat →
  (∀ a, r = Some a → contained l (k a) l') →
  contained l (reading r ≫= k) l'.
Proof.
  intros Hl Hk. destruct r as [a|].
  - intros st Hst. change ((reading (Some a) ≫= k) st) with (k a st). by apply (Hk a).
  - intros st Hst. simpl. by exists l.
Qed.

Lemma contained_indexing {A} (l : nat) (v : list A) (i : N) : contained l (indexing v i) l.
Proof. intros st Hst. unfold indexing. by destruct (vector_at v i). Qed.

Lemma contained_shiftOne (l : nat) (alignment : N) : contained l (shiftOne alignment) l.
Proof.
  intros st Hst. unfold shiftOne. by destruct (alignment <? 31), (alignment =? 31).
Qed.

Lemma contained_openLevel (l : nat) : (l < 3)%nat → contained l openLevel (S l).
Proof.
  intros Hl st Hdepth. unfold at_level in *. simpl.
  rewrite Hdepth, Uptr_incr_small by (rewrite Uptr_modulus_value; lia). lia.
Qed.

Lemma contained_closeLevel (l : nat) : (l < 3)%nat → contained (S l) closeLevel l.
Proof.
  intros Hl st Hdepth. unfold at_level in *. simpl.
  rewrite Hdepth, Uptr_decr_succ by (rewrite Uptr_modulus_value; lia). lia.
Qed.

(** The rules, applied along the structure of a computation. *)
Ltac contained_step :=
  lazymatch goal with
  | |- contained _ (mret _) _ => apply contained_ret
  | |- contained _ (append _) _ => apply contained_append
  | |- contained _ throw _ => apply contained_throw; lia
  | |- contained _ undefined _ => apply contained_undefined
  | |- contained _ (indexing _ _) _ => apply contained_indexing
  | |- contained _ (shiftOne _) _ => apply contained_shiftOne
  | |- contained _ openLevel _ => apply contained_openLevel; lia
  | |- contained _ closeLevel _ => apply contained_closeLevel; lia
  | |- contained _ (reading _ ≫= _) _ =>
      apply contained_reading; [lia | intros [? ?] ?]
  | |- contained _ (_ ≫= _) _ => eapply contained_bind; [|intros ?]
  | |- contained _ (if ?b then _ else _) _ => destruct b
  | |- contained _ (match ?x with _ => _ end) _ => destruct x
  end.

Lemma segmentInfo_loop_contained (numSegments : nat) (substream : MemoryInputStream) :
  contained 2 (segmentInfo_loop numSegments substream) 2.
Proof.
  revert substream. induction numSegments as [|n IH]; intros substream;
    cbn [segmentInfo_loop]; repeat contained_step. apply IH.
Qed.

Lemma segmentInfo_contained (substream : MemoryInputStream) :
  contained 1 (segmentInfo substream) 1.
Proof.
  unfold segmentInfo. repeat contained_step. apply segmentInfo_loop_contained.
Qed.

Lemma initFuncs_loop_contained (numInitFuncs : nat) (substream : MemoryInputStream) :
  contained 2 (initFuncs_loop context numInitFuncs substream) 2.
Proof.
  revert substream. induction numInitFuncs as [|n IH]; intros substream;
    cbn [initFuncs_loop]; repeat contained_step. apply IH.
Qed.

Lemma initFuncs_contained (substream : MemoryInputStream) :
  contained 1 (initFuncs context substream) 1.
Proof.
  unfold initFuncs. repeat contained_step. apply initFuncs_loop_contained.
Qed.

Lemma comdatSymbol_contained (kind index : N) :
  contained 3 (comdatSymbol context kind index) 3.
Proof.
  unfold comdatSymbol.
  destruct kind as [|[[]| |]]; repeat contained_step.
Qed.

Lemma comdatSymbols_loop_contained (numSymbols : nat) (substream : MemoryInputStream) :
  contained 3 (comdatSymbols_loop context numSymbols substream) 3.
Proof.
  revert substream. induction numSymbols as [|n IH]; intros substream;
    cbn [comdatSymbols_loop]; repeat contained_step.
  - apply comdatSymbol_contained.
  - apply IH.
Qed.

Lemma comdatInfo_loop_contained (numComdats : nat) (substream : MemoryInputStream) :
  contained 2 (comdatInfo_loop context numComdats substream) 2.
Proof.
  revert substream. induction numComdats as [|n IH]; intros substream;
    cbn [comdatInfo_loop]; repeat contained_step.
  - apply comdatSymbols_loop_contained.
  - contained_step.
  - apply IH.
Qed.

Lemma comdatInfo_contained (substream : MemoryInputStream) :
  contained 1 (comdatInfo context substream) 1.
Proof.
  unfold comdatInfo. repeat contained_step. apply comdatInfo_loop_contained.
Qed.

Lemma readSymbol_contained (kind : N) (substream : MemoryInputStream) :
  contained 2 (readSymbol context kind substream) 2.
Proof.
  unfold readSymbol.
  destruct kind as [|[[]|[]|]]; repeat contained_step.
Qed.

Lemma printSymbolTarget_contained (kind index : N) :
  contained 2 (printSymbolTarget context kind index) 2.
Proof.
  unfold printSymbolTarget.
  destruct kind as [|[[]|[]|]]; repeat contained_step.
Qed.

Lemma printSymbolFlags_contained (flags : N) : contained 2 (printSymbolFlags flags) 2.
Proof. unfold printSymbolFlags. repeat contained_step. Qed.

Lemma symbolTable_loop_contained (numSymbols : nat) (substream : MemoryInputStream) :
  contained 2 (symbolTable_loop context numSymbols substream) 2.
Proof.
  revert substream. induction numSymbols as [|n IH]; intros substream;
    cbn [symbolTable_loop]; repeat contained_step.
  - apply readSymbol_contained.
  - apply printSymbolTarget_contained.
  - apply printSymbolFlags_contained.
  - apply IH.
Qed.

Lemma symbolTable_contained (substream : MemoryInputStream) :
  contained 1 (symbolTable context substream) 1.
Proof.
  unfold symbolTable. repeat contained_step. apply symbolTable_loop_contained.
Qed.

Lemma subsection_contained (subsectionType : N) (substream : MemoryInputStream) :
  contained 1 (subsection context subsectionType substream) 1.
Proof.
  unfold subsection.
  destruct subsectionType as [|[[[]|[]|]|[[]|[]|]|]]; repeat contained_step;
    auto using segmentInfo_contained, initFuncs_contained, comdatInfo_contained,
      symbolTable_contained.
Qed.

(** The reads take bytes off the stream. *)
Lemma advance_length (stream rest : MemoryInputStream) (numBytes : N) (bytes : list byte) :
  advance stream numBytes = Some (bytes, rest) →
  (length rest + N.to_nat numBytes = length stream)%nat
  ∧ length bytes = N.to_nat numBytes.
Proof.
  unfold advance, capacity. destruct (numBytes <=? _) eqn:Hle; [|done].
  apply N.leb_le in Hle. intros [= <- <-].
  rewrite length_drop, length_take. lia.
Qed.

Lemma serializeNativeValue_U8_length (stream rest : MemoryInputStream) (value : N) :
  serializeNativeValue_U8 stream = Some (value, rest) →
  (S (length rest) = length stream)%nat.
Proof.
  unfold serializeNativeValue_U8.
  destruct (advance stream 1) as [[bytes rest']|] eqn:Hadv; [|done]. simpl.
  apply advance_length in Hadv as [Hlen _].
  destruct bytes as [|b [|]]; try done. intros [= _ <-]. lia.
Qed.

Lemma readVarIntBytes_length (maxBytes : nat) :
  ∀ (stream rest : MemoryInputStream) (bytes : list N),
    readVarIntBytes maxBytes stream = Some (bytes, rest) →
    (length rest ≤ length stream)%nat.
Proof.
  induction maxBytes as [|n IH]; intros stream rest bytes; cbn [readVarIntBytes].
  - by intros [= _ <-].
  - destruct (serializeNativeValue_U8 stream) as [[byte stream1]|] eqn:Hbyte; [|done]. simpl.
    apply serializeNativeValue_U8_length in Hbyte.
    destruct (N.testbit byte 7).
    + destruct (readVarIntBytes n stream1) as [[bytes' stream2]|] eqn:Hrest; [|done]. simpl.
      apply IH in Hrest. intros [= _ <-]. lia.
    + intros [= _ <-]. lia.
Qed.

Lemma serializeVarUInt32_length (stream rest : MemoryInputStream) (value : N) :
  serializeVarUInt32 stream = Some (value, rest) → (length rest ≤ length stream)%nat.
Proof.
  unfold serializeVarUInt32.
  destruct (readVarIntBytes 5 stream) as [[bytes stream']|] eqn:Hread; [|done]. simpl.
  apply readVarIntBytes_length in Hread.
  destruct (N.ldiff _ _ =? 0); [|done]. by intros [= _ <-].
Qed.

(** As every subsection takes a byte, the loop over the subsections has
    fuel enough when it has one unit for each byte of the stream. *)
Lemma subsections_loop_contained (fuel : nat) :
  ∀ stream : MemoryInputStream,
    (length stream ≤ fuel)%nat →
    contained 1 (subsections_loop context fuel stream) 1.
Proof.
  induction fuel as [|fuel IH]; intros stream Hfuel.
  - destruct stream; [|simpl in Hfuel; lia]. simpl. apply contained_ret.
  - cbn [subsections_loop].
    destruct (capacity stream =? 0); [apply contained_ret|].
    apply contained_reading; [lia | intros [subsectionType stream1] Hread1].
    apply contained_reading; [lia | intros [numSubsectionBytes stream2] Hread2].
    apply contained_reading; [lia | intros [bytes stream3] Hread3].
    apply (contained_bind 1 1); [apply subsection_contained | intros _].
    apply IH.
    apply serializeNativeValue_U8_length in Hread1.
    apply serializeVarUInt32_length in Hread2.
    apply advance_length in Hread3 as [Hread3 _]. lia.
Qed.

Lemma linkingSection_try_contained (data : list byte) :
  contained 1 (linkingSection_try context data) 1.
Proof.
  unfold linkingSection_try.
  apply contained_reading; [lia | intros [version stream] Hread].
  apply (contained_bind 1 1); [apply contained_append | intros _].
  apply subsections_loop_contained.
  by apply serializeVarUInt32_length in Hread.
Qed.

Lemma linkingSection_start_level : at_level 1 linkingSection_start.
Proof. reflexivity. Qed.

(** The loop of the handler closes every level but the first. *)
Lemma closeIndentation_closes (fuel : nat) :
  ∀ (k : nat) (st : LinkingState),
    at_level k st → (1 ≤ k ≤ 3)%nat → (k ≤ fuel)%nat →
    closeIndentation fuel st
    = (Returned (),
       mkLinkingState (linkingSectionString st +:+ string_copies (k - 1) DEDENT_STRING) 1).
Proof.
  induction fuel as [|fuel IH]; intros k st Hdepth Hk Hfuel; [lia|].
  unfold at_level in Hdepth. cbn [closeIndentation]. rewrite Hdepth.
  destruct (decide (k = 1%nat)) as [->|Hne].
  - simpl. destruct st as [text depth]. simpl in *.
    by rewrite append_nil_r, Hdepth.
  - replace (1 <? N.of_nat k) with true by (symmetry; apply N.ltb_lt; lia).
    destruct k as [|k]; [lia|].
    pose proof (contained_closeLevel k ltac:(lia) st Hdepth) as Hclose.
    change ((closeLevel ≫= λ _, closeIndentation fuel) st)
      with (closeIndentation fuel (closeLevel st).2).
    simpl in Hclose. rewrite (IH k) by (done || lia). simpl.
    f_equal. f_equal.
    rewrite append_assoc. f_equal.
    destruct k as [|k]; [lia|]. simpl. by rewrite Nat.sub_0_r.
Qed.

Lemma linkingSection_catch_closes (k : nat) (st : LinkingState) :
  at_level k st → (1 ≤ k ≤ 3)%nat →
  linkingSection_catch st
  = (Returned (),
     mkLinkingState
       ((linkingSectionString st +:+ nl "Fatal serialization exception!")
          +:+ string_copies (k - 1) DEDENT_STRING)
       1).
Proof.
  intros Hst Hk.
  change (linkingSection_catch st)
    with (closeIndentation (N.to_nat (indentDepth st))
            (append (nl "Fatal serialization exception!") st).2).
  rewrite (closeIndentation_closes _ k); try done.
  unfold at_level in Hst. rewrite Hst. lia.
Qed.

Lemma printLinkingSection_after_throw (linkingSection : UserSection) (st : LinkingState)
    (k : nat) :
  linkingSection_try context (section_data linkingSection) linkingSection_start
  = (Thrown, st) →
  at_level k st → (1 ≤ k ≤ 3)%nat →
  linkingSection_tried context (section_data linkingSection)
  = (Returned (),
     mkLinkingState
       ((linkingSectionString st +:+ nl "Fatal serialization exception!")
          +:+ string_copies (k - 1) DEDENT_STRING)
       1)
  ∧ printLinkingSection context linkingSection
    = Ok (ctx_string context +:+ failedComment (linkingSectionString st) k).
Proof.
  intros Htry Hst Hk. unfold printLinkingSection, linkingSection_tried. rewrite Htry.
  rewrite (linkingSection_catch_closes k st Hst Hk). simpl.
  split; [done|]. unfold failedComment. by rewrite !append_assoc.
Qed.

End LinkingProofs.

(** For every context and every byte content of a linking section,
    [printLinkingSection] returns or has read outside a vector or shifted by 32
    or more: no exception leaves it, its assertion [indentDepth == 1] holds, and
    the loops of the model have fuel enough. When the [try] block throws, with
    the text [linkingSectionString] and [indentDepth] at [k], then [k] is 1, 2
    or 3 and the comment is that text, the marker, a dedent for each level above
    the first, and the end of the comment; when it returns, [indentDepth] is 1
    and the comment is the text and the end of the comment. *)
Theorem printLinkingSection_returns (context : ModulePrintContext)
    (linkingSection : UserSection) :
  match linkingSection_try context (section_data linkingSection) linkingSection_start with
  | (Returned _, st) =>
      indentDepth st = 1
      ∧ printLinkingSection context linkingSection
        = Ok (ctx_string context +:+ ((linkingSectionString st +:+ DEDENT_STRING) +:+ nl ";)"))
  | (Thrown, st) =>
      ∃ k : nat,
        indentDepth st = N.of_nat k ∧ (1 ≤ k ≤ 3)%nat
        ∧ printLinkingSection context linkingSection
          = Ok (ctx_string context +:+ failedComment (linkingSectionString st) k)
  | (UndefinedRead, _) => printLinkingSection context linkingSection = Undefined
  | (FuelExhausted, _) => False
  end.
Proof.
  pose proof (linkingSection_try_contained context (section_data linkingSection)
                linkingSection_start linkingSection_start_level) as Hcontained.
  destruct (linkingSection_try context (section_data linkingSection) linkingSection_start)
    as [[[]| | |] st] eqn:Htry; [| | |done].
  - split; [done|]. unfold printLinkingSection, linkingSection_tried. rewrite Htry.
    unfold at_level in Hcontained. by rewrite Hcontained.
  - destruct Hcontained as (k & Hst & Hk). exists k. split; [done|]. split; [done|].
    by destruct (printLinkingSection_after_throw context linkingSection st k Htry Hst Hk).
  - unfold printLinkingSection, linkingSection_tried. by rewrite Htry.
Qed.

(** The failures that the decoder raises itself, on the example module: an
    unknown subsection type, an unknown kind of a comdat symbol, a comdat
    function index out of range and an unknown kind of symbol. Each comment
    ends with the marker, one dedent for each level above the first, and the
    end of the comment. *)
Lemma linking_failures_examples :
  printLinkingSection example_module_context section_unknown_subsection
  = Ok ("(module" +:+ INDENT_STRING
          +:+ nl "(; linking section:" +:+ INDENT_STRING
          +:+ nl "Version: 1"
          +:+ nl "Unknown WASM linking subsection type: 99"
          +:+ nl "Fatal serialization exception!"
          +:+ DEDENT_STRING +:+ nl ";)")
  ∧ printLinkingSection example_module_context section_unknown_comdat_kind
    = Ok ("(module" +:+ INDENT_STRING
            +:+ nl "(; linking section:" +:+ INDENT_STRING
            +:+ nl "Version: 1"
            +:+ nl "Comdats:" +:+ INDENT_STRING
            +:+ nl "c" +:+ INDENT_STRING
            +:+ nl "Symbol: " +:+ nl "Unknown comdat kind: 9"
            +:+ nl "Fatal serialization exception!"
            +:+ DEDENT_STRING +:+ DEDENT_STRING +:+ DEDENT_STRING +:+ nl ";)")
  ∧ printLinkingSection example_module_context section_comdat_function_out_of_range
    = Ok ("(module" +:+ INDENT_STRING
            +:+ nl "(; linking section:" +:+ INDENT_STRING
            +:+ nl "Version: 1"
            +:+ nl "Comdats:" +:+ INDENT_STRING
            +:+ nl "c" +:+ INDENT_STRING
            +:+ nl "Symbol: function Invalid COMDAT function index 7"
            +:+ nl "Fatal serialization exception!"
            +:+ DEDENT_STRING +:+ DEDENT_STRING +:+ DEDENT_STRING +:+ nl ";)")
  ∧ printLinkingSection example_module_context section_unknown_symbol_kind
    = Ok ("(module" +:+ INDENT_STRING
            +:+ nl "(; linking section:" +:+ INDENT_STRING
            +:+ nl "Version: 1"
            +:+ nl "Symbols:" +:+ INDENT_STRING
            +:+ nl "Unknown symbol kind: 9"
            +:+ nl "Fatal serialization exception!"
            +:+ DEDENT_STRING +:+ DEDENT_STRING +:+ nl ";)").
Proof. repeat split; vm_compute; reflexivity. Qed.

(** The alignment of a segment is printed as [1 << alignment]: 4 for 2, the
    least [int] for 31, and nothing defined from 32 on. *)
Lemma segment_alignment_examples :
  printLinkingSection example_module_context
    (mkUserSection "linking" [x01; x05; x05; x01; x01; "S"%byte; x02; x00])
  = Ok ("(module" +:+ INDENT_STRING
          +:+ nl "(; linking section:" +:+ INDENT_STRING
          +:+ nl "Version: 1"
          +:+ nl "Segments:" +:+ INDENT_STRING
          +:+ nl "S alignment=4 flags=0" +:+ DEDENT_STRING
          +:+ DEDENT_STRING +:+ nl ";)")
  ∧ printLinkingSection example_module_context
      (mkUserSection "linking" [x01; x05; x05; x01; x01; "S"%byte; x1f; x00])
    = Ok ("(module" +:+ INDENT_STRING
            +:+ nl "(; linking section:" +:+ INDENT_STRING
            +:+ nl "Version: 1"
            +:+ nl "Segments:" +:+ INDENT_STRING
            +:+ nl "S alignment=-2147483648 flags=0" +:+ DEDENT_STRING
            +:+ DEDENT_STRING +:+ nl ";)")
  ∧ printLinkingSection example_module_context
      (mkUserSection "linking" [x01; x05; x05; x01; x01; "S"%byte; x20; x00])
    = Undefined.
Proof. repeat split; vm_compute; reflexivity. Qed.

(** C6. A decode failure that is not contained. The linking section has a
    segment whose name is the two bytes of [DEDENT_STRING], and behind it a
    subsection of the unknown type 99. The decoding throws at that subsection,
    the handler appends the marker, and [printLinkingSection] returns with the
    comment added to the text, for every context. But the name is in the comment
    as it was read, [expandIndentation] takes it for a dedent, the end of the
    comment closes the level of the module, and the closing of the module tag
    fails the test [indentDepth > 0]: [WAST::print] of a module that has only
    this section aborts. With the name S in place of the two bytes the same
    module is printed whole, with the marker in its comment. In the symbol
    table, a function index outside [names.functions] is read without a test,
    where the comdats test it and throw. *)
Theorem linking_failure_aborts_render (char_is_signed : bool)
    (Floats_asString_F32 Floats_asString_F64 : N → string) :
  (∀ context,
     (linkingSection_try context (section_data section_segment_name_dedent)
        linkingSection_start).1 = Thrown
     ∧ printLinkingSection context section_segment_name_dedent
       = Ok (ctx_string context +:+ segment_comment DEDENT_STRING))
  ∧ expandIndentation_default
      ("(module" +:+ INDENT_STRING +:+ segment_comment DEDENT_STRING +:+ DEDENT_STRING +:+ ")")
    = Fatal
  ∧ WAST_print char_is_signed Floats_asString_F32 Floats_asString_F64
      (module_of_section section_segment_name_dedent) no_names
    = Fatal
  ∧ WAST_print char_is_signed Floats_asString_F32 Floats_asString_F64
      (module_of_section section_segment_name_plain) no_names
    = Ok ("(module"
            +:+ nl "  (; linking section:"
            +:+ nl "    Version: 1"
            +:+ nl "    Segments:"
            +:+ nl "      S alignment=1 flags=0"
            +:+ nl "    Unknown WASM linking subsection type: 99"
            +:+ nl "    Fatal serialization exception!"
            +:+ nl "  ;)"
            +:+ ")")
  ∧ printLinkingSection example_module_context section_symbol_function_out_of_range
    = Undefined
  ∧ (linkingSection_try example_module_context
       (section_data section_comdat_function_out_of_range) linkingSection_start).1
    = Thrown.
Proof.
  split; [|repeat split; vm_compute; reflexivity].
  intros context. split; [reflexivity|].
  unfold printLinkingSection.
  let tried := eval vm_compute in
    (linkingSection_tried context (section_data section_segment_name_dedent)) in
  change (linkingSection_tried context (section_data section_segment_name_dedent)) with tried.
  cbn [N.eqb Pos.eqb indentDepth]. do 2 f_equal.
Qed.

(** ** Examples of [expandIndentation] *)

Lemma expandIndentation_examples :
  expandIndentation ("(a" +:+ INDENT_STRING +:+ nl "b" +:+ DEDENT_STRING +:+ nl ")") 2
  = Ok ("(a" +:+ nl "  b" +:+ nl ")")
  ∧ expandIndentation (nl "a" +:+ DEDENT_STRING) 2 = Fatal
  ∧ expandIndentation (string_of_char (ascii_of_N 224)) 2
    = Ok (string_of_char (ascii_of_N 224)).
Proof. repeat split. Qed.

(** The module of the examples with the linking section of the documentation,
    one segment S with the alignment 2 and the flags 0, then a user section. *)
Lemma printUserSections_example :
  Outcome_map (λ c, expandIndentation (ctx_string c +:+ DEDENT_STRING +:+ ")") 2)
    (printUserSections true example_module_context
       [mkUserSection "linking" [x01; x05; x05; x01; x01; "S"%byte; x02; x00];
        mkUserSection "name" [x00];
        mkUserSection "x" [x41; x0a]])
  = Ok (Ok ("(module"
              +:+ nl "  (; linking section:"
              +:+ nl "    Version: 1"
              +:+ nl "    Segments:"
              +:+ nl "      S alignment=4 flags=0"
              +:+ nl "  ;)"
              +:+ nl "  (; User section  " +:+ string_of_char char_quote +:+ "x"
              +:+ string_of_char char_quote +:+ ":"
              +:+ nl "  " +:+ string_of_char char_quote +:+ "A"
              +:+ string_of_char char_backslash +:+ "n" +:+ string_of_char char_quote
              +:+ nl "  ;))")).
Proof. vm_compute. reflexivity. Qed.

(** * Further properties of [Include/IR/Types.h] *)

(** ** The comparisons of the size constraints and of the types built on them *)

Section TypeComparisons.
Import IR.

Lemma SizeConstraints_eq_true (a b : SizeConstraints) :
  SizeConstraints_eq a b = true ↔ a = b.
Proof.
  unfold SizeConstraints_eq. rewrite andb_true_iff, !N.eqb_eq.
  destruct a, b; simpl. split; [intros [-> ->]; done | intros [= -> ->]; done].
Qed.

Lemma SizeConstraints_isSubset_true (super sub : SizeConstraints) :
  SizeConstraints_isSubset super sub = true
  ↔ size_min super ≤ size_min sub ∧ size_max sub ≤ size_max super.
Proof. unfold SizeConstraints_isSubset. by rewrite andb_true_iff, !N.leb_le. Qed.

(** [isSubset] on [SizeConstraints] is a partial order whose equality is
    [operator==]: it is reflexive, transitive and antisymmetric, and
    [operator==] holds exactly of equal constraints. *)
Theorem SizeConstraints_isSubset_order (a b c : SizeConstraints) :
  SizeConstraints_isSubset a a = true
  ∧ (SizeConstraints_isSubset a b = true → SizeConstraints_isSubset b c = true →
     SizeConstraints_isSubset a c = true)
  ∧ (SizeConstraints_isSubset a b = true → SizeConstraints_isSubset b a = true →
     SizeConstraints_eq a b = true)
  ∧ (SizeConstraints_eq a b = true ↔ a = b).
Proof.
  rewrite !SizeConstraints_isSubset_true. split; [lia|]. split; [lia|].
  split; [|apply SizeConstraints_eq_true].
  intros [? ?] [? ?]. apply SizeConstraints_eq_true. destruct a, b; simpl in *.
  f_equal; lia.
Qed.

Lemma SizeConstraints_isSubset_order_witness :
  SizeConstraints_isSubset (mkSizeConstraints 0 UINT64_MAX) (mkSizeConstraints 1 100) = true
  ∧ SizeConstraints_isSubset (mkSizeConstraints 1 100) (mkSizeConstraints 2 50) = true
  ∧ SizeConstraints_isSubset (mkSizeConstraints 0 UINT64_MAX) (mkSizeConstraints 2 50) = true.
Proof.
  split; [reflexivity|]. split; [reflexivity|].
  apply (SizeConstraints_isSubset_order (mkSizeConstraints 0 UINT64_MAX)
           (mkSizeConstraints 1 100) (mkSizeConstraints 2 50)); reflexivity.
Defined.

Lemma SizeConstraints_ne_negb (a b : SizeConstraints) :
  SizeConstraints_ne a b = negb (SizeConstraints_eq a b).
Proof. unfold SizeConstraints_ne, SizeConstraints_eq. by rewrite negb_andb. Qed.

(** [operator!=] is the negation of [operator==] for [SizeConstraints],
    [TableType], [MemoryType] and [GlobalType], though each is written out on
    its own; on [GlobalType], [operator<=] is [operator==] and [operator>] is
    [operator!=]. *)
Theorem operators_ne_negate_eq (s1 s2 : SizeConstraints) (t1 t2 : TableType)
    (m1 m2 : MemoryType) (g1 g2 : GlobalType) :
  SizeConstraints_ne s1 s2 = negb (SizeConstraints_eq s1 s2)
  ∧ TableType_ne t1 t2 = negb (TableType_eq t1 t2)
  ∧ MemoryType_ne m1 m2 = negb (MemoryType_eq m1 m2)
  ∧ GlobalType_ne g1 g2 = negb (GlobalType_eq g1 g2)
  ∧ GlobalType_le g1 g2 = GlobalType_eq g1 g2
  ∧ GlobalType_gt g1 g2 = GlobalType_ne g1 g2.
Proof.
  split; [apply SizeConstraints_ne_negb|].
  split.
  { unfold TableType_ne, TableType_eq. by rewrite !negb_andb, SizeConstraints_ne_negb. }
  split.
  { unfold MemoryType_ne, MemoryType_eq. by rewrite !negb_andb, SizeConstraints_ne_negb. }
  split; [unfold GlobalType_ne, GlobalType_eq; by rewrite negb_andb|].
  split; [done|].
  unfold GlobalType_gt, GlobalType_le, GlobalType_ne. by rewrite negb_andb.
Qed.

Lemma TableType_eq_true (a b : TableType) : TableType_eq a b = true ↔ a = b.
Proof.
  unfold TableType_eq, TableElementType_eqb. simpl.
  rewrite andb_true_iff, Bool.eqb_true_iff, SizeConstraints_eq_true.
  destruct a as [[] ? ?], b as [[] ? ?]; simpl.
  split; [intros [-> ->]; done | intros [= -> ->]; done].
Qed.

Lemma MemoryType_eq_true (a b : MemoryType) : MemoryType_eq a b = true ↔ a = b.
Proof.
  unfold MemoryType_eq. rewrite andb_true_iff, Bool.eqb_true_iff, SizeConstraints_eq_true.
  destruct a, b; simpl. split; [intros [-> ->]; done | intros [= -> ->]; done].
Qed.

Lemma TableType_isSubset_true (super sub : TableType) :
  TableType_isSubset super sub = true
  ↔ table_isShared super = table_isShared sub
    ∧ size_min (table_size super) ≤ size_min (table_size sub)
    ∧ size_max (table_size sub) ≤ size_max (table_size super).
Proof.
  unfold TableType_isSubset, TableElementType_eqb. simpl.
  by rewrite andb_true_iff, Bool.eqb_true_iff, SizeConstraints_isSubset_true.
Qed.

Lemma MemoryType_isSubset_true (super sub : MemoryType) :
  MemoryType_isSubset super sub = true
  ↔ memory_isShared super = memory_isShared sub
    ∧ size_min (memory_size super) ≤ size_min (memory_size sub)
    ∧ size_max (memory_size sub) ≤ size_max (memory_size super).
Proof.
  unfold MemoryType_isSubset.
  by rewrite andb_true_iff, Bool.eqb_true_iff, SizeConstraints_isSubset_true.
Qed.

(** [isSubset] on [TableType] and on [MemoryType] is a partial order whose
    equality is [operator==], and it holds only between types with the same
    sharing flag and with sizes that are subsets. *)
Theorem TableType_MemoryType_isSubset_order (t1 t2 t3 : TableType) (m1 m2 m3 : MemoryType) :
  TableType_isSubset t1 t1 = true
  ∧ (TableType_isSubset t1 t2 = true → TableType_isSubset t2 t3 = true →
     TableType_isSubset t1 t3 = true)
  ∧ (TableType_isSubset t1 t2 = true → TableType_isSubset t2 t1 = true →
     TableType_eq t1 t2 = true)
  ∧ (TableType_isSubset t1 t2 = true →
     table_isShared t1 = table_isShared t2
     ∧ SizeConstraints_isSubset (table_size t1) (table_size t2) = true)
  ∧ MemoryType_isSubset m1 m1 = true
  ∧ (MemoryType_isSubset m1 m2 = true → MemoryType_isSubset m2 m3 = true →
     MemoryType_isSubset m1 m3 = true)
  ∧ (MemoryType_isSubset m1 m2 = true → MemoryType_isSubset m2 m1 = true →
     MemoryType_eq m1 m2 = true)
  ∧ (MemoryType_isSubset m1 m2 = true →
     memory_isShared m1 = memory_isShared m2
     ∧ SizeConstraints_isSubset (memory_size m1) (memory_size m2) = true).
Proof.
  rewrite !TableType_isSubset_true, !MemoryType_isSubset_true.
  rewrite TableType_eq_true, MemoryType_eq_true.
  destruct t1 as [[] sh1 [min1 max1]], t2 as [[] sh2 [min2 max2]],
    t3 as [[] sh3 [min3 max3]], m1 as [msh1 [mmin1 mmax1]], m2 as [msh2 [mmin2 mmax2]],
    m3 as [msh3 [mmin3 mmax3]]; simpl.
  rewrite !SizeConstraints_isSubset_true. simpl.
  repeat split; try lia; try (intros; intuition congruence); try (intros; intuition lia).
  - intros (-> & ? & ?) (_ & ? & ?). do 2 f_equal; lia.
  - intros (-> & ? & ?) (_ & ? & ?). do 2 f_equal; lia.
Qed.

End TypeComparisons.

(** ** The names of the value types and of the tuples *)

Lemma asString_prefix_free (e1 e2 : IR.ValueType) (r1 r2 : string) :
  IR.asString e1 +:+ r1 = IR.asString e2 +:+ r2 → e1 = e2 ∧ r1 = r2.
Proof.
  destruct e1, e2; unfold IR.asString; rewrite ?append_cons, ?append_nil_l;
    intros H; try discriminate H; by simplify_eq.
Qed.

(** [asString] gives distinct value types distinct names: it is injective, and
    no name is the beginning of another name followed by any text. *)
Theorem asString_ValueType_injective (e1 e2 : IR.ValueType) (r1 r2 : string) :
  (IR.asString e1 = IR.asString e2 ↔ e1 = e2)
  ∧ (IR.asString e1 +:+ r1 = IR.asString e2 +:+ r2 ↔ e1 = e2 ∧ r1 = r2).
Proof.
  split.
  - split; [|by intros ->]. intros H.
    apply (asString_prefix_free e1 e2 "" ""). by rewrite !append_nil_r.
  - split; [apply asString_prefix_free | by intros [-> ->]].
Qed.

Lemma asString_elements_further (tupleElems : list IR.ValueType) :
  ∀ (elementIndex : N) (result : string),
    elementIndex ≠ 0 →
    IR.asString_elements elementIndex tupleElems result
    = result +:+ further_elements tupleElems.
Proof.
  induction tupleElems as [|elem rest IH]; intros elementIndex result Hne; simpl.
  - by rewrite append_nil_r.
  - replace (elementIndex =? 0) with false by (symmetry; by apply N.eqb_neq).
    rewrite IH by lia. by rewrite !append_assoc.
Qed.

(** The text of a tuple: the name alone for one element, and otherwise the
    elements between parentheses, separated by a comma and a space. *)
Lemma asString_TypeTuple_text (tupleElems : list IR.ValueType) :
  IR.asString_TypeTuple tupleElems
  = match tupleElems with
    | [] => "()"
    | [elem] => IR.asString elem
    | elem :: rest => "(" +:+ IR.asString elem +:+ further_elements rest +:+ ")"
    end.
Proof.
  destruct tupleElems as [|elem [|elem' rest]]; try reflexivity.
  unfold IR.asString_TypeTuple.
  change (IR.asString_elements 0 (elem :: elem' :: rest) "(")
    with (IR.asString_elements 1 (elem' :: rest) ("(" +:+ IR.asString elem)).
  rewrite asString_elements_further by lia.
  by rewrite !append_assoc.
Qed.

Lemma further_elements_prefix_free (es1 : list IR.ValueType) :
  ∀ (es2 : list IR.ValueType) (r1 r2 : string),
    further_elements es1 +:+ ")" +:+ r1 = further_elements es2 +:+ ")" +:+ r2 →
    es1 = es2 ∧ r1 = r2.
Proof.
  induction es1 as [|e1 es1 IH]; intros [|e2 es2] r1 r2; cbn [further_elements];
    rewrite ?append_assoc, ?append_cons, ?append_nil_l; intros H; try discriminate H.
  - by simplify_eq.
  - injection H as H. apply asString_prefix_free in H as [-> H].
    apply IH in H as [-> ->]. done.
Qed.

Lemma asString_TypeTuple_prefix_free (es1 es2 : list IR.ValueType) (r1 r2 : string) :
  IR.asString_TypeTuple es1 +:+ r1 = IR.asString_TypeTuple es2 +:+ r2 →
  es1 = es2 ∧ r1 = r2.
Proof.
  rewrite !asString_TypeTuple_text.
  assert (Hletter : ∀ e r r', IR.asString e +:+ r ≠ String "(" r').
  { intros [] r r'; unfold IR.asString; rewrite ?append_cons; discriminate. }
  destruct es1 as [|e1 [|e1' es1]], es2 as [|e2 [|e2' es2]];
    rewrite ?append_assoc, ?append_cons, ?append_nil_l; intros H;
    try discriminate H;
    try (exfalso; by eapply Hletter); try (exfalso; symmetry in H; by eapply Hletter).
  - by simplify_eq.
  - injection H as H.
    destruct e2; unfold IR.asString in H; rewrite ?append_cons in H; discriminate H.
  - apply asString_prefix_free in H as [-> ->]. done.
  - injection H as H.
    destruct e1; unfold IR.asString in H; rewrite ?append_cons in H; discriminate H.
  - injection H as H. apply asString_prefix_free in H as [-> H].
    apply (further_elements_prefix_free (e1' :: es1) (e2' :: es2)) in H as [-> ->]. done.
Qed.

(** [asString] gives distinct tuples distinct texts, and the text of a tuple
    is never the beginning of the text of another tuple: a tuple can be read
    back from the front of any text that starts with its [asString]. *)
Theorem asString_TypeTuple_injective (es1 es2 : list IR.ValueType) (r1 r2 : string) :
  (IR.asString_TypeTuple es1 = IR.asString_TypeTuple es2 ↔ es1 = es2)
  ∧ (IR.asString_TypeTuple es1 +:+ r1 = IR.asString_TypeTuple es2 +:+ r2
     ↔ es1 = es2 ∧ r1 = r2).
Proof.
  split.
  - split; [|by intros ->]. intros H.
    apply (asString_TypeTuple_prefix_free es1 es2 "" ""). by rewrite !append_nil_r.
  - split; [apply asString_TypeTuple_prefix_free | by intros [-> ->]].
Qed.

(** [asString] gives distinct signatures distinct texts. *)
Theorem asString_FunctionType_injective (params1 results1 params2 results2 : list IR.ValueType) :
  IR.asString_FunctionType params1 results1 = IR.asString_FunctionType params2 results2
  ↔ params1 = params2 ∧ results1 = results2.
Proof.
  split; [|by intros [-> ->]]. unfold IR.asString_FunctionType. intros H.
  apply asString_TypeTuple_prefix_free in H as [-> H].
  rewrite !append_cons, !append_nil_l in H. injection H as H.
  destruct (asString_TypeTuple_prefix_free results1 results2 "" "") as [-> _]; [|done].
  by rewrite !append_nil_r.
Qed.

(** ** Decimal numbers in texts *)

Lemma string_forallb_append (p : ascii → bool) (s1 s2 : string) :
  string_forallb p (s1 +:+ s2) = string_forallb p s1 && string_forallb p s2.
Proof.
  induction s1 as [|c s1 IH]; [done|]. rewrite append_cons. simpl.
  by rewrite IH, andb_assoc.
Qed.

Lemma string_forallb_impl (p q : ascii → bool) (s : string) :
  (∀ c, p c = true → q c = true) → string_forallb p s = true → string_forallb q s = true.
Proof.
  intros Hpq. induction s as [|c s IH]; [done|]. simpl.
  rewrite !andb_true_iff. intros [Hc Hs]. split; [by apply Hpq | by apply IH].
Qed.

Lemma pretty_N_char_digit (x : N) : is_digit (pretty_N_char x) = true.
Proof. unfold pretty_N_char. repeat case_match; reflexivity. Qed.

Lemma pretty_N_go_digits (x : N) :
  ∀ s, string_forallb is_digit s = true → string_forallb is_digit (pretty_N_go x s) = true.
Proof.
  induction x as [x IH] using (well_founded_induction N.lt_wf_0). intros s Hs.
  destruct (decide (0 < x)) as [Hpos|Hzero].
  - rewrite pretty_N_go_step by done. apply IH.
    + apply N.div_lt; lia.
    + simpl. by rewrite pretty_N_char_digit.
  - replace x with 0 by lia. by rewrite pretty_N_go_0.
Qed.

Lemma pretty_N_go_nonempty (x : N) : ∀ s, s ≠ "" → pretty_N_go x s ≠ "".
Proof.
  induction x as [x IH] using (well_founded_induction N.lt_wf_0). intros s Hs.
  destruct (decide (0 < x)) as [Hpos|Hzero].
  - rewrite pretty_N_go_step by done. apply IH; [apply N.div_lt; lia | done].
  - replace x with 0 by lia. by rewrite pretty_N_go_0.
Qed.

(** [std::to_string] of an unsigned number: decimal digits, at least one. *)
Lemma pretty_N_digits (n : N) : string_forallb is_digit (pretty n) = true.
Proof.
  unfold pretty, pretty_N. case_decide; [done|]. by apply pretty_N_go_digits.
Qed.

Lemma pretty_N_nonempty (n : N) : pretty n ≠ "".
Proof.
  unfold pretty, pretty_N. case_decide; [done|].
  rewrite pretty_N_go_step by lia. by apply pretty_N_go_nonempty.
Qed.

Lemma digit_is_not (c x : ascii) : is_digit c = false → is_digit x = true → is_not c x = true.
Proof.
  intros Hc Hx. unfold is_not. destruct (Ascii.eqb_spec x c) as [->|]; [congruence | done].
Qed.

Lemma pretty_N_without (c : ascii) (n : N) :
  is_digit c = false → string_forallb (is_not c) (pretty n) = true.
Proof.
  intros Hc. apply (string_forallb_impl is_digit); [|apply pretty_N_digits].
  intros x. by apply digit_is_not.
Qed.

(** Two texts that agree, each cut at the first [c]. *)
Lemma append_split_at (c : ascii) (s1 : string) :
  ∀ (s2 r1 r2 : string),
    string_forallb (is_not c) s1 = true → string_forallb (is_not c) s2 = true →
    s1 +:+ String c r1 = s2 +:+ String c r2 → s1 = s2 ∧ r1 = r2.
Proof.
  induction s1 as [|x s1 IH]; intros [|y s2] r1 r2; simpl;
    rewrite ?append_cons, ?append_nil_l, ?andb_true_iff; intros H1 H2 H.
  - by simplify_eq.
  - simplify_eq. destruct H2 as [H2 _]. unfold is_not in H2. by rewrite Ascii.eqb_refl in H2.
  - simplify_eq. destruct H1 as [H1 _]. unfold is_not in H1. by rewrite Ascii.eqb_refl in H1.
  - injection H as -> H. destruct H1 as [_ H1], H2 as [_ H2].
    destruct (IH s2 r1 r2 H1 H2 H) as [-> ->]. done.
Qed.

(** ** The texts of the size constraints and of the types built on them *)

Section TypeTexts.
Import IR.

Lemma asString_SizeConstraints_split (c : SizeConstraints) :
  asString_SizeConstraints c
  = pretty (size_min c)
      +:+ String "." (String "." (if size_max c =? UINT64_MAX then "" else pretty (size_max c))).
Proof. unfold asString_SizeConstraints. by destruct (size_max c =? UINT64_MAX). Qed.

Lemma asString_SizeConstraints_prefix_free (c1 c2 : SizeConstraints) (r1 r2 : string) :
  asString_SizeConstraints c1 +:+ String " " r1 = asString_SizeConstraints c2 +:+ String " " r2 →
  c1 = c2 ∧ r1 = r2.
Proof.
  rewrite !asString_SizeConstraints_split, !append_assoc, !append_cons. intros H.
  apply (append_split_at ".") in H as [Hmin H]; try by apply pretty_N_without.
  apply (inj pretty) in Hmin. injection H as H.
  assert (Htail : ∀ c : SizeConstraints,
            string_forallb (is_not " ")
              (if size_max c =? UINT64_MAX then "" else pretty (size_max c)) = true).
  { intros c. destruct (size_max c =? UINT64_MAX); [done | by apply pretty_N_without]. }
  apply (append_split_at " ") in H as [Hmax ->]; try apply Htail.
  split; [|done]. destruct c1 as [min1 max1], c2 as [min2 max2]; simpl in *. f_equal; [done|].
  destruct (max1 =? UINT64_MAX) eqn:H1, (max2 =? UINT64_MAX) eqn:H2.
  - apply N.eqb_eq in H1, H2. congruence.
  - symmetry in Hmax. by apply pretty_N_nonempty in Hmax.
  - by apply pretty_N_nonempty in Hmax.
  - by apply (inj pretty) in Hmax.
Qed.

Lemma asString_SizeConstraints_inj (c1 c2 : SizeConstraints) :
  asString_SizeConstraints c1 = asString_SizeConstraints c2 → c1 = c2.
Proof.
  intros H.
  destruct (asString_SizeConstraints_prefix_free c1 c2 "" "") as [-> _]; [|done].
  by rewrite H.
Qed.

(** [asString] gives distinct size constraints, table types, memory types and
    global types distinct texts; for the size constraints, the maximum
    [UINT64_MAX] is the one that is left out of the text. *)
Theorem asString_types_injective (s1 s2 : SizeConstraints) (t1 t2 : TableType)
    (m1 m2 : MemoryType) (g1 g2 : GlobalType) :
  (asString_SizeConstraints s1 = asString_SizeConstraints s2 ↔ s1 = s2)
  ∧ (asString_TableType t1 = asString_TableType t2 ↔ t1 = t2)
  ∧ (asString_MemoryType m1 = asString_MemoryType m2 ↔ m1 = m2)
  ∧ (asString_GlobalType g1 = asString_GlobalType g2 ↔ g1 = g2).
Proof.
  split; [split; [apply asString_SizeConstraints_inj | by intros ->]|].
  split; [split; [|by intros ->]|split; (split; [|by intros ->])].
  - unfold asString_TableType. intros H.
    destruct t1 as [[] sh1 size1], t2 as [[] sh2 size2]; simpl in H.
    destruct sh1, sh2; apply asString_SizeConstraints_prefix_free in H as [-> H];
      try discriminate H; done.
  - unfold asString_MemoryType. intros H.
    destruct m1 as [sh1 size1], m2 as [sh2 size2]; simpl in H.
    assert (Hnospace : ∀ c, string_forallb (is_not " ") (asString_SizeConstraints c) = true).
    { intros c. rewrite asString_SizeConstraints_split, string_forallb_append. simpl.
      rewrite pretty_N_without by done.
      destruct (size_max c =? UINT64_MAX); [done | by apply pretty_N_without]. }
    destruct sh1, sh2.
    + apply asString_SizeConstraints_prefix_free in H as [-> _]. done.
    + exfalso. pose proof (Hnospace size2) as Hs. rewrite append_nil_r in H.
      rewrite <- H, string_forallb_append in Hs. simpl in Hs.
      by rewrite andb_false_r in Hs.
    + exfalso. pose proof (Hnospace size1) as Hs. rewrite append_nil_r in H.
      rewrite H, string_forallb_append in Hs. simpl in Hs.
      by rewrite andb_false_r in Hs.
    + rewrite !append_nil_r in H. by apply asString_SizeConstraints_inj in H as ->.
  - unfold asString_GlobalType. intros H.
    destruct g1 as [v1 mut1], g2 as [v2 mut2]; simpl in H.
    destruct mut1, mut2; rewrite ?append_cons, ?append_nil_l in H; try discriminate H.
    + simplify_eq. destruct (asString_prefix_free v1 v2 "" "") as [-> _]; [|done].
      by rewrite !append_nil_r.
    + simplify_eq. destruct (asString_prefix_free v1 v2 "" "") as [-> _]; [|done].
      by rewrite !append_nil_r.
Qed.

End TypeTexts.

(** * Further properties of [Source/WAST/Print.cpp] *)

(** ** [escapeString] over a concatenation, and read back *)

Lemma length_append (s1 s2 : string) :
  String.length (s1 +:+ s2) = (String.length s1 + String.length s2)%nat.
Proof. induction s1 as [|c s1 IH]; [done|]. rewrite append_cons. simpl. by rewrite IH. Qed.

Lemma escapeString_short_append (s1 s2 : string) :
  escapeString_short (s1 +:+ s2) = escapeString_short s1 +:+ escapeString_short s2.
Proof.
  induction s1 as [|c s1 IH]; [done|]. rewrite append_cons. simpl.
  by rewrite IH, append_assoc.
Qed.

Lemma escapeChar_short_length (c : ascii) :
  (1 ≤ String.length (escapeChar_short c) ≤ 3)%nat.
Proof. destruct c as [[] [] [] [] [] [] [] []]; vm_compute; lia. Qed.

Lemma escapeString_short_length (s : string) :
  (String.length s ≤ String.length (escapeString_short s) ≤ 3 * String.length s)%nat.
Proof.
  induction s as [|c s IH]; simpl; [lia|].
  rewrite length_append. pose proof (escapeChar_short_length c). lia.
Qed.

(** [escapeString] does not depend on the text around the characters it is
    given: the escape of a concatenation is the concatenation of the escapes,
    whether [char] is signed or not; each character gives one to three
    characters. *)
Theorem escapeString_append (char_is_signed : bool) (s1 s2 : string) :
  escapeString char_is_signed (s1 +:+ s2)
    = escapeString char_is_signed s1 +:+ escapeString char_is_signed s2
  ∧ escapeString true s1 = escapeString false s1
  ∧ (String.length s1 ≤ String.length (escapeString char_is_signed s1)
     ≤ 3 * String.length s1)%nat.
Proof.
  unfold escapeString. rewrite !escapeString_from_short, !append_nil_l.
  split; [apply escapeString_short_append|]. split; [done|].
  apply escapeString_short_length.
Qed.

Lemma unescape_escapeChar_short (c : ascii) (rest : string) :
  unescape (escapeChar_short c +:+ rest) = String c <$> unescape rest.
Proof. destruct c as [[] [] [] [] [] [] [] []]; reflexivity. Qed.

Lemma unescape_escapeString_short (s : string) : unescape (escapeString_short s) = Some s.
Proof.
  induction s as [|c s IH]; [done|]. simpl.
  by rewrite unescape_escapeChar_short, IH.
Qed.

(** Nothing is lost in [escapeString]: the escaped text, read back escape by
    escape, is the text that was given, so two texts with the same escape are
    the same text. *)
Theorem escapeString_read_back (char_is_signed : bool) (s1 s2 : string) :
  unescape (escapeString char_is_signed s1) = Some s1
  ∧ (escapeString char_is_signed s1 = escapeString char_is_signed s2 ↔ s1 = s2).
Proof.
  assert (Hback : ∀ s, unescape (escapeString char_is_signed s) = Some s).
  { intros s. unfold escapeString. rewrite escapeString_from_short, append_nil_l.
    apply unescape_escapeString_short. }
  split; [apply Hback|]. split; [|by intros ->].
  intros Heq. pose proof (Hback s1) as H1. rewrite Heq, Hback in H1. congruence.
Qed.

(** ** [expandIndentation] by parts *)

Lemma clean_cons (c : ascii) (s : string) :
  clean (String c s) = negb (Ascii.eqb c (ascii_of_N 224)) && clean s.
Proof. reflexivity. Qed.

Lemma clean_append (s1 s2 : string) : clean (s1 +:+ s2) = clean s1 && clean s2.
Proof. apply string_forallb_append. Qed.

Lemma indent_lines_append (n : nat) (s1 s2 : string) :
  indent_lines n (s1 +:+ s2) = indent_lines n s1 +:+ indent_lines n s2.
Proof.
  induction s1 as [|c s1 IH]; [done|]. rewrite append_cons. simpl.
  destruct (Ascii.eqb c char_newline); rewrite IH, ?append_cons, ?append_assoc; done.
Qed.

Lemma indent_lines_zero (t : string) : indent_lines 0 t = t.
Proof.
  induction t as [|c t IH]; [done|]. simpl.
  destruct (Ascii.eqb c char_newline); rewrite ?append_nil_l, IH; done.
Qed.

Lemma expands_nil (spaces d : N) : expands spaces "" d d "".
Proof. intros rest result. by rewrite append_nil_l, append_nil_r. Qed.

Lemma expands_append (spaces : N) (s1 s2 : string) (d d1 d2 : N) (t1 t2 : string) :
  expands spaces s1 d d1 t1 → expands spaces s2 d1 d2 t2 →
  expands spaces (s1 +:+ s2) d d2 (t1 +:+ t2).
Proof.
  intros H1 H2 rest result. by rewrite append_assoc, H1, H2, append_assoc.
Qed.

Lemma expands_clean (spaces d : N) (t : string) :
  clean t = true →
  expands spaces t d d (indent_lines (N.to_nat (Uptr_mul d spaces)) t).
Proof.
  induction t as [|c t IH]; intros Hclean rest result.
  - simpl. by rewrite append_nil_l, append_nil_r.
  - rewrite clean_cons in Hclean. apply andb_true_iff in Hclean as [Hc Ht].
    apply negb_true_iff in Hc.
    rewrite append_cons, expandIndentation_loop_cons. cbv zeta. rewrite Hc. cbn [andb].
    cbn [indent_lines]. destruct (Ascii.eqb_spec c char_newline) as [->|Hnl].
    + rewrite (IH Ht). f_equal. unfold string_of_char.
      by rewrite !append_assoc, !append_cons, !append_nil_l.
    + rewrite (IH Ht). f_equal. unfold string_of_char.
      by rewrite !append_assoc, !append_cons, !append_nil_l.
Qed.

Lemma expands_indent (spaces d : N) : expands spaces INDENT_STRING d (Uptr_incr d) "".
Proof. intros rest result. by rewrite append_nil_r. Qed.

Lemma expands_dedent (spaces d : N) :
  0 < d → expands spaces DEDENT_STRING d (Uptr_decr d) "".
Proof.
  intros Hd rest result. rewrite append_nil_r.
  unfold DEDENT_STRING. rewrite !append_cons, append_nil_l, expandIndentation_loop_cons.
  cbv zeta. replace (0 <? d) with true by (symmetry; by apply N.ltb_lt). done.
Qed.

Lemma expands_all (spaces : N) (s : string) (d' : N) (t : string) :
  expands spaces s 0 d' t → expandIndentation s spaces = Ok t.
Proof.
  intros H. unfold expandIndentation. specialize (H "" "").
  by rewrite append_nil_r, append_nil_l in H.
Qed.

Lemma Uptr_mul_zero (spaces : N) : Uptr_mul 0 spaces = 0.
Proof. reflexivity. Qed.

Lemma escapeString_clean (char_is_signed : bool) (s : string) :
  clean (escapeString char_is_signed s) = true.
Proof.
  unfold escapeString. rewrite escapeString_from_short, append_nil_l.
  induction s as [|c s IH]; [done|]. simpl. rewrite clean_append, IH, andb_true_r.
  destruct c as [[] [] [] [] [] [] [] []]; reflexivity.
Qed.

(** For any number of spaces per level, [expandIndentation] returns a text
    that holds no byte E0 as it is; so it returns every text that
    [escapeString] has made as it is. *)
Theorem expandIndentation_clean (s : string) (spacesPerIndentLevel : N) (char_is_signed : bool) :
  (clean s = true → expandIndentation s spacesPerIndentLevel = Ok s)
  ∧ expandIndentation (escapeString char_is_signed s) spacesPerIndentLevel
    = Ok (escapeString char_is_signed s).
Proof.
  assert (H : ∀ t, clean t = true → expandIndentation t spacesPerIndentLevel = Ok t).
  { intros t Ht. apply (expands_all _ _ 0).
    pose proof (expands_clean spacesPerIndentLevel 0 t Ht) as Hexp.
    by rewrite Uptr_mul_zero, indent_lines_zero in Hexp. }
  split; [apply H|]. apply H, escapeString_clean.
Qed.

Lemma expandIndentation_clean_witness :
  clean "(; a comment ;)" = true ∧ expandIndentation "(; a comment ;)" 7 = Ok "(; a comment ;)".
Proof.
  split; [reflexivity|].
  apply (proj1 (expandIndentation_clean "(; a comment ;)" 7 true)). reflexivity.
Defined.

Lemma plain_cons (c : ascii) (s : string) :
  plain (String c s)
  = negb (Ascii.eqb c (ascii_of_N 224)) && negb (Ascii.eqb c char_newline) && plain s.
Proof. reflexivity. Qed.

Lemma plain_append (s1 s2 : string) : plain (s1 +:+ s2) = plain s1 && plain s2.
Proof. apply string_forallb_append. Qed.

Lemma plain_clean (s : string) : plain s = true → clean s = true.
Proof.
  apply string_forallb_impl. intros c Hc. by apply andb_true_iff in Hc as [Hc _].
Qed.

Lemma indent_lines_plain (n : nat) (s : string) : plain s = true → indent_lines n s = s.
Proof.
  induction s as [|c s IH]; [done|]. rewrite plain_cons, !andb_true_iff.
  intros [[_ Hnl] Hs]. apply negb_true_iff in Hnl. simpl. by rewrite Hnl, IH.
Qed.

Lemma expands_plain (spaces d : N) (t : string) : plain t = true → expands spaces t d d t.
Proof.
  intros Ht. pose proof (expands_clean spaces d t (plain_clean t Ht)) as H.
  by rewrite indent_lines_plain in H.
Qed.

Lemma pretty_N_plain (n : N) : plain (pretty n) = true.
Proof.
  apply (string_forallb_impl is_digit); [|apply pretty_N_digits].
  intros c Hc. rewrite !digit_is_not; done.
Qed.

Lemma asString_plain (type : IR.ValueType) : plain (IR.asString type) = true.
Proof. by destruct type. Qed.

Lemma Uptr_incr_succ (d : N) : d + 1 < Uptr_modulus → Uptr_incr d = d + 1.
Proof. intros H. unfold Uptr_incr. by rewrite N.mod_small. Qed.

Lemma Uptr_decr_pred (d : N) : 0 < d < Uptr_modulus → Uptr_decr d = d - 1.
Proof.
  intros H. unfold Uptr_decr.
  replace (d + (Uptr_modulus - 1)) with (d - 1 + 1 * Uptr_modulus) by lia.
  rewrite N.Div0.mod_add. rewrite N.mod_small; lia.
Qed.

(** ** [ScopedTagPrinter] and the [print] overloads under [expandIndentation] *)

(** A tag, by its text: a parenthesis and the tag at the depth [d], the body
    one level deeper, and the closing parenthesis at the depth [d] again. *)
Lemma tag_text_expands (spaces : N) (tag body : string) (d : N) (t : string) :
  plain tag = true →
  d + 1 < Uptr_modulus →
  expands spaces body (d + 1) (d + 1) t →
  expands spaces ("(" +:+ tag +:+ INDENT_STRING +:+ body +:+ DEDENT_STRING +:+ ")") d d
    ("(" +:+ tag +:+ t +:+ ")").
Proof.
  intros Htag Hd Hbody.
  apply (expands_append _ "(" _ d d d "(" _); [by apply expands_plain|].
  apply (expands_append _ tag _ d d d tag _); [by apply expands_plain|].
  replace (t +:+ ")") with ("" +:+ t +:+ "" +:+ ")") by by rewrite !append_nil_l.
  apply (expands_append _ INDENT_STRING _ d (d + 1) d "" _).
  { rewrite <- (Uptr_incr_succ d) by done. apply expands_indent. }
  apply (expands_append _ body _ (d + 1) (d + 1) d t _); [done|].
  apply (expands_append _ DEDENT_STRING _ (d + 1) d d "" _).
  { replace d with (Uptr_decr (d + 1)) at 2
      by (rewrite Uptr_decr_pred by lia; lia).
    apply expands_dedent. lia. }
  by apply expands_plain.
Qed.

(** What is appended between the constructor and the destructor of a
    [ScopedTagPrinter] is expanded one level deeper than the tag, and the text
    after the closing parenthesis is at the depth of the tag again. *)
Theorem ScopedTagPrinter_expands (spaces : N) (str tag body : string) (d0 d : N)
    (t0 t : string) :
  plain tag = true →
  d + 1 < Uptr_modulus →
  expands spaces str d0 d t0 →
  expands spaces body (d + 1) (d + 1) t →
  expands spaces (ScopedTagPrinter_close (ScopedTagPrinter_open str tag +:+ body)) d0 d
    (t0 +:+ "(" +:+ tag +:+ t +:+ ")").
Proof.
  intros Htag Hd Hstr Hbody. unfold ScopedTagPrinter_close, ScopedTagPrinter_open.
  rewrite !append_assoc.
  apply (expands_append _ str _ d0 d d t0 _); [done|].
  by apply tag_text_expands.
Qed.

Lemma ScopedTagPrinter_expands_witness :
  expandIndentation (ScopedTagPrinter_close (ScopedTagPrinter_open "" "type" +:+ " $t")) 2
  = Ok "(type $t)".
Proof.
  apply (expands_all 2 _ 0).
  apply (ScopedTagPrinter_expands 2 "" "type" " $t" 0 0 "" " $t");
    [reflexivity | reflexivity | apply expands_nil | apply expands_plain; reflexivity].
Defined.

Lemma print_elems_text (str : string) (types : list IR.ValueType) :
  print_elems str types = str +:+ elemsText types.
Proof.
  revert str. induction types as [|type rest IH]; intros str; simpl.
  - by rewrite append_nil_r.
  - rewrite IH. unfold print_ValueType. by rewrite !append_assoc.
Qed.

Lemma elemsText_plain (types : list IR.ValueType) : plain (elemsText types) = true.
Proof.
  induction types as [|type rest IH]; [done|]. simpl.
  by rewrite !plain_append, asString_plain, IH.
Qed.

(** The text that [print] adds for one tuple of a signature, with its tag. *)
Lemma print_tag_expands (spaces : N) (str tag : string) (types : list IR.ValueType)
    (d0 d : N) (t0 : string) :
  plain tag = true →
  d + 1 < Uptr_modulus →
  expands spaces str d0 d t0 →
  expands spaces
    (match types with
     | [] => str
     | _ => ScopedTagPrinter_close (print_elems (ScopedTagPrinter_open str tag) types)
     end) d0 d (t0 +:+ tagText tag types).
Proof.
  intros Htag Hd Hstr. destruct types as [|type rest].
  - simpl. by rewrite append_nil_r.
  - rewrite print_elems_text. unfold tagText, ScopedTagPrinter_close, ScopedTagPrinter_open.
    rewrite !append_assoc.
    apply (expands_append _ str _ d0 d d t0 _); [done|].
    apply tag_text_expands; try done.
    apply expands_plain, elemsText_plain.
Qed.

Lemma print_FunctionType_append (str : string) (functionType : FunctionSig) :
  print_FunctionType str functionType = str +:+ print_FunctionType "" functionType.
Proof.
  unfold print_FunctionType, ScopedTagPrinter_close, ScopedTagPrinter_open.
  rewrite !print_elems_text.
  destruct (sig_params functionType), (sig_results functionType);
    rewrite ?append_nil_r, ?append_nil_l, ?append_assoc; done.
Qed.

Lemma print_FunctionType_tags (spaces : N) (functionType : FunctionSig) (d : N) :
  d + 1 < Uptr_modulus →
  expands spaces (print_FunctionType "" functionType) d d
    (tagText "param" (sig_params functionType)
       +:+ tagText "result" (sig_results functionType)).
Proof.
  intros Hd. unfold print_FunctionType.
  apply (print_tag_expands spaces _ "result" (sig_results functionType) d d); try done.
  rewrite <- (append_nil_l (tagText "param" _)).
  apply (print_tag_expands spaces "" "param" (sig_params functionType) d d); try done.
  apply expands_nil.
Qed.

(** [print] of a signature adds, after the expansion at any depth, its
    parameters in a param tag and its results in a result tag on one line, and
    leaves the depth as it was; what it adds does not depend on the text
    before it. *)
Theorem print_FunctionType_expands (spaces : N) (str : string) (functionType : FunctionSig)
    (d : N) :
  d + 1 < Uptr_modulus →
  print_FunctionType str functionType = str +:+ print_FunctionType "" functionType
  ∧ expands spaces (print_FunctionType "" functionType) d d
      (tagText "param" (sig_params functionType)
         +:+ tagText "result" (sig_results functionType)).
Proof.
  intros Hd. split; [apply print_FunctionType_append | by apply print_FunctionType_tags].
Qed.

Lemma print_FunctionType_expands_witness :
  0 + 1 < Uptr_modulus
  ∧ expandIndentation (print_FunctionType "" (mkFunctionSig [IR.i64] [IR.i32; IR.f32])) 2
    = Ok "(param i32 f32)(result i64)".
Proof.
  split; [reflexivity|].
  apply (expands_all 2 _ 0).
  apply (print_FunctionType_expands 2 "" (mkFunctionSig [IR.i64] [IR.i32; IR.f32]) 0).
  reflexivity.
Defined.

(** The decimal digits at the start of a text: two texts that agree have the
    same number before the first character that is not a digit. *)
Lemma digits_prefix_unique (p1 : string) :
  ∀ (p2 r1 r2 : string),
    string_forallb is_digit p1 = true → string_forallb is_digit p2 = true →
    starts_without_digit r1 = true → starts_without_digit r2 = true →
    p1 +:+ r1 = p2 +:+ r2 → p1 = p2 ∧ r1 = r2.
Proof.
  induction p1 as [|c p1 IH]; intros [|c2 p2] r1 r2 H1 H2 Hr1 Hr2; simpl in H1, H2;
    rewrite ?append_cons, ?append_nil_l; intros H.
  - done.
  - subst r1. simpl in Hr1. apply andb_true_iff in H2 as [H2 _]. by rewrite H2 in Hr1.
  - subst r2. simpl in Hr2. apply andb_true_iff in H1 as [H1 _]. by rewrite H1 in Hr2.
  - injection H as -> H. apply andb_true_iff in H1 as [_ H1], H2 as [_ H2].
    destruct (IH p2 r1 r2 H1 H2 Hr1 Hr2 H) as [-> ->]. done.
Qed.

Lemma pretty_N_prefix_unique (n1 n2 : N) (r1 r2 : string) :
  starts_without_digit r1 = true → starts_without_digit r2 = true →
  pretty n1 +:+ r1 = pretty n2 +:+ r2 → n1 = n2 ∧ r1 = r2.
Proof.
  intros Hr1 Hr2 H.
  apply digits_prefix_unique in H as [H ->]; try done; try apply pretty_N_digits.
  by apply (inj pretty) in H.
Qed.

Lemma pretty_N_not_prefix (n : N) (r1 r2 : string) :
  starts_without_digit r1 = true → starts_without_digit r2 = true →
  pretty n +:+ r1 ≠ r2.
Proof.
  intros Hr1 Hr2 H. rewrite <- (append_nil_l r2) in H.
  apply digits_prefix_unique in H as [H _]; try done; try apply pretty_N_digits.
  by apply pretty_N_nonempty in H.
Qed.

(** The text of [print] for size constraints, as the number and what follows. *)
Lemma print_SizeConstraints_text (str : string) (size : IR.SizeConstraints) :
  print_SizeConstraints str size
  = str +:+ pretty (IR.size_min size)
      +:+ (if IR.size_max size =? IR.UINT64_MAX then ""
           else " " +:+ pretty (IR.size_max size)).
Proof.
  unfold print_SizeConstraints. destruct (IR.size_max size =? IR.UINT64_MAX); simpl.
  - by rewrite append_nil_r.
  - by rewrite !append_assoc.
Qed.

Lemma print_SizeConstraints_prefix_unique (size1 size2 : IR.SizeConstraints) (r1 r2 : string) :
  starts_without_digit r1 = true → starts_without_digit r2 = true →
  r1 ≠ String " " (pretty (IR.size_max size2) +:+ r2) →
  r2 ≠ String " " (pretty (IR.size_max size1) +:+ r1) →
  print_SizeConstraints "" size1 +:+ r1 = print_SizeConstraints "" size2 +:+ r2 →
  size1 = size2 ∧ r1 = r2.
Proof.
  intros Hr1 Hr2 Hne1 Hne2. rewrite !print_SizeConstraints_text, !append_nil_l, !append_assoc.
  destruct size1 as [min1 max1], size2 as [min2 max2]; simpl in *.
  intros H. apply pretty_N_prefix_unique in H as [-> H];
    [|by destruct (max1 =? IR.UINT64_MAX) | by destruct (max2 =? IR.UINT64_MAX)].
  destruct (max1 =? IR.UINT64_MAX) eqn:H1, (max2 =? IR.UINT64_MAX) eqn:H2;
    rewrite ?append_nil_l, ?append_assoc, ?append_cons in H.
  - apply N.eqb_eq in H1, H2. split; [congruence | done].
  - by rewrite append_nil_l in H.
  - symmetry in H. by rewrite append_nil_l in H.
  - rewrite !append_nil_l in H. injection H as H.
    apply pretty_N_prefix_unique in H as [-> ->]; done.
Qed.

Lemma print_SizeConstraints_plain (size : IR.SizeConstraints) :
  plain (print_SizeConstraints "" size) = true.
Proof.
  rewrite print_SizeConstraints_text, append_nil_l, plain_append, pretty_N_plain.
  destruct (IR.size_max size =? IR.UINT64_MAX); [done|].
  by rewrite plain_append, pretty_N_plain.
Qed.

(** [print] gives distinct size constraints, table types, memory types, global
    types and exception types distinct texts; the maximum [UINT64_MAX] is the
    one that is not printed. *)
Theorem print_types_injective (s1 s2 : IR.SizeConstraints) (t1 t2 : IR.TableType)
    (m1 m2 : IR.MemoryType) (g1 g2 : IR.GlobalType) (e1 e2 : list IR.ValueType) :
  (print_SizeConstraints "" s1 = print_SizeConstraints "" s2 ↔ s1 = s2)
  ∧ (print_TableType "" t1 = print_TableType "" t2 ↔ t1 = t2)
  ∧ (print_MemoryType "" m1 = print_MemoryType "" m2 ↔ m1 = m2)
  ∧ (print_GlobalType "" g1 = print_GlobalType "" g2 ↔ g1 = g2)
  ∧ (print_ExceptionType "" e1 = print_ExceptionType "" e2 ↔ e1 = e2).
Proof.
  split; [split; [|by intros ->]|split; [split; [|by intros ->]|split; [split; [|by intros ->]|
    split; (split; [|by intros ->])]]].
  - intros H. destruct (print_SizeConstraints_prefix_unique s1 s2 "" "") as [-> _];
      try done. by rewrite !append_nil_r.
  - unfold print_TableType. destruct t1 as [[] sh1 size1], t2 as [[] sh2 size2]. simpl.
    intros H.
    assert (Hsize : size1 = size2 ∧
              (if sh1 then " shared anyfunc" else " anyfunc")
              = (if sh2 then " shared anyfunc" else " anyfunc")).
    { apply print_SizeConstraints_prefix_unique.
      - by destruct sh1.
      - by destruct sh2.
      - intros Hne. destruct sh1; injection Hne as Hne; symmetry in Hne;
          by apply pretty_N_not_prefix in Hne; [| destruct sh2 |].
      - intros Hne. destruct sh2; injection Hne as Hne; symmetry in Hne;
          by apply pretty_N_not_prefix in Hne; [| destruct sh1 |].
      - destruct sh1, sh2; rewrite ?append_assoc in H; exact H. }
    destruct Hsize as [-> Hsh]. by destruct sh1, sh2.
  - unfold print_MemoryType. destruct m1 as [sh1 size1], m2 as [sh2 size2]. simpl.
    intros H.
    assert (Hsize : size1 = size2 ∧
              (if sh1 then " shared" else "") = (if sh2 then " shared" else "")).
    { apply print_SizeConstraints_prefix_unique.
      - by destruct sh1.
      - by destruct sh2.
      - intros Hne. destruct sh1; [|done]. injection Hne as Hne. symmetry in Hne.
        by apply pretty_N_not_prefix in Hne; [| destruct sh2 |].
      - intros Hne. destruct sh2; [|done]. injection Hne as Hne. symmetry in Hne.
        by apply pretty_N_not_prefix in Hne; [| destruct sh1 |].
      - destruct sh1, sh2; rewrite ?append_nil_r; exact H. }
    destruct Hsize as [-> Hsh]. by destruct sh1, sh2.
  - destruct g1 as [[] []], g2 as [[] []]; intros H; try done; by vm_compute in H.
  - unfold print_ExceptionType. rewrite !print_elems_text, !append_nil_l.
    revert e2. induction e1 as [|x e1 IH]; intros [|y e2]; simpl; try done.
    rewrite !append_cons, !append_nil_l. intros H. injection H as H.
    apply asString_prefix_free in H as [-> H]. by rewrite (IH e2 H).
Qed.

(** What [print] adds for size constraints, for a table type, a memory type, a
    global type and an exception type does not depend on the text before it,
    and [expandIndentation] leaves it as it is at any depth. *)
Theorem print_types_expand (spaces d : N) (str : string) (s : IR.SizeConstraints)
    (t : IR.TableType) (m : IR.MemoryType) (g : IR.GlobalType) (e : list IR.ValueType) :
  (print_SizeConstraints str s = str +:+ print_SizeConstraints "" s
   ∧ expands spaces (print_SizeConstraints "" s) d d (print_SizeConstraints "" s))
  ∧ (print_TableType str t = str +:+ print_TableType "" t
     ∧ expands spaces (print_TableType "" t) d d (print_TableType "" t))
  ∧ (print_MemoryType str m = str +:+ print_MemoryType "" m
     ∧ expands spaces (print_MemoryType "" m) d d (print_MemoryType "" m))
  ∧ (print_GlobalType str g = str +:+ print_GlobalType "" g
     ∧ expands spaces (print_GlobalType "" g) d d (print_GlobalType "" g))
  ∧ (print_ExceptionType str e = str +:+ print_ExceptionType "" e
     ∧ expands spaces (print_ExceptionType "" e) d d (print_ExceptionType "" e)).
Proof.
  assert (Hsize : ∀ str' size,
            print_SizeConstraints str' size = str' +:+ print_SizeConstraints "" size).
  { intros str' size. by rewrite !print_SizeConstraints_text, append_nil_l. }
  repeat split; try apply expands_plain.
  - apply Hsize.
  - apply print_SizeConstraints_plain.
  - unfold print_TableType. rewrite (Hsize str).
    destruct (IR.table_isShared t); by rewrite ?append_assoc.
  - unfold print_TableType.
    destruct (IR.table_isShared t); by rewrite !plain_append, print_SizeConstraints_plain.
  - unfold print_MemoryType. rewrite (Hsize str).
    destruct (IR.memory_isShared m); by rewrite ?append_assoc.
  - unfold print_MemoryType.
    destruct (IR.memory_isShared m); by rewrite ?plain_append, print_SizeConstraints_plain.
  - unfold print_GlobalType, print_ValueType.
    destruct (IR.isMutable g); by rewrite ?append_assoc, ?append_nil_l.
  - unfold print_GlobalType, print_ValueType.
    destruct (IR.isMutable g); by rewrite ?plain_append, ?append_nil_l, asString_plain.
  - unfold print_ExceptionType. by rewrite !print_elems_text, append_nil_l.
  - unfold print_ExceptionType. rewrite print_elems_text, append_nil_l. apply elemsText_plain.
Qed.

(** ** The indentation of a function body *)

Section BodyIndentation.
Variable spaces : N.
Variable start : string.
Variable d0 : N.

Lemma expanded_clean (str s : string) (d : N) :
  expanded spaces start d0 str d → clean s = true →
  expanded spaces start d0 (str +:+ s) d.
Proof.
  intros (body & t & -> & Hexp) Hs. eexists (body +:+ s), _. split; [by rewrite append_assoc|].
  eapply expands_append; [done | by apply expands_clean].
Qed.

Lemma expanded_indent (str : string) (d : N) :
  expanded spaces start d0 str d → d + 1 < Uptr_modulus →
  expanded spaces start d0 (str +:+ INDENT_STRING) (d + 1).
Proof.
  intros (body & t & -> & Hexp) Hd. eexists (body +:+ INDENT_STRING), _.
  split; [by rewrite append_assoc|].
  eapply expands_append; [done|]. rewrite <- (Uptr_incr_succ d) by done. apply expands_indent.
Qed.

Lemma expanded_dedent (str : string) (d : N) :
  expanded spaces start d0 str d → 0 < d < Uptr_modulus →
  expanded spaces start d0 (str +:+ DEDENT_STRING) (d - 1).
Proof.
  intros (body & t & -> & Hexp) Hd. eexists (body +:+ DEDENT_STRING), _.
  split; [by rewrite append_assoc|].
  eapply expands_append; [done|]. rewrite <- (Uptr_decr_pred d) by done.
  apply expands_dedent. lia.
Qed.

Lemma expanded_signature (str : string) (signature : FunctionSig) (d : N) :
  expanded spaces start d0 str d → d + 1 < Uptr_modulus →
  expanded spaces start d0 (print_FunctionType str signature) d.
Proof.
  intros (body & t & -> & Hexp) Hd.
  rewrite print_FunctionType_append.
  eexists (body +:+ _), _. split; [by rewrite append_assoc|].
  eapply expands_append; [done | by apply print_FunctionType_tags].
Qed.

Lemma expanded_indent_to (str : string) (d d' : N) :
  expanded spaces start d0 str d → d' = d + 1 → d' < Uptr_modulus →
  expanded spaces start d0 (str +:+ INDENT_STRING) d'.
Proof. intros H -> Hd. by apply expanded_indent. Qed.

Lemma expanded_dedent_to (str : string) (d d' : N) :
  expanded spaces start d0 str d → d = d' + 1 → d < Uptr_modulus →
  expanded spaces start d0 (str +:+ DEDENT_STRING) d'.
Proof.
  intros H -> Hd. pose proof (expanded_dedent str (d' + 1) H) as Hded.
  replace (d' + 1 - 1) with d' in Hded by lia. apply Hded. lia.
Qed.

End BodyIndentation.

Lemma last_removelast {A} (l : list A) (x : A) : last l = Some x → l = removelast l ++ [x].
Proof.
  induction l as [|y l IH]; [done|]. destruct l as [|z l].
  - simpl. by intros [= ->].
  - intros H. change (last (y :: z :: l)) with (last (z :: l)) in H.
    change (removelast (y :: z :: l)) with (y :: removelast (z :: l)).
    simpl. f_equal. by apply IH.
Qed.

Lemma vector_at_elem {A} (v : list A) (i : N) (x : A) : vector_at v i = Ok x → x ∈ v.
Proof.
  unfold vector_at. destruct (i <? N.of_nat (length v)); [|done].
  destruct (v !! N.to_nat i) eqn:Hlookup; [|done]. intros [= ->].
  by eapply list_elem_of_lookup_2.
Qed.

Lemma forallb_elem {A} (p : A → bool) (l : list A) (x : A) :
  forallb p l = true → x ∈ l → p x = true.
Proof. rewrite forallb_forall. intros H Hx. by apply H, list_elem_of_In. Qed.

Lemma NameScope_map_loop_name (fuel : nat) (baseName : string) :
  ∀ (count : N) (names : gset string) name count' names',
    NameScope_map_loop fuel baseName count names = Ok (name, count', names') →
    ∃ k : N, name = baseName +:+ pretty k.
Proof.
  induction fuel as [|fuel IH]; intros count names name count' names'; [done|].
  cbn [NameScope_map_loop]. destruct (HashSet_add _ names) as [[] names1].
  - intros [= <- _ _]. by eexists.
  - apply IH.
Qed.

(** The name that [NameScope::map] assigns is the sigil, the name given and,
    for a name that was taken or empty, an underscore and a number. *)
Lemma NameScope_map_name (scope : NameScope) (name name' : string) (scope' : NameScope) :
  NameScope_map scope name = Ok (name', scope') →
  sigil scope' = sigil scope
  ∧ (name' = String (sigil scope) name
     ∨ ∃ k : N, name' = String (sigil scope)
                      ((if (String.length name =? 0)%nat then name else name +:+ "_")
                         +:+ pretty k)).
Proof.
  unfold NameScope_map.
  destruct (if (String.length name =? 0)%nat then _ else _) as [[] names1].
  - destruct (HashMap_getOrAdd name 0 (nameToUniqueIndexMap scope)) as [count0 map1].
    destruct (NameScope_map_loop _ _ count0 names1) as [[[n c] ns]| | |] eqn:Hloop;
      simpl; try done.
    intros [= <- <-]. split; [done|]. right.
    apply NameScope_map_loop_name in Hloop as [k ->]. by exists k.
  - intros [= <- <-]. split; [done|]. by left.
Qed.

Lemma NameScope_map_clean (scope : NameScope) (name name' : string) (scope' : NameScope) :
  NameScope_map scope name = Ok (name', scope') →
  clean (string_of_char (sigil scope)) = true → clean name = true →
  clean name' = true ∧ sigil scope' = sigil scope.
Proof.
  intros Hmap Hsigil Hname. apply NameScope_map_name in Hmap as [Hs Hcases].
  split; [|done]. unfold string_of_char in Hsigil. rewrite clean_cons in Hsigil.
  apply andb_true_iff in Hsigil as [Hsigil _].
  destruct Hcases as [->|[k ->]]; rewrite clean_cons, Hsigil; cbn [andb]; [done|].
  rewrite clean_append, (plain_clean _ (pretty_N_plain k)), andb_true_r.
  destruct (String.length name =? 0)%nat; [done|]. by rewrite clean_append, Hname.
Qed.

Lemma clean_context_spec (ctx : FunctionPrintContext) :
  clean_context ctx = true
  ↔ clean_names (names ctx) = true
    ∧ forallb clean (labelNames ctx) = true
    ∧ forallb clean (localNames ctx) = true
    ∧ clean (string_of_char (sigil (labelNameScope ctx))) = true
    ∧ forallb (λ frame, clean (ControlContext.labelId frame)) (controlStack ctx) = true.
Proof. unfold clean_context. rewrite !andb_true_iff. tauto. Qed.

Lemma getBranchTargetId_clean (ctx : FunctionPrintContext) (depth : N) (target : string) :
  clean_context ctx = true → getBranchTargetId ctx depth = Ok target → clean target = true.
Proof.
  intros Hclean. apply clean_context_spec in Hclean as (_ & _ & _ & _ & Hstack).
  unfold getBranchTargetId.
  destruct (vector_at (controlStack ctx) _) as [frame| | |] eqn:Hat; simpl; try done.
  intros [= <-]. case_decide.
  - apply plain_clean, pretty_N_plain.
  - apply vector_at_elem in Hat. by apply (forallb_elem _ _ _ Hstack) in Hat.
Qed.

Section BodySteps.
Variable spaces : N.
Variable start : string.
Variable d0 : N.
Hypothesis Hd0 : 1 ≤ d0.

Implicit Types (ctx : FunctionPrintContext).

Lemma printControlLabel_step ctx (labelIdBase labelId : string) ctx' (d : N) :
  clean_context ctx = true → clean labelIdBase = true →
  expanded spaces start d0 (string_ ctx) d →
  printControlLabel ctx labelIdBase = Ok (labelId, ctx') →
  clean_context ctx' = true ∧ clean labelId = true
  ∧ controlStack ctx' = controlStack ctx
  ∧ module_types ctx' = module_types ctx
  ∧ expanded spaces start d0 (string_ ctx') d.
Proof.
  intros Hclean Hbase Hexp. unfold printControlLabel.
  pose proof Hclean as (Hnames & Hlabels & Hlocals & Hsigil & Hstack)%clean_context_spec.
  destruct (if labelIndex ctx <? _ then _ else _) as [labelId0| | |] eqn:Hlabel; simpl; try done.
  assert (Hclean0 : clean labelId0 = true).
  { destruct (labelIndex ctx <? _); [|by simplify_eq].
    apply vector_at_elem in Hlabel. by apply (forallb_elem _ _ _ Hlabels) in Hlabel. }
  destruct (NameScope_map (labelNameScope ctx) labelId0) as [[name scope]| | |] eqn:Hmap;
    simpl; try done.
  intros [= <- <-].
  apply NameScope_map_clean in Hmap as [Hname Hsig]; try done.
  split; [|split; [done|split; [done|split; [done|]]]].
  - apply clean_context_spec. cbn. rewrite Hsig. done.
  - cbn. apply expanded_clean; [apply expanded_clean|]; done.
Qed.

Lemma emit_step ctx (s : string) :
  body_invariant spaces start d0 ctx → clean s = true →
  body_invariant spaces start d0 (emit ctx s).
Proof. intros [Hclean Hexp] Hs. split; [done|]. by apply expanded_clean. Qed.

Lemma printControlSignature_step ctx (imm : IndexedBlockType) ctx' (d : N) :
  d + 1 < Uptr_modulus →
  expanded spaces start d0 (string_ ctx) d →
  printControlSignature ctx imm = Ok ctx' →
  ctx' = set_string ctx (string_ ctx') ∧ expanded spaces start d0 (string_ ctx') d.
Proof.
  intros Hd Hexp. unfold printControlSignature.
  destruct (resolveBlockType _ imm) as [signature| | |]; simpl; try done.
  intros [= <-]. split; [done|]. by apply expanded_signature.
Qed.

Lemma opener_step ctx (keyword labelIdBase : string) (type : ControlContext.Type_)
    (imm : IndexedBlockType) ctx' :
  body_invariant spaces start d0 ctx → controlStack ctx ≠ [] →
  depth_at d0 ctx + 1 < Uptr_modulus →
  clean keyword = true → clean labelIdBase = true →
  ('(labelId, ctx1) ← printControlLabel (emit ctx keyword) labelIdBase;
   ctx2 ← printControlSignature ctx1 imm;
   Ok (pushControlStack ctx2 type labelId)) = Ok ctx' →
  body_invariant spaces start d0 ctx'
  ∧ length (controlStack ctx') = S (length (controlStack ctx)).
Proof.
  intros [Hclean Hexp] Hstack Hd Hkeyword Hbase.
  destruct (printControlLabel (emit ctx keyword) labelIdBase) as [[labelId ctx1]| | |] eqn:Hlabel;
    simpl; try done.
  apply (printControlLabel_step _ _ _ _ (depth_at d0 ctx)) in Hlabel
    as (Hclean1 & Hid & Hstack1 & _ & Hexp1); try done; [|by apply expanded_clean].
  change (controlStack (emit ctx keyword)) with (controlStack ctx) in Hstack1.
  destruct (printControlSignature ctx1 imm) as [ctx2| | |] eqn:Hsig; simpl; try done.
  apply (printControlSignature_step _ _ _ (depth_at d0 ctx)) in Hsig as [Hctx2 Hexp2]; try done.
  intros [= <-]. rewrite Hctx2. cbn. rewrite Hstack1. cbn. rewrite length_app. cbn.
  split; [|lia]. split.
  - apply clean_context_spec in Hclean1 as (? & ? & ? & ? & Hframes).
    apply clean_context_spec. cbn. rewrite Hstack1. repeat split; try done.
    rewrite Hstack1 in Hframes. rewrite forallb_app, Hframes. cbn [forallb andb ControlContext.labelId]. by rewrite Hid.
  - unfold depth_at. cbn. rewrite Hstack1, length_app. cbn.
    replace (d0 + N.of_nat (length (controlStack ctx) + 1) - 1) with (depth_at d0 ctx + 1).
    + by apply expanded_indent.
    + unfold depth_at. destruct (controlStack ctx); [done|]. cbn [length]. lia.
Qed.

Lemma depth_at_positive ctx : controlStack ctx ≠ [] → 0 < depth_at d0 ctx.
Proof. unfold depth_at. destruct (controlStack ctx); [done|]. cbn [length]. lia. Qed.

(** [DEDENT_STRING], the change of the type of the top frame, and a text that
    ends in [INDENT_STRING]: the steps of [else_], [catch_] and [catch_all]. *)
Lemma set_back_type_step ctx (type : ControlContext.Type_) ctx1 :
  body_invariant spaces start d0 ctx → controlStack ctx ≠ [] →
  depth_at d0 ctx + 1 < Uptr_modulus →
  controlStack_set_back_type (emit ctx DEDENT_STRING) type = Ok ctx1 →
  clean_context ctx1 = true
  ∧ names ctx1 = names ctx
  ∧ length (controlStack ctx1) = length (controlStack ctx)
  ∧ expanded spaces start d0 (string_ ctx1) (depth_at d0 ctx - 1).
Proof.
  intros [Hclean Hexp] Hstack Hd. unfold controlStack_set_back_type, controlStack_back.
  change (controlStack (emit ctx DEDENT_STRING)) with (controlStack ctx).
  destruct (last (controlStack ctx)) as [top|] eqn:Hlast; simpl; [|done].
  intros [= <-]. apply last_removelast in Hlast.
  apply clean_context_spec in Hclean as (? & ? & ? & ? & Hframes).
  rewrite Hlast, forallb_app in Hframes. apply andb_true_iff in Hframes as [Hrest Htop].
  split; [|split; [done|split]].
  - apply clean_context_spec. cbn. repeat split; try done.
    rewrite forallb_app, Hrest. exact Htop.
  - cbn. rewrite Hlast at 2. by rewrite !length_app.
  - cbn. apply expanded_dedent; [done|]. pose proof (depth_at_positive ctx Hstack). lia.
Qed.

Lemma else_step ctx ctx' :
  body_invariant spaces start d0 ctx → controlStack ctx ≠ [] →
  depth_at d0 ctx + 1 < Uptr_modulus →
  FunctionBodyPrinter.else_ ctx = Ok ctx' →
  body_invariant spaces start d0 ctx'
  ∧ length (controlStack ctx') = length (controlStack ctx).
Proof.
  intros Hinv Hstack Hd. unfold FunctionBodyPrinter.else_.
  destruct (controlStack_set_back_type _ _) as [ctx1| | |] eqn:Hset; simpl; try done.
  apply set_back_type_step in Hset as (Hclean1 & _ & Hlen & Hexp1); try done.
  intros [= <-]. split; [|done]. split; [done|].
  pose proof (depth_at_positive ctx Hstack) as Hpos.
  unfold depth_at. cbn. rewrite Hlen. fold (depth_at d0 ctx).
  rewrite <- append_assoc. apply (expanded_indent_to _ _ _ _ (depth_at d0 ctx - 1)); [|lia..].
  by apply expanded_clean.
Qed.

Lemma catch_all_step ctx ctx' :
  body_invariant spaces start d0 ctx → controlStack ctx ≠ [] →
  depth_at d0 ctx + 1 < Uptr_modulus →
  FunctionBodyPrinter.catch_all ctx = Ok ctx' →
  body_invariant spaces start d0 ctx'
  ∧ length (controlStack ctx') = length (controlStack ctx).
Proof.
  intros Hinv Hstack Hd. unfold FunctionBodyPrinter.catch_all.
  destruct (controlStack_set_back_type _ _) as [ctx1| | |] eqn:Hset; simpl; try done.
  apply set_back_type_step in Hset as (Hclean1 & _ & Hlen & Hexp1); try done.
  intros [= <-]. split; [|done]. split; [done|].
  pose proof (depth_at_positive ctx Hstack) as Hpos.
  unfold depth_at. cbn. rewrite Hlen. fold (depth_at d0 ctx).
  rewrite <- append_assoc. apply (expanded_indent_to _ _ _ _ (depth_at d0 ctx - 1)); [|lia..].
  by apply expanded_clean.
Qed.

Lemma catch_step ctx (exceptionTypeIndex : N) ctx' :
  body_invariant spaces start d0 ctx → controlStack ctx ≠ [] →
  depth_at d0 ctx + 1 < Uptr_modulus →
  FunctionBodyPrinter.catch_ ctx exceptionTypeIndex = Ok ctx' →
  body_invariant spaces start d0 ctx'
  ∧ length (controlStack ctx') = length (controlStack ctx).
Proof.
  intros Hinv Hstack Hd. unfold FunctionBodyPrinter.catch_.
  destruct (controlStack_set_back_type _ _) as [ctx1| | |] eqn:Hset; simpl; try done.
  apply set_back_type_step in Hset as (Hclean1 & Hnames & Hlen & Hexp1); try done.
  destruct (vector_at _ exceptionTypeIndex) as [function| | |] eqn:Hat; simpl; try done.
  intros [= <-]. split; [|done]. split; [done|].
  pose proof (depth_at_positive ctx Hstack) as Hpos.
  unfold depth_at. cbn. rewrite Hlen. fold (depth_at d0 ctx).
  apply (expanded_indent_to _ _ _ _ (depth_at d0 ctx - 1)); [|lia..].
  apply expanded_clean; [by apply expanded_clean|].
  apply vector_at_elem in Hat.
  apply clean_context_spec in Hclean1 as (Hn & _). unfold clean_names in Hn.
  apply andb_true_iff in Hn as [Hn _]. apply andb_true_iff in Hn as [_ Hn].
  by apply (forallb_elem _ _ _ Hn) in Hat.
Qed.

Lemma end_step ctx ctx' :
  body_invariant spaces start d0 ctx → controlStack ctx ≠ [] →
  depth_at d0 ctx + 1 < Uptr_modulus →
  FunctionBodyPrinter.end_ ctx = Ok ctx' →
  body_invariant spaces start d0 ctx'
  ∧ S (length (controlStack ctx')) = length (controlStack ctx).
Proof.
  intros [Hclean Hexp] Hstack Hd. unfold FunctionBodyPrinter.end_, controlStack_back.
  change (controlStack (emit ctx DEDENT_STRING)) with (controlStack ctx).
  destruct (last (controlStack ctx)) as [top|] eqn:Hlast; simpl; [|done].
  unfold controlStack_pop_back, controlStack_back.
  pose proof Hlast as Hsplit%last_removelast.
  pose proof Hclean as (? & ? & ? & ? & Hframes)%clean_context_spec.
  rewrite Hsplit, forallb_app in Hframes. apply andb_true_iff in Hframes as [Hrest Htop].
  cbn in Htop. apply andb_true_iff in Htop as [Htop _].
  assert (Hlen : S (length (removelast (controlStack ctx))) = length (controlStack ctx)).
  { rewrite Hsplit at 2. rewrite length_app. cbn. lia. }
  assert (Hdepth : d0 + N.of_nat (length (removelast (controlStack ctx))) - 1
                   = depth_at d0 ctx - 1).
  { unfold depth_at. rewrite <- Hlen. lia. }
  pose proof (depth_at_positive ctx Hstack) as Hpos.
  case_decide.
  - change (controlStack (emit (emit (emit ctx DEDENT_STRING) (nl "end ;; "))
                            (ControlContext.labelId top))) with (controlStack ctx).
    rewrite Hlast. simpl. intros [= <-]. split; [|done]. split.
    + apply clean_context_spec. cbn. repeat split; done.
    + unfold depth_at. cbn. rewrite Hdepth.
      apply expanded_clean; [|done]. apply expanded_clean; [|done].
      apply expanded_dedent; [done | lia].
  - change (controlStack (emit ctx DEDENT_STRING)) with (controlStack ctx).
    rewrite Hlast. simpl. intros [= <-]. split; [|done]. split.
    + apply clean_context_spec. cbn. repeat split; done.
    + unfold depth_at. cbn. rewrite Hdepth. apply expanded_dedent; [done | lia].
Qed.

Lemma try_step ctx (imm : IndexedBlockType) ctx' :
  body_invariant spaces start d0 ctx → controlStack ctx ≠ [] →
  depth_at d0 ctx + 2 < Uptr_modulus →
  FunctionBodyPrinter.try_ ctx imm = Ok ctx' →
  body_invariant spaces start d0 ctx'
  ∧ length (controlStack ctx') = S (length (controlStack ctx)).
Proof.
  intros [Hclean Hexp] Hstack Hd. unfold FunctionBodyPrinter.try_. intros Hsig.
  pose proof (depth_at_positive ctx Hstack) as Hpos.
  apply (printControlSignature_step _ _ _ (depth_at d0 ctx + 1)) in Hsig as [Hctx' Hexp'];
    [|lia|].
  - rewrite Hctx'. cbn. rewrite length_app. cbn. split; [|lia]. split.
    + apply clean_context_spec in Hclean as (? & ? & ? & ? & Hframes).
      apply clean_context_spec. cbn. repeat split; try done.
      by rewrite forallb_app, Hframes.
    + unfold depth_at. cbn. rewrite length_app. cbn.
      replace (d0 + N.of_nat (length (controlStack ctx) + 1) - 1) with (depth_at d0 ctx + 1);
        [done|].
      unfold depth_at in *. lia.
  - cbn. apply expanded_indent; [|lia]. by apply expanded_clean.
Qed.

Lemma br_table_targets_step (targetDepths : list N) :
  ∀ ctx (targetIndex : N) ctx' (d : N),
    clean_context ctx = true →
    expanded spaces start d0 (string_ ctx) d →
    FunctionBodyPrinter.br_table_targets ctx targetIndex targetDepths = Ok ctx' →
    ctx' = set_string ctx (string_ ctx') ∧ expanded spaces start d0 (string_ ctx') d.
Proof.
  induction targetDepths as [|depth rest IH]; intros ctx targetIndex ctx' d Hclean Hexp.
  - simpl. intros [= <-]. split; [by destruct ctx | done].
  - cbn [FunctionBodyPrinter.br_table_targets].
    set (ctx1 := if targetIndex mod 16 =? 0 then _ else _).
    assert (Hctx1 : ctx1 = set_string ctx (string_ ctx1) ∧ clean_context ctx1 = true
                    ∧ expanded spaces start d0 (string_ ctx1) d).
    { unfold ctx1. destruct (targetIndex mod 16 =? 0); (split; [done|split; [done|]]);
        by apply expanded_clean. }
    destruct Hctx1 as (Hframe1 & Hclean1 & Hexp1).
    destruct (getBranchTargetId ctx1 depth) as [target| | |] eqn:Htarget; simpl; try done.
    apply getBranchTargetId_clean in Htarget; [|done]. intros Hrest.
    apply (IH _ _ _ d) in Hrest as [Hframe' Hexp']; [| done | by apply expanded_clean].
    split; [|done]. rewrite Hframe', Hframe1. done.
Qed.

Lemma br_table_step ctx (branchTableIndex defaultTargetDepth : N) ctx' :
  body_invariant spaces start d0 ctx →
  depth_at d0 ctx + 1 < Uptr_modulus →
  FunctionBodyPrinter.br_table ctx branchTableIndex defaultTargetDepth = Ok ctx' →
  body_invariant spaces start d0 ctx'
  ∧ length (controlStack ctx') = length (controlStack ctx).
Proof.
  intros [Hclean Hexp] Hd. unfold FunctionBodyPrinter.br_table.
  destruct (vector_at _ branchTableIndex) as [targetDepths| | |]; simpl; try done.
  destruct (FunctionBodyPrinter.br_table_targets _ 0 targetDepths) as [ctx2| | |] eqn:Htargets;
    simpl; try done.
  apply (br_table_targets_step _ _ _ _ (depth_at d0 ctx + 1)) in Htargets as [Hframe2 Hexp2];
    [| done |].
  - destruct (getBranchTargetId _ defaultTargetDepth) as [target| | |] eqn:Htarget;
      simpl; try done.
    apply getBranchTargetId_clean in Htarget; [|by rewrite Hframe2].
    intros [= <-]. rewrite Hframe2. split; [|done]. split; [done|].
    unfold enterUnreachable. cbn. unfold depth_at. cbn. fold (depth_at d0 ctx).
    rewrite <- append_assoc.
    apply (expanded_dedent_to _ _ _ _ (depth_at d0 ctx + 1)); [|done|lia].
    apply expanded_clean; [|done]. apply expanded_clean; [|done]. by apply expanded_clean.
  - cbn. rewrite <- append_assoc. apply expanded_indent; [|done]. by apply expanded_clean.
Qed.

Lemma named_step ctx (names : list string) (index : N) (name : string) (text : string) :
  body_invariant spaces start d0 ctx →
  forallb clean names = true →
  clean text = true →
  vector_at names index = Ok name →
  body_invariant spaces start d0 (emit ctx (text +:+ name)).
Proof.
  intros Hinv Hnames Htext Hat. apply emit_step; [done|].
  apply vector_at_elem in Hat. apply (forallb_elem _ _ _ Hnames) in Hat.
  by rewrite clean_append, Htext, Hat.
Qed.

(** One operator of a body, decoded on a stack that is not empty. *)
Lemma decodeOp_step ctx (op : FunctionBodyPrinter.Operator) ctx' :
  body_invariant spaces start d0 ctx → controlStack ctx ≠ [] →
  depth_at d0 ctx + 2 < Uptr_modulus →
  clean_operator op = true →
  FunctionBodyPrinter.decodeOp ctx op = Ok ctx' →
  body_invariant spaces start d0 ctx'
  ∧ (length (controlStack ctx') ≤ S (length (controlStack ctx)))%nat.
Proof.
  intros Hinv Hstack Hd Hop.
  pose proof Hinv as [(Hnames & Hlabels & Hlocals & _)%clean_context_spec _].
  unfold clean_names in Hnames. rewrite !andb_true_iff in Hnames.
  destruct Hnames as [[Htypes Hfunctions] Hglobals].
  destruct op; cbn [FunctionBodyPrinter.decodeOp].
  - done.
  - unfold FunctionBodyPrinter.block. intros H.
    apply opener_step in H as [H Hlen]; try done; [|lia]. split; [done | lia].
  - unfold FunctionBodyPrinter.loop. intros H.
    apply opener_step in H as [H Hlen]; try done; [|lia]. split; [done | lia].
  - unfold FunctionBodyPrinter.if_. intros H.
    apply opener_step in H as [H Hlen]; try done; [|lia]. split; [done | lia].
  - intros H. apply else_step in H as [H Hlen]; try done; [|lia]. split; [done | lia].
  - intros H. apply end_step in H as [H Hlen]; try done; [|lia]. split; [done | lia].
  - intros [= <-]. split; [|cbn; lia]. by apply emit_step.
  - unfold FunctionBodyPrinter.br.
    destruct (getBranchTargetId ctx targetDepth) as [target| | |] eqn:Htarget; simpl; try done.
    apply getBranchTargetId_clean in Htarget; [|apply Hinv].
    intros [= <-]. split; [|cbn; lia]. apply emit_step; [done|].
    by rewrite clean_append, Htarget.
  - intros H. apply br_table_step in H as [H Hlen]; try done; [|lia]. split; [done | lia].
  - unfold FunctionBodyPrinter.br_if.
    destruct (getBranchTargetId ctx targetDepth) as [target| | |] eqn:Htarget; simpl; try done.
    apply getBranchTargetId_clean in Htarget; [|apply Hinv].
    intros [= <-]. split; [|cbn; lia]. apply emit_step; [done|].
    by rewrite clean_append, Htarget.
  - intros [= <-]. split; [|cbn; lia]. by apply emit_step.
  - intros [= <-]. split; [|cbn; lia]. by apply emit_step.
  - intros [= <-]. split; [|cbn; lia]. by apply emit_step.
  - unfold FunctionBodyPrinter.get_local.
    destruct (vector_at _ variableIndex) as [name| | |] eqn:Hat; simpl; try done.
    intros [= <-]. split; [|cbn; lia]. eapply named_step; [done | | done | exact Hat]; done.
  - unfold FunctionBodyPrinter.set_local.
    destruct (vector_at _ variableIndex) as [name| | |] eqn:Hat; simpl; try done.
    intros [= <-]. split; [|cbn; lia]. eapply named_step; [done | | done | exact Hat]; done.
  - unfold FunctionBodyPrinter.tee_local.
    destruct (vector_at _ variableIndex) as [name| | |] eqn:Hat; simpl; try done.
    intros [= <-]. split; [|cbn; lia]. eapply named_step; [done | | done | exact Hat]; done.
  - unfold FunctionBodyPrinter.get_global.
    destruct (vector_at _ variableIndex) as [name| | |] eqn:Hat; simpl; try done.
    intros [= <-]. split; [|cbn; lia]. eapply named_step; [done | | done | exact Hat]; done.
  - unfold FunctionBodyPrinter.set_global.
    destruct (vector_at _ variableIndex) as [name| | |] eqn:Hat; simpl; try done.
    intros [= <-]. split; [|cbn; lia]. eapply named_step; [done | | done | exact Hat]; done.
  - unfold FunctionBodyPrinter.call.
    destruct (vector_at _ functionIndex) as [function| | |] eqn:Hat; simpl; try done.
    intros [= <-]. split; [|cbn; lia]. apply emit_step; [done|].
    apply vector_at_elem in Hat. apply (forallb_elem _ _ _ Hfunctions) in Hat.
    by rewrite clean_append, Hat.
  - unfold FunctionBodyPrinter.call_indirect.
    destruct (vector_at _ typeIndex) as [name| | |] eqn:Hat; simpl; try done.
    intros [= <-]. split; [|cbn; lia]. apply emit_step; [done|].
    apply vector_at_elem in Hat. apply (forallb_elem _ _ _ Htypes) in Hat.
    by rewrite !clean_append, Hat.
  - intros H. apply try_step in H as [H Hlen]; try done. split; [done | lia].
  - intros H. apply catch_step in H as [H Hlen]; try done; [|lia]. split; [done | lia].
  - intros H. apply catch_all_step in H as [H Hlen]; try done; [|lia]. split; [done | lia].
  - intros [= <-]. split; [|cbn; lia]. cbn in Hop. apply andb_true_iff in Hop as [Hn Hi].
    apply emit_step; [|done]. by apply emit_step.
Qed.

Lemma printFunctionBody_loop_step (decoder : list FunctionBodyPrinter.Operator) :
  ∀ ctx ctx' rest,
    body_invariant spaces start d0 ctx →
    d0 + N.of_nat (length (controlStack ctx) + length decoder) + 1 < Uptr_modulus →
    forallb clean_operator decoder = true →
    FunctionBodyPrinter.printFunctionBody_loop ctx decoder = Ok (ctx', rest) →
    body_invariant spaces start d0 ctx'
    ∧ (length (controlStack ctx') ≤ length (controlStack ctx) + length decoder)%nat.
Proof.
  induction decoder as [|op decoder IH]; intros ctx ctx' rest Hinv Hd Hops.
  - simpl. intros [= <- <-]. split; [done | lia].
  - cbn [FunctionBodyPrinter.printFunctionBody_loop].
    destruct (length (controlStack ctx) =? 0)%nat eqn:Hempty.
    + intros [= <- <-]. split; [done | lia].
    + apply Nat.eqb_neq in Hempty.
      cbn [forallb] in Hops. apply andb_true_iff in Hops as [Hop Hops].
      destruct (FunctionBodyPrinter.decodeOp ctx op) as [ctx1| | |] eqn:Hdecode;
        simpl; try done.
      apply decodeOp_step in Hdecode as [Hinv1 Hlen1]; try done.
      * intros Hloop. apply IH in Hloop as [Hinv' Hlen']; try done.
        { split; [done|]. cbn [length]. lia. }
        cbn [length] in Hd. lia.
      * intros Hnil. by rewrite Hnil in Hempty.
      * unfold depth_at. cbn [length] in Hd. lia.
Qed.

End BodySteps.

Lemma printFunctionBody_expanded (spaces : N) (ctx : FunctionPrintContext)
    (code : list FunctionBodyPrinter.Operator) (ctx' : FunctionPrintContext)
    (rest : list FunctionBodyPrinter.Operator) (d0 : N) :
  clean_context ctx = true →
  forallb clean_operator code = true →
  controlStack ctx = [] →
  1 ≤ d0 →
  d0 + N.of_nat (length code) + 2 < Uptr_modulus →
  FunctionBodyPrinter.printFunctionBody ctx code = Ok (ctx', rest) →
  expanded spaces (string_ ctx) d0 (string_ ctx')
    (d0 + N.of_nat (length (controlStack ctx')))
  ∧ (length (controlStack ctx') ≤ S (length code))%nat.
Proof.
  intros Hclean Hops Hstack Hd0 Hd. unfold FunctionBodyPrinter.printFunctionBody.
  set (ctx1 := emit (pushControlStack ctx ControlContext.function "") DEDENT_STRING).
  assert (Hinv1 : body_invariant spaces (string_ ctx) d0 ctx1).
  { split.
    - apply clean_context_spec in Hclean as (? & ? & ? & ? & _).
      apply clean_context_spec. cbn. rewrite Hstack. done.
    - unfold depth_at. cbn. rewrite Hstack. cbn.
      apply (expanded_dedent_to _ _ _ _ (d0 + 1)); [|lia..].
      apply expanded_indent; [|lia]. exists "", "". split; [by rewrite append_nil_r|].
      apply expands_nil. }
  destruct (FunctionBodyPrinter.printFunctionBody_loop ctx1 code) as [[ctx2 rest2]| | |] eqn:Hloop;
    simpl; try done.
  apply (printFunctionBody_loop_step spaces (string_ ctx) d0) in Hloop as [[_ Hexp2] Hlen2];
    try done.
  - intros [= <- <-]. cbn.
    change (INDENT_STRING +:+ string_of_char char_newline)
      with (INDENT_STRING +:+ nl "").
    rewrite <- append_assoc.
    change (length (controlStack ctx1)) with (length (controlStack ctx ++ [ControlContext.mk ControlContext.function ""])) in Hlen2.
    rewrite Hstack in Hlen2. cbn in Hlen2. split; [|done].
    apply expanded_clean; [|done].
    apply (expanded_indent_to _ _ _ _ (depth_at d0 ctx2)); [done | unfold depth_at; lia | lia].
  - unfold ctx1. cbn. rewrite Hstack. cbn. lia.
Qed.

(** The text that [printFunctionBody] adds keeps the indentation in step with
    the control stack. With names and operator texts that hold no byte E0, at
    a depth [d0] of at least one and with fewer operators than depths, the
    loop of [expandIndentation] reads the added text from the depth [d0]
    without a failure and ends one level deeper for each frame that is left
    on the control stack: at the depth [d0] again when the body has closed
    every frame. *)
Theorem printFunctionBody_indentation (spaces : N) (ctx : FunctionPrintContext)
    (code : list FunctionBodyPrinter.Operator) (ctx' : FunctionPrintContext)
    (rest : list FunctionBodyPrinter.Operator) (d0 : N) :
  clean_context ctx = true →
  forallb clean_operator code = true →
  controlStack ctx = [] →
  1 ≤ d0 →
  d0 + N.of_nat (length code) + 2 < Uptr_modulus →
  FunctionBodyPrinter.printFunctionBody ctx code = Ok (ctx', rest) →
  ∃ body t,
    string_ ctx' = string_ ctx +:+ body
    ∧ expands spaces body d0 (d0 + N.of_nat (length (controlStack ctx'))) t.
Proof.
  intros Hclean Hops Hstack Hd0 Hd Hbody.
  by apply (printFunctionBody_expanded spaces ctx code ctx' rest d0).
Qed.

Lemma printFunctionBody_indentation_witness :
  let code := [FunctionBodyPrinter.op_block noParametersOrResult;
               FunctionBodyPrinter.op_br 0;
               FunctionBodyPrinter.op_end;
               FunctionBodyPrinter.op_end] in
  let ctx' := match FunctionBodyPrinter.printFunctionBody example_context code with
              | Ok (ctx', _) => ctx'
              | _ => example_context
              end in
  FunctionBodyPrinter.printFunctionBody example_context code = Ok (ctx', [])
  ∧ controlStack ctx' = []
  ∧ ∃ body t,
      string_ ctx' = string_ example_context +:+ body
      ∧ expands 2 body 2 (2 + N.of_nat (length (controlStack ctx'))) t.
Proof.
  intros code ctx'.
  split; [vm_compute; reflexivity|]. split; [vm_compute; reflexivity|].
  apply (printFunctionBody_indentation 2 example_context code ctx' [] 2);
    [reflexivity | reflexivity | reflexivity | lia | reflexivity | vm_compute; reflexivity].
Defined.

(** ** The constructor of [ModulePrintContext] *)

Lemma mapFunctionNames_fresh (functions : list FunctionNames) :
  ∀ scope,
    sigil scope = "$"%char →
    N.of_nat (size (nameSet scope) + length functions) < Uptr_modulus →
    Forall (λ function, N.of_nat (length (fn_locals function)) < Uptr_modulus) functions →
    ∃ functions' scope' (assigned : list string),
      mapFunctionNames scope functions = Ok (functions', scope')
      ∧ fn_name <$> functions' = String "$" <$> assigned
      ∧ NoDup assigned
      ∧ (∀ x, x ∈ assigned → x ∉ nameSet scope)
      ∧ Forall2 (λ function function',
                   fn_labels function' = fn_labels function
                   ∧ length (fn_locals function') = length (fn_locals function)
                   ∧ NoDup (fn_locals function')
                   ∧ Forall has_sigil (fn_locals function')) functions functions'.
Proof.
  induction functions as [|function rest IH]; intros scope Hsigil Hsize Hlocals.
  - exists [], scope, []. repeat split; try done; try constructor.
    intros x Hx. by apply elem_of_nil in Hx.
  - cbn [length] in Hsize. apply Forall_cons in Hlocals as [Hlocal Hlocals].
    destruct (NameScope_map_fresh scope (fn_name function))
      as (a & scope1 & Hmap & Hfresh & Hset & Hsigil1); [lia|].
    destruct (NameScope_map_all_fresh (fn_locals function)
                (NameScope_new "$" (N.of_nat (length (fn_locals function)))))
      as (locals & localScope & Hall & Hlen & Hnodup & _).
    { cbn [NameScope_new nameSet]. rewrite size_empty. lia. }
    assert (Hsize1 : size (nameSet scope1) = S (size (nameSet scope))).
    { rewrite Hset, size_union by set_solver. by rewrite size_singleton. }
    destruct (IH scope1) as (rest' & scope2 & as' & Hrest & Hnames & Hnodup' & Hfresh' & Hall');
      [congruence | lia | done |].
    eexists _, scope2, (a :: as').
    cbn [mapFunctionNames]. rewrite Hmap. simpl. rewrite Hall. simpl. rewrite Hrest. simpl.
    rewrite Hsigil. split; [done|]. split; [by rewrite fmap_cons, Hnames|].
    split; [|split].
    + constructor; [|done]. intros Hin. apply Hfresh' in Hin. set_solver.
    + intros x Hx. apply elem_of_cons in Hx as [->|Hx]; [done|].
      apply Hfresh' in Hx. set_solver.
    + constructor; [|done]. cbn. split; [done|]. split; [by rewrite length_fmap|]. split.
      * apply NoDup_fmap_2; [|done]. intros x y Heq. by injection Heq.
      * apply Forall_fmap, Forall_forall. intros x _. by exists x.
Qed.

Lemma size_list_to_set_le (assigned : list string) :
  (size (list_to_set (C := gset string) assigned) ≤ length assigned)%nat.
Proof.
  induction assigned as [|x l IH]; cbn [list_to_set length].
  - rewrite size_empty. lia.
  - rewrite size_union_alt, size_singleton.
    assert (size (list_to_set (C := gset string) l ∖ {[x]})
            ≤ size (list_to_set (C := gset string) l))%nat
      by (apply subseteq_size; set_solver).
    lia.
Qed.

Lemma size_assigned (assigned : list string) (names : gset string) :
  (size (list_to_set assigned ∪ names) ≤ length assigned + size names)%nat.
Proof.
  rewrite size_union_alt. pose proof (size_list_to_set_le assigned).
  assert (size (names ∖ list_to_set assigned) ≤ size names)%nat
    by (apply subseteq_size; set_solver).
  lia.
Qed.

(** The constructor of [ModulePrintContext] returns for fewer than 2^64
    names. The names it gives to the types, the tables, the memories, the
    globals and the functions of a module are pairwise distinct across the
    five kinds and start with the sigil; the locals of each function are
    pairwise distinct among themselves; the names of the exception types and
    the labels are left as [getDisassemblyNames] gave them. *)
Theorem ModulePrintContext_names_distinct (inModule : Module) (inString : string)
    (names : DisassemblyNames) :
  N.of_nat (numNames names) < Uptr_modulus →
  ∃ context,
    ModulePrintContext_new inModule inString names = Ok context
    ∧ ctx_module context = inModule
    ∧ ctx_string context = inString
    ∧ length (names_types (ctx_names context)) = length (names_types names)
    ∧ length (names_tables (ctx_names context)) = length (names_tables names)
    ∧ length (names_memories (ctx_names context)) = length (names_memories names)
    ∧ length (names_globals (ctx_names context)) = length (names_globals names)
    ∧ NoDup (globalNames (ctx_names context))
    ∧ Forall has_sigil (globalNames (ctx_names context))
    ∧ Forall2 (λ function function',
                 fn_labels function' = fn_labels function
                 ∧ length (fn_locals function') = length (fn_locals function)
                 ∧ NoDup (fn_locals function')
                 ∧ Forall has_sigil (fn_locals function'))
        (names_functions names) (names_functions (ctx_names context))
    ∧ names_exceptionTypes (ctx_names context) = names_exceptionTypes names.
Proof.
  intros Hsize. unfold numNames, globalNames in Hsize. rewrite !length_app, length_fmap in Hsize.
  assert (Hlocals : Forall (λ function, N.of_nat (length (fn_locals function)) < Uptr_modulus)
                      (names_functions names)).
  { revert Hsize. generalize (length (names_types names) + (length (names_tables names)
      + (length (names_memories names) + (length (names_globals names)
      + length (names_functions names)))))%nat.
    induction (names_functions names) as [|function rest IH]; intros n Hn; constructor.
    - cbn [foldr] in Hn. lia.
    - apply (IH (n + length (fn_locals function))%nat). cbn [foldr] in Hn. lia. }
  unfold ModulePrintContext_new, mapDisassemblyNames.
  set (scope0 := NameScope_new "$" _).
  destruct (NameScope_map_all_fresh (names_types names) scope0)
    as (a1 & scope1 & H1 & Hlen1 & Hnodup1 & _ & Hset1 & Hsigil1).
  { cbn [scope0 NameScope_new nameSet]. rewrite size_empty. lia. }
  assert (Hsize1 : (size (nameSet scope1) ≤ length (names_types names))%nat).
  { rewrite Hset1, <- Hlen1. etrans; [apply size_assigned|].
    cbn [scope0 NameScope_new nameSet]. rewrite size_empty. lia. }
  destruct (NameScope_map_all_fresh (names_tables names) scope1)
    as (a2 & scope2 & H2 & Hlen2 & Hnodup2 & Hfresh2 & Hset2 & Hsigil2); [lia|].
  assert (Hsize2 : (size (nameSet scope2)
                    ≤ length (names_types names) + length (names_tables names))%nat).
  { rewrite Hset2, <- Hlen2. etrans; [apply size_assigned|]. lia. }
  destruct (NameScope_map_all_fresh (names_memories names) scope2)
    as (a3 & scope3 & H3 & Hlen3 & Hnodup3 & Hfresh3 & Hset3 & Hsigil3); [lia|].
  assert (Hsize3 : (size (nameSet scope3)
                    ≤ length (names_types names) + length (names_tables names)
                      + length (names_memories names))%nat).
  { rewrite Hset3, <- Hlen3. etrans; [apply size_assigned|]. lia. }
  destruct (NameScope_map_all_fresh (names_globals names) scope3)
    as (a4 & scope4 & H4 & Hlen4 & Hnodup4 & Hfresh4 & Hset4 & Hsigil4); [lia|].
  assert (Hsize4 : (size (nameSet scope4)
                    ≤ length (names_types names) + length (names_tables names)
                      + length (names_memories names) + length (names_globals names))%nat).
  { rewrite Hset4, <- Hlen4. etrans; [apply size_assigned|]. lia. }
  destruct (mapFunctionNames_fresh (names_functions names) scope4)
    as (functions' & scope5 & a5 & H5 & Hnames5 & Hnodup5 & Hfresh5 & Hall5);
    [by rewrite Hsigil4, Hsigil3, Hsigil2, Hsigil1 | lia | done |].
  eexists.
  rewrite H1. simpl. rewrite H2. simpl. rewrite H3. simpl. rewrite H4. simpl. rewrite H5. simpl.
  split; [done|]. cbn.
  rewrite !length_fmap. do 6 (split; [done|]).
  unfold globalNames. cbn. rewrite Hnames5, Hsigil3, Hsigil2, Hsigil1.
  cbn [scope0 NameScope_new sigil]. rewrite <- !fmap_app.
  split; [|split; [|done]].
  - apply NoDup_fmap_2; [intros x y Heq; by injection Heq|].
    rewrite Hset4, Hset3, Hset2, Hset1 in Hfresh5. rewrite Hset3, Hset2, Hset1 in Hfresh4.
    rewrite Hset2, Hset1 in Hfresh3. rewrite Hset1 in Hfresh2.
    rewrite !NoDup_app. repeat split; try done.
    + intros x Hx Hin. rewrite !elem_of_app in Hin.
      destruct Hin as [Hin|[Hin|[Hin|Hin]]].
      * apply Hfresh2 in Hin. set_solver.
      * apply Hfresh3 in Hin. set_solver.
      * apply Hfresh4 in Hin. set_solver.
      * apply Hfresh5 in Hin. set_solver.
    + intros x Hx Hin. rewrite !elem_of_app in Hin.
      destruct Hin as [Hin|[Hin|Hin]].
      * apply Hfresh3 in Hin. set_solver.
      * apply Hfresh4 in Hin. set_solver.
      * apply Hfresh5 in Hin. set_solver.
    + intros x Hx Hin. rewrite !elem_of_app in Hin.
      destruct Hin as [Hin|Hin].
      * apply Hfresh4 in Hin. set_solver.
      * apply Hfresh5 in Hin. set_solver.
    + intros x Hx Hin. apply Hfresh5 in Hin. set_solver.
  - apply Forall_fmap, Forall_forall. intros x _. by exists x.
Qed.

Lemma ModulePrintContext_names_distinct_witness :
  let names := mkDisassemblyNames ["t"] [mkFunctionNames "t" ["x"; "x"] ["L"];
                                         mkFunctionNames "" ["x"] []]
                 ["t"] [] ["g"; "t"] ["e"] in
  ∃ context,
    ModulePrintContext_new (mkModule [] [] []) "" names = Ok context
    ∧ globalNames (ctx_names context) = ["$t"; "$t_0"; "$g"; "$t_1"; "$t_2"; "$0"]
    ∧ NoDup (globalNames (ctx_names context))
    ∧ (fn_locals <$> names_functions (ctx_names context)) = [["$x"; "$x_0"]; ["$x"]].
Proof.
  intros names.
  destruct (ModulePrintContext_names_distinct (mkModule [] [] []) "" names)
    as (context & Hnew & _ & _ & _ & _ & _ & _ & Hnodup & _); [vm_compute; reflexivity|].
  exists context. split; [done|].
  assert (Hcontext : Ok context = ModulePrintContext_new (mkModule [] [] []) "" names)
    by done.
  vm_compute in Hcontext. injection Hcontext as ->. split; [reflexivity|].
  split; [|reflexivity]. exact Hnodup.
Defined.

(** ** The name that [NameScope::map] assigns *)

Lemma NameScope_map_loop_first (fuel : nat) (baseName : string) :
  ∀ (count : N) (names : gset string) name count' names',
    NameScope_map_loop fuel baseName count names = Ok (name, count', names') →
    ∃ i : nat,
      (i < fuel)%nat
      ∧ name = baseName +:+ pretty (counter_after i count)
      ∧ count' = Uptr_incr (counter_after i count)
      ∧ names' = {[ name ]} ∪ names
      ∧ (name ∉ names)
      ∧ ∀ j : nat, (j < i)%nat → baseName +:+ pretty (counter_after j count) ∈ names.
Proof.
  induction fuel as [|fuel IH]; intros count names name count' names'; [done|].
  cbn [NameScope_map_loop]. unfold HashSet_add.
  destruct (decide (baseName +:+ pretty count ∈ names)) as [Hin|Hnotin].
  - rewrite bool_decide_eq_false_2 by (intros H; by apply H).
    replace ({[baseName +:+ pretty count]} ∪ names) with names by set_solver.
    intros Hloop. apply IH in Hloop as (i & Hi & -> & -> & -> & Hfresh & Hbefore).
    exists (S i). unfold counter_after in *. rewrite !Nat.iter_succ_r.
    split; [lia|]. repeat split; try done.
    intros [|j] Hj; [done|]. rewrite Nat.iter_succ_r. apply Hbefore. lia.
  - rewrite bool_decide_eq_true_2 by done. intros [= <- <- <-].
    exists 0%nat. split; [lia|]. repeat split; try done. intros j Hj. lia.
Qed.

(** [NameScope::map] in full. A name that is not empty and not taken is
    assigned as it is, after the sigil. Any other name gets, after an
    underscore when it is not empty, the first number that gives a name not
    yet taken, counting from the number stored for it (from zero when none is
    stored), and one more than that number is stored for it. The assigned
    name is taken afterwards. *)
Theorem NameScope_map_first_free (scope : NameScope) (name : string) :
  N.of_nat (size (nameSet scope)) < Uptr_modulus →
  let baseName := if decide (name = "") then name else name +:+ "_" in
  let count0 := default 0 (nameToUniqueIndexMap scope !! name) in
  if decide (name ≠ "" ∧ name ∉ nameSet scope)
  then NameScope_map scope name
       = Ok (String (sigil scope) name,
             mkNameScope (sigil scope) ({[ name ]} ∪ nameSet scope)
               (nameToUniqueIndexMap scope))
  else ∃ i : nat,
         NameScope_map scope name
         = Ok (String (sigil scope) (baseName +:+ pretty (counter_after i count0)),
               mkNameScope (sigil scope)
                 ({[ baseName +:+ pretty (counter_after i count0) ]} ∪ nameSet scope)
                 (<[ name := Uptr_incr (counter_after i count0) ]>
                    (nameToUniqueIndexMap scope)))
         ∧ (baseName +:+ pretty (counter_after i count0) ∉ nameSet scope)
         ∧ ∀ j : nat, (j < i)%nat →
             baseName +:+ pretty (counter_after j count0) ∈ nameSet scope.
Proof.
  intros Hsize baseName count0. unfold NameScope_map.
  assert (Hempty : (String.length name =? 0)%nat = bool_decide (name = "")).
  { destruct name; [done|]. symmetry. by apply bool_decide_eq_false_2. }
  rewrite Hempty. unfold baseName. clear baseName.
  assert (Hget : HashMap_getOrAdd name 0 (nameToUniqueIndexMap scope)
                 = (count0, <[ name := count0 ]> (nameToUniqueIndexMap scope))).
  { unfold HashMap_getOrAdd, count0.
    destruct (nameToUniqueIndexMap scope !! name) as [c|] eqn:Hlookup; simpl; [|done].
    by rewrite insert_id. }
  assert (Hloop : ∀ baseName,
    ∃ i : nat,
      NameScope_map_loop (S (size (nameSet scope))) baseName count0 (nameSet scope)
      = Ok (baseName +:+ pretty (counter_after i count0),
            Uptr_incr (counter_after i count0),
            {[ baseName +:+ pretty (counter_after i count0) ]} ∪ nameSet scope)
      ∧ (baseName +:+ pretty (counter_after i count0) ∉ nameSet scope)
      ∧ ∀ j : nat, (j < i)%nat →
          baseName +:+ pretty (counter_after j count0) ∈ nameSet scope).
  { intros baseName.
    destruct (NameScope_map_loop_terminates baseName count0 (nameSet scope) Hsize)
      as (assigned & count' & Hrun & _).
    pose proof Hrun as (i & _ & -> & -> & _ & Hfresh & Hbefore)%NameScope_map_loop_first.
    exists i. by rewrite Hrun. }
  destruct (decide (name = "")) as [->|Hname].
  - rewrite bool_decide_eq_true_2 by done. rewrite decide_False by (intros [? _]; done).
    rewrite Hget. destruct (Hloop "") as (i & -> & Hfresh & Hbefore). simpl.
    exists i. by rewrite insert_insert_eq.
  - rewrite bool_decide_eq_false_2 by done. unfold HashSet_add.
    destruct (decide (name ∈ nameSet scope)) as [Hin|Hnotin].
    + rewrite decide_False by (intros [_ ?]; done).
      rewrite bool_decide_eq_false_2 by (intros H; by apply H). cbn [negb].
      replace ({[name]} ∪ nameSet scope) with (nameSet scope) by set_solver.
      rewrite Hget. destruct (Hloop (name +:+ "_")) as (i & -> & Hfresh & Hbefore). simpl.
      exists i. by rewrite insert_insert_eq.
    + rewrite decide_True by done. by rewrite bool_decide_eq_true_2.
Qed.

Lemma NameScope_map_first_free_witness :
  let scope := mkNameScope "$" {[ "foo"; "foo_0"; "foo_2" ]} {[ "foo" := 0 ]} in
  N.of_nat (size (nameSet scope)) < Uptr_modulus
  ∧ ∃ i : nat,
      NameScope_map scope "foo"
      = Ok (String "$" ("foo_" +:+ pretty (counter_after i 0)),
            mkNameScope "$" ({[ "foo_" +:+ pretty (counter_after i 0) ]} ∪ nameSet scope)
              (<[ "foo" := Uptr_incr (counter_after i 0) ]> (nameToUniqueIndexMap scope)))
      ∧ ("foo_" +:+ pretty (counter_after i 0) ∉ nameSet scope)
      ∧ ∀ j : nat, (j < i)%nat → "foo_" +:+ pretty (counter_after j 0) ∈ nameSet scope.
Proof.
  intros scope. split; [vm_compute; reflexivity|].
  apply (NameScope_map_first_free scope "foo"). vm_compute. reflexivity.
Defined.

(** ** The lines of the bytes of a section *)

Lemma printSectionLines_from (char_is_signed : bool) (data : list byte) (numLines : nat) :
  ∀ (off : nat) (str : string),
    N.of_nat (length data) < Uptr_modulus →
    numLines = 0%nat ∨ (off ≤ length data ∧ 64 * numLines < length data - off + 64)%nat →
    printSectionLines char_is_signed numLines (N.of_nat off) data str
    = str +:+ linesText char_is_signed (chunks numLines (drop off data)).
Proof.
  induction numLines as [|n IH]; intros off str Hlen Hoff.
  - simpl. by rewrite append_nil_r.
  - destruct Hoff as [|[Hoff Hlines]]; [done|].
    cbn [printSectionLines chunks linesText].
    rewrite Uptr_sub_small by lia.
    replace (N.of_nat off + 64) with (N.of_nat (off + 64)) by lia.
    rewrite IH; [|done|lia]. rewrite drop_drop, !append_assoc. do 3 f_equal.
    assert (Htake : take (N.to_nat (N.min (N.of_nat (length data) - N.of_nat off) 64))
                      (drop (N.to_nat (N.of_nat off)) data)
                    = take 64 (drop off data)).
    { rewrite Nat2N.id.
      destruct (decide (length data - off < 64)%nat) as [Hshort|Hlong].
      - rewrite N.min_l by lia. rewrite !take_ge; [done | rewrite length_drop; lia..].
      - rewrite N.min_r by lia. done. }
    by rewrite Htake.
Qed.

Lemma chunks_concat (n : nat) :
  ∀ data : list byte,
    (length data ≤ 64 * n)%nat →
    (n = 0 ∨ 64 * n < length data + 64)%nat →
    concat (chunks n data) = data
    ∧ Forall (λ piece, 0 < length piece ≤ 64)%nat (chunks n data).
Proof.
  induction n as [|n IH]; intros data Hlen Hmin.
  - destruct data; [|simpl in Hlen; lia]. by split.
  - destruct Hmin as [|Hmin]; [done|]. cbn [chunks concat].
    destruct (IH (drop 64 data)) as [Hconcat Hall].
    { rewrite length_drop. lia. }
    { rewrite length_drop. lia. }
    rewrite Hconcat, take_drop. split; [done|]. constructor; [|done].
    rewrite length_take. lia.
Qed.

Lemma string_of_list_byte_app (a b : list byte) :
  string_of_list_byte (a ++ b) = string_of_list_byte a +:+ string_of_list_byte b.
Proof.
  induction a as [|x a IH]; [done|].
  change (string_of_list_byte ((x :: a) ++ b))
    with (String (ascii_of_byte x) (string_of_list_byte (a ++ b))).
  by rewrite IH.
Qed.

Lemma escapedPieces_concat (char_is_signed : bool) (pieces : list (list byte)) :
  escapedPieces char_is_signed pieces
  = escapeString char_is_signed (string_of_list_byte (concat pieces)).
Proof.
  induction pieces as [|piece rest IH]; [done|]. cbn [escapedPieces concat].
  rewrite IH, string_of_list_byte_app. unfold escapeString.
  by rewrite !escapeString_from_short, !append_nil_l, escapeString_short_append.
Qed.

(** The loop that prints the bytes of a user section, and of a data segment,
    64 to a line: for data of fewer than 2^64 bytes it prints one quoted line
    for each piece of the data, the pieces, in order, make up the data, and
    every piece holds at least one byte and at most 64; so the escaped pieces,
    put together, are the escape of the whole data. *)
Theorem printSectionLines_chunks (char_is_signed : bool) (data : list byte) (str : string) :
  N.of_nat (length data) < Uptr_modulus →
  let numLines := N.to_nat ((N.of_nat (length data) + 63) / 64) in
  printSectionLines char_is_signed numLines 0 data str
    = str +:+ linesText char_is_signed (chunks numLines data)
  ∧ concat (chunks numLines data) = data
  ∧ Forall (λ piece, 0 < length piece ≤ 64)%nat (chunks numLines data)
  ∧ escapedPieces char_is_signed (chunks numLines data)
    = escapeString char_is_signed (string_of_list_byte data).
Proof.
  intros Hlen numLines.
  assert (Hlines : (length data ≤ 64 * numLines
                    ∧ (numLines = 0 ∨ 64 * numLines < length data + 64))%nat).
  { unfold numLines.
    pose proof (N.div_mod (N.of_nat (length data) + 63) 64 ltac:(lia)) as Hdiv.
    pose proof (N.mod_lt (N.of_nat (length data) + 63) 64 ltac:(lia)) as Hmod.
    revert Hdiv Hmod.
    generalize ((N.of_nat (length data) + 63) / 64) ((N.of_nat (length data) + 63) mod 64).
    intros q r Hdiv Hmod. split; [lia|]. right. lia. }
  destruct Hlines as [Hle Hmin]. split.
  - change 0 with (N.of_nat 0). rewrite printSectionLines_from; [done | done |].
    destruct Hmin as [Hzero|Hmin]; [by left|]. right. lia.
  - destruct (chunks_concat numLines data Hle Hmin) as [Hconcat Hall].
    split; [done|]. split; [done|]. by rewrite escapedPieces_concat, Hconcat.
Qed.

Lemma printSectionLines_chunks_witness :
  N.of_nat (length (replicate 130 x41)) < Uptr_modulus
  ∧ length <$> chunks (N.to_nat ((N.of_nat (length (replicate 130 x41)) + 63) / 64))
                 (replicate 130 x41) = [64; 64; 2]%nat
  ∧ concat (chunks (N.to_nat ((N.of_nat (length (replicate 130 x41)) + 63) / 64))
              (replicate 130 x41)) = replicate 130 x41.
Proof.
  split; [vm_compute; reflexivity|]. split; [vm_compute; reflexivity|].
  apply (printSectionLines_chunks true (replicate 130 x41) ""). vm_compute. reflexivity.
Defined.

Lemma linesText_clean (char_is_signed : bool) (pieces : list (list byte)) :
  clean (linesText char_is_signed pieces) = true.
Proof.
  induction pieces as [|piece rest IH]; [done|]. cbn [linesText].
  by rewrite !clean_append, escapeString_clean, IH.
Qed.

(** A user section other than the linking section. The name section prints
    nothing. Any other section prints a comment with its escaped name and its
    bytes in quoted lines; whatever the name and the bytes are, the comment
    holds no sentinel, so the loop of [expandIndentation] reads it at any depth
    and leaves the depth as it was. *)
Theorem printUserSection_comment (char_is_signed : bool) (context : ModulePrintContext)
    (userSection : UserSection) (spaces d : N) :
  section_name userSection ≠ "linking" →
  N.of_nat (length (section_data userSection)) < Uptr_modulus →
  ∃ text,
    printUserSection char_is_signed context userSection
    = Ok (set_ctx_string context (ctx_string context +:+ text))
    ∧ text
      = (if decide (section_name userSection = "name") then ""
         else nl "(; User section  " +:+ string_of_char char_quote
                +:+ escapeString char_is_signed (section_name userSection)
                +:+ string_of_char char_quote +:+ ":"
                +:+ linesText char_is_signed
                      (chunks (N.to_nat ((N.of_nat (length (section_data userSection)) + 63)
                                         / 64))
                         (section_data userSection))
                +:+ nl ";)")
    ∧ expands spaces text d d (indent_lines (N.to_nat (Uptr_mul d spaces)) text).
Proof.
  intros Hlinking Hlen. eexists. split; [|split; [reflexivity|]].
  - unfold printUserSection.
    rewrite (proj2 (String.eqb_neq _ _) Hlinking).
    destruct (decide (section_name userSection = "name")) as [Hname|Hname].
    + rewrite (proj2 (String.eqb_eq _ _) Hname). cbn [negb].
      rewrite append_nil_r. by destruct context.
    + rewrite (proj2 (String.eqb_neq _ _) Hname). cbn [negb].
      assert (Hlines : (N.to_nat ((N.of_nat (length (section_data userSection)) + 63) / 64)
                        = 0
                        ∨ 0 ≤ length (section_data userSection)
                          ∧ 64 * N.to_nat ((N.of_nat (length (section_data userSection)) + 63)
                                           / 64)
                            < length (section_data userSection) - 0 + 64)%nat).
      { pose proof (N.div_mod (N.of_nat (length (section_data userSection)) + 63) 64
                      ltac:(lia)) as Hdiv.
        pose proof (N.mod_lt (N.of_nat (length (section_data userSection)) + 63) 64
                      ltac:(lia)) as Hmod.
        revert Hdiv Hmod.
        generalize ((N.of_nat (length (section_data userSection)) + 63) / 64)
                   ((N.of_nat (length (section_data userSection)) + 63) mod 64).
        intros q r Hdiv Hmod. right. lia. }
      pose proof (λ str, printSectionLines_from char_is_signed (section_data userSection)
                           _ 0 str Hlen Hlines) as Hprint.
      change (N.of_nat 0) with 0 in Hprint. rewrite Hprint. do 2 f_equal.
      unfold nl, string_of_char. by rewrite !append_assoc, ?append_cons, ?append_nil_l.
  - apply expands_clean. case_decide; [done|].
    by rewrite !clean_append, escapeString_clean, linesText_clean.
Qed.

Lemma printUserSection_comment_witness :
  section_name (mkUserSection "x" [x41; x0a]) ≠ "linking"
  ∧ N.of_nat (length (section_data (mkUserSection "x" [x41; x0a]))) < Uptr_modulus
  ∧ ∃ text,
      printUserSection true example_module_context (mkUserSection "x" [x41; x0a])
      = Ok (set_ctx_string example_module_context
              (ctx_string example_module_context +:+ text))
      ∧ text
        = nl "(; User section  " +:+ string_of_char char_quote +:+ "x"
            +:+ string_of_char char_quote +:+ ":"
            +:+ nl (string_of_char char_quote) +:+ "A" +:+ string_of_char char_backslash +:+ "n"
            +:+ string_of_char char_quote +:+ nl ";)"
      ∧ expands 2 text 3 3 (indent_lines (N.to_nat (Uptr_mul 3 2)) text).
Proof.
  split; [discriminate|]. split; [reflexivity|].
  apply (printUserSection_comment true example_module_context (mkUserSection "x" [x41; x0a]) 2 3);
    [discriminate | reflexivity].
Defined.

(** ** A branch past the bottom of the control stack *)

Lemma vector_at_out_of_range {A} (v : list A) (i : N) :
  N.of_nat (length v) ≤ i → vector_at v i = Undefined.
Proof.
  intros Hi. unfold vector_at.
  by replace (i <? N.of_nat (length v)) with false by (symmetry; apply N.ltb_ge; lia).
Qed.

Lemma Uptr_sub_wrap (x y : N) :
  x < y → y < Uptr_modulus → Uptr_sub x y = x + Uptr_modulus - y.
Proof.
  intros Hxy Hy. unfold Uptr_sub. rewrite (N.mod_small y) by done.
  rewrite Uptr_modulus_value in *. rewrite N.mod_small; lia.
Qed.

Lemma Uptr_sub_same (x : N) : x < Uptr_modulus → Uptr_sub x x = 0.
Proof.
  intros Hx. unfold Uptr_sub. rewrite (N.mod_small x) by done.
  replace (x + (Uptr_modulus - x)) with Uptr_modulus by lia. apply N.Div0.mod_same.
Qed.

Lemma getBranchTargetId_out_of_range (ctx : FunctionPrintContext) (depth : N) :
  N.of_nat (length (controlStack ctx)) ≤ depth → depth < Uptr_modulus →
  getBranchTargetId ctx depth = Undefined.
Proof.
  intros Hdepth Hlt. unfold getBranchTargetId.
  rewrite vector_at_out_of_range; [done|].
  set (size := N.of_nat (length (controlStack ctx))) in *.
  destruct (decide (depth = size)) as [->|Hne].
  - rewrite Uptr_sub_same by done. rewrite Uptr_sub_wrap by (rewrite ?Uptr_modulus_value; lia).
    rewrite Uptr_modulus_value in *. lia.
  - rewrite (Uptr_sub_wrap size depth) by lia.
    rewrite Uptr_sub_small by (rewrite ?Uptr_modulus_value in *; lia).
    rewrite Uptr_modulus_value in *. lia.
Qed.

Lemma br_table_targets_frame (targetDepths : list N) :
  ∀ (ctx : FunctionPrintContext) (targetIndex : N) ctx',
    FunctionBodyPrinter.br_table_targets ctx targetIndex targetDepths = Ok ctx' →
    controlStack ctx' = controlStack ctx.
Proof.
  induction targetDepths as [|depth rest IH]; intros ctx targetIndex ctx'.
  - simpl. by intros [= <-].
  - cbn [FunctionBodyPrinter.br_table_targets].
    destruct (getBranchTargetId _ depth) as [target| | |]; simpl; try done.
    intros Hrest. apply IH in Hrest. rewrite Hrest. by destruct (targetIndex mod 16 =? 0).
Qed.

(** With a depth that is not below the size of the control stack, the index
    [controlStack.size() - depth - 1] wraps around to a number that is not
    below the size either: the read of the frame is outside the vector, so
    [br], [br_if] and the loop of [br_table] stop there, and [br_table] with
    such a default depth never completes. *)
Theorem branch_target_out_of_range (ctx : FunctionPrintContext) (depth : N) :
  N.of_nat (length (controlStack ctx)) ≤ depth →
  depth < Uptr_modulus →
  getBranchTargetId ctx depth = Undefined
  ∧ FunctionBodyPrinter.br ctx depth = Undefined
  ∧ FunctionBodyPrinter.br_if ctx depth = Undefined
  ∧ (∀ targetIndex rest,
       FunctionBodyPrinter.br_table_targets ctx targetIndex (depth :: rest) = Undefined)
  ∧ (∀ branchTableIndex ctx',
       FunctionBodyPrinter.br_table ctx branchTableIndex depth ≠ Ok ctx').
Proof.
  intros Hdepth Hlt.
  pose proof (getBranchTargetId_out_of_range ctx depth Hdepth Hlt) as Htarget.
  split; [done|].
  split; [by unfold FunctionBodyPrinter.br; rewrite Htarget|].
  split; [by unfold FunctionBodyPrinter.br_if; rewrite Htarget|].
  split.
  - intros targetIndex rest. cbn [FunctionBodyPrinter.br_table_targets].
    rewrite getBranchTargetId_out_of_range; [done | by destruct (targetIndex mod 16 =? 0) | done].
  - intros branchTableIndex ctx'. unfold FunctionBodyPrinter.br_table.
    destruct (vector_at _ branchTableIndex) as [targetDepths| | |]; simpl; try done.
    destruct (FunctionBodyPrinter.br_table_targets _ 0 targetDepths) as [ctx2| | |] eqn:Htargets;
      simpl; try done.
    apply br_table_targets_frame in Htargets.
    rewrite getBranchTargetId_out_of_range; [done | | done].
    cbn. rewrite Htargets. done.
Qed.

Lemma branch_target_out_of_range_witness :
  N.of_nat (length (controlStack example_in_block)) ≤ 2
  ∧ FunctionBodyPrinter.br example_in_block 2 = Undefined
  ∧ FunctionBodyPrinter.br example_in_block 1 = Ok (emit example_in_block (nl "br 1")).
Proof.
  split; [vm_compute; discriminate|].
  split; [|reflexivity].
  apply (branch_target_out_of_range example_in_block 2); [vm_compute; discriminate | reflexivity].
Defined.

(** ** The labels on the control stack *)










(** ** Well-nested bodies *)

Lemma same_frame_refl (stack : list ControlContext.t) : Forall2 same_frame stack stack.
Proof. induction stack; constructor; [by split | done]. Qed.

Lemma same_frame_trans (s1 s2 s3 : list ControlContext.t) :
  Forall2 same_frame s1 s2 → Forall2 same_frame s2 s3 → Forall2 same_frame s1 s3.
Proof.
  intros H12. revert s3. induction H12 as [|f1 f2 s1 s2 [Hl Ht] _ IH]; intros s3 H23.
  - by inversion H23.
  - inversion H23 as [|? f3 ? s3' [Hl' Ht'] Hrest]; subst. constructor; [|by apply IH].
    split; [congruence | auto].
Qed.

Lemma set_back_type_frames (ctx : FunctionPrintContext) (type : ControlContext.Type_)
    (ctx1 : FunctionPrintContext) :
  type ≠ ControlContext.function →
  controlStack_set_back_type ctx type = Ok ctx1 →
  Forall2 same_frame (controlStack ctx) (controlStack ctx1)
  ∧ string_ ctx1 = string_ ctx.
Proof.
  intros Htype. unfold controlStack_set_back_type, controlStack_back.
  destruct (last (controlStack ctx)) as [top|] eqn:Hlast; simpl; [|done].
  intros [= <-]. split; [|done]. cbn. apply last_removelast in Hlast.
  rewrite Hlast at 1. apply Forall2_app; [apply same_frame_refl|].
  constructor; [by split | constructor].
Qed.

(** An operator that neither opens nor closes a construct keeps the frames and
    adds to the text. *)
Lemma decodeOp_keeps (ctx : FunctionPrintContext) (op : FunctionBodyPrinter.Operator)
    (ctx' : FunctionPrintContext) :
  keeps_depth op = true →
  FunctionBodyPrinter.decodeOp ctx op = Ok ctx' →
  Forall2 same_frame (controlStack ctx) (controlStack ctx')
  ∧ ∃ t, string_ ctx' = string_ ctx +:+ t.
Proof.
  assert (Hemit : ∀ s, Forall2 same_frame (controlStack ctx) (controlStack (emit ctx s))
                       ∧ ∃ t, string_ (emit ctx s) = string_ ctx +:+ t).
  { intros s. split; [apply same_frame_refl | by exists s]. }
  destruct op; try done; intros _; cbn [FunctionBodyPrinter.decodeOp].
  - unfold FunctionBodyPrinter.else_.
    destruct (controlStack_set_back_type _ _) as [ctx1| | |] eqn:H1; simpl; try done.
    apply set_back_type_frames in H1 as [Hframes Hstring]; [|done].
    intros [= <-]. split; [done|]. cbn. rewrite Hstring. cbn.
    eexists. by rewrite !append_assoc.
  - intros [= <-]. apply Hemit.
  - unfold FunctionBodyPrinter.br. destruct (getBranchTargetId _ _); simpl; try done.
    intros [= <-]. apply Hemit.
  - unfold FunctionBodyPrinter.br_table.
    destruct (vector_at _ branchTableIndex) as [targetDepths| | |]; simpl; try done.
    destruct (FunctionBodyPrinter.br_table_targets _ 0 targetDepths) as [ctx2| | |] eqn:Htargets;
      simpl; try done.
    destruct (getBranchTargetId _ _); simpl; try done.
    intros [= <-].
    assert (Hframe : ∀ ds c i c', FunctionBodyPrinter.br_table_targets c i ds = Ok c' →
                       controlStack c' = controlStack c
                       ∧ ∃ t, string_ c' = string_ c +:+ t).
    { induction ds as [|depth rest IH]; intros c i c'.
      - simpl. intros [= <-]. split; [done|]. exists "". by rewrite append_nil_r.
      - cbn [FunctionBodyPrinter.br_table_targets].
        destruct (getBranchTargetId _ depth); simpl; try done.
        intros Hrest. apply IH in Hrest as [-> [t ->]].
        split; [by destruct (i mod 16 =? 0)|].
        destruct (i mod 16 =? 0); cbn; eexists; by rewrite !append_assoc. }
    apply Hframe in Htargets as [Hstack [t Ht]]. cbn. rewrite Hstack, Ht.
    split; [apply same_frame_refl|]. cbn. eexists. by rewrite !append_assoc.
  - unfold FunctionBodyPrinter.br_if. destruct (getBranchTargetId _ _); simpl; try done.
    intros [= <-]. apply Hemit.
  - intros [= <-]. apply Hemit.
  - intros [= <-]. apply Hemit.
  - intros [= <-]. apply Hemit.
  - unfold FunctionBodyPrinter.get_local. destruct (vector_at _ _); simpl; try done.
    intros [= <-]. apply Hemit.
  - unfold FunctionBodyPrinter.set_local. destruct (vector_at _ _); simpl; try done.
    intros [= <-]. apply Hemit.
  - unfold FunctionBodyPrinter.tee_local. destruct (vector_at _ _); simpl; try done.
    intros [= <-]. apply Hemit.
  - unfold FunctionBodyPrinter.get_global. destruct (vector_at _ _); simpl; try done.
    intros [= <-]. apply Hemit.
  - unfold FunctionBodyPrinter.set_global. destruct (vector_at _ _); simpl; try done.
    intros [= <-]. apply Hemit.
  - unfold FunctionBodyPrinter.call. destruct (vector_at _ _); simpl; try done.
    intros [= <-]. apply Hemit.
  - unfold FunctionBodyPrinter.call_indirect. destruct (vector_at _ _); simpl; try done.
    intros [= <-]. apply Hemit.
  - unfold FunctionBodyPrinter.catch_.
    destruct (controlStack_set_back_type _ _) as [ctx1| | |] eqn:H1; simpl; try done.
    apply set_back_type_frames in H1 as [Hframes Hstring]; [|done].
    destruct (vector_at _ _); simpl; try done.
    intros [= <-]. split; [done|]. cbn. rewrite Hstring. cbn.
    eexists. by rewrite !append_assoc.
  - unfold FunctionBodyPrinter.catch_all.
    destruct (controlStack_set_back_type _ _) as [ctx1| | |] eqn:H1; simpl; try done.
    apply set_back_type_frames in H1 as [Hframes Hstring]; [|done].
    intros [= <-]. split; [done|]. cbn. rewrite Hstring. cbn.
    eexists. by rewrite !append_assoc.
  - intros [= <-]. split; [apply same_frame_refl|]. cbn. eexists. by rewrite !append_assoc.
Qed.

(** An operator that opens a construct pushes one frame, which is not the
    frame of the function, and adds to the text. *)
Lemma decodeOp_opens (ctx : FunctionPrintContext) (op : FunctionBodyPrinter.Operator)
    (ctx' : FunctionPrintContext) :
  is_opener op = true →
  FunctionBodyPrinter.decodeOp ctx op = Ok ctx' →
  ∃ type label,
    type ≠ ControlContext.function
    ∧ controlStack ctx' = controlStack ctx ++ [ControlContext.mk type label]
    ∧ ∃ t, string_ ctx' = string_ ctx +:+ t.
Proof.
  assert (Hopener : ∀ keyword labelIdBase type imm,
    type ≠ ControlContext.function →
    ('(labelId, ctx1) ← printControlLabel (emit ctx keyword) labelIdBase;
     ctx2 ← printControlSignature ctx1 imm;
     Ok (pushControlStack ctx2 type labelId)) = Ok ctx' →
    ∃ type label,
      type ≠ ControlContext.function
      ∧ controlStack ctx' = controlStack ctx ++ [ControlContext.mk type label]
      ∧ ∃ t, string_ ctx' = string_ ctx +:+ t).
  { intros keyword labelIdBase type imm Htype. unfold printControlLabel, printControlSignature.
    destruct (if labelIndex _ <? _ then _ else _) as [labelId0| | |]; simpl; try done.
    destruct (NameScope_map _ labelId0) as [[labelId scope]| | |]; simpl; try done.
    destruct (resolveBlockType _ imm) as [signature| | |]; simpl; try done.
    intros [= <-]. exists type, labelId. split; [done|]. split; [done|]. cbn.
    rewrite print_FunctionType_append. eexists. by rewrite !append_assoc. }
  destruct op; try done; intros _; cbn [FunctionBodyPrinter.decodeOp].
  - by apply Hopener.
  - by apply Hopener.
  - by apply Hopener.
  - unfold FunctionBodyPrinter.try_, printControlSignature.
    destruct (resolveBlockType _ imm); simpl; try done.
    intros [= <-]. exists ControlContext.try_, "try". split; [done|]. split; [done|]. cbn.
    rewrite print_FunctionType_append. eexists. by rewrite !append_assoc.
Qed.

(** [end] pops the top frame and, unless it is the frame of the function,
    prints its label in a comment. *)
Lemma end_pops (ctx ctx' : FunctionPrintContext) (stack : list ControlContext.t)
    (top : ControlContext.t) :
  controlStack ctx = stack ++ [top] →
  ControlContext.type top ≠ ControlContext.function →
  FunctionBodyPrinter.end_ ctx = Ok ctx' →
  controlStack ctx' = stack
  ∧ string_ ctx'
    = string_ ctx +:+ DEDENT_STRING +:+ nl "end ;; " +:+ ControlContext.labelId top.
Proof.
  intros Hstack Htype. unfold FunctionBodyPrinter.end_, controlStack_back.
  change (controlStack (emit ctx DEDENT_STRING)) with (controlStack ctx).
  rewrite Hstack, last_snoc. simpl. rewrite decide_True by done.
  unfold controlStack_pop_back, controlStack_back. cbn. rewrite Hstack, last_snoc. simpl.
  intros [= <-]. cbn. rewrite removelast_last. by rewrite !append_assoc.
Qed.

Lemma consumes_app (ops1 ops2 : list FunctionBodyPrinter.Operator) :
  ∀ ctx ctx',
    consumes ctx (ops1 ++ ops2) ctx' →
    ∃ ctx1, consumes ctx ops1 ctx1 ∧ consumes ctx1 ops2 ctx'.
Proof.
  induction ops1 as [|op ops1 IH]; intros ctx ctx' H.
  - exists ctx. split; [constructor | done].
  - inversion H as [|? ? ctx1 ? ? Hstack Hop Hrest]; subst.
    apply IH in Hrest as (ctx2 & H1 & H2). exists ctx2. split; [|done].
    by apply (consumes_cons _ _ ctx1).
Qed.

(** A well-nested sequence leaves the frames that it found, and adds to the
    text. *)
Lemma nested_consumes (ops : list FunctionBodyPrinter.Operator) :
  nested ops →
  ∀ ctx ctx',
    consumes ctx ops ctx' →
    Forall2 same_frame (controlStack ctx) (controlStack ctx')
    ∧ ∃ t, string_ ctx' = string_ ctx +:+ t.
Proof.
  induction 1 as [|op rest Hop _ IH|op body rest Hop _ IHbody _ IHrest]; intros ctx ctx' Hrun.
  - inversion Hrun; subst. split; [apply same_frame_refl|]. exists "". by rewrite append_nil_r.
  - inversion Hrun as [|? ? ctx1 ? ? Hstack Hdecode Hrest]; subst.
    apply decodeOp_keeps in Hdecode as [Hframes [t Ht]]; [|done].
    apply IH in Hrest as [Hframes' [t' Ht']].
    split; [by eapply same_frame_trans|]. rewrite Ht', Ht. eexists. by rewrite append_assoc.
  - inversion Hrun as [|? ? ctx1 ? ? Hstack Hdecode Hrest]; subst.
    apply decodeOp_opens in Hdecode as (type & label & Htype & Hstack1 & t & Ht); [|done].
    apply consumes_app in Hrest as (ctx2 & Hbody & Hrest).
    apply IHbody in Hbody as [Hframes2 [t2 Ht2]].
    inversion Hrest as [|? ? ctx3 ? ? _ Hend Hrest']; subst.
    rewrite Hstack1 in Hframes2.
    apply Forall2_app_inv_l in Hframes2 as (stack2 & tops & Hbase & Htop & Hstack2).
    inversion Htop as [|? top ? ? [Hlabel Htype2] Hnil]; subst. inversion Hnil; subst.
    cbn [FunctionBodyPrinter.decodeOp] in Hend.
    apply (end_pops _ _ stack2 top) in Hend as [Hstack3 Ht3]; [|done|by apply Htype2].
    apply IHrest in Hrest' as [Hframes' [t' Ht']].
    split.
    + apply (same_frame_trans _ stack2); [done|]. by rewrite <- Hstack3.
    + rewrite Ht', Ht3, Ht2, Ht. eexists. by rewrite !append_assoc.
Qed.

(** In a well-nested body, the comment after an [end] names the label of the
    construct that it closes: after [block], [loop], [if] or [try], a
    well-nested sequence and [end], the text ends with the sentinel of the
    dedent and the comment with the label of the frame that the opening
    operator pushed, and the control stack holds the frames that it held
    before. *)
Theorem end_comment_matches_label (ctx : FunctionPrintContext)
    (op : FunctionBodyPrinter.Operator) (body : list FunctionBodyPrinter.Operator)
    (ctx' : FunctionPrintContext) :
  is_opener op = true →
  nested body →
  consumes ctx (op :: body ++ [FunctionBodyPrinter.op_end]) ctx' →
  ∃ ctx1 label inner,
    FunctionBodyPrinter.decodeOp ctx op = Ok ctx1
    ∧ last (stackLabels (controlStack ctx1)) = Some label
    ∧ string_ ctx' = string_ ctx1 +:+ inner +:+ DEDENT_STRING +:+ nl "end ;; " +:+ label
    ∧ Forall2 same_frame (controlStack ctx) (controlStack ctx').
Proof.
  intros Hop Hbody Hrun.
  inversion Hrun as [|? ? ctx1 ? ? Hstack Hdecode Hrest]; subst.
  pose proof Hdecode as (type & label & Htype & Hstack1 & _)%decodeOp_opens; [|done].
  apply consumes_app in Hrest as (ctx2 & Hrun2 & Hend).
  apply (nested_consumes body Hbody) in Hrun2 as [Hframes2 [inner Hinner]].
  inversion Hend as [|? ? ctx3 ? ? _ Hend' Hnil]; subst. inversion Hnil; subst.
  rewrite Hstack1 in Hframes2.
  apply Forall2_app_inv_l in Hframes2 as (stack2 & tops & Hbase & Htop & Hstack2).
  inversion Htop as [|? top ? ? [Hlabel Htype2] Hnil']; subst. inversion Hnil'; subst.
  cbn [FunctionBodyPrinter.decodeOp] in Hend'.
  apply (end_pops _ _ stack2 top) in Hend' as [Hstack3 Ht3]; [|done|by apply Htype2].
  exists ctx1, label, inner. split; [done|]. split.
  - rewrite Hstack1. unfold stackLabels. rewrite fmap_app. cbn [fmap list_fmap].
    by rewrite last_snoc.
  - split; [|by rewrite Hstack3].
    rewrite Ht3, Hinner, Hlabel. cbn. by rewrite !append_assoc.
Qed.

Lemma end_comment_matches_label_witness :
  let body := [FunctionBodyPrinter.op_drop;
               FunctionBodyPrinter.op_loop noParametersOrResult;
               FunctionBodyPrinter.op_br 1;
               FunctionBodyPrinter.op_end;
               FunctionBodyPrinter.op_else] in
  let ops := FunctionBodyPrinter.op_if noParametersOrResult
               :: body ++ [FunctionBodyPrinter.op_end] in
  let ctx' := match FunctionBodyPrinter.printFunctionBody_loop example_body_start ops with
              | Ok (ctx', _) => ctx'
              | _ => example_body_start
              end in
  nested body
  ∧ consumes example_body_start ops ctx'
  ∧ ∃ ctx1 label inner,
      FunctionBodyPrinter.decodeOp example_body_start (FunctionBodyPrinter.op_if noParametersOrResult)
      = Ok ctx1
      ∧ last (stackLabels (controlStack ctx1)) = Some label
      ∧ string_ ctx' = string_ ctx1 +:+ inner +:+ DEDENT_STRING +:+ nl "end ;; " +:+ label
      ∧ Forall2 same_frame (controlStack example_body_start) (controlStack ctx').
Proof.
  intros body ops ctx'.
  assert (Hnested : nested body).
  { apply nested_keeps; [reflexivity|].
    apply (nested_construct _ [FunctionBodyPrinter.op_br 1] [FunctionBodyPrinter.op_else]);
      [reflexivity | | ].
    - apply nested_keeps; [reflexivity | constructor].
    - apply nested_keeps; [reflexivity | constructor]. }
  assert (Hrun : consumes example_body_start ops ctx').
  { repeat (eapply consumes_cons; [by vm_compute | vm_compute; reflexivity |]).
    apply consumes_nil. }
  split; [done|]. split; [done|].
  exact (end_comment_matches_label example_body_start
           (FunctionBodyPrinter.op_if noParametersOrResult) body ctx' eq_refl Hnested Hrun).
Defined.

(** ** [printModule] under [expandIndentation] *)

Lemma print_SizeConstraints_append (str : string) (size : IR.SizeConstraints) :
  print_SizeConstraints str size = str +:+ print_SizeConstraints "" size.
Proof. by rewrite !print_SizeConstraints_text, append_nil_l. Qed.

Lemma print_TableType_text (str : string) (type : IR.TableType) :
  print_TableType str type = str +:+ print_TableType "" type
  ∧ plain (print_TableType "" type) = true.
Proof.
  unfold print_TableType. rewrite (print_SizeConstraints_append str). split.
  - destruct (IR.table_isShared type); by rewrite ?append_assoc.
  - destruct (IR.table_isShared type); by rewrite !plain_append, print_SizeConstraints_plain.
Qed.

Lemma print_MemoryType_text (str : string) (type : IR.MemoryType) :
  print_MemoryType str type = str +:+ print_MemoryType "" type
  ∧ plain (print_MemoryType "" type) = true.
Proof.
  unfold print_MemoryType. rewrite (print_SizeConstraints_append str). split.
  - destruct (IR.memory_isShared type); by rewrite ?append_assoc.
  - destruct (IR.memory_isShared type); by rewrite ?plain_append, print_SizeConstraints_plain.
Qed.

Lemma print_GlobalType_text (str : string) (type : IR.GlobalType) :
  print_GlobalType str type = str +:+ print_GlobalType "" type
  ∧ plain (print_GlobalType "" type) = true.
Proof.
  unfold print_GlobalType, print_ValueType. split.
  - destruct (IR.isMutable type); by rewrite ?append_assoc, ?append_nil_l.
  - destruct (IR.isMutable type); by rewrite ?plain_append, ?append_nil_l, asString_plain.
Qed.

Lemma pretty_Z_plain (z : Z) : plain (pretty z) = true.
Proof.
  destruct z as [|p|p]; [done | apply (pretty_N_plain (N.pos p)) |].
  change (pretty (Z.neg p)) with ("-" +:+ pretty (N.pos p)).
  by rewrite plain_append, pretty_N_plain.
Qed.

Lemma c_str_clean (s : string) : clean s = true → clean (c_str s) = true.
Proof.
  induction s as [|c s IH]; [done|]. rewrite clean_cons. intros [Hc Hs]%andb_true_iff.
  simpl. destruct (Ascii.eqb c char_nul); [done|]. by rewrite clean_cons, Hc, IH.
Qed.

Lemma printSectionLines_clean (char_is_signed : bool) (data : list byte) (numLines : nat) :
  ∀ (offset : N) (str : string),
    ∃ t, printSectionLines char_is_signed numLines offset data str = str +:+ t
         ∧ clean t = true.
Proof.
  induction numLines as [|n IH]; intros offset str.
  - exists "". by rewrite append_nil_r.
  - cbn [printSectionLines]. edestruct IH as (t & -> & Ht). eexists. split.
    + rewrite !append_assoc. reflexivity.
    + by rewrite !clean_append, escapeString_clean, Ht.
Qed.

(** ** The comment of the linking section under [expandIndentation] *)

Lemma expands_dedent_to (spaces depth depth' : N) :
  depth = depth' + 1 → depth < Uptr_modulus →
  expands spaces DEDENT_STRING depth depth' "".
Proof.
  intros -> Hdepth.
  replace depth' with (Uptr_decr (depth' + 1)) at 2; [apply expands_dedent; lia|].
  rewrite Uptr_decr_pred by lia. lia.
Qed.

(** The rules for [balanced], along the structure of a computation. *)
Section LinkingText.
Variables (spaces d : N) (context : ModulePrintContext).
Hypothesis Hd : d + 3 < Uptr_modulus.
Hypothesis Hcontext : clean_linking_context context = true.

Implicit Types (l : nat) (st : LinkingState).

Lemma balanced_ret {A} (l : nat) (a : A) (ok : A → Prop) :
  ok a → balanced spaces d l (mret a) ok l.
Proof. by intros Hok st Hst. Qed.

Lemma balanced_bind {A B} (l l1 l2 : nat) (m : Decode A) (k : A → Decode B)
    (ok1 : A → Prop) (ok2 : B → Prop) :
  balanced spaces d l m ok1 l1 →
  (∀ a, ok1 a → balanced spaces d l1 (k a) ok2 l2) →
  balanced spaces d l (m ≫= k) ok2 l2.
Proof.
  intros Hm Hk st Hst. specialize (Hm st Hst).
  unfold mbind, Decode_bind. destruct (m st) as [[a| | |] st']; try done.
  destruct Hm as [Hst' Hok]. by apply Hk.
Qed.

Lemma balanced_weaken {A} (l l' : nat) (m : Decode A) (ok ok' : A → Prop) :
  balanced spaces d l m ok l' → (∀ a, ok a → ok' a) → balanced spaces d l m ok' l'.
Proof.
  intros Hm Hok st Hst. specialize (Hm st Hst).
  destruct (m st) as [[a| | |] st']; try done. destruct Hm. split; [done | by apply Hok].
Qed.

Lemma balanced_append (l : nat) (s : string) :
  clean s = true → balanced spaces d l (append s) any_result l.
Proof.
  intros Hs st [Hdepth [t Ht]]. split; [|done]. split; [done|]. simpl.
  eexists. eapply expands_append; [exact Ht | by apply expands_clean].
Qed.

Lemma balanced_throw {A} (l l' : nat) (ok : A → Prop) :
  (1 ≤ l ≤ 3)%nat → balanced spaces d l (throw : Decode A) ok l'.
Proof. intros Hl st Hst. simpl. by exists l. Qed.

Lemma balanced_undefined {A} (l l' : nat) (ok : A → Prop) :
  balanced spaces d l (undefined : Decode A) ok l'.
Proof. by intros st Hst. Qed.

Lemma balanced_outOfFuel {A} (l l' : nat) (ok : A → Prop) :
  balanced spaces d l (outOfFuel : Decode A) ok l'.
Proof. by intros st Hst. Qed.

Lemma balanced_reading {A B} (l l' : nat) (r : option A) (k : A → Decode B) (ok : B → Prop) :
  (1 ≤ l ≤ 3)%nat →
  (∀ a, r = Some a → balanced spaces d l (k a) ok l') →
  balanced spaces d l (reading r ≫= k) ok l'.
Proof.
  intros Hl Hk. destruct r as [a|].
  - intros st Hst. change ((reading (Some a) ≫= k) st) with (k a st). by apply (Hk a).
  - intros st Hst. simpl. by exists l.
Qed.

Lemma balanced_indexing {A} (l : nat) (v : list A) (i : N) (ok : A → Prop) :
  (∀ a, a ∈ v → ok a) → balanced spaces d l (indexing v i) ok l.
Proof.
  intros Hok st Hst. unfold indexing.
  destruct (vector_at v i) as [a| | |] eqn:Hat; try done.
  split; [done|]. apply Hok. by apply vector_at_elem in Hat.
Qed.

Lemma balanced_shiftOne (l : nat) (alignment : N) :
  balanced spaces d l (shiftOne alignment) any_result l.
Proof.
  intros st Hst. unfold shiftOne. by destruct (alignment <? 31), (alignment =? 31).
Qed.

Lemma balanced_openLevel (l : nat) : (l < 3)%nat → balanced spaces d l openLevel any_result (S l).
Proof.
  intros Hl st [Hdepth [t Ht]]. split; [|done]. split.
  - simpl. rewrite Hdepth, Uptr_incr_small by (rewrite Uptr_modulus_value; lia). lia.
  - simpl. exists (t +:+ "").
    eapply expands_append; [exact Ht|].
    replace (d + N.of_nat (S l)) with (Uptr_incr (d + N.of_nat l)); [apply expands_indent|].
    rewrite Uptr_incr_succ by lia. lia.
Qed.

Lemma balanced_closeLevel (l : nat) :
  (l < 3)%nat → balanced spaces d (S l) closeLevel any_result l.
Proof.
  intros Hl st [Hdepth [t Ht]]. split; [|done]. split.
  - simpl. rewrite Hdepth, Uptr_decr_succ by (rewrite Uptr_modulus_value; lia). lia.
  - simpl. exists (t +:+ "").
    eapply expands_append; [exact Ht|].
    replace (d + N.of_nat l) with (Uptr_decr (d + N.of_nat (S l)));
      [apply expands_dedent; lia|].
    rewrite Uptr_decr_pred by lia. lia.
Qed.


(** What is read from a stream without the byte E0 has none, and neither has
    the stream that is left. *)
Lemma clean_bytes_app (a b : list byte) :
  clean_bytes (a ++ b) = clean_bytes a && clean_bytes b.
Proof. unfold clean_bytes. by rewrite string_of_list_byte_app, clean_append. Qed.

Lemma advance_clean (stream rest : MemoryInputStream) (numBytes : N) (bytes : list byte) :
  clean_bytes stream = true →
  advance stream numBytes = Some (bytes, rest) →
  clean_bytes bytes = true ∧ clean_bytes rest = true.
Proof.
  intros Hclean. unfold advance. destruct (numBytes <=? _); [|done]. intros [= <- <-].
  rewrite <- (take_drop (N.to_nat numBytes) stream), clean_bytes_app in Hclean.
  by apply andb_true_iff in Hclean.
Qed.

Lemma serializeNativeValue_U8_clean (stream rest : MemoryInputStream) (value : N) :
  clean_bytes stream = true →
  serializeNativeValue_U8 stream = Some (value, rest) →
  clean_bytes rest = true.
Proof.
  intros Hclean. unfold serializeNativeValue_U8.
  destruct (advance stream 1) as [[bytes rest']|] eqn:Hadv; [|done]. simpl.
  apply (advance_clean _ _ _ _ Hclean) in Hadv as [_ Hrest].
  destruct bytes as [|b [|]]; try done. by intros [= _ <-].
Qed.

Lemma readVarIntBytes_clean (maxBytes : nat) :
  ∀ (stream rest : MemoryInputStream) (bytes : list N),
    clean_bytes stream = true →
    readVarIntBytes maxBytes stream = Some (bytes, rest) →
    clean_bytes rest = true.
Proof.
  induction maxBytes as [|n IH]; intros stream rest bytes Hclean; cbn [readVarIntBytes].
  - by intros [= _ <-].
  - destruct (serializeNativeValue_U8 stream) as [[byte stream1]|] eqn:Hbyte; [|done]. simpl.
    apply (serializeNativeValue_U8_clean _ _ _ Hclean) in Hbyte.
    destruct (N.testbit byte 7).
    + destruct (readVarIntBytes n stream1) as [[bytes' stream2]|] eqn:Hrest; [|done]. simpl.
      apply (IH _ _ _ Hbyte) in Hrest. by intros [= _ <-].
    + by intros [= _ <-].
Qed.

Lemma serializeVarUInt32_clean (stream rest : MemoryInputStream) (value : N) :
  clean_bytes stream = true →
  serializeVarUInt32 stream = Some (value, rest) →
  clean_bytes rest = true.
Proof.
  intros Hclean. unfold serializeVarUInt32.
  destruct (readVarIntBytes 5 stream) as [[bytes stream']|] eqn:Hread; [|done]. simpl.
  apply (readVarIntBytes_clean _ _ _ _ Hclean) in Hread.
  destruct (N.ldiff _ _ =? 0); [|done]. by intros [= _ <-].
Qed.

Lemma serialize_string_clean (stream rest : MemoryInputStream) (name : string) :
  clean_bytes stream = true →
  serialize_string stream = Some (name, rest) →
  clean name = true ∧ clean_bytes rest = true.
Proof.
  intros Hclean. unfold serialize_string.
  destruct (serializeVarUInt32 stream) as [[size stream1]|] eqn:Hsize; [|done]. simpl.
  apply (serializeVarUInt32_clean _ _ _ Hclean) in Hsize.
  destruct (advance stream1 size) as [[bytes stream2]|] eqn:Hadv; [|done]. simpl.
  apply (advance_clean _ _ _ _ Hsize) in Hadv as [Hbytes Hrest].
  by intros [= <- <-].
Qed.

(** The names of the context. *)
Lemma context_clean_parts :
  (∀ function, function ∈ names_functions (ctx_names context) →
               clean (fn_name function) = true)
  ∧ (∀ name, name ∈ names_globals (ctx_names context) → clean name = true)
  ∧ (∀ import, import ∈ functions_imports (ctx_module context) →
               clean (importedName import) = true)
  ∧ (∀ import, import ∈ globals_imports (ctx_module context) →
               clean (importedName import) = true)
  ∧ (∀ userSection, userSection ∈ userSections (ctx_module context) →
                    clean (section_name userSection) = true).
Proof.
  unfold clean_linking_context in Hcontext. rewrite !andb_true_iff in Hcontext.
  destruct Hcontext as [[[[H1 H2] H3] H4] H5].
  assert (Himport : ∀ import, clean_import import = true →
                              clean (importedName import) = true).
  { intros import. unfold clean_import, importedName.
    rewrite !clean_append, andb_true_iff. by intros [-> ->]. }
  repeat split.
  - intros function Hin. by apply (forallb_elem _ _ _ H1).
  - intros name Hin. by apply (forallb_elem _ _ _ H2).
  - intros import Hin. by apply Himport, (forallb_elem _ _ _ H3).
  - intros import Hin. by apply Himport, (forallb_elem _ _ _ H4).
  - intros userSection Hin. by apply (forallb_elem _ _ _ H5).
Qed.

Lemma function_at_balanced (l : nat) (index : N) :
  balanced spaces d l (indexing (names_functions (ctx_names context)) index)
    (λ function, clean (fn_name function) = true) l.
Proof. apply balanced_indexing, context_clean_parts. Qed.

Lemma global_at_balanced (l : nat) (index : N) :
  balanced spaces d l (indexing (names_globals (ctx_names context)) index)
    (λ name, clean name = true) l.
Proof. apply balanced_indexing, context_clean_parts. Qed.

Lemma function_import_at_balanced (l : nat) (index : N) :
  balanced spaces d l (indexing (functions_imports (ctx_module context)) index)
    (λ import, clean (importedName import) = true) l.
Proof. apply balanced_indexing, context_clean_parts. Qed.

Lemma global_import_at_balanced (l : nat) (index : N) :
  balanced spaces d l (indexing (globals_imports (ctx_module context)) index)
    (λ import, clean (importedName import) = true) l.
Proof. apply balanced_indexing, context_clean_parts. Qed.

Lemma userSection_at_balanced (l : nat) (index : N) :
  balanced spaces d l (indexing (userSections (ctx_module context)) index)
    (λ userSection, clean (section_name userSection) = true) l.
Proof. apply balanced_indexing, context_clean_parts. Qed.

Ltac solve_clean :=
  rewrite ?clean_append, ?andb_true_iff; repeat split;
  first [ reflexivity | assumption
        | apply plain_clean, pretty_N_plain | apply plain_clean, pretty_Z_plain ].

Ltac balanced_read lemma :=
  apply balanced_reading; [lia|];
  let H := fresh "Hread" in
  intros [? ?] H; apply lemma in H; [|assumption].

Ltac balanced_step :=
  lazymatch goal with
  | |- balanced _ _ _ (mret _) _ _ => apply balanced_ret; try exact I
  | |- balanced _ _ _ (append _) _ _ => apply balanced_append; solve_clean
  | |- balanced _ _ _ throw _ _ => apply balanced_throw; lia
  | |- balanced _ _ _ undefined _ _ => apply balanced_undefined
  | |- balanced _ _ _ (shiftOne _) _ _ => apply balanced_shiftOne
  | |- balanced _ _ _ openLevel _ _ => apply balanced_openLevel; lia
  | |- balanced _ _ _ closeLevel _ _ => apply balanced_closeLevel; lia
  | |- balanced _ _ _ (reading (serialize_string _) ≫= _) _ _ =>
      balanced_read serialize_string_clean;
      lazymatch goal with H : _ ∧ _ |- _ => destruct H end
  | |- balanced _ _ _ (reading (serializeVarUInt32 _) ≫= _) _ _ =>
      balanced_read serializeVarUInt32_clean
  | |- balanced _ _ _ (reading (serializeNativeValue_U8 _) ≫= _) _ _ =>
      balanced_read serializeNativeValue_U8_clean
  | |- balanced _ _ _ (indexing (names_functions _) _) _ _ => apply function_at_balanced
  | |- balanced _ _ _ (indexing (names_globals _) _) _ _ => apply global_at_balanced
  | |- balanced _ _ _ (indexing (functions_imports _) _) _ _ =>
      apply function_import_at_balanced
  | |- balanced _ _ _ (indexing (globals_imports _) _) _ _ => apply global_import_at_balanced
  | |- balanced _ _ _ (indexing (userSections _) _) _ _ => apply userSection_at_balanced
  | |- balanced _ _ _ ((if _ then _ else _) ≫= _) _ _ =>
      eapply (balanced_bind _ _ _ _ _ any_result); [|intros ? _]
  | |- balanced _ _ _ (_ ≫= _) _ _ => eapply balanced_bind; [|intros ? ?]
  | |- balanced _ _ _ (if ?b then _ else _) _ _ => destruct b
  | |- balanced _ _ _ (match ?x with _ => _ end) _ _ => destruct x
  end.

Lemma segmentInfo_loop_balanced (numSegments : nat) (substream : MemoryInputStream) :
  clean_bytes substream = true →
  balanced spaces d 2 (segmentInfo_loop numSegments substream) any_result 2.
Proof.
  revert substream. induction numSegments as [|n IH]; intros substream Hclean;
    cbn [segmentInfo_loop]; repeat balanced_step; try done; try (by apply IH).
Qed.

Lemma segmentInfo_balanced (substream : MemoryInputStream) :
  clean_bytes substream = true →
  balanced spaces d 1 (segmentInfo substream) any_result 1.
Proof.
  intros Hclean. unfold segmentInfo. repeat balanced_step.
  by apply segmentInfo_loop_balanced.
Qed.

Lemma initFuncs_loop_balanced (numInitFuncs : nat) (substream : MemoryInputStream) :
  clean_bytes substream = true →
  balanced spaces d 2 (initFuncs_loop context numInitFuncs substream) any_result 2.
Proof.
  revert substream. induction numInitFuncs as [|n IH]; intros substream Hclean;
    cbn [initFuncs_loop]; repeat balanced_step; try done; try (by apply IH).
Qed.

Lemma initFuncs_balanced (substream : MemoryInputStream) :
  clean_bytes substream = true →
  balanced spaces d 1 (initFuncs context substream) any_result 1.
Proof.
  intros Hclean. unfold initFuncs. repeat balanced_step.
  by apply initFuncs_loop_balanced.
Qed.

Lemma comdatSymbol_balanced (kind index : N) :
  balanced spaces d 3 (comdatSymbol context kind index) any_result 3.
Proof.
  unfold comdatSymbol.
  destruct kind as [|[[]| |]]; repeat balanced_step; done.
Qed.

Lemma comdatSymbols_loop_balanced (numSymbols : nat) (substream : MemoryInputStream) :
  clean_bytes substream = true →
  balanced spaces d 3 (comdatSymbols_loop context numSymbols substream)
    (λ substream', clean_bytes substream' = true) 3.
Proof.
  revert substream. induction numSymbols as [|n IH]; intros substream Hclean;
    cbn [comdatSymbols_loop]; repeat balanced_step; try done; try (by apply IH).
  apply comdatSymbol_balanced.
Qed.

Lemma comdatInfo_loop_balanced (numComdats : nat) (substream : MemoryInputStream) :
  clean_bytes substream = true →
  balanced spaces d 2 (comdatInfo_loop context numComdats substream) any_result 2.
Proof.
  revert substream. induction numComdats as [|n IH]; intros substream Hclean;
    cbn [comdatInfo_loop]; repeat balanced_step; try done.
  - by apply comdatSymbols_loop_balanced.
  - balanced_step.
  - by apply IH.
Qed.

Lemma comdatInfo_balanced (substream : MemoryInputStream) :
  clean_bytes substream = true →
  balanced spaces d 1 (comdatInfo context substream) any_result 1.
Proof.
  intros Hclean. unfold comdatInfo. repeat balanced_step.
  by apply comdatInfo_loop_balanced.
Qed.

Lemma readSymbol_balanced (kind : N) (substream : MemoryInputStream) :
  clean_bytes substream = true →
  balanced spaces d 2 (readSymbol context kind substream)
    (λ r, clean (kindName r.1) = true ∧ clean (symbolName r.1) = true
          ∧ clean_bytes r.2 = true) 2.
Proof.
  intros Hclean. unfold readSymbol.
  destruct kind as [|[[]|[]|]]; repeat balanced_step; try done.
Qed.

Lemma printSymbolTarget_balanced (kind index : N) :
  balanced spaces d 2 (printSymbolTarget context kind index) any_result 2.
Proof.
  unfold printSymbolTarget.
  destruct kind as [|[[]|[]|]]; repeat balanced_step; done.
Qed.

Lemma printSymbolFlags_balanced (flags : N) :
  balanced spaces d 2 (printSymbolFlags flags) any_result 2.
Proof. unfold printSymbolFlags. repeat balanced_step; done. Qed.

Lemma symbolTable_loop_balanced (numSymbols : nat) (substream : MemoryInputStream) :
  clean_bytes substream = true →
  balanced spaces d 2 (symbolTable_loop context numSymbols substream) any_result 2.
Proof.
  revert substream. induction numSymbols as [|n IH]; intros substream Hclean;
    cbn [symbolTable_loop]; [by apply balanced_ret|].
  balanced_step. balanced_step.
  eapply balanced_bind; [by apply readSymbol_balanced|].
  intros [symbol substream'] (Hkind & Hname & Hrest). cbn [fst snd] in Hkind, Hname, Hrest.
  repeat balanced_step; try done.
  - apply printSymbolTarget_balanced.
  - apply printSymbolFlags_balanced.
  - by apply IH.
Qed.

Lemma symbolTable_balanced (substream : MemoryInputStream) :
  clean_bytes substream = true →
  balanced spaces d 1 (symbolTable context substream) any_result 1.
Proof.
  intros Hclean. unfold symbolTable. repeat balanced_step.
  by apply symbolTable_loop_balanced.
Qed.

Lemma subsection_balanced (subsectionType : N) (substream : MemoryInputStream) :
  clean_bytes substream = true →
  balanced spaces d 1 (subsection context subsectionType substream) any_result 1.
Proof.
  intros Hclean. unfold subsection.
  destruct subsectionType as [|[[[]|[]|]|[[]|[]|]|]]; repeat balanced_step;
    auto using segmentInfo_balanced, initFuncs_balanced, comdatInfo_balanced,
      symbolTable_balanced.
Qed.

Lemma subsections_loop_balanced (fuel : nat) :
  ∀ stream : MemoryInputStream,
    clean_bytes stream = true →
    balanced spaces d 1 (subsections_loop context fuel stream) any_result 1.
Proof.
  induction fuel as [|fuel IH]; intros stream Hclean; cbn [subsections_loop].
  - destruct (capacity stream =? 0); [by apply balanced_ret | apply balanced_outOfFuel].
  - destruct (capacity stream =? 0); [by apply balanced_ret|].
    balanced_step. balanced_step.
    apply balanced_reading; [lia|]. intros [bytes stream'] Hadvance.
    apply advance_clean in Hadvance as [Hbytes Hrest]; [|done].
    eapply balanced_bind; [by apply subsection_balanced|]. intros _ _. by apply IH.
Qed.

Lemma linkingSection_try_balanced (data : list byte) :
  clean_bytes data = true →
  balanced spaces d 1 (linkingSection_try context data) any_result 1.
Proof.
  intros Hclean. unfold linkingSection_try. repeat balanced_step.
  by apply subsections_loop_balanced.
Qed.

Lemma linkingSection_start_text : text_at spaces d 1 linkingSection_start.
Proof.
  split; [done|]. eexists.
  change (linkingSectionString linkingSection_start)
    with (nl "(; linking section:" +:+ INDENT_STRING).
  eapply expands_append; [by apply expands_clean|].
  replace (d + N.of_nat 1) with (Uptr_incr d); [apply expands_indent|].
  rewrite Uptr_incr_succ by lia. lia.
Qed.

Lemma string_copies_dedent_expands (k : nat) :
  (k ≤ 2)%nat →
  expands spaces (string_copies k DEDENT_STRING) (d + 1 + N.of_nat k) (d + 1) "".
Proof.
  induction k as [|k IH]; intros Hk.
  - rewrite N.add_0_r. apply expands_nil.
  - cbn [string_copies]. change "" with ("" +:+ "").
    apply (expands_append _ _ _ _ (d + 1 + N.of_nat k)); [|apply IH; lia].
    apply expands_dedent_to; lia.
Qed.

Lemma failedComment_expands (text : string) (k : nat) (t : string) :
  (1 ≤ k ≤ 3)%nat →
  expands spaces text d (d + N.of_nat k) t →
  ∃ t', expands spaces (failedComment text k) d d t'.
Proof.
  intros Hk Htext. unfold failedComment. eexists.
  apply (expands_append _ _ _ _ (d + 1)).
  - apply (expands_append _ _ _ _ (d + N.of_nat k)).
    + apply (expands_append _ _ _ _ (d + N.of_nat k)); [exact Htext|].
      by apply expands_clean.
    + replace (d + N.of_nat k) with (d + 1 + N.of_nat (k - 1)) by lia.
      apply string_copies_dedent_expands. lia.
  - apply (expands_append _ _ _ _ d).
    + apply expands_dedent_to; lia.
    + by apply expands_clean.
Qed.

End LinkingText.

Lemma printLinkingSection_expands (spaces d : N) (context : ModulePrintContext)
    (linkingSection : UserSection) :
  d + 3 < Uptr_modulus →
  clean_linking_context context = true →
  clean_bytes (section_data linkingSection) = true →
  printLinkingSection context linkingSection = Undefined
  ∨ ∃ comment t,
      printLinkingSection context linkingSection = Ok (ctx_string context +:+ comment)
      ∧ expands spaces comment d d t.
Proof.
  intros Hd Hcontext Hdata.
  pose proof (linkingSection_try_contained context (section_data linkingSection)
                linkingSection_start linkingSection_start_level) as Hcontained.
  pose proof (linkingSection_try_balanced spaces d context Hd Hcontext
                (section_data linkingSection) Hdata linkingSection_start
                (linkingSection_start_text spaces d Hd)) as Hbalanced.
  destruct (linkingSection_try context (section_data linkingSection) linkingSection_start)
    as [[[]| | |] st] eqn:Htry; [| | |done].
  - right. destruct Hbalanced as [[Hdepth [t Ht]] _].
    exists ((linkingSectionString st +:+ DEDENT_STRING) +:+ nl ";)"). eexists. split.
    + unfold printLinkingSection, linkingSection_tried. by rewrite Htry, Hdepth.
    + apply (expands_append _ _ _ _ d); [|by apply (expands_clean _ _ (nl ";)"))].
      apply (expands_append _ _ _ _ (d + N.of_nat 1)); [exact Ht|].
      apply expands_dedent_to; lia.
  - right. destruct Hbalanced as (k & [Hdepth [t Ht]] & Hk).
    destruct (printLinkingSection_after_throw context linkingSection st k Htry Hdepth Hk)
      as [_ Hprint].
    destruct (failedComment_expands spaces d Hd (linkingSectionString st) k t Hk Ht)
      as [t' Ht'].
    by exists (failedComment (linkingSectionString st) k), t'.
  - left. unfold printLinkingSection, linkingSection_tried. by rewrite Htry.
Qed.

(** When neither the bytes of a linking section nor the names that its
    decoder copies from the context hold the byte E0, the comment that
    [printLinkingSection] appends is balanced, whether the decoding throws or
    not: the loop of [expandIndentation] reads the comment from any depth [d]
    back to the depth [d], without failing its test of the depth. The other
    outcome is a read outside a vector or a shift by 32 or more. *)
Theorem printLinkingSection_balanced (spaces d : N) (context : ModulePrintContext)
    (linkingSection : UserSection) :
  d + 3 < Uptr_modulus →
  clean_linking_context context = true →
  clean_bytes (section_data linkingSection) = true →
  printLinkingSection context linkingSection = Undefined
  ∨ ∃ comment t,
      printLinkingSection context linkingSection = Ok (ctx_string context +:+ comment)
      ∧ expands spaces comment d d t.
Proof. apply printLinkingSection_expands. Qed.

Lemma printLinkingSection_balanced_witness :
  clean_linking_context example_module_context = true
  ∧ clean_bytes (section_data section_unknown_comdat_kind) = true
  ∧ (printLinkingSection example_module_context section_unknown_comdat_kind = Undefined
     ∨ ∃ comment t,
         printLinkingSection example_module_context section_unknown_comdat_kind
         = Ok (ctx_string example_module_context +:+ comment)
         ∧ expands 2 comment 1 1 t).
Proof.
  split; [reflexivity|]. split; [reflexivity|].
  apply (printLinkingSection_balanced 2 1 example_module_context section_unknown_comdat_kind);
    [vm_compute; reflexivity | reflexivity | reflexivity].
Defined.

Section ModuleIndentation.
Variable spaces : N.
Variable char_is_signed : bool.
Variable Floats_asString_F32 : N → string.
Variable Floats_asString_F64 : N → string.
Hypothesis Floats_F32_clean : ∀ f32, clean (Floats_asString_F32 f32) = true.
Hypothesis Floats_F64_clean : ∀ f64, clean (Floats_asString_F64 f64) = true.
Variable module : ModuleDefs.
Variable names : DisassemblyNames.
Hypothesis names_clean : clean_module_names names = true.

Abbreviation expanded0 := (expanded spaces "" 0).

Lemma names_clean_parts :
  forallb clean (names_types names) = true
  ∧ forallb clean_function_names (names_functions names) = true
  ∧ forallb clean (names_tables names) = true
  ∧ forallb clean (names_memories names) = true
  ∧ forallb clean (names_globals names) = true
  ∧ forallb clean (names_exceptionTypes names) = true.
Proof.
  pose proof names_clean as H. unfold clean_module_names in H.
  rewrite !andb_true_iff in H. tauto.
Qed.

Lemma function_names_clean (index : N) (function : FunctionNames) :
  vector_at (names_functions names) index = Ok function →
  clean (fn_name function) = true
  ∧ forallb clean (fn_locals function) = true
  ∧ forallb clean (fn_labels function) = true.
Proof.
  intros Hat. apply vector_at_elem in Hat.
  destruct names_clean_parts as (_ & Hfunctions & _).
  apply (forallb_elem _ _ _ Hfunctions) in Hat. unfold clean_function_names in Hat.
  rewrite !andb_true_iff in Hat. tauto.
Qed.

Lemma name_clean (kindNames : list string) (index : N) (name : string) :
  forallb clean kindNames = true → vector_at kindNames index = Ok name → clean name = true.
Proof. intros Hall Hat. apply vector_at_elem in Hat. by apply (forallb_elem _ _ _ Hall). Qed.

Lemma expanded_open (str tag : string) (d : N) :
  expanded0 str d → plain tag = true → d + 1 < Uptr_modulus →
  expanded0 (ScopedTagPrinter_open str tag) (d + 1).
Proof.
  intros Hstr Htag Hd. unfold ScopedTagPrinter_open.
  replace (str +:+ "(" +:+ tag +:+ INDENT_STRING) with ((str +:+ "(" +:+ tag) +:+ INDENT_STRING)
    by by rewrite !append_assoc.
  apply expanded_indent; [|done]. apply expanded_clean; [done|].
  by rewrite clean_append, (plain_clean tag).
Qed.

Lemma expanded_close (str : string) (d : N) :
  expanded0 str (d + 1) → d + 1 < Uptr_modulus →
  expanded0 (ScopedTagPrinter_close str) d.
Proof.
  intros Hstr Hd. unfold ScopedTagPrinter_close. rewrite <- append_assoc.
  apply expanded_clean; [|done]. by apply (expanded_dedent_to _ _ _ _ (d + 1)).
Qed.

Lemma expanded_plain (str s : string) (d : N) :
  expanded0 str d → plain s = true → expanded0 (str +:+ s) d.
Proof. intros Hstr Hs. apply expanded_clean; [done | by apply plain_clean]. Qed.

Lemma printInitializerExpression_expanded (str str' : string)
    (expression : InitializerExpression) (d : N) :
  expanded0 str d →
  printInitializerExpression Floats_asString_F32 Floats_asString_F64 names str expression
  = Ok str' →
  expanded0 str' d.
Proof.
  intros Hstr. destruct names_clean_parts as (_ & _ & _ & _ & Hglobals & _).
  destruct expression; cbn [printInitializerExpression]; try done.
  - intros [= <-]. apply expanded_clean; [done|].
    by rewrite !clean_append, (plain_clean _ (pretty_Z_plain i32)).
  - intros [= <-]. apply expanded_clean; [done|].
    by rewrite !clean_append, (plain_clean _ (pretty_Z_plain i64)).
  - intros [= <-]. apply expanded_clean; [done|].
    by rewrite !clean_append, Floats_F32_clean.
  - intros [= <-]. apply expanded_clean; [done|].
    by rewrite !clean_append, Floats_F64_clean.
  - destruct (vector_at _ globalIndex) as [name| | |] eqn:Hat; simpl; try done.
    intros [= <-]. apply expanded_clean; [done|].
    by rewrite !clean_append, (name_clean _ _ _ Hglobals Hat).
Qed.

Lemma printImport_expanded {T} (printType : string → T → Outcome string)
    (str str' : string) (import : ImportOf T) (importIndex : N) (name typeTag : string) :
  (∀ s s' type d, d + 1 < Uptr_modulus → expanded0 s d → printType s type = Ok s' →
                  expanded0 s' d) →
  expanded0 str 1 → clean name = true → clean typeTag = true →
  printImport char_is_signed printType str import importIndex name typeTag = Ok str' →
  expanded0 str' 1.
Proof.
  intros Htype Hstr Hname Htag. unfold printImport.
  destruct (printType _ _) as [str3| | |] eqn:Hprint; simpl; try done.
  intros [= <-]. apply (expanded_close _ 1); [|done].
  apply expanded_clean; [|done].
  apply (Htype _ _ _ 2) in Hprint; [done | done |].
  apply expanded_clean.
  - apply (expanded_open _ _ 1); [|done..]. by apply expanded_clean.
  - by rewrite !clean_append, !escapeString_clean, Hname, Htag.
Qed.

Lemma printImports_expanded {T} (printType : string → T → Outcome string)
    (kindNames : list string) (typeTag : string) (imports : list (ImportOf T)) :
  (∀ s s' type d, d + 1 < Uptr_modulus → expanded0 s d → printType s type = Ok s' →
                  expanded0 s' d) →
  forallb clean kindNames = true → clean typeTag = true →
  ∀ (importIndex : N) (str str' : string),
    expanded0 str 1 →
    printImports char_is_signed printType kindNames typeTag importIndex imports str = Ok str' →
    expanded0 str' 1.
Proof.
  intros Htype Hnames Htag.
  induction imports as [|import rest IH]; intros importIndex str str' Hstr.
  - simpl. by intros [= <-].
  - cbn [printImports].
    destruct (vector_at kindNames importIndex) as [name| | |] eqn:Hat; simpl; try done.
    destruct (printImport _ _ _ _ _ _ _) as [str1| | |] eqn:Himport; simpl; try done.
    apply printImport_expanded in Himport; try done.
    + by apply IH.
    + apply c_str_clean. by apply (name_clean _ _ _ Hnames Hat).
Qed.

Lemma printTypes_expanded (types : list FunctionSig) :
  ∀ (typeIndex : N) (str str' : string),
    expanded0 str 1 →
    printTypes names typeIndex types str = Ok str' →
    expanded0 str' 1.
Proof.
  destruct names_clean_parts as (Htypes & _).
  induction types as [|type rest IH]; intros typeIndex str str' Hstr.
  - simpl. by intros [= <-].
  - cbn [printTypes].
    destruct (vector_at _ typeIndex) as [name| | |] eqn:Hat; simpl; try done.
    apply IH. apply (expanded_close _ 1); [|done]. apply expanded_clean; [|done].
    apply expanded_signature; [|done]. apply expanded_clean.
    + apply (expanded_open _ _ 1); [|done..]. by apply expanded_clean.
    + by rewrite !clean_append, (name_clean _ _ _ Htypes Hat).
Qed.

Lemma printExports_expanded (exports : list Export) :
  ∀ (str str' : string),
    expanded0 str 1 →
    printExports char_is_signed names exports str = Ok str' →
    expanded0 str' 1.
Proof.
  destruct names_clean_parts as (Htypes & Hfunctions & Htables & Hmemories & Hglobals & Hexc).
  induction exports as [|export_ rest IH]; intros str str' Hstr.
  - simpl. by intros [= <-].
  - cbn [printExports]. unfold printExport.
    destruct (match export_kind export_ with IR.kind_function => _ | _ => _ end)
      as [text| | |] eqn:Htext; simpl; try done.
    apply IH. apply (expanded_close _ 1); [|done].
    assert (Hclean : clean text = true).
    { destruct (export_kind export_); try done;
        destruct (vector_at _ _) as [name| | |] eqn:Hat; simpl in Htext; try done;
        injection Htext as <-; rewrite clean_append; cbn [andb].
      - by destruct (function_names_clean _ _ Hat) as [? _].
      - by apply (name_clean _ _ _ Htables Hat).
      - by apply (name_clean _ _ _ Hmemories Hat).
      - by apply (name_clean _ _ _ Hglobals Hat).
      - by apply (name_clean _ _ _ Hexc Hat). }
    apply expanded_clean; [|by rewrite clean_append, Hclean].
    apply expanded_clean.
    + apply (expanded_open _ _ 1); [|done..]. by apply expanded_clean.
    + by rewrite !clean_append, escapeString_clean.
Qed.

Lemma printMemoryDefs_expanded (defs : list IR.MemoryType) :
  ∀ (defIndex : N) (str str' : string),
    expanded0 str 1 →
    printMemoryDefs module names defIndex defs str = Ok str' →
    expanded0 str' 1.
Proof.
  destruct names_clean_parts as (_ & _ & _ & Hmemories & _).
  induction defs as [|memoryDef rest IH]; intros defIndex str str' Hstr.
  - simpl. by intros [= <-].
  - cbn [printMemoryDefs].
    destruct (vector_at _ _) as [name| | |] eqn:Hat; simpl; try done.
    apply IH. apply (expanded_close _ 1); [|done].
    destruct (print_MemoryType_text
                (ScopedTagPrinter_open (str +:+ string_of_char char_newline) "memory"
                   +:+ " " +:+ name +:+ " ") memoryDef) as [-> Hplain].
    apply expanded_plain; [|done]. apply expanded_clean.
    + apply (expanded_open _ _ 1); [|done..]. by apply expanded_clean.
    + by rewrite !clean_append, (name_clean _ _ _ Hmemories Hat).
Qed.

Lemma printTableDefs_expanded (defs : list IR.TableType) :
  ∀ (defIndex : N) (str str' : string),
    expanded0 str 1 →
    printTableDefs module names defIndex defs str = Ok str' →
    expanded0 str' 1.
Proof.
  destruct names_clean_parts as (_ & _ & Htables & _).
  induction defs as [|tableDef rest IH]; intros defIndex str str' Hstr.
  - simpl. by intros [= <-].
  - cbn [printTableDefs].
    destruct (vector_at _ _) as [name| | |] eqn:Hat; simpl; try done.
    apply IH. apply (expanded_close _ 1); [|done].
    destruct (print_TableType_text
                (ScopedTagPrinter_open (str +:+ string_of_char char_newline) "table"
                   +:+ " " +:+ name +:+ " ") tableDef) as [-> Hplain].
    apply expanded_plain; [|done]. apply expanded_clean.
    + apply (expanded_open _ _ 1); [|done..]. by apply expanded_clean.
    + by rewrite !clean_append, (name_clean _ _ _ Htables Hat).
Qed.

Lemma printGlobalDefs_expanded (defs : list GlobalDef) :
  ∀ (defIndex : N) (str str' : string),
    expanded0 str 1 →
    printGlobalDefs Floats_asString_F32 Floats_asString_F64 module names defIndex defs str
    = Ok str' →
    expanded0 str' 1.
Proof.
  destruct names_clean_parts as (_ & _ & _ & _ & Hglobals & _).
  induction defs as [|globalDef rest IH]; intros defIndex str str' Hstr.
  - simpl. by intros [= <-].
  - cbn [printGlobalDefs].
    destruct (vector_at _ _) as [name| | |] eqn:Hat; simpl; try done.
    destruct (printInitializerExpression _ _ _ _ _) as [str3| | |] eqn:Hinit; simpl; try done.
    apply IH. apply (expanded_close _ 1); [|done].
    apply (printInitializerExpression_expanded _ _ _ 2) in Hinit; [done|].
    apply expanded_clean; [|done].
    destruct (print_GlobalType_text
                (ScopedTagPrinter_open (str +:+ string_of_char char_newline) "global"
                   +:+ " " +:+ name +:+ " ") (global_type globalDef)) as [-> Hplain].
    apply expanded_plain; [|done]. apply expanded_clean.
    + apply (expanded_open _ _ 1); [|done..]. by apply expanded_clean.
    + by rewrite !clean_append, (name_clean _ _ _ Hglobals Hat).
Qed.

Lemma printExceptionTypeDefs_expanded (defs : list (list IR.ValueType)) :
  ∀ (defIndex : N) (str str' : string),
    expanded0 str 1 →
    printExceptionTypeDefs module names defIndex defs str = Ok str' →
    expanded0 str' 1.
Proof.
  destruct names_clean_parts as (_ & _ & _ & _ & _ & Hexc).
  induction defs as [|exceptionTypeDef rest IH]; intros defIndex str str' Hstr.
  - simpl. by intros [= <-].
  - cbn [printExceptionTypeDefs].
    destruct (vector_at _ _) as [name| | |] eqn:Hat; simpl; try done.
    apply IH. apply (expanded_close _ 1); [|done].
    unfold print_ExceptionType. rewrite print_elems_text.
    apply expanded_plain; [|apply elemsText_plain]. apply expanded_clean.
    + apply (expanded_open _ _ 1); [|done..]. by apply expanded_clean.
    + by rewrite !clean_append, (name_clean _ _ _ Hexc Hat).
Qed.

Lemma printSegmentElements_expanded (indices : list N) :
  ∀ (elementIndex : N) (str str' : string) (d : N),
    expanded0 str d →
    printSegmentElements names elementIndex indices str = Ok str' →
    expanded0 str' d.
Proof.
  induction indices as [|index rest IH]; intros elementIndex str str' d Hstr.
  - simpl. by intros [= <-].
  - cbn [printSegmentElements].
    destruct (vector_at _ index) as [function| | |] eqn:Hat; simpl; try done.
    apply IH. destruct (function_names_clean _ _ Hat) as [Hname _].
    apply expanded_clean; [|done]. destruct (elementIndex mod 8 =? 0); by apply expanded_clean.
Qed.

Lemma printTableSegments_expanded (segments : list TableSegment) :
  ∀ (str str' : string),
    expanded0 str 1 →
    printTableSegments Floats_asString_F32 Floats_asString_F64 names segments str = Ok str' →
    expanded0 str' 1.
Proof.
  destruct names_clean_parts as (_ & _ & Htables & _).
  induction segments as [|tableSegment rest IH]; intros str str' Hstr.
  - simpl. by intros [= <-].
  - cbn [printTableSegments].
    destruct (vector_at _ _) as [name| | |] eqn:Hat; simpl; try done.
    destruct (printInitializerExpression _ _ _ _ _) as [str2| | |] eqn:Hinit; simpl; try done.
    destruct (printSegmentElements _ _ _ _) as [str3| | |] eqn:Helements; simpl; try done.
    apply IH. apply (expanded_close _ 1); [|done].
    apply (printSegmentElements_expanded _ _ _ _ 2) in Helements; [done|].
    apply (printInitializerExpression_expanded _ _ _ 2) in Hinit; [done|].
    apply expanded_clean.
    + apply (expanded_open _ _ 1); [|done..]. by apply expanded_clean.
    + by rewrite !clean_append, (name_clean _ _ _ Htables Hat).
Qed.

Lemma printDataSegments_expanded (segments : list DataSegment) :
  ∀ (str str' : string),
    expanded0 str 1 →
    printDataSegments char_is_signed Floats_asString_F32 Floats_asString_F64 names segments str
    = Ok str' →
    expanded0 str' 1.
Proof.
  destruct names_clean_parts as (_ & _ & _ & Hmemories & _).
  induction segments as [|dataSegment rest IH]; intros str str' Hstr.
  - simpl. by intros [= <-].
  - cbn [printDataSegments].
    destruct (vector_at _ _) as [name| | |] eqn:Hat; simpl; try done.
    destruct (printInitializerExpression _ _ _ _ _) as [str2| | |] eqn:Hinit; simpl; try done.
    apply IH. apply (expanded_close _ 1); [|done].
    edestruct (printSectionLines_clean char_is_signed (segment_data dataSegment))
      as (t & -> & Ht).
    apply expanded_clean; [|done].
    apply (printInitializerExpression_expanded _ _ _ 2) in Hinit; [done|].
    apply expanded_clean.
    + apply (expanded_open _ _ 1); [|done..]. by apply expanded_clean.
    + by rewrite !clean_append, (name_clean _ _ _ Hmemories Hat).
Qed.

Lemma printStart_expanded (str str' : string) :
  expanded0 str 1 →
  printStart module names str = Ok str' →
  expanded0 str' 1.
Proof.
  intros Hstr. unfold printStart.
  destruct (negb _); [|by intros [= <-]].
  destruct (vector_at _ _) as [function| | |] eqn:Hat; simpl; try done.
  intros [= <-]. destruct (function_names_clean _ _ Hat) as [Hname _].
  apply (expanded_close _ 1); [|done]. apply expanded_clean.
  - apply (expanded_open _ _ 1); [|done..]. by apply expanded_clean.
  - by rewrite !clean_append, Hname.
Qed.

Lemma printParams_expanded (localNames : list string) (params : list IR.ValueType) :
  forallb clean localNames = true →
  ∀ (parameterIndex : N) (str str' : string) (d : N),
    d + 1 < Uptr_modulus →
    expanded0 str d →
    printParams localNames parameterIndex params str = Ok str' →
    expanded0 str' d.
Proof.
  intros Hlocals.
  induction params as [|type rest IH]; intros parameterIndex str str' d Hd Hstr.
  - simpl. by intros [= <-].
  - cbn [printParams].
    destruct (vector_at _ _) as [name| | |] eqn:Hat; simpl; try done.
    apply IH; [done|]. apply expanded_close; [|done].
    unfold print_ValueType. apply expanded_plain; [|apply asString_plain].
    apply expanded_clean.
    + apply expanded_open; [|done..]. by apply expanded_clean.
    + by rewrite !clean_append, (name_clean _ _ _ Hlocals Hat).
Qed.

Lemma printLocals_expanded (localNames : list string) (numParams : N)
    (localTypes : list IR.ValueType) :
  forallb clean localNames = true →
  ∀ (localIndex : N) (str str' : string) (d : N),
    d + 1 < Uptr_modulus →
    expanded0 str d →
    printLocals localNames numParams localIndex localTypes str = Ok str' →
    expanded0 str' d.
Proof.
  intros Hlocals.
  induction localTypes as [|type rest IH]; intros localIndex str str' d Hd Hstr.
  - simpl. by intros [= <-].
  - cbn [printLocals].
    destruct (vector_at _ _) as [name| | |] eqn:Hat; simpl; try done.
    apply IH; [done|]. apply expanded_close; [|done].
    unfold print_ValueType. apply expanded_plain; [|apply asString_plain].
    apply expanded_clean.
    + apply expanded_open; [|done..]. by apply expanded_clean.
    + by rewrite !clean_append, (name_clean _ _ _ Hlocals Hat).
Qed.

Lemma expanded_further (str str' : string) (d d' : N) :
  expanded0 str d → expanded spaces str d str' d' → expanded0 str' d'.
Proof.
  intros (body & t & -> & Hbody) (body' & t' & -> & Hbody').
  exists (body +:+ body'), (t +:+ t'). split; [by rewrite append_assoc|].
  by apply (expands_append _ _ _ _ d).
Qed.

(** One function: the text goes on at most one level deeper for each frame
    that the body leaves open. *)
Lemma printFunctionDef_expanded (functionDefIndex : N) (functionDef : FunctionDef)
    (str str' : string) (d : N) :
  forallb clean_operator (def_code functionDef) = true →
  d + N.of_nat (length (def_code functionDef)) + 3 < Uptr_modulus →
  expanded0 str d →
  printFunctionDef module names functionDefIndex functionDef str = Ok str' →
  ∃ d', d ≤ d' ≤ d + N.of_nat (S (length (def_code functionDef))) ∧ expanded0 str' d'.
Proof.
  intros Hops Hd Hstr. unfold printFunctionDef.
  destruct names_clean_parts as (Htypes & Hfunctions & _ & _ & Hglobals & _).
  destruct (vector_at (m_types module) _) as [functionType| | |]; simpl; try done.
  destruct (vector_at (names_functions names) _) as [functionNames| | |] eqn:Hfunction;
    simpl; try done.
  destruct (function_names_clean _ _ Hfunction) as (Hname & Hlocals & Hlabels).
  destruct (vector_at (names_types names) _) as [typeName| | |] eqn:Htype; simpl; try done.
  destruct (printParams _ _ _ _) as [str3| | |] eqn:Hparams; simpl; try done.
  apply (printParams_expanded _ _ Hlocals _ _ _ (d + 1)) in Hparams; [|lia|].
  2:{ apply expanded_clean.
      - apply expanded_open; [|done|lia]. by apply expanded_clean.
      - by rewrite !clean_append, Hname, (name_clean _ _ _ Htypes Htype). }
  destruct (printLocals _ _ _ _ _) as [str5| | |] eqn:Hprint; simpl; try done.
  apply (printLocals_expanded _ _ _ Hlocals _ _ _ (d + 1)) in Hprint; [|lia|].
  2:{ destruct (sig_results functionType) as [|result results]; [done|].
      apply expanded_close; [|lia]. rewrite print_elems_text.
      apply expanded_plain; [|apply elemsText_plain].
      apply expanded_open; [|done|lia]. by apply expanded_clean. }
  destruct (FunctionBodyPrinter.printFunctionBody _ _) as [[functionContext' rest]| | |] eqn:Hbody;
    simpl; try done.
  apply (printFunctionBody_expanded spaces _ _ _ _ (d + 1)) in Hbody as [Hbody Hlen];
    [|try done; try lia..].
  - intros [= <-]. cbn in Hbody.
    exists (d + N.of_nat (length (controlStack functionContext'))). split; [lia|].
    apply expanded_close; [|lia].
    apply (expanded_further str5 _ (d + 1)); [done|].
    by replace (d + N.of_nat (length (controlStack functionContext')) + 1)
      with (d + 1 + N.of_nat (length (controlStack functionContext'))) by lia.
  - apply clean_context_spec. cbn. unfold clean_names. rewrite Htypes, Hglobals. cbn.
    repeat split; try done.
    rewrite andb_true_r. apply forallb_forall. intros function Hin.
    rewrite forallb_forall in Hfunctions. apply Hfunctions in Hin.
    unfold clean_function_names in Hin. rewrite !andb_true_iff in Hin. tauto.
Qed.

Lemma printFunctionDefs_expanded (defs : list FunctionDef) :
  Forall (λ functionDef, forallb clean_operator (def_code functionDef) = true) defs →
  ∀ (functionDefIndex : N) (str str' : string) (d : N),
    d + N.of_nat (codeSize defs) + 3 < Uptr_modulus →
    expanded0 str d →
    printFunctionDefs module names functionDefIndex defs str = Ok str' →
    ∃ d', d ≤ d' ≤ d + N.of_nat (codeSize defs) ∧ expanded0 str' d'.
Proof.
  induction defs as [|functionDef rest IH]; intros Hops functionDefIndex str str' d Hd Hstr.
  - simpl. intros [= <-]. exists d. split; [lia | done].
  - apply Forall_cons in Hops as [Hop Hops]. cbn [printFunctionDefs codeSize foldr] in *.
    fold (codeSize rest) in *.
    destruct (printFunctionDef _ _ _ _ _) as [str1| | |] eqn:Hdef; simpl; try done.
    apply (printFunctionDef_expanded _ _ _ _ d) in Hdef as (d1 & Hd1 & Hstr1);
      [|done|lia|done].
    intros Hrest. apply (IH Hops _ _ _ d1) in Hrest as (d' & Hd' & Hstr'); [|lia|done].
    exists d'. split; [lia | done].
Qed.

Lemma linking_context_clean (context : ModulePrintContext) (userSection : UserSection) :
  ctx_module context = linkingModule module → ctx_names context = names →
  section_name userSection = "linking" → clean_linking module userSection →
  clean_linking_context context = true ∧ clean_bytes (section_data userSection) = true.
Proof.
  intros Hmodule Hnames Hname Hclean.
  destruct (Hclean Hname) as (Hdata & Himports1 & Himports2 & Hsections).
  split; [|done]. unfold clean_linking_context. rewrite Hmodule, Hnames.
  destruct names_clean_parts as (_ & Hfunctions & _ & _ & Hglobals & _).
  rewrite Hglobals, Himports1, Himports2. cbn [linkingModule userSections].
  rewrite Hsections, !andb_true_r.
  apply forallb_forall. intros function Hin.
  rewrite forallb_forall in Hfunctions. apply Hfunctions in Hin.
  unfold clean_function_names in Hin. rewrite !andb_true_iff in Hin. tauto.
Qed.

Lemma printUserSections_expanded (sections : list UserSection) :
  Forall (clean_linking module) sections →
  ∀ (context context' : ModulePrintContext) (d : N),
    ctx_module context = linkingModule module → ctx_names context = names →
    d + 3 < Uptr_modulus →
    expanded0 (ctx_string context) d →
    printUserSections char_is_signed context sections = Ok context' →
    expanded0 (ctx_string context') d.
Proof.
  induction sections as [|userSection rest IH];
    intros Hsections context context' d Hmodule Hnames Hd Hstr.
  - simpl. by intros [= <-].
  - apply Forall_cons in Hsections as [Hsection Hsections]. cbn [printUserSections].
    destruct (printUserSection _ _ _) as [context1| | |] eqn:Hprint; simpl; try done.
    revert Hprint. unfold printUserSection.
    destruct (String.eqb (section_name userSection) "linking") eqn:Hname.
    + apply String.eqb_eq in Hname.
      destruct (linking_context_clean context userSection Hmodule Hnames Hname Hsection)
        as [Hcontext Hdata].
      destruct (printLinkingSection_expands spaces d context userSection Hd Hcontext Hdata)
        as [->|(comment & t & -> & Hcomment)]; [done|].
      simpl. intros [= <-]. apply IH; try done. cbn.
      apply (expanded_further (ctx_string context) _ d d); [done|]. by exists comment, t.
    + destruct (negb _); [|by intros [= <-]; apply IH].
      intros [= <-]. apply IH; try done. cbn.
      edestruct (printSectionLines_clean char_is_signed (section_data userSection))
        as (t & -> & Ht).
      apply expanded_clean; [|done]. apply expanded_clean; [|done].
      apply expanded_clean; [done|]. by rewrite !clean_append, escapeString_clean.
Qed.

(** The text of a module whose names hold no sentinel: the loop of
    [expandIndentation] reads all of it without a failure. *)
Lemma printModule_expanded (str : string) :
  plain_module module →
  printModule char_is_signed Floats_asString_F32 Floats_asString_F64 module names "" = Ok str →
  ∃ d, expanded0 str d.
Proof.
  intros (Hops & Hsize & Hsections). unfold printModule.
  destruct names_clean_parts as (Htypes & Hfunctions & Htables & Hmemories & Hglobals & Hexc).
  assert (Hstart : expanded0 (ScopedTagPrinter_open "" "module") 1).
  { apply (expanded_open _ _ 0); [|done..]. exists "", "". split; [done|]. apply expands_nil. }
  destruct (printTypes _ _ _ _) as [s1| | |] eqn:H1; simpl; try done.
  apply printTypes_expanded in H1; [|done].
  destruct (printImports _ (printImportType_function module) _ _ _ _ _) as [s2| | |] eqn:H2;
    simpl; try done.
  apply printImports_expanded in H2; try done.
  2:{ intros s s' type d Hd Hs. unfold printImportType_function.
      destruct (vector_at _ type); simpl; try done. intros [= <-].
      by apply expanded_signature. }
  2:{ apply forallb_forall. intros name Hin. apply in_map_iff in Hin as (function & <- & Hin).
      rewrite forallb_forall in Hfunctions. apply Hfunctions in Hin.
      unfold clean_function_names in Hin. rewrite !andb_true_iff in Hin. tauto. }
  destruct (printImports _ _ (names_tables names) _ _ _ _) as [s3| | |] eqn:H3;
    simpl; try done.
  apply printImports_expanded in H3; try done.
  2:{ intros s s' type d Hd Hs [= <-]. destruct (print_TableType_text s type) as [-> Hplain].
      by apply expanded_plain. }
  destruct (printImports _ _ (names_memories names) _ _ _ _) as [s4| | |] eqn:H4;
    simpl; try done.
  apply printImports_expanded in H4; try done.
  2:{ intros s s' type d Hd Hs [= <-]. destruct (print_MemoryType_text s type) as [-> Hplain].
      by apply expanded_plain. }
  destruct (printImports _ _ (names_globals names) _ _ _ _) as [s5| | |] eqn:H5;
    simpl; try done.
  apply printImports_expanded in H5; try done.
  2:{ intros s s' type d Hd Hs [= <-]. destruct (print_GlobalType_text s type) as [-> Hplain].
      by apply expanded_plain. }
  destruct (printImports _ _ (names_exceptionTypes names) _ _ _ _) as [s6| | |] eqn:H6;
    simpl; try done.
  apply printImports_expanded in H6; try done.
  2:{ intros s s' type d Hd Hs [= <-]. unfold print_ExceptionType. rewrite print_elems_text.
      apply expanded_plain; [done | apply elemsText_plain]. }
  destruct (printExports _ _ _ _) as [s7| | |] eqn:H7; simpl; try done.
  apply printExports_expanded in H7; [|done].
  destruct (printMemoryDefs _ _ _ _ _) as [s8| | |] eqn:H8; simpl; try done.
  apply printMemoryDefs_expanded in H8; [|done].
  destruct (printTableDefs _ _ _ _ _) as [s9| | |] eqn:H9; simpl; try done.
  apply printTableDefs_expanded in H9; [|done].
  destruct (printGlobalDefs _ _ _ _ _ _ _) as [s10| | |] eqn:H10; simpl; try done.
  apply printGlobalDefs_expanded in H10; [|done].
  destruct (printExceptionTypeDefs _ _ _ _ _) as [s11| | |] eqn:H11; simpl; try done.
  apply printExceptionTypeDefs_expanded in H11; [|done].
  destruct (printTableSegments _ _ _ _ _) as [s12| | |] eqn:H12; simpl; try done.
  apply printTableSegments_expanded in H12; [|done].
  destruct (printDataSegments _ _ _ _ _ _) as [s13| | |] eqn:H13; simpl; try done.
  apply printDataSegments_expanded in H13; [|done].
  destruct (printStart _ _ _) as [s14| | |] eqn:H14; simpl; try done.
  apply printStart_expanded in H14; [|done].
  destruct (printFunctionDefs _ _ _ _ _) as [s15| | |] eqn:H15; simpl; try done.
  apply (printFunctionDefs_expanded _ Hops _ _ _ 1) in H15 as (d & Hd & Hs15); [|lia|done].
  destruct (printUserSections _ _ _) as [context| | |] eqn:H16; simpl; try done.
  apply (printUserSections_expanded _ Hsections _ _ d) in H16; [|done|done|lia|done].
  intros [= <-]. exists (d - 1). apply expanded_close; [|lia].
  by replace (d - 1 + 1) with d by lia.
Qed.

End ModuleIndentation.

(** The names that the constructor of [ModulePrintContext] assigns hold no
    sentinel when the names it is given hold none. *)
Lemma NameScope_map_all_clean (kindNames : list string) :
  ∀ (scope : NameScope) (assigned : list string) (scope' : NameScope),
    clean (string_of_char (sigil scope)) = true →
    forallb clean kindNames = true →
    NameScope_map_all scope kindNames = Ok (assigned, scope') →
    forallb clean assigned = true ∧ sigil scope' = sigil scope.
Proof.
  induction kindNames as [|name rest IH]; intros scope assigned scope' Hsigil Hnames.
  - simpl. by intros [= <- <-].
  - cbn [NameScope_map_all forallb] in *. apply andb_true_iff in Hnames as [Hname Hrest].
    destruct (NameScope_map scope name) as [[name' scope1]| | |] eqn:Hmap; simpl; try done.
    apply NameScope_map_clean in Hmap as [Hname' Hsigil1]; try done.
    destruct (NameScope_map_all scope1 rest) as [[rest' scope2]| | |] eqn:Hall; simpl; try done.
    apply IH in Hall as [Hrest' Hsigil2]; [|by rewrite Hsigil1|done].
    intros [= <- <-]. cbn [forallb]. rewrite Hname', Hrest'. split; [done | congruence].
Qed.

Lemma mapFunctionNames_clean (functions : list FunctionNames) :
  ∀ (scope : NameScope) (functions' : list FunctionNames) (scope' : NameScope),
    clean (string_of_char (sigil scope)) = true →
    forallb clean_function_names functions = true →
    mapFunctionNames scope functions = Ok (functions', scope') →
    forallb clean_function_names functions' = true.
Proof.
  induction functions as [|function rest IH]; intros scope functions' scope' Hsigil Hnames.
  - simpl. by intros [= <- <-].
  - cbn [mapFunctionNames forallb] in *. apply andb_true_iff in Hnames as [Hfunction Hrest].
    unfold clean_function_names in Hfunction. rewrite !andb_true_iff in Hfunction.
    destruct Hfunction as [[Hname Hlocals] Hlabels].
    destruct (NameScope_map scope (fn_name function)) as [[name' scope1]| | |] eqn:Hmap;
      simpl; try done.
    apply NameScope_map_clean in Hmap as [Hname' Hsigil1]; try done.
    destruct (NameScope_map_all _ (fn_locals function)) as [[locals' scope2]| | |] eqn:Hall;
      simpl; try done.
    apply NameScope_map_all_clean in Hall as [Hlocals' _]; try done.
    destruct (mapFunctionNames scope1 rest) as [[rest' scope3]| | |] eqn:Hmore;
      simpl; try done.
    apply IH in Hmore; [|by rewrite Hsigil1|done].
    intros [= <- <-]. cbn [forallb]. rewrite Hmore, andb_true_r.
    unfold clean_function_names. cbn [fn_name fn_locals fn_labels].
    by rewrite Hname', Hlocals', Hlabels.
Qed.

Lemma mapDisassemblyNames_clean (names names' : DisassemblyNames) :
  clean_module_names names = true →
  mapDisassemblyNames names = Ok names' →
  clean_module_names names' = true.
Proof.
  unfold clean_module_names. rewrite !andb_true_iff.
  intros (((((Htypes & Hfunctions) & Htables) & Hmemories) & Hglobals) & Hexc).
  unfold mapDisassemblyNames.
  destruct (NameScope_map_all _ (names_types names)) as [[types s1]| | |] eqn:H1;
    simpl; try done.
  apply NameScope_map_all_clean in H1 as [H1 Hs1]; try done.
  destruct (NameScope_map_all s1 (names_tables names)) as [[tables s2]| | |] eqn:H2;
    simpl; try done.
  apply NameScope_map_all_clean in H2 as [H2 Hs2]; [|by rewrite Hs1|done].
  destruct (NameScope_map_all s2 (names_memories names)) as [[memories s3]| | |] eqn:H3;
    simpl; try done.
  apply NameScope_map_all_clean in H3 as [H3 Hs3]; [|by rewrite Hs2, Hs1|done].
  destruct (NameScope_map_all s3 (names_globals names)) as [[globals s4]| | |] eqn:H4;
    simpl; try done.
  apply NameScope_map_all_clean in H4 as [H4 Hs4]; [|by rewrite Hs3, Hs2, Hs1|done].
  destruct (mapFunctionNames s4 (names_functions names)) as [[functions s5]| | |] eqn:H5;
    simpl; try done.
  apply mapFunctionNames_clean in H5; [|by rewrite Hs4, Hs3, Hs2, Hs1|done].
  intros [= <-]. cbn [names_types names_functions names_tables names_memories names_globals
                       names_exceptionTypes].
  by rewrite H1, H2, H3, H4, H5, Hexc.
Qed.

(** [WAST::print] returns when the constructor of the context and
    [printModule] complete: for a module with names and operator texts that
    hold no byte E0, with fewer operators than there are depths, and with
    linking sections, if any, in which neither the bytes nor the names of
    imports and sections that their comment copies hold the byte E0, the
    sentinels in the text of [printModule] never take the depth below zero, so
    [errorUnless] in [expandIndentation] does not fail, for any number of
    spaces per level. *)
Theorem WAST_print_returns (char_is_signed : bool)
    (Floats_asString_F32 Floats_asString_F64 : N → string) (module : ModuleDefs)
    (disassemblyNames : DisassemblyNames) (context : ModulePrintContext) (str : string) :
  (∀ f32, clean (Floats_asString_F32 f32) = true) →
  (∀ f64, clean (Floats_asString_F64 f64) = true) →
  clean_module_names disassemblyNames = true →
  plain_module module →
  ModulePrintContext_new (linkingModule module) "" disassemblyNames = Ok context →
  printModule char_is_signed Floats_asString_F32 Floats_asString_F64 module
    (ctx_names context) (ctx_string context) = Ok str →
  (∃ t, WAST_print char_is_signed Floats_asString_F32 Floats_asString_F64 module
          disassemblyNames = Ok t)
  ∧ ∀ spaces, ∃ t, expandIndentation str spaces = Ok t.
Proof.
  intros Hf32 Hf64 Hnames Hmodule Hcontext Hprint.
  assert (Hstring : ctx_string context = "" ∧ clean_module_names (ctx_names context) = true).
  { revert Hcontext. unfold ModulePrintContext_new.
    destruct (mapDisassemblyNames disassemblyNames) as [names'| | |] eqn:Hmap; simpl; try done.
    intros [= <-]. split; [done|]. by apply (mapDisassemblyNames_clean disassemblyNames). }
  destruct Hstring as [Hstring Hclean]. rewrite Hstring in Hprint.
  assert (Hexpand : ∀ spaces, ∃ t, expandIndentation str spaces = Ok t).
  { intros spaces.
    destruct (printModule_expanded spaces char_is_signed Floats_asString_F32
                Floats_asString_F64 Hf32 Hf64 module (ctx_names context) Hclean str
                Hmodule Hprint) as (d & body & t & -> & Hbody).
    exists t. by apply (expands_all _ _ d). }
  split; [|done]. unfold WAST_print. rewrite Hcontext. simpl. rewrite Hstring, Hprint. simpl.
  apply Hexpand.
Qed.

Lemma WAST_print_returns_witness :
  let context :=
    match ModulePrintContext_new (linkingModule example_module) "" example_disassemblyNames with
    | Ok context => context
    | _ => example_module_context
    end in
  let str :=
    match printModule true (λ _, "nan") (λ _, "nan") example_module (ctx_names context)
            (ctx_string context) with
    | Ok str => str
    | _ => ""
    end in
  names_functions (ctx_names context)
  = [mkFunctionNames "$f" [] []; mkFunctionNames "$g" ["$a"; "$b"; "$c"] ["L"]]
  ∧ (∃ t, WAST_print true (λ _, "nan") (λ _, "nan") example_module example_disassemblyNames
          = Ok t)
  ∧ ∀ spaces, ∃ t, expandIndentation str spaces = Ok t.
Proof.
  intros context str. split; [vm_compute; reflexivity|].
  apply (WAST_print_returns true (λ _, "nan") (λ _, "nan") example_module
           example_disassemblyNames context str).
  - intros f32. reflexivity.
  - intros f64. reflexivity.
  - reflexivity.
  - split; [constructor; [reflexivity | constructor]|].
    split; [vm_compute; reflexivity|].
    constructor; [discriminate|]. constructor; [|constructor].
    intros _. repeat split; reflexivity.
  - vm_compute. reflexivity.
  - vm_compute. reflexivity.
Defined.
